(** * Procedural dungeon generation

    A shallow embedding of the generation core of the dungeon crawler and
    the proofs of its specification: room placement by rejection sampling,
    Bowyer-Watson triangulation of the room centres, Prim's spanning tree,
    loop augmentation and the corridor router.  The grid, the placement, the
    augmenter and the router are in
    [app/components/dungeon-generation/dungeon.tsx]; the triangulation and
    [primMST] are the [delaunay] module that [dungeon.tsx] imports, whose text
    is the second part of [app/layout.tsx] (lines 30-275).

    Conventions.
    - Grid coordinates and room sizes are integers ([Z]); array indices that
      the source uses as positions in [points], [rooms] or [inMST] are [nat].
    - [Math.random()] is an explicit stream [RNG] of rationals read through a
      counter that every consumer advances.
    - An operation that would raise a [TypeError] in the source (reading a
      property of [undefined]) returns [None], and so does a loop that would
      never end.
    - A JavaScript [number] that is not known to be an integer (the
      coordinates of a [Point], a distance) is an IEEE 754 binary64 value:
      the primitive type [float], whose operations are the processor's, with
      overflow to [infinity], rounding to nearest and [nan].
    - The definitions come first, then the vocabulary of the specification,
      the lemmas by component, and the theorems of the claims at the end. *)

From Stdlib Require Import ZArith QArith Qabs Qround Reals Qreals Lia Lqa Lra List Bool Permutation.
From Stdlib Require Import Floats.
From stdpp Require Import base list numbers relations.
Import ListNotations.
#[local] Open Scope Z_scope.
#[local] Set Warnings "-inexact-float".

(** ** Configuration constants (dungeon.tsx, lines 5-16) *)

Record Size := mkSize { width : Z; height : Z }.

Definition MIN_ROOM_SIZE : Size := mkSize 3 3.
Definition MAX_ROOM_SIZE : Size := mkSize 7 7.
Definition DUNGEON_SIZE : Size := mkSize 30 30.
Definition MAX_ROOMS : Z := 7.
Definition EXTRA_EDGE_CHANCE : Q := 3 # 10.
Definition ROOM_SEPARATION : Z := 5.
Definition ROOM_CORRIDOR_GAP : Z := 2.
Definition CORRIDOR_CORRIDOR_GAP : Z := 1.
Definition MAX_ALLOWED_CONNECTIONS : Z := 2.

(** ** Grid and room model *)

Inductive CellTypeEnum : Type := room | corridor | empty.

Definition CellType_eqb (a b : CellTypeEnum) : bool :=
  match a, b with
  | room, room | corridor, corridor | empty, empty => true
  | _, _ => false
  end.

Record Cell := mkCell { cell_x : Z; cell_y : Z; cell_type : CellTypeEnum }.

(** A grid position [{x, y}] as the router passes it around. *)
Abbreviation Pos := (Z * Z)%type.

Record Room := mkRoom {
  room_x : Z;
  room_y : Z;
  room_width : Z;
  room_height : Z;
  center : Pos
}.

Abbreviation Grid := (list (list Cell)).

Definition createEmptyDungeon (w h : Z) : Grid :=
  map (fun y => map (fun x => mkCell x y empty) (seqZ 0 w)) (seqZ 0 h).

(** [cells[y][x]]; [None] stands for [undefined]. *)
Definition cellAt (cells : Grid) (x y : Z) : option Cell :=
  if (0 <=? x) && (0 <=? y)
  then match cells !! Z.to_nat y with
       | Some row => row !! Z.to_nat x
       | None => None
       end
  else None.

(** [cells.length] and [cells[0]?.length ?? 0]. *)
Definition gridRows (cells : Grid) : Z := Z.of_nat (length cells).
Definition gridCols (cells : Grid) : Z :=
  match cells with
  | [] => 0
  | row :: _ => Z.of_nat (length row)
  end.

(** [cells[y][x].type === t].  Every caller reads inside bounds it has
    checked, where a rectangular grid has a cell; a missing cell compares
    unequal to every type. *)
Definition typeIs (t : CellTypeEnum) (cells : Grid) (x y : Z) : bool :=
  match cellAt cells x y with
  | Some c => CellType_eqb (cell_type c) t
  | None => false
  end.

(** The cells of the rectangle [x .. x+w-1] by [y .. y+h-1], rows outermost,
    in the order of the source's nested [for] loops. *)
Definition rectCells (x y w h : Z) : list Pos :=
  flat_map (fun j => map (fun i => (i, j)) (seqZ x w)) (seqZ y h).

Definition isAreaEmpty (cells : Grid) (x y w h : Z) : bool :=
  let maxY := gridRows cells in
  let maxX := gridCols cells in
  let startY := Z.max 0 y in
  let startX := Z.max 0 x in
  let endY := Z.min maxY (y + h) in
  let endX := Z.min maxX (x + w) in
  forallb (fun p => typeIs empty cells (fst p) (snd p))
          (rectCells startX startY (endX - startX) (endY - startY)).

Definition setType (t : CellTypeEnum) (c : Cell) : Cell :=
  mkCell (cell_x c) (cell_y c) t.

(** [cells[y][x].type = t] on a cell that exists. *)
Definition alterType (t : CellTypeEnum) (cells : Grid) (p : Pos) : Grid :=
  alter (alter (setType t) (Z.to_nat (fst p))) (Z.to_nat (snd p)) cells.

(** [cells[y][x].type = t] without a guard: raises when the cell does not
    exist. *)
Definition writeType (t : CellTypeEnum) (cells : Grid) (p : Pos) : option Grid :=
  match cellAt cells (fst p) (snd p) with
  | Some _ => Some (alterType t cells p)
  | None => None
  end.

(** The same write at each position of a list in turn; the first failing
    write aborts. *)
Definition writeAll (t : CellTypeEnum) (cells : Grid) (ps : list Pos) : option Grid :=
  fold_left (fun acc p => match acc with
                          | Some cs => writeType t cs p
                          | None => None
                          end)
            ps (Some cells).

Definition placeRoom (cells : Grid) (r : Room) : option Grid :=
  writeAll room cells
           (rectCells (room_x r) (room_y r) (room_width r) (room_height r)).

(** ** Room placement (createDungeon, lines 83-118) *)

Definition RNG : Type := nat -> Q.

(** [Math.floor(Math.random() * k)] on the [n]-th draw. *)
Definition randomBelow (rng : RNG) (n : nat) (k : Z) : Z :=
  Qfloor (rng n * inject_Z k).

Record PlaceState := mkPlaceState {
  ps_cells : Grid;
  ps_rooms : list Room;
  ps_attempts : Z;
  ps_draws : nat
}.

(** The rectangle handed to [isAreaEmpty] for a room at [(roomX, roomY)]. *)
Definition checkRect (roomX roomY innerWidth innerHeight : Z) : Z * Z * Z * Z :=
  let separation := ROOM_SEPARATION in
  (roomX - separation, roomY - separation,
   innerWidth + separation * 2, innerHeight + separation * 2).

(** The four draws of an attempt and the room they describe.  The centre is
    [Math.floor(roomX + innerWidth / 2)]: on integers, [roomX] plus the
    integer half of [innerWidth]. *)
Definition drawRoom (rng : RNG) (n : nat) : Room :=
  let innerWidth :=
    randomBelow rng n (width MAX_ROOM_SIZE - width MIN_ROOM_SIZE + 1)
    + width MIN_ROOM_SIZE in
  let innerHeight :=
    randomBelow rng (n + 1) (height MAX_ROOM_SIZE - height MIN_ROOM_SIZE + 1)
    + height MIN_ROOM_SIZE in
  let roomX := randomBelow rng (n + 2) (width DUNGEON_SIZE - innerWidth) in
  let roomY := randomBelow rng (n + 3) (height DUNGEON_SIZE - innerHeight) in
  mkRoom roomX roomY innerWidth innerHeight
         (roomX + innerWidth / 2, roomY + innerHeight / 2).

(** One iteration of the [while] loop body. *)
Definition placeAttempt (rng : RNG) (st : PlaceState) : option PlaceState :=
  let newRoom := drawRoom rng (ps_draws st) in
  let '(checkX, checkY, checkW, checkH) :=
    checkRect (room_x newRoom) (room_y newRoom)
              (room_width newRoom) (room_height newRoom) in
  if isAreaEmpty (ps_cells st) checkX checkY checkW checkH
  then match placeRoom (ps_cells st) newRoom with
       | Some cells' =>
           Some (mkPlaceState cells' (ps_rooms st ++ [newRoom])
                              (ps_attempts st + 1) (ps_draws st + 4))
       | None => None
       end
  else Some (mkPlaceState (ps_cells st) (ps_rooms st)
                          (ps_attempts st + 1) (ps_draws st + 4)).

Definition placeGuard (st : PlaceState) : bool :=
  (Z.of_nat (length (ps_rooms st)) <? MAX_ROOMS)
  && (ps_attempts st <? MAX_ROOMS * 8).

(** The [while] loop.  [attempts] grows by one per iteration and the guard
    stops at [MAX_ROOMS * 8], so [k] iterations are all the loop can make when
    it is entered with [attempts = MAX_ROOMS * 8 - k]. *)
Fixpoint placeLoop (k : nat) (rng : RNG) (st : PlaceState) : option PlaceState :=
  match k with
  | O => Some st
  | S k' =>
      if placeGuard st
      then match placeAttempt rng st with
           | Some st' => placeLoop k' rng st'
           | None => None
           end
      else Some st
  end.

Definition placeRooms (rng : RNG) : option PlaceState :=
  placeLoop (Z.to_nat (MAX_ROOMS * 8)) rng
            (mkPlaceState
               (createEmptyDungeon (width DUNGEON_SIZE) (height DUNGEON_SIZE))
               [] 0 0%nat).

(** ** Graph types (delaunay module, layout.tsx lines 30-151) *)

Record Point := mkPoint { px : float; py : float }.
Record Edge := mkEdge { ea : nat; eb : nat }.
Record Triangle := mkTriangle { ta : nat; tb : nat; tc : nat }.
Record Graph := mkGraph {
  points : list Point;
  edges : list Edge;
  triangles : option (list Triangle)
}.

Definition origin : Point := mkPoint 0 0.

(** [pts[i]] for an index that the source never takes out of range. *)
Definition pointAt (pts : list Point) (i : nat) : Point := nth i pts origin.

(** The [number] an integer is: the double nearest to it, which is the
    integer itself up to [2^53] in magnitude. *)
Definition ofZ (z : Z) : float := SF2Prim (binary_normalize prec emax z 0 false).

Definition Qltb (a b : Q) : bool := if Qlt_le_dec a b then true else false.

(** The string [`${min},${max}`], as the ordered pair it spells. *)
Definition edgeKey (a b : nat) : nat * nat :=
  if (a <? b)%nat then (a, b) else (b, a).

Definition key_eqb (k1 k2 : nat * nat) : bool :=
  (fst k1 =? fst k2)%nat && (snd k1 =? snd k2)%nat.

(** A [Map<string, Edge>]: bindings in insertion order. *)
Definition EdgeMap : Type := list ((nat * nat) * Edge).

Definition mapHas (k : nat * nat) (m : EdgeMap) : bool :=
  existsb (fun kv => key_eqb (fst kv) k) m.

Definition mapDelete (k : nat * nat) (m : EdgeMap) : EdgeMap :=
  List.filter (fun kv => negb (key_eqb (fst kv) k)) m.

Definition mapValues (m : EdgeMap) : list Edge := map snd m.

(** The circumcircle test (lines 44-64), operation for operation; a decimal
    literal denotes the double nearest to it. *)
Definition circumcircleContains (pA pB pC p : Point) : bool :=
  let d := (2 * (px pA * (py pB - py pC) + px pB * (py pC - py pA)
                 + px pC * (py pA - py pB)))%float in
  if (abs d <? 1e-12)%float then false
  else
    let ux := (((px pA * px pA + py pA * py pA) * (py pB - py pC)
                + (px pB * px pB + py pB * py pB) * (py pC - py pA)
                + (px pC * px pC + py pC * py pC) * (py pA - py pB)) / d)%float in
    let uy := (((px pA * px pA + py pA * py pA) * (px pC - px pB)
                + (px pB * px pB + py pB * py pB) * (px pA - px pC)
                + (px pC * px pC + py pC * py pC) * (px pB - px pA)) / d)%float in
    let dx := (ux - px p)%float in
    let dy := (uy - py p)%float in
    let r2 := ((ux - px pA) * (ux - px pA) + (uy - py pA) * (uy - py pA))%float in
    let dist2 := (dx * dx + dy * dy)%float in
    (dist2 <=? r2 + 1e-8)%float.

Definition triangleEdges (t : Triangle) : list Edge :=
  [mkEdge (ta t) (tb t); mkEdge (tb t) (tc t); mkEdge (tc t) (ta t)].

(** An edge seen twice cancels, an edge seen once stays. *)
Definition toggleEdge (m : EdgeMap) (e : Edge) : EdgeMap :=
  let key := edgeKey (ea e) (eb e) in
  if mapHas key m then mapDelete key m else m ++ [(key, e)].

(** An edge is kept the first time its key is seen. *)
Definition addEdgeOnce (m : EdgeMap) (e : Edge) : EdgeMap :=
  let key := edgeKey (ea e) (eb e) in
  if mapHas key m then m else m ++ [(key, e)].

Definition boundingBox (p0 : Point) (pts : list Point)
  : float * float * float * float :=
  fold_left
    (fun '(minX, minY, maxX, maxY) p =>
       let minX := if (px p <? minX)%float then px p else minX in
       let minY := if (py p <? minY)%float then py p else minY in
       let maxX := if (maxX <? px p)%float then px p else maxX in
       let maxY := if (maxY <? py p)%float then py p else maxY in
       (minX, minY, maxX, maxY))
    pts (px p0, py p0, px p0, py p0).

(** [Math.max] of two numbers: [NaN] when either is, and [+0] above [-0]. *)
Definition Math_max (a b : float) : float :=
  if is_nan a || is_nan b then nan
  else if (a <? b)%float then b
  else if (b <? a)%float then a
  else if get_sign a then b else a.

Definition superTriangle (p0 : Point) (pts : list Point) : list Point :=
  let '(minX, minY, maxX, maxY) := boundingBox p0 pts in
  let dx := (maxX - minX)%float in
  let dy := (maxY - minY)%float in
  let dmax := Math_max dx dy in
  let midx := ((minX + maxX) / 2)%float in
  let midy := ((minY + maxY) / 2)%float in
  [ mkPoint (midx - 20 * dmax) (midy - dmax);
    mkPoint midx (midy + 20 * dmax);
    mkPoint (midx + 20 * dmax) (midy - dmax) ].

Section Triangulation.

(** The in-circle test is a parameter of the insertion loop: the loop only
    branches on its answer. *)
Variable inCircle : Point -> Point -> Point -> Point -> bool.

Definition isBad (pts : list Point) (point : Point) (t : Triangle) : bool :=
  inCircle (pointAt pts (ta t)) (pointAt pts (tb t)) (pointAt pts (tc t)) point.

(** One iteration of the insertion loop (lines 96-127).  [bad] holds the
    very objects of [triangles] that pass the test, so removing the members
    of [bad] is removing the triangles that pass it. *)
Definition insertPoint (pts : list Point) (tris : list Triangle) (i : nat)
  : list Triangle :=
  let point := pointAt pts i in
  let bad := List.filter (isBad pts point) tris in
  let edgeMap := fold_left toggleEdge (flat_map triangleEdges bad) [] in
  List.filter (fun t => negb (isBad pts point t)) tris
  ++ map (fun e => mkTriangle (ea e) (eb e) i) (mapValues edgeMap).

Definition createGraphFromPointsBy (pnts : list Point) : Graph :=
  match pnts with
  | [] => mkGraph [] [] None
  | p0 :: _ =>
      let n := length pnts in
      let pts := pnts ++ superTriangle p0 pnts in
      let superAIdx := (length pts - 3)%nat in
      let superBIdx := (length pts - 2)%nat in
      let superCIdx := (length pts - 1)%nat in
      let tris :=
        fold_left (insertPoint pts) (seq 0 n)
                  [mkTriangle superAIdx superBIdx superCIdx] in
      let kept :=
        List.filter (fun t => (ta t <? n)%nat && (tb t <? n)%nat && (tc t <? n)%nat)
                    tris in
      let edgeSet := fold_left addEdgeOnce (flat_map triangleEdges kept) [] in
      mkGraph pnts (mapValues edgeSet) (Some kept)
  end.

End Triangulation.

Definition createGraphFromPoints : list Point -> Graph :=
  createGraphFromPointsBy circumcircleContains.

(** ** Prim's spanning tree (primMST, layout.tsx lines 218-275) *)

(** [dist(a, b)] (lines 229-233).  [None] is the [TypeError] of reading [.x]
    of a point that is not there; [Math.sqrt] is the IEEE 754 square root. *)
Definition dist (pts : list Point) (a b : nat) : option float :=
  match pts !! a, pts !! b with
  | Some pa, Some pb =>
      let dx := (px pa - px pb)%float in
      let dy := (py pa - py pb)%float in
      Some (PrimFloat.sqrt (dx * dx + dy * dy))
  | _, _ => None
  end.

(** [inMST[i]], where a missing entry reads as falsy. *)
Definition inTree (inMST : list bool) (i : nat) : bool := nth i inMST false.

Definition crossing (inMST : list bool) (e : Edge) : bool :=
  let aIn := inTree inMST (ea e) in
  let bIn := inTree inMST (eb e) in
  (aIn && negb bIn) || (negb aIn && bIn).

(** The two variables of an iteration, [bestEdge] and [bestWeight], which
    start at [null] and [Infinity]. *)
Record Best := mkBest { bestEdge : option Edge; bestWeight : float }.

Definition noBest : Best := mkBest None infinity.

(** The body of the scan (lines 239-249); [None] is a [TypeError] raised by
    [dist] in this or an earlier iteration. *)
Definition scanStep (pts : list Point) (inMST : list bool) (best : option Best)
           (e : Edge) : option Best :=
  match best with
  | None => None
  | Some b =>
      if crossing inMST e
      then match dist pts (ea e) (eb e) with
           | None => None
           | Some w =>
               Some (if (w <? bestWeight b)%float then mkBest (Some e) w else b)
           end
      else Some b
  end.

Definition scanEdges (pts : list Point) (inMST : list bool) (es : list Edge)
  : option Best :=
  fold_left (scanStep pts inMST) es (Some noBest).

(** The index pairs in the order of the two nested fallback loops. *)
Definition indexPairs (n : nat) : list (nat * nat) :=
  flat_map (fun i => map (fun j => (i, j)) (seq 0 n)) (seq 0 n).

(** The fallback (lines 251-267) over the pairs still to visit: a pair of a
    tree point and an outside point whose distance is below [bestWeight]
    sets [found], which stops both loops.  The outer [None] is a
    [TypeError], the inner one a search that found no pair. *)
Fixpoint firstPair (pts : list Point) (inMST : list bool) (bestWeight : float)
         (pairs : list (nat * nat)) : option (option Edge) :=
  match pairs with
  | [] => Some None
  | (i, j) :: rest =>
      if inTree inMST i && negb (inTree inMST j)
      then match dist pts i j with
           | None => None
           | Some w =>
               if (w <? bestWeight)%float then Some (Some (mkEdge i j))
               else firstPair pts inMST bestWeight rest
           end
      else firstPair pts inMST bestWeight rest
  end.

Definition fallbackEdge (pts : list Point) (inMST : list bool) (n : nat)
           (bestWeight : float) : option (option Edge) :=
  firstPair pts inMST bestWeight (indexPairs n).

(** The edge one iteration of the [while] loop pushes: [Some None] is the
    [break] of line 266. *)
Definition nextEdge (pts : list Point) (es : list Edge) (inMST : list bool) (n : nat)
  : option (option Edge) :=
  match scanEdges pts inMST es with
  | None => None
  | Some b =>
      match bestEdge b with
      | Some e => Some (Some e)
      | None => fallbackEdge pts inMST n (bestWeight b)
      end
  end.

Definition markEdge (inMST : list bool) (e : Edge) : list bool :=
  <[eb e := true]> (<[ea e := true]> inMST).

(** The [while (mstEdges.length < n - 1)] loop: each iteration that does not
    [break] pushes one edge, so [k] counts the edges still missing. *)
Fixpoint primLoop (k : nat) (pts : list Point) (es : list Edge) (n : nat)
         (inMST : list bool) (mstEdges : list Edge) : option (list Edge) :=
  match k with
  | O => Some mstEdges
  | S k' =>
      match nextEdge pts es inMST n with
      | None => None
      | Some None => Some mstEdges
      | Some (Some e) => primLoop k' pts es n (markEdge inMST e) (mstEdges ++ [e])
      end
  end.

(** [None] is a [TypeError]: a candidate edge with one end in the tree and
    the other end not among the points. *)
Definition primMST (graph : Graph) : option Graph :=
  let pts := points graph in
  let n := length pts in
  match pts with
  | [] => Some (mkGraph [] [] None)
  | [p0] => Some (mkGraph [p0] [] None)
  | _ =>
      match primLoop (n - 1) pts (edges graph) n
                     (<[0%nat := true]> (replicate n false)) [] with
      | Some mstEdges => Some (mkGraph pts mstEdges None)
      | None => None
      end
  end.

(** ** Loop augmenter (createDungeon, lines 127-164) *)

Definition keyEdge (a b : nat) : nat * nat :=
  if (a <? b)%nat then (a, b) else (b, a).

Record AugState := mkAugState {
  finalEdges : list Edge;
  adjacency : list Z;
  aug_draws : nat
}.

(** [adjacency[i]++] and [adjacency[i]]. *)
Definition bump (adj : list Z) (i : nat) : list Z := alter Z.succ i adj.
Definition degreeOf (adj : list Z) (i : nat) : Z := nth i adj 0.

Definition countEdge (adj : list Z) (e : Edge) : list Z :=
  bump (bump adj (ea e)) (eb e).

Definition initialAdjacency (n : nat) (mstEdges : list Edge) : list Z :=
  fold_left countEdge mstEdges (replicate n 0).

(** The body of the loop over [roomGraph.edges]; the random number is drawn
    only for an edge that is not in the tree. *)
Definition augmentStep (rng : RNG) (mstSet : list (nat * nat)) (st : AugState)
           (e : Edge) : AugState :=
  let k := keyEdge (ea e) (eb e) in
  if existsb (key_eqb k) mstSet then st
  else
    let drawn := mkAugState (finalEdges st) (adjacency st) (aug_draws st + 1) in
    if Qltb EXTRA_EDGE_CHANCE (rng (aug_draws st)) then drawn
    else
      let degA := degreeOf (adjacency st) (ea e) in
      let degB := degreeOf (adjacency st) (eb e) in
      if degA >? MAX_ALLOWED_CONNECTIONS then drawn
      else if degB >? MAX_ALLOWED_CONNECTIONS then drawn
      else mkAugState (finalEdges st ++ [e])
                      (countEdge (adjacency st) e)
                      (aug_draws st + 1).

Definition augment (rng : RNG) (draws n : nat) (mstEdges graphEdges : list Edge)
  : AugState :=
  let mstSet := map (fun e => keyEdge (ea e) (eb e)) mstEdges in
  fold_left (augmentStep rng mstSet) graphEdges
            (mkAugState mstEdges (initialAdjacency n mstEdges) draws).

(** The degree of point [i] in an edge list: the number of edge ends at [i]. *)
Definition edgeEnds (e : Edge) (i : nat) : Z :=
  (if (ea e =? i)%nat then 1 else 0) + (if (eb e =? i)%nat then 1 else 0).

Definition degreeIn (es : list Edge) (i : nat) : Z :=
  fold_right (fun e acc => edgeEnds e i + acc) 0 es.

(** ** Corridor router (createDungeon, lines 167-435) *)

Definition inRoom (r : Room) (x y : Z) : bool :=
  (room_x r <=? x) && (x <? room_x r + room_width r)
  && (room_y r <=? y) && (y <? room_y r + room_height r).

(** Chebyshev distance from a cell to a room rectangle ([distToRoom]). *)
Definition distToRect (r : Room) (qx qy : Z) : Z :=
  let rx1 := room_x r in
  let ry1 := room_y r in
  let rx2 := room_x r + room_width r - 1 in
  let ry2 := room_y r + room_height r - 1 in
  let dx := if qx <? rx1 then rx1 - qx else if qx >? rx2 then qx - rx2 else 0 in
  let dy := if qy <? ry1 then ry1 - qy else if qy >? ry2 then qy - ry2 else 0 in
  Z.max dx dy.

Definition clamp (v lo hi : Z) : Z :=
  if v <? lo then lo else if v >? hi then hi else v.

Definition sign (d : Z) : Z :=
  if d =? 0 then 0 else if d >? 0 then 1 else -1.

Definition pos_eqb (p q : Pos) : bool :=
  (fst p =? fst q) && (snd p =? snd q).

(** The [while (x !== x1 || y !== y1)] loop of [lineCells]: each coordinate
    moves by one toward its target until it is reached, which takes
    [max |x1 - x0| |y1 - y0|] iterations. *)
Fixpoint lineWalk (n : nat) (x y x1 y1 dx dy : Z) : list Pos :=
  match n with
  | O => []
  | S n' =>
      let x' := if x =? x1 then x else x + dx in
      let y' := if y =? y1 then y else y + dy in
      (x', y') :: lineWalk n' x' y' x1 y1 dx dy
  end.

Definition lineCells (x0 y0 x1 y1 : Z) : list Pos :=
  let dx := if x1 =? x0 then 0 else if x1 >? x0 then 1 else -1 in
  let dy := if y1 =? y0 then 0 else if y1 >? y0 then 1 else -1 in
  (x0, y0)
  :: lineWalk (Z.to_nat (Z.max (Z.abs (x1 - x0)) (Z.abs (y1 - y0))))
              x0 y0 x1 y1 dx dy.

Fixpoint polylineToCells (pointsArr : list Pos) : list Pos :=
  match pointsArr with
  | a :: (b :: _) as rest =>
      (if pos_eqb a b then []
       else lineCells (fst a) (snd a) (fst b) (snd b))
      ++ polylineToCells rest
  | _ => []
  end.

Definition poly_eqb (p q : list Pos) : bool :=
  (length p =? length q)%nat
  && forallb (fun ab => pos_eqb (fst ab) (snd ab)) (combine p q).

(** The [seen] set of [candidatePolylines]: a polyline is kept the first time
    its key is seen. *)
Fixpoint dedupe (seen polys : list (list Pos)) : list (list Pos) :=
  match polys with
  | [] => []
  | p :: ps =>
      if existsb (poly_eqb p) seen then dedupe seen ps
      else p :: dedupe (p :: seen) ps
  end.

(** The outcome of the walk out of a room: the first cell outside it, the
    walk left the grid, or the loop never ends. *)
Inductive Walk : Type := Found (p : Pos) | OffGrid | Spins.

Section Router.

(** The values the closures of [createDungeon] capture. *)
Variable rooms : list Room.
Variables cols rows : Z.

Definition inGrid (x y : Z) : bool :=
  (0 <=? x) && (x <? cols) && (0 <=? y) && (y <? rows).

Fixpoint roomIndexFrom (i : Z) (rs : list Room) (x y : Z) : Z :=
  match rs with
  | [] => -1
  | r :: rs' => if inRoom r x y then i else roomIndexFrom (i + 1) rs' x y
  end.

Definition roomIndexAt (x y : Z) : Z := roomIndexFrom 0 rooms x y.

(** The walk of [exitCellFromCenter].  Only the primary coordinate moves;
    when its step is not zero the walk leaves the grid within
    [cols + rows] iterations, so [Spins] is reached only by a walk that
    stands still inside its room. *)
Fixpoint exitWalk (fuel : nat) (roomIdx : nat) (primaryX : bool)
         (stepX stepY x y : Z) : Walk :=
  match fuel with
  | O => Spins
  | S fuel' =>
      if inGrid x y
      then if negb (roomIndexAt x y =? Z.of_nat roomIdx) then Found (x, y)
           else if primaryX
                then exitWalk fuel' roomIdx primaryX stepX stepY (x + stepX) y
                else exitWalk fuel' roomIdx primaryX stepX stepY x (y + stepY)
      else OffGrid
  end.

Definition walkFuel : nat := S (Z.to_nat cols + Z.to_nat rows).

Definition exitCellFromCenter (roomIdx : nat) (target : Pos) : option Pos :=
  match rooms !! roomIdx with
  | None => None
  | Some r =>
      let cx := fst (center r) in
      let cy := snd (center r) in
      let dx := fst target - cx in
      let dy := snd target - cy in
      let stepX := sign dx in
      let stepY := sign dy in
      let primaryX := Z.abs dy <=? Z.abs dx in
      match exitWalk walkFuel roomIdx primaryX stepX stepY cx cy with
      | Found p => Some p
      | Spins => None
      | OffGrid =>
          match find (fun p => inGrid (fst p) (snd p)
                               && (roomIndexAt (fst p) (snd p) =? -1))
                     (rectCells (room_x r - 1) (room_y r - 1)
                                (room_width r + 2) (room_height r + 2)) with
          | Some p => Some p
          | None => Some (cx, cy)
          end
      end
  end.

Definition cellTooCloseToRooms (p : Pos) (srcRoom dstRoom : nat)
           (start end_ : Pos) : bool :=
  let isStart := pos_eqb p start in
  let isEnd := pos_eqb p end_ in
  existsb (fun ir =>
             (distToRect (snd ir) (fst p) (snd p) <? ROOM_CORRIDOR_GAP)
             && negb (((fst ir =? srcRoom)%nat && isStart)
                      || ((fst ir =? dstRoom)%nat && isEnd)))
          (combine (seq 0 (length rooms)) rooms).

Definition neighbourOffsets : list Pos :=
  flat_map (fun dy => map (fun dx => (dx, dy)) [-1; 0; 1]) [-1; 0; 1].

Definition corridorTooCloseToOthers (cells : Grid) (p : Pos) : bool :=
  if negb (inGrid (fst p) (snd p)) then true
  else if typeIs corridor cells (fst p) (snd p) then false
  else
    existsb (fun d =>
               let nx := fst p + fst d in
               let ny := snd p + snd d in
               negb ((fst d =? 0) && (snd d =? 0))
               && inGrid nx ny
               && typeIs corridor cells nx ny
               && (Z.max (Z.abs (fst d)) (Z.abs (snd d)) <=? CORRIDOR_CORRIDOR_GAP))
            neighbourOffsets.

(** The number of cells of the window at [(sx, sy)] that are [c] itself or
    already a corridor. *)
Definition windowCount (cells : Grid) (c : Pos) (sx sy : Z) : Z :=
  fold_left
    (fun cnt q =>
       if pos_eqb q c then cnt + 1
       else if typeIs corridor cells (fst q) (snd q) then cnt + 1 else cnt)
    (rectCells sx sy 2 2) 0.

Definition createsCorridorSquare (cells : Grid) (path : list Pos) : bool :=
  existsb (fun c =>
             existsb (fun o =>
                        let sx := fst c + fst o in
                        let sy := snd c + snd o in
                        if (sx <? 0) || (sy <? 0) || (sx + 1 >=? cols) || (sy + 1 >=? rows)
                        then false
                        else windowCount cells c sx sy >=? 3)
                     (rectCells (-1) (-1) 2 2))
          path.

Definition carveCell (cells : Grid) (p : Pos) : Grid :=
  if negb (inGrid (fst p) (snd p)) then cells
  else if typeIs room cells (fst p) (snd p) then cells
  else alterType corridor cells p.

Definition carveCells (cells : Grid) (path : list Pos) : Grid :=
  fold_left carveCell path cells.

Definition candidatePolylines (s e : Pos) : list (list Pos) :=
  let direct :=
    if (fst s =? fst e) || (snd s =? snd e) then [[s; e]] else [] in
  let ells := [[s; (fst e, snd s); e]; [s; (fst s, snd e); e]] in
  let midX := (fst s + fst e) / 2 in
  let midY := (snd s + snd e) / 2 in
  let viaX :=
    map (fun off => let qx := clamp (midX + off) 0 (cols - 1) in
                    [s; (qx, snd s); (qx, snd e); e])
        (seqZ (-2) 5) in
  let viaY :=
    map (fun off => let qy := clamp (midY + off) 0 (rows - 1) in
                    [s; (fst s, qy); (fst e, qy); e])
        (seqZ (-2) 5) in
  List.filter (fun p => (length p <=? 4)%nat)
              (dedupe [] (direct ++ ells ++ viaX ++ viaY)).

(** The four per-cell checks of the validation loop. *)
Definition cellInvalid (cells : Grid) (aIdx bIdx : nat) (start end_ : Pos)
           (p : Pos) : bool :=
  negb (inGrid (fst p) (snd p))
  || negb (roomIndexAt (fst p) (snd p) =? -1)
  || cellTooCloseToRooms p aIdx bIdx start end_
  || corridorTooCloseToOthers cells p.

Definition pathAccepted (cells : Grid) (aIdx bIdx : nat) (start end_ : Pos)
           (cellsPath : list Pos) : bool :=
  negb (existsb (cellInvalid cells aIdx bIdx start end_) cellsPath)
  && negb (createsCorridorSquare cells cellsPath).

(** [points[i]]: the centre of room [i]. *)
Definition centerOf (i : nat) : option Pos := center <$> rooms !! i.

Definition carveCorridorBetween (cells : Grid) (aIdx bIdx : nat)
  : option (Grid * bool) :=
  match centerOf aIdx, centerOf bIdx with
  | Some aCenter, Some bCenter =>
      match exitCellFromCenter aIdx bCenter with
      | None => None
      | Some start =>
          match exitCellFromCenter bIdx aCenter with
          | None => None
          | Some end_ =>
              match find (fun poly =>
                            pathAccepted cells aIdx bIdx start end_
                                         (polylineToCells poly))
                         (candidatePolylines start end_) with
              | Some poly => Some (carveCells cells (polylineToCells poly), true)
              | None => Some (cells, false)
              end
          end
      end
  | _, _ => None
  end.

(** The loop over [finalEdges]; the boolean each call returns is dropped. *)
Definition carveEdge (acc : option Grid) (e : Edge) : option Grid :=
  match acc with
  | Some cells => fst <$> carveCorridorBetween cells (ea e) (eb e)
  | None => None
  end.

Definition carveAll (cells : Grid) (es : list Edge) : option Grid :=
  fold_left carveEdge es (Some cells).

End Router.

(** ** The generator *)

Record Dungeon := mkDungeon {
  d_cells : Grid;
  d_rooms : list Room;
  roomGraph : Graph
}.

Definition centerPoint (r : Room) : Point :=
  mkPoint (ofZ (fst (center r))) (ofZ (snd (center r))).

Definition createDungeon (rng : RNG) : option Dungeon :=
  match placeRooms rng with
  | None => None
  | Some st =>
      let cells := ps_cells st in
      let rooms := ps_rooms st in
      let pnts := map centerPoint rooms in
      let graph := createGraphFromPoints pnts in
      match primMST graph with
      | None => None
      | Some mst =>
          let aug :=
            augment rng (ps_draws st) (length pnts) (edges mst) (edges graph) in
          match carveAll rooms (gridCols cells) (gridRows cells) cells
                         (finalEdges aug) with
          | Some cells' => Some (mkDungeon cells' rooms graph)
          | None => None
          end
      end
  end.

(** ** Vocabulary: doubles *)

(** A finite double is an integer multiple of [2^-1074], the least positive
    double: [units] is that integer and [valueOf] the rational the double
    stands for.  [isFinite] excludes [infinity], [-infinity] and [nan], on
    which [units] is 0. *)
Definition unitsSF (f : spec_float) : Z :=
  match f with
  | S754_finite s m e => (if s then -1 else 1) * (Zpos m * 2 ^ (e + 1074))
  | _ => 0
  end.

Definition finiteSF (f : spec_float) : bool :=
  match f with
  | S754_zero _ | S754_finite _ _ _ => true
  | _ => false
  end.

Definition units (x : float) : Z := unitsSF (Prim2SF x).
Definition isFinite (x : float) : bool := finiteSF (Prim2SF x).
Definition valueOf (x : float) : Q := units x # (2 ^ 1074).

(** ** Vocabulary: grids and rooms *)

(** The type stored at a grid position, when the position exists. *)
Definition typeAt (cells : Grid) (x y : Z) : option CellTypeEnum :=
  cell_type <$> cellAt cells x y.

(** A grid of [rows] rows that all have [cols] cells. *)
Definition rectGrid (cols rows : Z) (cells : Grid) : Prop :=
  gridRows cells = rows /\ Forall (fun row => Z.of_nat (length row) = cols) cells.

(** [Math.random()] returns a number in [[0, 1)]. *)
Definition unitRNG (rng : RNG) : Prop :=
  forall n, (0 <= rng n)%Q /\ (rng n < 1)%Q.

Definition roomInGrid (r : Room) : Prop :=
  0 <= room_x r /\ 0 <= room_y r
  /\ room_x r + room_width r <= width DUNGEON_SIZE
  /\ room_y r + room_height r <= height DUNGEON_SIZE.

Definition chebyshev (p q : Pos) : Z :=
  Z.max (Z.abs (fst p - fst q)) (Z.abs (snd p - snd q)).

(** At least [gap] columns or [gap] rows lie between the two rectangles. *)
Definition apart (gap : Z) (r1 r2 : Room) : Prop :=
  room_x r1 + room_width r1 + gap <= room_x r2
  \/ room_x r2 + room_width r2 + gap <= room_x r1
  \/ room_y r1 + room_height r1 + gap <= room_y r2
  \/ room_y r2 + room_height r2 + gap <= room_y r1.

(** What [drawRoom] guarantees of a room. *)
Definition roomShape (r : Room) : Prop :=
  0 <= room_x r /\ 0 <= room_y r
  /\ room_x r + room_width r < width DUNGEON_SIZE
  /\ room_y r + room_height r < height DUNGEON_SIZE
  /\ width MIN_ROOM_SIZE <= room_width r <= width MAX_ROOM_SIZE
  /\ height MIN_ROOM_SIZE <= room_height r <= height MAX_ROOM_SIZE
  /\ center r = (room_x r + room_width r / 2, room_y r + room_height r / 2).

(** Rooms at different positions of the list are [gap] apart. *)
Definition pairwiseApart (gap : Z) (rooms : list Room) : Prop :=
  forall i j r1 r2, i <> j -> rooms !! i = Some r1 -> rooms !! j = Some r2 ->
                    apart gap r1 r2.

(** The grid shows exactly the rooms of the list: a cell inside a listed room
    is a room cell, and no other cell is. *)
Definition roomsDrawn (rooms : list Room) (cells : Grid) : Prop :=
  forall x y t, typeAt cells x y = Some t ->
                (t = room <-> exists r, In r rooms /\ inRoom r x y = true).

(** The invariant of the placement loop. *)
Record PlaceInv (st : PlaceState) : Prop := mkPlaceInv {
  pi_rect : rectGrid (width DUNGEON_SIZE) (height DUNGEON_SIZE) (ps_cells st);
  pi_shape : Forall roomShape (ps_rooms st);
  pi_drawn : roomsDrawn (ps_rooms st) (ps_cells st);
  pi_nocorridor : forall x y, typeAt (ps_cells st) x y <> Some corridor;
  pi_apart : pairwiseApart ROOM_SEPARATION (ps_rooms st);
  pi_attempts : 0 <= ps_attempts st
}.

(** ** Vocabulary: carving and corridors *)

(** The type a cell of type [t] at [(x, y)] has after [carveCells] ran over
    [path]. *)
Definition carvedType (cols rows : Z) (path : list Pos) (x y : Z)
           (t : CellTypeEnum) : CellTypeEnum :=
  match t with
  | room => room
  | _ => if existsb (pos_eqb (x, y)) path && inGrid cols rows x y
         then corridor else t
  end.

(** The two operations of the generator that write to the grid. *)
Inductive genStep : Grid -> Grid -> Prop :=
| step_placeRoom (cells cells' : Grid) (r : Room) :
    placeRoom cells r = Some cells' -> genStep cells cells'
| step_carveCells (cols rows : Z) (cells : Grid) (path : list Pos) :
    genStep cells (carveCells cols rows cells path).

(** [x] lies between [a] and [b], whichever is the smaller. *)
Definition between (a b x : Z) : Prop := Z.min a b <= x <= Z.max a b.

(** The cell lies in the bounding box of the segment from [u] to [v]. *)
Definition inBox (u v c : Pos) : Prop :=
  between (fst u) (fst v) (fst c) /\ between (snd u) (snd v) (snd c).

(** A filled 2x2 block of corridor cells with top-left corner [(x, y)]. *)
Definition corridorBlockAt (cells : Grid) (x y : Z) : Prop :=
  typeAt cells x y = Some corridor
  /\ typeAt cells (x + 1) y = Some corridor
  /\ typeAt cells x (y + 1) = Some corridor
  /\ typeAt cells (x + 1) (y + 1) = Some corridor.

Definition noCorridorBlock (cells : Grid) : Prop :=
  forall x y, ~ corridorBlockAt cells x y.

(** What the router relies on and maintains from one edge to the next. *)
Record RouterInv (rooms : list Room) (cells : Grid) : Prop := mkRouterInv {
  ri_rect : rectGrid (width DUNGEON_SIZE) (height DUNGEON_SIZE) cells;
  ri_shape : Forall roomShape rooms;
  ri_apart : pairwiseApart ROOM_SEPARATION rooms;
  ri_drawn : roomsDrawn rooms cells;
  ri_noblock : noCorridorBlock cells
}.

(** Every candidate runs along a row from [s], then a column, then a row to
    [e], or along a column, a row and a column; the turning column or row is
    at most two away from the midpoint. *)
Inductive candidateShape (cols rows : Z) (s e : Pos) : list Pos -> Prop :=
| shape_direct : fst s = fst e \/ snd s = snd e -> candidateShape cols rows s e [s; e]
| shape_ell_x : candidateShape cols rows s e [s; (fst e, snd s); e]
| shape_ell_y : candidateShape cols rows s e [s; (fst s, snd e); e]
| shape_via_x (off : Z) :
    -2 <= off <= 2 ->
    candidateShape cols rows s e
      [s; (clamp ((fst s + fst e) / 2 + off) 0 (cols - 1), snd s);
          (clamp ((fst s + fst e) / 2 + off) 0 (cols - 1), snd e); e]
| shape_via_y (off : Z) :
    -2 <= off <= 2 ->
    candidateShape cols rows s e
      [s; (fst s, clamp ((snd s + snd e) / 2 + off) 0 (rows - 1));
          (fst e, clamp ((snd s + snd e) / 2 + off) 0 (rows - 1)); e].

(** A path that leaves [s] along its row, turns into column [t] and leaves
    it along the row of [e]; and the same with rows and columns exchanged. *)
Definition columnTurn (s e : Pos) (t : Z) (q : Pos) : Prop :=
  inBox s (t, snd s) q \/ inBox (t, snd s) (t, snd e) q \/ inBox (t, snd e) e q.

Definition rowTurn (s e : Pos) (t : Z) (q : Pos) : Prop :=
  inBox s (fst s, t) q \/ inBox (fst s, t) (fst e, t) q \/ inBox (fst e, t) e q.

(** ** Vocabulary: triangulation *)

(** The number of corners of a triangle, and of ends of an edge, that are
    vertices of the super-triangle when the input has [n] points. *)
Definition superCorners (n : nat) (t : Triangle) : nat :=
  (if (n <=? ta t)%nat then 1 else 0)
  + (if (n <=? tb t)%nat then 1 else 0)
  + (if (n <=? tc t)%nat then 1 else 0).

Definition superEnds (n : nat) (e : Edge) : nat :=
  (if (n <=? ea e)%nat then 1 else 0) + (if (n <=? eb e)%nat then 1 else 0).

(** An edge between two different points among the first [n]. *)
Definition properEdge (n : nat) (e : Edge) : Prop :=
  (ea e < n)%nat /\ (eb e < n)%nat /\ ea e <> eb e.

(** A triangle of the triangulation while point [i] is being inserted: its
    corners differ, and each is an earlier input point or a vertex of the
    super-triangle. *)
Definition properTriangle (n i : nat) (t : Triangle) : Prop :=
  ta t <> tb t /\ tb t <> tc t /\ tc t <> ta t
  /\ (forall v, v = ta t \/ v = tb t \/ v = tc t ->
                (v < i)%nat \/ (n <= v < n + 3)%nat).

(** ** Vocabulary: the augmenter *)

(** The edge list the router is run on, as [createDungeon] builds it. *)
Definition acceptedEdges (rng : RNG) : option (list Edge) :=
  match placeRooms rng with
  | None => None
  | Some st =>
      let pnts := map centerPoint (ps_rooms st) in
      let graph := createGraphFromPoints pnts in
      match primMST graph with
      | None => None
      | Some mst =>
          Some (finalEdges
                  (augment rng (ps_draws st) (length pnts) (edges mst) (edges graph)))
      end
  end.

(** The draw of the augmenter passes: it is not above [EXTRA_EDGE_CHANCE]. *)
Definition drawPasses (rng : RNG) (st : AugState) : bool :=
  negb (Qltb EXTRA_EDGE_CHANCE (rng (aug_draws st))).

Definition underCap (st : AugState) (e : Edge) : bool :=
  (degreeOf (adjacency st) (ea e) <=? MAX_ALLOWED_CONNECTIONS)
  && (degreeOf (adjacency st) (eb e) <=? MAX_ALLOWED_CONNECTIONS).

(** The invariant of the augmenter's loop: the counters are the degrees in
    the list built so far, and a degree above [MAX_ALLOWED_CONNECTIONS + 1]
    can only come from the tree. *)
Definition AugInv (n : nat) (mstEdges : list Edge) (st : AugState) : Prop :=
  length (adjacency st) = n
  /\ (exists extra, finalEdges st = mstEdges ++ extra)
  /\ (forall j, (j < n)%nat -> degreeOf (adjacency st) j = degreeIn (finalEdges st) j)
  /\ (forall j, (j < n)%nat ->
                degreeIn (finalEdges st) j
                <= Z.max (degreeIn mstEdges j) (MAX_ALLOWED_CONNECTIONS + 1)).

(** ** Vocabulary: the run of the generator *)

(** The placement loop makes at most [MAX_ROOMS * 8] iterations, from the
    empty grid. *)
Definition placementSteps : nat := Z.to_nat (MAX_ROOMS * 8).

Definition initialPlaceState : PlaceState :=
  mkPlaceState (createEmptyDungeon (width DUNGEON_SIZE) (height DUNGEON_SIZE))
               [] 0 0%nat.

(** The grid of a run after [t] loop iterations: the iterations of the
    placement loop first ([placeLoop] stops at the number it is given, or
    earlier when the loop ends), then those of the loop over the accepted
    edges, which [carveAll] makes on the first edges of the list.  From the
    last iteration on the grid is the one the run returns. *)
Definition gridAfter (rng : RNG) (t : nat) : option Grid :=
  if (t <=? placementSteps)%nat
  then ps_cells <$> placeLoop t rng initialPlaceState
  else match placeRooms rng, acceptedEdges rng with
       | Some st, Some es =>
           carveAll (ps_rooms st) (gridCols (ps_cells st)) (gridRows (ps_cells st))
                    (ps_cells st) (take (t - placementSteps) es)
       | _, _ => None
       end.

(** ** Vocabulary: spanning trees *)

(** [u] and [v] are the two ends of an edge of the list. *)
Definition adjacent (es : list Edge) (u v : nat) : Prop :=
  In (mkEdge u v) es \/ In (mkEdge v u) es.

(** [v] can be reached from [u] along edges of the list, in either
    direction. *)
Inductive connected (es : list Edge) (u : nat) : nat -> Prop :=
| connected_refl : connected es u u
| connected_step (v w : nat) :
    connected es u v -> adjacent es v w -> connected es u w.

(** The same, through points outside the set [S] only. *)
Inductive connectedOut (es : list Edge) (S : nat -> bool) (u : nat) : nat -> Prop :=
| connectedOut_refl : S u = false -> connectedOut es S u u
| connectedOut_step (v w : nat) :
    connectedOut es S u v -> adjacent es v w -> S w = false ->
    connectedOut es S u w.

Definition validEdges (n : nat) (es : list Edge) : Prop :=
  Forall (fun e => (ea e < n)%nat /\ (eb e < n)%nat) es.

Definition connectedGraph (n : nat) (es : list Edge) : Prop :=
  forall v, (v < n)%nat -> connected es 0%nat v.

(** A spanning tree of the [n] points made of candidate edges: [n - 1] of
    them that connect every point. *)
Definition spanningTree (n : nat) (es T : list Edge) : Prop :=
  incl T es /\ length T = (n - 1)%nat /\ connectedGraph n T.

(** The length [dist] computes for an edge, as the rational that double is
    (0 where [dist] raises or does not return a finite number). *)
Definition computedLength (pts : list Point) (e : Edge) : Q :=
  match dist pts (ea e) (eb e) with
  | Some w => valueOf w
  | None => 0
  end.

Definition computedTotal (pts : list Point) (T : list Edge) : Q :=
  fold_right (fun e acc => (computedLength pts e + acc)%Q) 0%Q T.

(** [dist] returns a finite number for every edge of the list: no end is
    missing and nothing overflows. *)
Definition finiteLengths (pts : list Point) (es : list Edge) : Prop :=
  Forall (fun e => exists w, dist pts (ea e) (eb e) = Some w /\ isFinite w = true) es.

(** [dist(i, j) < Infinity] for all of the first [n] points, the test of the
    fallback. *)
Definition distancesBelowInfinity (pts : list Point) (n : nat) : Prop :=
  forall i j, (i < n)%nat -> (j < n)%nat ->
              exists w, dist pts i j = Some w /\ (w <? infinity)%float = true.

(** The exact Euclidean length of an edge between points with finite
    coordinates, and of a list of edges: no rounding, a real number. *)
Definition exactDist2 (pts : list Point) (e : Edge) : Q :=
  let dx := (valueOf (px (pointAt pts (ea e))) - valueOf (px (pointAt pts (eb e))))%Q in
  let dy := (valueOf (py (pointAt pts (ea e))) - valueOf (py (pointAt pts (eb e))))%Q in
  (dx * dx + dy * dy)%Q.

Definition edgeLength (pts : list Point) (e : Edge) : R :=
  R_sqrt.sqrt (Q2R (exactDist2 pts e)).

Definition totalOf (wt : Edge -> R) (T : list Edge) : R :=
  fold_right (fun e acc => (wt e + acc)%R) 0%R T.

Definition totalLength (pts : list Point) (T : list Edge) : R :=
  totalOf (edgeLength pts) T.

(** Rounding does not reverse the order of two candidate edges: an edge
    computed no longer than another is no longer than it. *)
Definition roundingKeepsOrder (pts : list Point) (es : list Edge) : Prop :=
  forall e e', In e es -> In e' es ->
               (computedLength pts e <= computedLength pts e')%Q ->
               (exactDist2 pts e <= exactDist2 pts e')%Q.

(** [inMST] after the edges of [F] were added to the tree that starts at
    point 0. *)
Definition treeAfter (n : nat) (F : list Edge) : list bool :=
  fold_left markEdge F (<[0%nat := true]> (replicate n false)).

(** The choice Prim's loop makes in the tree [inMST]: the first edge, in the
    order of the candidate list, among the crossing edges of least computed
    length. *)
Definition primChoice (pts : list Point) (es : list Edge) (inMST : list bool)
           (e : Edge) : Prop :=
  exists c1 c2,
    es = c1 ++ e :: c2
    /\ crossing inMST e = true
    /\ (forall e', In e' c1 -> crossing inMST e' = true ->
                   (computedLength pts e < computedLength pts e')%Q)
    /\ (forall e', In e' c2 -> crossing inMST e' = true ->
                   (computedLength pts e <= computedLength pts e')%Q).

Definition countTrue (l : list bool) : nat := length (List.filter (fun b => b) l).

(** The invariant of Prim's loop. *)
Record PrimInv (n : nat) (es : list Edge) (inMST : list bool) (F : list Edge)
  : Prop := mkPrimInv {
  pr_tree : inMST = treeAfter n F;
  pr_length : length inMST = n;
  pr_root : inTree inMST 0 = true;
  pr_inside : forall e, In e F ->
                        inTree inMST (ea e) = true /\ inTree inMST (eb e) = true;
  pr_connected : forall v, inTree inMST v = true -> connected F 0%nat v;
  pr_count : countTrue inMST = S (length F);
  pr_incl : incl F es;
  pr_nodup : List.NoDup F
}.

(** An edge for every index pair the fallback of [primMST] can return. *)
Definition allPairs (n : nat) : list Edge :=
  map (fun ij => mkEdge (fst ij) (snd ij)) (indexPairs n).


(** ** Sample inputs *)

(** A random stream that always returns 0, and a scrambled one. *)
Definition zeroRNG : RNG := fun _ => 0%Q.
Definition sampleRNG : RNG :=
  fun n => ((Z.of_nat n * 7919 + 13) mod 101) # 101.

(** A random stream under which the augmenter adds a third corridor to a
    room. *)
Definition crowdedRNG : RNG :=
  fun n => ((Z.of_nat n * 7919 + 726) mod 101) # 101.

Definition emptyDungeon : Dungeon := mkDungeon [] [] (mkGraph [] [] None).

Definition sampleState : PlaceState :=
  match placeRooms sampleRNG with
  | Some st => st
  | None => mkPlaceState [] [] 0 0%nat
  end.

Definition sampleDungeon : Dungeon :=
  match createDungeon sampleRNG with
  | Some d => d
  | None => emptyDungeon
  end.

(** Three points on a line with no candidate edge, and a triangle with its
    three sides as candidates. *)
Definition linePoints : list Point := [mkPoint 0 0; mkPoint 10 0; mkPoint 1 0].

Definition triangleGraph : Graph :=
  mkGraph [mkPoint 0 0; mkPoint 4 0; mkPoint 0 3]
          [mkEdge 0 1; mkEdge 1 2; mkEdge 2 0] None.

(** Two points [2^600] apart, whose squared distance overflows; and a thin
    triangle with a side of length [sqrt (2^60 + 1)], which rounds to
    [2^30], the length of another side. *)
Definition farGraph : Graph :=
  mkGraph [mkPoint 0 0; mkPoint 0x1p600 0] [mkEdge 0 1] None.

Definition thinGraph : Graph :=
  mkGraph [mkPoint 0 0; mkPoint 1073741824 1; mkPoint 1073741824 0]
          [mkEdge 0 1; mkEdge 1 2; mkEdge 2 0] None.


From Stdlib Require DecimalNat.

(** ** Vocabulary: the generator's output *)

(** Every cell carries the coordinates of the position it is stored at. *)
Definition coordsKept (cells : Grid) : Prop :=
  forall x y c, cellAt cells x y = Some c -> cell_x c = x /\ cell_y c = y.

(** The rectangle of a room fits a grid of [cols] by [rows] cells. *)
Definition roomFits (cols rows : Z) (r : Room) : Prop :=
  0 <= room_x r /\ 0 <= room_y r
  /\ room_x r + room_width r <= cols /\ room_y r + room_height r <= rows.

(** The bookkeeping of the placement loop: what its counters say of each
    other at every iteration. *)
Record PlaceCount (st : PlaceState) : Prop := mkPlaceCount {
  pc_rooms : Z.of_nat (length (ps_rooms st)) <= MAX_ROOMS;
  pc_attempts : Z.of_nat (length (ps_rooms st)) <= ps_attempts st <= MAX_ROOMS * 8;
  pc_draws : Z.of_nat (ps_draws st) = 4 * ps_attempts st;
  pc_fresh : ps_attempts st = 0 ->
             ps_cells st = createEmptyDungeon (width DUNGEON_SIZE) (height DUNGEON_SIZE);
  pc_first : 1 <= ps_attempts st -> (1 <= length (ps_rooms st))%nat
}.

(** ** Vocabulary: paths of cells *)

(** [a] moved [i] steps toward [b], stopping at [b]. *)
Definition toward (a b i : Z) : Z :=
  if a <? b then Z.min b (a + i) else Z.max b (a - i).

Definition manhattan (p q : Pos) : Z :=
  Z.abs (fst p - fst q) + Z.abs (snd p - snd q).

(** Each cell of the list is at distance at most one from the next. *)
Definition stepsBy (dist : Pos -> Pos -> Z) (l : list Pos) : Prop :=
  forall i p q, l !! i = Some p -> l !! S i = Some q -> dist p q <= 1.

(** The cells of the 2x2 window at [(sx, sy)], other than [c], that are
    corridor cells of the grid. *)
Definition corridorsBeside (cells : Grid) (c : Pos) (sx sy : Z) : list Pos :=
  List.filter (fun q => negb (pos_eqb q c) && typeIs corridor cells (fst q) (snd q))
              (rectCells sx sy 2 2).

(** ** Vocabulary: corridors and rooms *)

(** Corridor cells keep [ROOM_CORRIDOR_GAP] away from every room, except the
    cells where a corridor leaves a room: the exit cell of the room toward
    the centre of another room. *)
Definition doorsOnly (rooms : list Room) (cells : Grid) : Prop :=
  forall x y,
    typeAt cells x y = Some corridor ->
    forall i r,
      rooms !! i = Some r ->
      ROOM_CORRIDOR_GAP <= distToRect r x y
      \/ exists j rj,
        rooms !! j = Some rj
        /\ exitCellFromCenter rooms (width DUNGEON_SIZE) (height DUNGEON_SIZE) i (center rj)
           = Some (x, y).

(** The grid of the sample run after the corridor between its first two
    rooms is carved. *)
Definition sampleCarved : Grid :=
  match carveCorridorBetween (ps_rooms sampleState) 30 30 (ps_cells sampleState) 0 1 with
  | Some (cells', _) => cells'
  | None => []
  end.

(** The same grid after a second corridor, between the second and third
    rooms, is carved next to the first. *)
Definition sampleCarvedTwice : Grid :=
  match carveCorridorBetween (ps_rooms sampleState) 30 30 sampleCarved 2 1 with
  | Some (cells', _) => cells'
  | None => []
  end.

(** ** Vocabulary: the triangulation's output *)

(** A binding of the edge map is stored under the key of its edge, and no
    key is bound twice. *)
Definition edgeSetOk (m : EdgeMap) : Prop :=
  List.NoDup (map fst m)
  /\ forall kv, In kv m -> fst kv = edgeKey (ea (snd kv)) (eb (snd kv)).

(** A triangle with three different corners among the first [n] points. *)
Definition goodTriangle (n : nat) (t : Triangle) : Prop :=
  (ta t < n)%nat /\ (tb t < n)%nat /\ (tc t < n)%nat
  /\ ta t <> tb t /\ tb t <> tc t /\ tc t <> ta t.

(** The graph is made of triangles and edges between different points among
    the first [n]; it has a [triangles] field unless [n] is zero. *)
Definition wellFormedGraph (n : nat) (g : Graph) : Prop :=
  (triangles g = None <-> n = 0%nat)
  /\ (forall ts t, triangles g = Some ts -> In t ts -> goodTriangle n t)
  /\ Forall (properEdge n) (edges g).

(** The edges are the sides of the triangles, each side once whatever its
    direction. *)
Definition edgesAreSides (g : Graph) : Prop :=
  List.NoDup (map (fun e => edgeKey (ea e) (eb e)) (edges g))
  /\ (forall e, In e (edges g) ->
                exists ts t, triangles g = Some ts /\ In t ts /\ In e (triangleEdges t))
  /\ (forall ts t s, triangles g = Some ts -> In t ts -> In s (triangleEdges t) ->
                     exists e, In e (edges g)
                               /\ edgeKey (ea e) (eb e) = edgeKey (ea s) (eb s)).

(** ** Vocabulary: edge lists *)

(** The candidate edges on which the augmenter draws: those whose key is not
    the key of a tree edge. *)
Definition loopCandidates (mstEdges graphEdges : list Edge) : list Edge :=
  List.filter
    (fun e => negb (existsb (key_eqb (keyEdge (ea e) (eb e)))
                            (map (fun m => keyEdge (ea m) (eb m)) mstEdges)))
    graphEdges.

(** No two edges of the list join the same pair of points. *)
Definition distinctPairs (es : list Edge) : Prop :=
  List.NoDup (map (fun e => keyEdge (ea e) (eb e)) es).

(** ** The keys of the maps and sets, as strings *)

(** A JavaScript string, as the list of its UTF-16 code units. *)
Abbreviation JsString := (list Z).

Fixpoint digitsOf (d : Decimal.uint) : JsString :=
  match d with
  | Decimal.Nil => []
  | Decimal.D0 d => 48 :: digitsOf d
  | Decimal.D1 d => 49 :: digitsOf d
  | Decimal.D2 d => 50 :: digitsOf d
  | Decimal.D3 d => 51 :: digitsOf d
  | Decimal.D4 d => 52 :: digitsOf d
  | Decimal.D5 d => 53 :: digitsOf d
  | Decimal.D6 d => 54 :: digitsOf d
  | Decimal.D7 d => 55 :: digitsOf d
  | Decimal.D8 d => 56 :: digitsOf d
  | Decimal.D9 d => 57 :: digitsOf d
  end.

(** The text a template literal gives an index, and an integer below
    [10^21] in absolute value: decimal digits, after a minus sign for a
    negative number. *)
Definition natToString (n : nat) : JsString := digitsOf (Nat.to_uint n).

Definition intToString (z : Z) : JsString :=
  if z <? 0 then 45 :: natToString (Z.to_nat (- z)) else natToString (Z.to_nat z).

(** [edgeKey] (layout.tsx, lines 40-42) and [keyEdge] (dungeon.tsx, line 127)
    as the strings they return; 44 is the comma. *)
Definition edgeKeyString (a b : nat) : JsString :=
  if (a <? b)%nat then natToString a ++ 44 :: natToString b
  else natToString b ++ 44 :: natToString a.

(** [parts.join(sep)]. *)
Fixpoint joinWith (sep : Z) (parts : list JsString) : JsString :=
  match parts with
  | [] => []
  | s :: rest =>
      match rest with
      | [] => s
      | _ :: _ => s ++ sep :: joinWith sep rest
      end
  end.

(** The key of a polyline in [candidatePolylines] (dungeon.tsx, line 369);
    124 is the vertical bar. *)
Definition posKey (p : Pos) : JsString :=
  intToString (fst p) ++ 44 :: intToString (snd p).

Definition polyKey (poly : list Pos) : JsString := joinWith 124 (map posKey poly).

(** ** Text rendering (dungeon.tsx, lines 449-489) *)

(** The character of a cell in [printDungeon] (a full stop, a hash sign, a
    space) and in [dungeonToString] (U+25AE, U+25FB, a space). *)
Definition printChar (t : CellTypeEnum) : Z :=
  match t with
  | room => 46
  | corridor => 35
  | empty => 32
  end.

Definition stringChar (t : CellTypeEnum) : Z :=
  match t with
  | room => 9646
  | corridor => 9723
  | empty => 32
  end.

(** The inner loop of both functions: [text += character] for each cell of
    the row. *)
Definition appendRow (glyph : CellTypeEnum -> Z) (text : JsString) (row : list Cell)
  : JsString :=
  fold_left (fun s c => s ++ [glyph (cell_type c)]) row text.

(** [printDungeon]: the lines handed to [console.log], one per row. *)
Definition printDungeon (dungeon : Dungeon) : list JsString :=
  map (appendRow printChar []) (d_cells dungeon).

(** [dungeonToString]: every row is followed by a line feed. *)
Definition dungeonToString (dungeon : Dungeon) : JsString :=
  fold_left (fun s row => appendRow stringChar s row ++ [10]) (d_cells dungeon) [].

(** Reading the types back from the text of [dungeonToString]: a row ends at
    each line feed. *)
Definition readStringChar (c : Z) : CellTypeEnum :=
  if c =? 9646 then room else if c =? 9723 then corridor else empty.

Definition readPrintChar (c : Z) : CellTypeEnum :=
  if c =? 46 then room else if c =? 35 then corridor else empty.

Fixpoint readRows (s : JsString) (row : list CellTypeEnum) : list (list CellTypeEnum) :=
  match s with
  | [] => []
  | c :: s' =>
      if c =? 10 then rev row :: readRows s' []
      else readRows s' (readStringChar c :: row)
  end.

(** ** The streamed answer (promptpage/page.tsx, lines 82-96) *)

(** [s.startsWith(prefix)]. *)
Fixpoint startsWith (s prefix : JsString) {struct prefix} : bool :=
  match prefix with
  | [] => true
  | p :: prefix' =>
      match s with
      | [] => false
      | c :: s' => (c =? p) && startsWith s' prefix'
      end
  end.

Record StreamState := mkStreamState {
  previousChunk : JsString;
  fullText : JsString;
  response : JsString
}.

(** The body of the [for await] loop, for a chunk that is a string. *)
Definition receiveChunk (st : StreamState) (chunk : JsString) : StreamState :=
  let newChunk :=
    if startsWith chunk (previousChunk st)
    then drop (length (previousChunk st)) chunk
    else chunk in
  mkStreamState chunk (fullText st ++ newChunk) (response st ++ newChunk).

(** The loop over a stream, after [setResponse("")]. *)
Definition receiveAll (chunks : list JsString) : StreamState :=
  fold_left receiveChunk chunks (mkStreamState [] [] []).

(** ** Vocabulary: rectangles *)

(** The rectangle [x .. x+w-1] by [y .. y+h-1] shares a cell with the room. *)
Definition overlapsRoom (r : Room) (x y w h : Z) : bool :=
  (Z.max x (room_x r) <? Z.min (x + w) (room_x r + room_width r))
  && (Z.max y (room_y r) <? Z.min (y + h) (room_y r + room_height r)).


(** * Doubles: the order of the finite ones *)

Lemma digits2_size (p : positive) : digits2_pos p = Pos.size p.
Proof. induction p as [p IH | p IH |]; simpl; congruence. Qed.

Lemma digits2_bounds (p : positive) :
  2 ^ (Zpos (digits2_pos p) - 1) <= Zpos p < 2 ^ Zpos (digits2_pos p).
Proof.
  rewrite digits2_size. split.
  - pose proof (Pos.size_le p) as H. apply Pos2Z.pos_le_pos in H.
    rewrite Pos2Z.inj_pow in H.
    assert (E : 2 ^ Zpos (Pos.size p) = 2 * 2 ^ (Zpos (Pos.size p) - 1)).
    { rewrite <- Z.pow_succ_r by lia. f_equal. lia. }
    rewrite E in H. lia.
  - pose proof (Pos.size_gt p) as H. apply Pos2Z.pos_lt_pos in H.
    rewrite Pos2Z.inj_pow in H. exact H.
Qed.

(** The mantissa of a double has at most 53 bits, and exactly 53 above the
    least exponent. *)
Lemma valid_finite (s : bool) (m : positive) (e : Z) :
  valid_binary (S754_finite s m e) = true ->
  -1074 <= e /\ Zpos m < 2 ^ 53 /\ (-1074 < e -> 2 ^ 52 <= Zpos m).
Proof.
  unfold valid_binary, SpecFloat.valid_binary, bounded, canonical_mantissa, fexp,
    SpecFloat.emin.
  intros H. apply andb_true_iff in H as [H _]. apply Z.eqb_eq in H.
  change (3 - emax - prec) with (-1074) in H. change prec with 53 in H.
  pose proof (digits2_bounds m) as [Hlo Hhi].
  set (d := Zpos (digits2_pos m)) in *.
  assert (Hd : 0 < d) by (unfold d; lia).
  assert (Hcase : d <= 53 /\ -1074 <= e /\ (-1074 < e -> d = 53)) by lia.
  destruct Hcase as (Hd53 & He & Hnorm). split; [exact He |]. split.
  - eapply Z.lt_le_trans; [exact Hhi |]. apply Z.pow_le_mono_r; lia.
  - intros Hgt. rewrite (Hnorm Hgt) in Hlo. exact Hlo.
Qed.

Lemma units_lt_exp (m1 m2 : positive) (e1 e2 : Z) :
  -1074 <= e1 -> e1 < e2 -> Zpos m1 < 2 ^ 53 -> 2 ^ 52 <= Zpos m2 ->
  Zpos m1 * 2 ^ (e1 + 1074) < Zpos m2 * 2 ^ (e2 + 1074).
Proof.
  intros He1 He12 Hm1 Hm2.
  replace (e2 + 1074) with ((e1 + 1074) + (e2 - e1 - 1) + 1) by lia.
  rewrite (Z.pow_add_r 2 (e1 + 1074 + (e2 - e1 - 1)) 1) by lia.
  rewrite (Z.pow_add_r 2 (e1 + 1074) (e2 - e1 - 1)) by lia.
  assert (HP : 0 < 2 ^ (e1 + 1074)) by (apply Z.pow_pos_nonneg; lia).
  assert (HD : 0 < 2 ^ (e2 - e1 - 1)) by (apply Z.pow_pos_nonneg; lia).
  change (2 ^ 1) with 2. change (2 ^ 53) with (2 * 2 ^ 52) in Hm1.
  set (P := 2 ^ (e1 + 1074)) in *. set (D := 2 ^ (e2 - e1 - 1)) in *.
  set (B := 2 ^ 52) in *. assert (HB : 0 < B) by (unfold B; lia). clearbody B P D.
  assert (H1 : Zpos m1 * P < 2 * B * P) by (apply Z.mul_lt_mono_pos_r; lia).
  assert (H2 : B * P <= Zpos m2 * P) by (apply Z.mul_le_mono_nonneg_r; lia).
  assert (H3 : Zpos m2 * P * 1 <= Zpos m2 * P * D) by (apply Z.mul_le_mono_nonneg_l; nia).
  lia.
Qed.

Lemma units_pos (s : bool) (m : positive) (e : Z) :
  valid_binary (S754_finite s m e) = true -> 0 < Zpos m * 2 ^ (e + 1074).
Proof.
  intros H. apply valid_finite in H as (H1 & _).
  apply Z.mul_pos_pos; [lia |]. apply Z.pow_pos_nonneg; lia.
Qed.

(** The comparison of the specification agrees with the order of the
    integers the two doubles are multiples of. *)
Lemma SFltb_units (x y : spec_float) :
  valid_binary x = true -> valid_binary y = true ->
  finiteSF x = true -> finiteSF y = true ->
  SFltb x y = (unitsSF x <? unitsSF y).
Proof.
  intros Hx Hy Fx Fy.
  destruct x as [sx | sx | | sx mx ex]; try discriminate;
    destruct y as [sy | sy | | sy my ey]; try discriminate.
  - reflexivity.
  - unfold SFltb, SFcompare, unitsSF. pose proof (units_pos _ _ _ Hy) as Py.
    symmetry. destruct sy; [apply Z.ltb_ge | apply Z.ltb_lt]; lia.
  - unfold SFltb, SFcompare, unitsSF. pose proof (units_pos _ _ _ Hx) as Px.
    symmetry. destruct sx; [apply Z.ltb_lt | apply Z.ltb_ge]; lia.
  - pose proof (valid_finite _ _ _ Hx) as (Hex & Hmx & Hnx).
    pose proof (valid_finite _ _ _ Hy) as (Hey & Hmy & Hny).
    pose proof (units_pos _ _ _ Hx) as Px. pose proof (units_pos _ _ _ Hy) as Py.
    assert (Hcmp : match Z.compare ex ey with
                   | Lt => Zpos mx * 2 ^ (ex + 1074) < Zpos my * 2 ^ (ey + 1074)
                   | Gt => Zpos my * 2 ^ (ey + 1074) < Zpos mx * 2 ^ (ex + 1074)
                   | Eq => ex = ey
                   end).
    { destruct (Z.compare_spec ex ey) as [E | L | G].
      - exact E.
      - apply units_lt_exp; try assumption. apply Hny. lia.
      - apply units_lt_exp; try assumption. apply Hnx. lia. }
    assert (Hsame : ex = ey ->
                    match Pos.compare mx my with
                    | Eq => Zpos mx * 2 ^ (ex + 1074) = Zpos my * 2 ^ (ey + 1074)
                    | Lt => Zpos mx * 2 ^ (ex + 1074) < Zpos my * 2 ^ (ey + 1074)
                    | Gt => Zpos my * 2 ^ (ey + 1074) < Zpos mx * 2 ^ (ex + 1074)
                    end).
    { intros <-.
      assert (HP : 0 < 2 ^ (ex + 1074)) by (apply Z.pow_pos_nonneg; lia).
      destruct (Pos.compare_spec mx my) as [E | L | G].
      - subst. reflexivity.
      - apply Z.mul_lt_mono_pos_r; [exact HP | lia].
      - apply Z.mul_lt_mono_pos_r; [exact HP | lia]. }
    unfold SFltb, SFcompare, unitsSF. symmetry.
    rewrite !Pos.compare_cont_spec. cbn [Pos.switch_Eq].
    destruct sx, sy.
    + destruct (Z.compare ex ey).
      * specialize (Hsame Hcmp). destruct (Pos.compare mx my); cbn [CompOpp];
          [apply Z.ltb_ge | apply Z.ltb_ge | apply Z.ltb_lt]; lia.
      * apply Z.ltb_ge. lia.
      * apply Z.ltb_lt. lia.
    + apply Z.ltb_lt. lia.
    + apply Z.ltb_ge. lia.
    + destruct (Z.compare ex ey).
      * specialize (Hsame Hcmp). destruct (Pos.compare mx my);
          [apply Z.ltb_ge | apply Z.ltb_lt | apply Z.ltb_ge]; lia.
      * apply Z.ltb_lt. lia.
      * apply Z.ltb_ge. lia.
Qed.

Lemma ltb_units (x y : float) :
  isFinite x = true -> isFinite y = true ->
  (x <? y)%float = (units x <? units y).
Proof.
  intros Hx Hy. rewrite ltb_spec.
  apply SFltb_units; auto using Prim2SF_valid.
Qed.

(** A finite double is below [Infinity]. *)
Lemma isFinite_below_infinity (x : float) :
  isFinite x = true -> (x <? infinity)%float = true.
Proof.
  intros Hx. rewrite ltb_spec. unfold isFinite in Hx.
  change (Prim2SF infinity) with (S754_infinity false).
  destruct (Prim2SF x); try discriminate; reflexivity.
Qed.

Lemma valueOf_lt (x y : float) : (valueOf x < valueOf y)%Q <-> units x < units y.
Proof.
  unfold valueOf, Qlt. cbn [Qnum Qden].
  split; intros H.
  - apply Z.mul_lt_mono_pos_r in H; [exact H | lia].
  - apply Z.mul_lt_mono_pos_r; [lia | exact H].
Qed.

Lemma valueOf_le (x y : float) : (valueOf x <= valueOf y)%Q <-> units x <= units y.
Proof.
  unfold valueOf, Qle. cbn [Qnum Qden].
  split; intros H.
  - apply Z.mul_le_mono_pos_r in H; [exact H | lia].
  - apply Z.mul_le_mono_pos_r; [lia | exact H].
Qed.

(** [x < y] on finite doubles is the order of the numbers they stand for. *)
Lemma ltb_true_value (x y : float) :
  isFinite x = true -> isFinite y = true ->
  (x <? y)%float = true -> (valueOf x < valueOf y)%Q.
Proof.
  intros Hx Hy H. rewrite (ltb_units x y Hx Hy) in H.
  apply valueOf_lt. apply Z.ltb_lt. exact H.
Qed.

Lemma ltb_false_value (x y : float) :
  isFinite x = true -> isFinite y = true ->
  (x <? y)%float = false -> (valueOf y <= valueOf x)%Q.
Proof.
  intros Hx Hy H. rewrite (ltb_units x y Hx Hy) in H.
  apply valueOf_le. apply Z.ltb_ge. exact H.
Qed.


(** * Lists of coordinates *)

Lemma In_seqZ (m n i : Z) : In i (seqZ m n) <-> m <= i < m + n.
Proof. rewrite <- list_elem_of_In. apply elem_of_seqZ. Qed.

Lemma In_rectCells (x y w h i j : Z) :
  In (i, j) (rectCells x y w h) <-> (x <= i < x + w) /\ (y <= j < y + h).
Proof.
  unfold rectCells. rewrite in_flat_map. split.
  - intros (j' & Hj & Hi). apply in_map_iff in Hi as (i' & Heq & Hi).
    inversion Heq; subst. apply In_seqZ in Hj, Hi. lia.
  - intros [Hi Hj]. exists j. split; [apply In_seqZ; lia |].
    apply in_map_iff. exists i. split; [reflexivity | apply In_seqZ; lia].
Qed.

(** * Reading and writing the grid *)

Lemma CellType_eqb_eq (a b : CellTypeEnum) : CellType_eqb a b = true <-> a = b.
Proof. destruct a, b; simpl; split; congruence. Qed.

Lemma typeIs_typeAt (t : CellTypeEnum) (cells : Grid) (x y : Z) :
  typeIs t cells x y = true <-> typeAt cells x y = Some t.
Proof.
  unfold typeIs, typeAt. destruct (cellAt cells x y) as [c|]; simpl.
  - rewrite CellType_eqb_eq. split; congruence.
  - split; congruence.
Qed.

Lemma cellAt_Some_bounds (cols rows : Z) (cells : Grid) (x y : Z) (c : Cell) :
  rectGrid cols rows cells -> cellAt cells x y = Some c ->
  0 <= x < cols /\ 0 <= y < rows.
Proof.
  intros [Hr Hc] H. unfold cellAt in H.
  destruct (0 <=? x) eqn:Hx; [| discriminate].
  destruct (0 <=? y) eqn:Hy; [| discriminate]. simpl in H.
  destruct (cells !! Z.to_nat y) as [row|] eqn:Hrow; [| discriminate].
  pose proof (lookup_lt_Some _ _ _ Hrow) as Hlen.
  pose proof (lookup_lt_Some _ _ _ H) as Hlen'.
  rewrite List.Forall_forall in Hc.
  assert (Hin : In row cells).
  { apply list_elem_of_In. eapply list_elem_of_lookup_2; eauto. }
  specialize (Hc _ Hin). unfold gridRows in Hr. lia.
Qed.

Lemma cellAt_in_bounds (cols rows : Z) (cells : Grid) (x y : Z) :
  rectGrid cols rows cells -> 0 <= x < cols -> 0 <= y < rows ->
  exists c, cellAt cells x y = Some c.
Proof.
  intros [Hr Hc] Hx Hy. unfold cellAt.
  replace (0 <=? x) with true by (symmetry; apply Z.leb_le; lia).
  replace (0 <=? y) with true by (symmetry; apply Z.leb_le; lia). simpl.
  unfold gridRows in Hr.
  destruct (lookup_lt_is_Some_2 cells (Z.to_nat y)) as [row Hrow]; [lia |].
  rewrite Hrow. rewrite List.Forall_forall in Hc.
  assert (Hin : In row cells).
  { apply list_elem_of_In. eapply list_elem_of_lookup_2; eauto. }
  specialize (Hc _ Hin).
  destruct (lookup_lt_is_Some_2 row (Z.to_nat x)) as [c Hcell]; [lia |].
  eauto.
Qed.

Lemma gridCols_rect (cols rows : Z) (cells : Grid) :
  rectGrid cols rows cells -> 0 < rows -> gridCols cells = cols.
Proof.
  intros [Hr Hc] Hpos. destruct cells as [|row rest].
  - unfold gridRows in Hr. simpl in Hr. lia.
  - simpl. inversion Hc; subst. reflexivity.
Qed.

Lemma cellAt_alterType (t : CellTypeEnum) (cells : Grid) (p : Pos) (x y : Z) :
  0 <= fst p -> 0 <= snd p ->
  cellAt (alterType t cells p) x y
  = if (x =? fst p) && (y =? snd p)
    then setType t <$> cellAt cells x y
    else cellAt cells x y.
Proof.
  intros Hp1 Hp2. unfold cellAt, alterType.
  destruct (0 <=? x) eqn:Hx; simpl.
  2:{ destruct ((x =? fst p) && (y =? snd p)); reflexivity. }
  destruct (0 <=? y) eqn:Hy; simpl.
  2:{ destruct ((x =? fst p) && (y =? snd p)); reflexivity. }
  apply Z.leb_le in Hx, Hy.
  destruct (y =? snd p) eqn:Ey.
  - apply Z.eqb_eq in Ey. subst y. rewrite list_lookup_alter_eq.
    destruct (cells !! Z.to_nat (snd p)) as [row|]; simpl.
    + destruct (x =? fst p) eqn:Ex; simpl.
      * apply Z.eqb_eq in Ex. subst x. apply list_lookup_alter_eq.
      * apply Z.eqb_neq in Ex. apply list_lookup_alter_ne. lia.
    + rewrite andb_true_r. destruct (x =? fst p); reflexivity.
  - apply Z.eqb_neq in Ey. rewrite andb_false_r.
    rewrite list_lookup_alter_ne by lia. reflexivity.
Qed.

Lemma typeAt_alterType (t : CellTypeEnum) (cells : Grid) (p : Pos) (x y : Z) :
  0 <= fst p -> 0 <= snd p ->
  typeAt (alterType t cells p) x y
  = if (x =? fst p) && (y =? snd p)
    then (fun _ => t) <$> typeAt cells x y
    else typeAt cells x y.
Proof.
  intros Hp1 Hp2. unfold typeAt. rewrite cellAt_alterType by assumption.
  destruct ((x =? fst p) && (y =? snd p)); [| reflexivity].
  destruct (cellAt cells x y); reflexivity.
Qed.

Lemma rectGrid_alterType (cols rows : Z) (t : CellTypeEnum) (cells : Grid) (p : Pos) :
  rectGrid cols rows cells -> rectGrid cols rows (alterType t cells p).
Proof.
  intros [Hr Hc]. unfold alterType, rectGrid, gridRows in *.
  rewrite length_alter. split; [assumption |].
  rewrite List.Forall_forall in *. intros row Hin.
  apply list_elem_of_In in Hin. apply list_elem_of_lookup_1 in Hin as [i Hi].
  destruct (decide (i = Z.to_nat (snd p))) as [-> | Hne].
  - rewrite list_lookup_alter_eq in Hi.
    destruct (cells !! Z.to_nat (snd p)) as [row0|] eqn:E; simpl in Hi; [| discriminate].
    inversion Hi; subst. rewrite length_alter. apply Hc.
    apply list_elem_of_In. eapply list_elem_of_lookup_2; eauto.
  - rewrite list_lookup_alter_ne in Hi by congruence. apply Hc.
    apply list_elem_of_In. eapply list_elem_of_lookup_2; eauto.
Qed.


(** * Room placement *)

Ltac unfold_consts :=
  unfold MIN_ROOM_SIZE, MAX_ROOM_SIZE, DUNGEON_SIZE, MAX_ROOMS, ROOM_SEPARATION,
         ROOM_CORRIDOR_GAP, CORRIDOR_CORRIDOR_GAP, MAX_ALLOWED_CONNECTIONS in *;
  cbn [width height] in *.

Lemma randomBelow_range (rng : RNG) (n : nat) (k : Z) :
  unitRNG rng -> 0 < k -> 0 <= randomBelow rng n k < k.
Proof.
  intros Hu Hk. destruct (Hu n) as [H0 H1]. unfold randomBelow.
  assert (Hk' : (0 < inject_Z k)%Q).
  { change 0%Q with (inject_Z 0). rewrite <- Zlt_Qlt. exact Hk. }
  split.
  - rewrite <- (Qfloor_Z 0). apply Qfloor_resp_le.
    apply Qmult_le_0_compat; [exact H0 | apply Qlt_le_weak; exact Hk'].
  - rewrite Zlt_Qlt. eapply Qle_lt_trans; [apply Qfloor_le |].
    apply Qlt_le_trans with (1 * inject_Z k)%Q.
    + apply Qmult_lt_compat_r; assumption.
    + rewrite Qmult_1_l. apply Qle_refl.
Qed.

Lemma drawRoom_shape (rng : RNG) (n : nat) :
  unitRNG rng -> roomShape (drawRoom rng n).
Proof.
  intros Hu. unfold roomShape, drawRoom. cbn [room_x room_y room_width room_height center].
  unfold_consts.
  pose proof (randomBelow_range rng n (7 - 3 + 1) Hu ltac:(lia)) as Hw.
  pose proof (randomBelow_range rng (n + 1) (7 - 3 + 1) Hu ltac:(lia)) as Hh.
  set (w := randomBelow rng n (7 - 3 + 1) + 3) in *.
  set (h := randomBelow rng (n + 1) (7 - 3 + 1) + 3) in *.
  pose proof (randomBelow_range rng (n + 2) (30 - w) Hu ltac:(lia)) as Hx.
  pose proof (randomBelow_range rng (n + 3) (30 - h) Hu ltac:(lia)) as Hy.
  repeat split; lia.
Qed.

Lemma roomShape_inGrid (r : Room) : roomShape r -> roomInGrid r.
Proof. unfold roomShape, roomInGrid. unfold_consts. lia. Qed.

Lemma inRoom_iff (r : Room) (x y : Z) :
  inRoom r x y = true
  <-> room_x r <= x < room_x r + room_width r
      /\ room_y r <= y < room_y r + room_height r.
Proof.
  unfold inRoom. rewrite !andb_true_iff, !Z.leb_le, !Z.ltb_lt. lia.
Qed.

(** ** The unguarded writes of [placeRoom] *)

Lemma writeAll_spec (cols rows : Z) (ps : list Pos) :
  forall cells,
    rectGrid cols rows cells ->
    (forall p, In p ps -> 0 <= fst p < cols /\ 0 <= snd p < rows) ->
    exists cells',
      writeAll room cells ps = Some cells'
      /\ rectGrid cols rows cells'
      /\ forall x y,
          typeAt cells' x y
          = if existsb (pos_eqb (x, y)) ps
            then (fun _ => room) <$> typeAt cells x y
            else typeAt cells x y.
Proof.
  induction ps as [|p ps IH]; intros cells Hrect Hin.
  - exists cells. repeat split; try assumption; apply Hrect.
  - unfold writeAll. simpl.
    destruct (Hin p (or_introl eq_refl)) as [Hx Hy].
    destruct (cellAt_in_bounds cols rows cells (fst p) (snd p) Hrect Hx Hy) as [c Hc].
    unfold writeType at 2. rewrite Hc.
    destruct (IH (alterType room cells p)) as (cells' & Hw & Hr' & Ht).
    { apply rectGrid_alterType; assumption. }
    { intros q Hq. apply Hin. right; assumption. }
    exists cells'. split; [exact Hw |]. split; [exact Hr' |].
    intros x y. rewrite Ht. rewrite typeAt_alterType by lia.
    unfold pos_eqb at 2. cbn [fst snd].
    destruct ((x =? fst p) && (y =? snd p)); simpl.
    + destruct (existsb (pos_eqb (x, y)) ps); [| reflexivity].
      destruct (typeAt cells x y); reflexivity.
    + reflexivity.
Qed.

Lemma existsb_pos_In (q : Pos) (ps : list Pos) :
  existsb (pos_eqb q) ps = true <-> In q ps.
Proof.
  rewrite existsb_exists. split.
  - intros (p & Hp & He). unfold pos_eqb in He.
    apply andb_true_iff in He as [H1 H2]. apply Z.eqb_eq in H1, H2.
    destruct p, q; simpl in *; subst; assumption.
  - intros H. exists q. split; [assumption |].
    unfold pos_eqb. rewrite !Z.eqb_refl. reflexivity.
Qed.

Lemma placeRoom_spec (cells : Grid) (r : Room) :
  rectGrid (width DUNGEON_SIZE) (height DUNGEON_SIZE) cells ->
  roomInGrid r ->
  exists cells',
    placeRoom cells r = Some cells'
    /\ rectGrid (width DUNGEON_SIZE) (height DUNGEON_SIZE) cells'
    /\ forall x y,
        typeAt cells' x y
        = if inRoom r x y then (fun _ => room) <$> typeAt cells x y
          else typeAt cells x y.
Proof.
  intros Hrect Hin.
  destruct (writeAll_spec _ _ (rectCells (room_x r) (room_y r) (room_width r) (room_height r))
                          cells Hrect) as (cells' & Hw & Hr & Ht).
  { intros [i j] Hp. apply In_rectCells in Hp. unfold roomInGrid in Hin.
    cbn [fst snd]. lia. }
  exists cells'. split; [exact Hw |]. split; [exact Hr |].
  intros x y. rewrite Ht.
  destruct (inRoom r x y) eqn:E.
  - apply inRoom_iff in E.
    replace (existsb _ _) with true; [reflexivity |].
    symmetry. apply existsb_pos_In. apply In_rectCells. lia.
  - replace (existsb _ _) with false; [reflexivity |].
    symmetry. apply not_true_is_false. intros H.
    apply existsb_pos_In in H. apply In_rectCells in H.
    apply not_true_iff_false in E. apply E. apply inRoom_iff. lia.
Qed.

(** ** What [isAreaEmpty] looks at *)

Lemma isAreaEmpty_spec (cells : Grid) (x y w h : Z) :
  isAreaEmpty cells x y w h = true
  <-> forall i j,
      x <= i < x + w -> y <= j < y + h ->
      0 <= i < gridCols cells -> 0 <= j < gridRows cells ->
      typeAt cells i j = Some empty.
Proof.
  unfold isAreaEmpty. rewrite forallb_forall. split.
  - intros H i j Hi Hj Hgi Hgj. apply typeIs_typeAt.
    apply (H (i, j)). apply In_rectCells. lia.
  - intros H [i j] Hp. apply In_rectCells in Hp. cbn [fst snd].
    apply typeIs_typeAt. apply H; lia.
Qed.


(** ** The empty grid *)

Lemma createEmptyDungeon_rect (w h : Z) :
  0 <= w -> 0 <= h -> rectGrid w h (createEmptyDungeon w h).
Proof.
  intros Hw Hh. unfold rectGrid, gridRows, createEmptyDungeon. split.
  - rewrite length_map, length_seqZ. lia.
  - apply List.Forall_forall. intros row Hin. apply in_map_iff in Hin as (y & <- & _).
    rewrite length_map, length_seqZ. lia.
Qed.

Lemma cellAt_In (cells : Grid) (x y : Z) (c : Cell) :
  cellAt cells x y = Some c -> exists row, In row cells /\ In c row.
Proof.
  unfold cellAt. destruct ((0 <=? x) && (0 <=? y)); [| discriminate].
  destruct (cells !! Z.to_nat y) as [row|] eqn:Hrow; [| discriminate].
  intros Hc. exists row. split; apply list_elem_of_In;
    eapply list_elem_of_lookup_2; eauto.
Qed.

Lemma createEmptyDungeon_empty (w h x y : Z) (t : CellTypeEnum) :
  typeAt (createEmptyDungeon w h) x y = Some t -> t = empty.
Proof.
  unfold typeAt. destruct (cellAt _ x y) as [c|] eqn:Hc; [| discriminate].
  simpl. intros [= <-]. apply cellAt_In in Hc as (row & Hrow & Hin).
  unfold createEmptyDungeon in Hrow. apply in_map_iff in Hrow as (j & <- & _).
  apply in_map_iff in Hin as (i & <- & _). reflexivity.
Qed.

Lemma PlaceInv_initial :
  PlaceInv (mkPlaceState
              (createEmptyDungeon (width DUNGEON_SIZE) (height DUNGEON_SIZE))
              [] 0 0%nat).
Proof.
  constructor; cbn [ps_cells ps_rooms ps_attempts].
  - apply createEmptyDungeon_rect; unfold_consts; lia.
  - constructor.
  - intros x y t Ht. apply createEmptyDungeon_empty in Ht. subst. split.
    + discriminate.
    + intros (r & [] & _).
  - intros x y Ht. apply createEmptyDungeon_empty in Ht. discriminate.
  - intros i j r1 r2 _ H. rewrite lookup_nil in H. discriminate.
  - lia.
Qed.

(** ** One attempt *)

Lemma apart_sym (gap : Z) (r1 r2 : Room) : apart gap r1 r2 -> apart gap r2 r1.
Proof. unfold apart. tauto. Qed.

Lemma empty_area_apart (cells : Grid) (rooms : list Room) (r0 r : Room) :
  rectGrid (width DUNGEON_SIZE) (height DUNGEON_SIZE) cells ->
  roomsDrawn rooms cells ->
  In r0 rooms -> roomShape r0 -> roomShape r ->
  isAreaEmpty cells (room_x r - ROOM_SEPARATION) (room_y r - ROOM_SEPARATION)
              (room_width r + ROOM_SEPARATION * 2)
              (room_height r + ROOM_SEPARATION * 2) = true ->
  apart ROOM_SEPARATION r0 r.
Proof.
  intros Hrect Hdrawn Hin Hs0 Hs Hempty.
  pose proof (gridCols_rect _ _ _ Hrect) as Hcols.
  destruct Hrect as [Hrows Hall]. fold (rectGrid (width DUNGEON_SIZE) (height DUNGEON_SIZE) cells) in *.
  rewrite isAreaEmpty_spec in Hempty. rewrite Hrows in Hempty.
  unfold roomShape in Hs0, Hs. unfold apart. unfold_consts.
  rewrite Hcols in Hempty by lia.
  destruct (Z_le_gt_dec (room_x r0 + room_width r0 + 5) (room_x r)); [lia |].
  destruct (Z_le_gt_dec (room_x r + room_width r + 5) (room_x r0)); [lia |].
  destruct (Z_le_gt_dec (room_y r0 + room_height r0 + 5) (room_y r)); [lia |].
  destruct (Z_le_gt_dec (room_y r + room_height r + 5) (room_y r0)); [lia |].
  exfalso.
  set (i := Z.max (room_x r0) (room_x r - 5)).
  set (j := Z.max (room_y r0) (room_y r - 5)).
  assert (He : typeAt cells i j = Some empty) by (apply Hempty; lia).
  destruct (Hdrawn i j empty He) as [_ Hback].
  assert (Hroom : empty = room).
  { apply Hback. exists r0. split; [assumption |]. apply inRoom_iff. lia. }
  discriminate.
Qed.

Lemma placeAttempt_cases (rng : RNG) (st : PlaceState) :
  let r := drawRoom rng (ps_draws st) in
  let empty_around :=
    isAreaEmpty (ps_cells st)
                (room_x r - ROOM_SEPARATION) (room_y r - ROOM_SEPARATION)
                (room_width r + ROOM_SEPARATION * 2)
                (room_height r + ROOM_SEPARATION * 2) in
  placeAttempt rng st
  = if empty_around
    then match placeRoom (ps_cells st) r with
         | Some cells' =>
             Some (mkPlaceState cells' (ps_rooms st ++ [r])
                                (ps_attempts st + 1) (ps_draws st + 4))
         | None => None
         end
    else Some (mkPlaceState (ps_cells st) (ps_rooms st)
                            (ps_attempts st + 1) (ps_draws st + 4)).
Proof. reflexivity. Qed.

Lemma placeAttempt_inv (rng : RNG) (st : PlaceState) :
  unitRNG rng -> PlaceInv st ->
  exists st', placeAttempt rng st = Some st'
              /\ PlaceInv st'
              /\ ps_attempts st' = ps_attempts st + 1.
Proof.
  intros Hu Hinv. rewrite placeAttempt_cases.
  set (r := drawRoom rng (ps_draws st)).
  assert (Hshape : roomShape r) by (apply drawRoom_shape; assumption).
  destruct Hinv as [Hrect Hshapes Hdrawn Hnc Hapart Hatt].
  destruct (isAreaEmpty _ _ _ _ _) eqn:Hempty.
  - destruct (placeRoom_spec (ps_cells st) r Hrect (roomShape_inGrid r Hshape))
      as (cells' & Hplace & Hrect' & Htype).
    rewrite Hplace. eexists. split; [reflexivity |]. split; [| reflexivity].
    constructor; cbn [ps_cells ps_rooms ps_attempts].
    + exact Hrect'.
    + apply List.Forall_app. split; [assumption | constructor; [assumption | constructor]].
    + intros x y t Ht. rewrite Htype in Ht.
      destruct (inRoom r x y) eqn:Ein.
      * destruct (typeAt (ps_cells st) x y); [| discriminate].
        simpl in Ht. injection Ht as <-. split; [| reflexivity].
        intros _. exists r. split; [apply in_or_app; right; left; reflexivity | assumption].
      * rewrite (Hdrawn x y t Ht). split.
        -- intros (r' & Hr' & Hi). exists r'. split; [apply in_or_app; left |]; assumption.
        -- intros (r' & Hr' & Hi). apply in_app_or in Hr' as [Hr' | [<- | []]].
           ++ exists r'. split; assumption.
           ++ congruence.
    + intros x y Ht. rewrite Htype in Ht.
      destruct (inRoom r x y).
      * destruct (typeAt (ps_cells st) x y); discriminate.
      * exact (Hnc x y Ht).
    + intros i j r1 r2 Hij H1 H2.
      assert (Hnew : forall k r', (ps_rooms st ++ [r]) !! k = Some r' ->
                                  (ps_rooms st !! k = Some r' /\ (k < length (ps_rooms st))%nat)
                                  \/ (k = length (ps_rooms st) /\ r' = r)).
      { intros k r' Hk. apply lookup_app_Some in Hk as [Hk | [Hge Hk]].
        - left. split; [assumption | eapply lookup_lt_Some; eassumption].
        - right. destruct (k - length (ps_rooms st))%nat as [|m] eqn:Em.
          + simpl in Hk. injection Hk as <-. split; [lia | reflexivity].
          + simpl in Hk. rewrite lookup_nil in Hk. discriminate. }
      assert (Hold : forall k r', ps_rooms st !! k = Some r' ->
                                  In r' (ps_rooms st) /\ roomShape r').
      { intros k r' Hk.
        assert (In r' (ps_rooms st)).
        { apply list_elem_of_In. eapply list_elem_of_lookup_2; eassumption. }
        split; [assumption |]. rewrite List.Forall_forall in Hshapes. auto. }
      destruct (Hnew _ _ H1) as [[H1' L1] | [E1 ->]], (Hnew _ _ H2) as [[H2' L2] | [E2 ->]].
      * eapply Hapart; eassumption.
      * destruct (Hold _ _ H1') as [Hin1 Hs1].
        apply (empty_area_apart (ps_cells st) (ps_rooms st) r1 r); assumption.
      * destruct (Hold _ _ H2') as [Hin2 Hs2].
        apply apart_sym.
        apply (empty_area_apart (ps_cells st) (ps_rooms st) r2 r); assumption.
      * lia.
    + lia.
  - eexists. split; [reflexivity |]. split; [| reflexivity].
    constructor; cbn [ps_cells ps_rooms ps_attempts]; try assumption. lia.
Qed.

(** ** The loop *)

Lemma placeLoop_inv (rng : RNG) (k : nat) :
  unitRNG rng ->
  forall st, PlaceInv st ->
             exists st', placeLoop k rng st = Some st' /\ PlaceInv st'.
Proof.
  intros Hu. induction k as [|k IH]; intros st Hinv; simpl.
  - eauto.
  - destruct (placeGuard st); [| eauto].
    destruct (placeAttempt_inv rng st Hu Hinv) as (st1 & -> & Hinv1 & _).
    apply IH. assumption.
Qed.

(** The counter [k] never cuts the loop short: when it runs out the guard of
    the [while] is false. *)
Lemma placeLoop_exit (rng : RNG) (k : nat) :
  unitRNG rng ->
  forall st st', PlaceInv st ->
                 MAX_ROOMS * 8 - ps_attempts st <= Z.of_nat k ->
                 placeLoop k rng st = Some st' ->
                 placeGuard st' = false.
Proof.
  intros Hu. induction k as [|k IH]; intros st st' Hinv Hk Hloop; simpl in Hloop.
  - injection Hloop as <-. unfold placeGuard.
    apply andb_false_iff. right. apply Z.ltb_ge. lia.
  - destruct (placeGuard st) eqn:Hg.
    + destruct (placeAttempt_inv rng st Hu Hinv) as (st1 & Hst1 & Hinv1 & Hatt).
      rewrite Hst1 in Hloop. apply (IH st1 st' Hinv1); [lia | assumption].
    + injection Hloop as <-. assumption.
Qed.

Lemma placeRooms_inv (rng : RNG) :
  unitRNG rng -> exists st, placeRooms rng = Some st /\ PlaceInv st.
Proof.
  intros Hu. unfold placeRooms. apply placeLoop_inv; [assumption |].
  apply PlaceInv_initial.
Qed.

Lemma createDungeon_rooms (rng : RNG) (d : Dungeon) :
  createDungeon rng = Some d ->
  exists st, placeRooms rng = Some st /\ d_rooms d = ps_rooms st.
Proof.
  unfold createDungeon. destruct (placeRooms rng) as [st|]; [| discriminate].
  destruct (primMST _) as [mst|]; [| discriminate].
  destruct (carveAll _ _ _ _ _); [| discriminate].
  intros [= <-]. exists st. split; reflexivity.
Qed.

Lemma placeRooms_PlaceInv (rng : RNG) (st : PlaceState) :
  unitRNG rng -> placeRooms rng = Some st -> PlaceInv st.
Proof.
  intros Hu Hst. destruct (placeRooms_inv rng Hu) as (st0 & Hst0 & Hinv).
  rewrite Hst in Hst0. injection Hst0 as <-. exact Hinv.
Qed.

(** ** Sample runs *)

Lemma zeroRNG_unit : unitRNG zeroRNG.
Proof. intros n. split; [apply Qle_refl | reflexivity]. Qed.

Lemma sampleRNG_unit : unitRNG sampleRNG.
Proof.
  intros n. unfold sampleRNG, Qle, Qlt. cbn [Qnum Qden].
  pose proof (Z.mod_pos_bound (Z.of_nat n * 7919 + 13) 101 ltac:(lia)). lia.
Qed.

Lemma sampleState_run : placeRooms sampleRNG = Some sampleState.
Proof. vm_compute. reflexivity. Qed.

Lemma sampleDungeon_run : createDungeon sampleRNG = Some sampleDungeon.
Proof. vm_compute. reflexivity. Qed.

Lemma chebyshev_apart (r1 r2 : Room) (p1 p2 : Pos) (gap : Z) :
  apart gap r1 r2 ->
  inRoom r1 (fst p1) (snd p1) = true -> inRoom r2 (fst p2) (snd p2) = true ->
  gap < chebyshev p1 p2.
Proof.
  unfold apart, chebyshev. rewrite !inRoom_iff. lia.
Qed.



(** * Carving *)

Lemma pos_eqb_eq (p q : Pos) : pos_eqb p q = true <-> p = q.
Proof.
  unfold pos_eqb. rewrite andb_true_iff, !Z.eqb_eq.
  destruct p, q; simpl. split; [intros [-> ->]; reflexivity | intros [= -> ->]; auto].
Qed.

Lemma inGrid_iff (cols rows x y : Z) :
  inGrid cols rows x y = true <-> 0 <= x < cols /\ 0 <= y < rows.
Proof. unfold inGrid. rewrite !andb_true_iff, !Z.leb_le, !Z.ltb_lt. lia. Qed.

Lemma typeIs_false (t : CellTypeEnum) (cells : Grid) (x y : Z) :
  typeIs t cells x y = false <-> typeAt cells x y <> Some t.
Proof.
  rewrite <- typeIs_typeAt. destruct (typeIs t cells x y); split; congruence.
Qed.

Lemma carveCell_typeAt (cols rows : Z) (cells : Grid) (p : Pos) (x y : Z) :
  typeAt (carveCell cols rows cells p) x y
  = carvedType cols rows [p] x y <$> typeAt cells x y.
Proof.
  unfold carveCell.
  destruct (inGrid cols rows (fst p) (snd p)) eqn:Hg; simpl.
  - apply inGrid_iff in Hg.
    destruct (typeIs room cells (fst p) (snd p)) eqn:Hroom.
    + apply typeIs_typeAt in Hroom.
      destruct (typeAt cells x y) as [t|] eqn:Ht; [| reflexivity]. simpl. f_equal.
      unfold carvedType. destruct t; try reflexivity; simpl; rewrite orb_false_r;
        destruct (pos_eqb (x, y) p) eqn:E; try reflexivity;
        apply pos_eqb_eq in E; subst p; simpl in Hroom; congruence.
    + apply typeIs_false in Hroom. rewrite typeAt_alterType by lia.
      destruct ((x =? fst p) && (y =? snd p)) eqn:E.
      * assert (Hp : pos_eqb (x, y) p = true) by exact E.
        apply pos_eqb_eq in Hp. subst p. simpl in *.
        destruct (typeAt cells x y) as [t|]; [| reflexivity]. simpl. f_equal.
        unfold carvedType. simpl. unfold pos_eqb. simpl. rewrite !Z.eqb_refl. simpl.
        replace (inGrid cols rows x y) with true by (symmetry; apply inGrid_iff; lia).
        destruct t; congruence.
      * destruct (typeAt cells x y) as [t|]; [| reflexivity]. simpl. f_equal.
        unfold carvedType. simpl. unfold pos_eqb at 1 2. simpl. rewrite E. simpl.
        destruct t; reflexivity.
  - destruct (typeAt cells x y) as [t|] eqn:Ht; [| reflexivity]. simpl. f_equal.
    unfold carvedType. simpl. rewrite orb_false_r.
    destruct (pos_eqb (x, y) p) eqn:E.
    + apply pos_eqb_eq in E. subst p. simpl in Hg. rewrite Hg. destruct t; reflexivity.
    + destruct t; reflexivity.
Qed.

Lemma carveCells_typeAt (cols rows : Z) (path : list Pos) :
  forall cells x y,
    typeAt (carveCells cols rows cells path) x y
    = carvedType cols rows path x y <$> typeAt cells x y.
Proof.
  induction path as [|p path IH]; intros cells x y.
  - simpl. destruct (typeAt cells x y) as [t|]; [| reflexivity].
    simpl. f_equal. destruct t; reflexivity.
  - unfold carveCells. simpl. fold (carveCells cols rows (carveCell cols rows cells p) path).
    rewrite IH, carveCell_typeAt.
    destruct (typeAt cells x y) as [t|]; [| reflexivity]. simpl. f_equal.
    unfold carvedType. simpl. rewrite orb_false_r.
    destruct (pos_eqb (x, y) p), (existsb (pos_eqb (x, y)) path),
      (inGrid cols rows x y), t; reflexivity.
Qed.

Lemma carveCells_rect (cols rows c r : Z) (path : list Pos) :
  forall cells, rectGrid c r cells -> rectGrid c r (carveCells cols rows cells path).
Proof.
  induction path as [|p path IH]; intros cells H; [exact H |].
  unfold carveCells. simpl. apply IH. unfold carveCell.
  destruct (negb _); [exact H |]. destruct (typeIs _ _ _ _); [exact H |].
  apply rectGrid_alterType. exact H.
Qed.

Lemma carveCells_keeps_room (cols rows : Z) (cells : Grid) (path : list Pos) (x y : Z) :
  typeAt (carveCells cols rows cells path) x y = Some room
  <-> typeAt cells x y = Some room.
Proof.
  rewrite carveCells_typeAt. destruct (typeAt cells x y) as [t|]; simpl.
  - unfold carvedType.
    destruct t; simpl; try tauto;
      destruct (existsb _ _ && _); split; congruence.
  - tauto.
Qed.

Lemma carveCells_corridor (cols rows : Z) (cells : Grid) (path : list Pos) (x y : Z) :
  typeAt (carveCells cols rows cells path) x y = Some corridor ->
  typeAt cells x y = Some corridor
  \/ (typeAt cells x y = Some empty /\ In (x, y) path /\ inGrid cols rows x y = true).
Proof.
  rewrite carveCells_typeAt. destruct (typeAt cells x y) as [t|]; simpl; [| discriminate].
  unfold carvedType. destruct t; try discriminate; [tauto |].
  destruct (existsb _ _) eqn:E; simpl; [| discriminate].
  destruct (inGrid cols rows x y); [| discriminate].
  intros _. right. apply existsb_pos_In in E. tauto.
Qed.

(** ** Writes of [placeRoom] *)

Lemma cellAt_Some_nonneg (cells : Grid) (x y : Z) (c : Cell) :
  cellAt cells x y = Some c -> 0 <= x /\ 0 <= y.
Proof.
  unfold cellAt. destruct (0 <=? x) eqn:Hx; [| discriminate].
  destruct (0 <=? y) eqn:Hy; [| discriminate]. intros _.
  apply Z.leb_le in Hx, Hy. lia.
Qed.

Lemma writeAll_keeps_room (ps : list Pos) :
  forall cells cells' x y,
    writeAll room cells ps = Some cells' ->
    typeAt cells x y = Some room -> typeAt cells' x y = Some room.
Proof.
  induction ps as [|p ps IH]; intros cells cells' x y Hw Hroom.
  - injection Hw as <-. exact Hroom.
  - unfold writeAll in Hw. simpl in Hw. unfold writeType at 2 in Hw.
    destruct (cellAt cells (fst p) (snd p)) as [c|] eqn:Hc.
    + apply (IH (alterType room cells p) cells' x y Hw).
      apply cellAt_Some_nonneg in Hc.
      rewrite typeAt_alterType by lia. rewrite Hroom.
      destruct (_ && _); reflexivity.
    + exfalso. clear -Hw. induction ps as [|q ps IHps]; simpl in Hw; [discriminate | auto].
Qed.

Lemma genStep_keeps_room (cells cells' : Grid) (x y : Z) :
  genStep cells cells' ->
  typeAt cells x y = Some room -> typeAt cells' x y = Some room.
Proof.
  intros [c c' r Hplace | cols rows c path] Hroom.
  - eapply writeAll_keeps_room; eassumption.
  - apply carveCells_keeps_room. exact Hroom.
Qed.

(** ** The run of the generator as a sequence of steps *)

Lemma placeLoop_steps (rng : RNG) (k : nat) :
  forall st st', placeLoop k rng st = Some st' ->
                 rtc genStep (ps_cells st) (ps_cells st').
Proof.
  induction k as [|k IH]; intros st st' H; simpl in H.
  - injection H as <-. apply rtc_refl.
  - destruct (placeGuard st); [| injection H as <-; apply rtc_refl].
    destruct (placeAttempt rng st) as [st1|] eqn:Hatt; [| discriminate].
    apply rtc_trans with (ps_cells st1); [| apply IH; exact H].
    rewrite placeAttempt_cases in Hatt.
    destruct (isAreaEmpty _ _ _ _ _).
    + destruct (placeRoom _ _) as [c|] eqn:Hp; [| discriminate].
      injection Hatt as <-. simpl. apply rtc_once. econstructor. exact Hp.
    + injection Hatt as <-. apply rtc_refl.
Qed.

Lemma carveCorridorBetween_step (rooms : list Room) (cols rows : Z)
      (cells cells' : Grid) (a b : nat) (ok : bool) :
  carveCorridorBetween rooms cols rows cells a b = Some (cells', ok) ->
  rtc genStep cells cells'.
Proof.
  unfold carveCorridorBetween.
  destruct (centerOf rooms a); [| discriminate].
  destruct (centerOf rooms b); [| discriminate].
  destruct (exitCellFromCenter _ _ _ a _); [| discriminate].
  destruct (exitCellFromCenter _ _ _ b _); [| discriminate].
  destruct (find _ _).
  - intros [= <- <-]. apply rtc_once. constructor.
  - intros [= <- <-]. apply rtc_refl.
Qed.

Lemma carveAll_steps (rooms : list Room) (cols rows : Z) (es : list Edge) :
  forall cells cells', carveAll rooms cols rows cells es = Some cells' ->
                       rtc genStep cells cells'.
Proof.
  induction es as [|e es IH]; intros cells cells' H.
  - injection H as <-. apply rtc_refl.
  - unfold carveAll in H. simpl in H.
    destruct (carveCorridorBetween rooms cols rows cells (ea e) (eb e)) as [[c ok]|] eqn:Hc.
    + simpl in H. apply rtc_trans with c.
      * eapply carveCorridorBetween_step. exact Hc.
      * apply IH. exact H.
    + simpl in H. exfalso. clear -H.
      induction es as [|e' es IHes]; simpl in H; [discriminate | auto].
Qed.

Lemma createDungeon_steps (rng : RNG) (d : Dungeon) :
  createDungeon rng = Some d ->
  rtc genStep (createEmptyDungeon (width DUNGEON_SIZE) (height DUNGEON_SIZE))
      (d_cells d).
Proof.
  unfold createDungeon. destruct (placeRooms rng) as [st|] eqn:Hst; [| discriminate].
  destruct (primMST _) as [mst|]; [| discriminate].
  destruct (carveAll _ _ _ _ _) as [cells'|] eqn:Hc; [| discriminate].
  intros [= <-]. simpl.
  apply rtc_trans with (ps_cells st).
  - unfold placeRooms in Hst. apply placeLoop_steps in Hst. exact Hst.
  - eapply carveAll_steps. exact Hc.
Qed.


(** * The router: exit cells *)

Lemma roomIndexFrom_range (rs : list Room) (x y : Z) :
  forall i, roomIndexFrom i rs x y = -1
            \/ i <= roomIndexFrom i rs x y < i + Z.of_nat (length rs).
Proof.
  induction rs as [|r rs IH]; intros i; simpl.
  - left. reflexivity.
  - destruct (inRoom r x y); [right; lia |].
    destruct (IH (i + 1)) as [H | H]; [left; exact H | right; lia].
Qed.

Lemma roomIndexFrom_hit (rs : list Room) (x y : Z) :
  forall i k r,
    0 <= i ->
    roomIndexFrom i rs x y = i + Z.of_nat k ->
    rs !! k = Some r -> inRoom r x y = true.
Proof.
  induction rs as [|r0 rs IH]; intros i k r Hi H Hk.
  - rewrite lookup_nil in Hk. discriminate.
  - simpl in H. destruct (inRoom r0 x y) eqn:E.
    + assert (k = 0%nat) by lia. subst k. simpl in Hk. injection Hk as <-. exact E.
    + destruct k as [|k].
      * destruct (roomIndexFrom_range rs x y (i + 1)) as [Hr | Hr]; lia.
      * simpl in Hk. apply (IH (i + 1) k r); [lia | lia | exact Hk].
Qed.

Lemma roomIndexAt_hit (rooms : list Room) (x y : Z) (k : nat) (r : Room) :
  roomIndexAt rooms x y = Z.of_nat k -> rooms !! k = Some r -> inRoom r x y = true.
Proof.
  intros H Hk. apply (roomIndexFrom_hit rooms x y 0 k r); [lia | exact H | exact Hk].
Qed.

Lemma roomIndexFrom_none (rs : list Room) (x y : Z) :
  forall i, 0 <= i ->
            (roomIndexFrom i rs x y = -1 <-> forall r, In r rs -> inRoom r x y = false).
Proof.
  induction rs as [|r0 rs IH]; intros i Hi; simpl.
  - split; [intros _ r [] | reflexivity].
  - destruct (inRoom r0 x y) eqn:E.
    + split; [lia |]. intros H. specialize (H r0 (or_introl eq_refl)). congruence.
    + rewrite (IH (i + 1)) by lia. split.
      * intros H r [<- | Hr]; auto.
      * intros H r Hr. apply H. right. exact Hr.
Qed.

Lemma roomIndexAt_none (rooms : list Room) (x y : Z) :
  roomIndexAt rooms x y = -1 <-> forall r, In r rooms -> inRoom r x y = false.
Proof. apply roomIndexFrom_none. lia. Qed.

Lemma distToRect_inRoom (r : Room) (x y : Z) :
  inRoom r x y = true -> distToRect r x y = 0.
Proof.
  rewrite inRoom_iff. intros H. unfold distToRect.
  repeat match goal with
         | |- context [?a <? ?b] => destruct (Z.ltb_spec a b)
         | |- context [?a >? ?b] => rewrite (Z.gtb_ltb a b); destruct (Z.ltb_spec b a)
         end; lia.
Qed.

(** [distToRect] moves by at most one between neighbouring cells. *)
Lemma distToRect_step (r : Room) (x y x' y' : Z) :
  0 < room_width r -> 0 < room_height r ->
  Z.abs (x' - x) <= 1 -> Z.abs (y' - y) <= 1 ->
  distToRect r x' y' <= distToRect r x y + 1.
Proof.
  intros Hw Hh Hx Hy. unfold distToRect.
  repeat match goal with
         | |- context [?a <? ?b] => destruct (Z.ltb_spec a b)
         | |- context [?a >? ?b] => rewrite (Z.gtb_ltb a b); destruct (Z.ltb_spec b a)
         end; lia.
Qed.

Lemma sign_range (d : Z) : Z.abs (sign d) <= 1.
Proof.
  unfold sign. destruct (d =? 0); [simpl; lia |].
  destruct (d >? 0); simpl; lia.
Qed.

Lemma sign_zero (d : Z) : sign d = 0 <-> d = 0.
Proof.
  unfold sign. destruct (Z.eqb_spec d 0); [tauto |].
  destruct (d >? 0); split; intros; lia || discriminate.
Qed.

Section ExitCells.

Variable rooms : list Room.
Variables cols rows : Z.

Lemma exitWalk_near (roomIdx : nat) (r : Room) (primaryX : bool) (stepX stepY : Z) :
  rooms !! roomIdx = Some r ->
  0 < room_width r -> 0 < room_height r ->
  Z.abs stepX <= 1 -> Z.abs stepY <= 1 ->
  forall fuel x y p,
    distToRect r x y <= 1 ->
    exitWalk rooms cols rows fuel roomIdx primaryX stepX stepY x y = Found p ->
    distToRect r (fst p) (snd p) <= 1 /\ inGrid cols rows (fst p) (snd p) = true.
Proof.
  intros Hr Hw Hh Hsx Hsy. induction fuel as [|fuel IH]; intros x y p Hd H.
  - discriminate.
  - simpl in H. destruct (inGrid cols rows x y) eqn:Hg; [| discriminate].
    destruct (roomIndexAt rooms x y =? Z.of_nat roomIdx) eqn:Hidx; simpl in H.
    + apply Z.eqb_eq in Hidx.
      pose proof (roomIndexAt_hit rooms x y roomIdx r Hidx Hr) as Hin.
      pose proof (distToRect_inRoom r x y Hin) as H0.
      destruct primaryX.
      * apply (IH (x + stepX) y p); [| exact H].
        pose proof (distToRect_step r x y (x + stepX) y Hw Hh). lia.
      * apply (IH x (y + stepY) p); [| exact H].
        pose proof (distToRect_step r x y x (y + stepY) Hw Hh). lia.
    + injection H as <-. simpl. split; assumption.
Qed.

(** A walk whose primary step is not zero ends. *)
Lemma exitWalk_ends (roomIdx : nat) (primaryX : bool) (stepX stepY : Z) :
  (if primaryX then Z.abs stepX = 1 else Z.abs stepY = 1) ->
  forall fuel x y,
    (Z.to_nat cols + Z.to_nat rows < fuel)%nat ->
    exitWalk rooms cols rows fuel roomIdx primaryX stepX stepY x y <> Spins.
Proof.
  intros Hstep.
  set (left_ := fun x y : Z =>
                  if primaryX
                  then (if stepX =? 1 then cols - x else x + 1)
                  else (if stepY =? 1 then rows - y else y + 1)).
  assert (Hgen : forall fuel x y,
             (0 < fuel)%nat ->
             (inGrid cols rows x y = true -> left_ x y < Z.of_nat fuel) ->
             exitWalk rooms cols rows fuel roomIdx primaryX stepX stepY x y <> Spins).
  { induction fuel as [|fuel IH]; intros x y Hpos Hm; [lia |].
    simpl. destruct (inGrid cols rows x y) eqn:Hg; [| discriminate].
    specialize (Hm eq_refl). apply inGrid_iff in Hg.
    destruct (negb _); [discriminate |].
    unfold left_ in *. destruct primaryX.
    - apply IH.
      + destruct (Z.eqb_spec stepX 1); lia.
      + intros Hg'. apply inGrid_iff in Hg'.
        destruct (Z.eqb_spec stepX 1); lia.
    - apply IH.
      + destruct (Z.eqb_spec stepY 1); lia.
      + intros Hg'. apply inGrid_iff in Hg'.
        destruct (Z.eqb_spec stepY 1); lia. }
  intros fuel x y Hf. apply Hgen; [lia |]. intros Hg. apply inGrid_iff in Hg.
  unfold left_.
  destruct primaryX; [destruct (stepX =? 1) | destruct (stepY =? 1)]; lia.
Qed.

Lemma exitCellFromCenter_total (roomIdx : nat) (r : Room) (target : Pos) :
  rooms !! roomIdx = Some r -> target <> center r ->
  exists p, exitCellFromCenter rooms cols rows roomIdx target = Some p.
Proof.
  intros Hr Hne. unfold exitCellFromCenter. rewrite Hr.
  set (dx := fst target - fst (center r)). set (dy := snd target - snd (center r)).
  assert (Hd : dx <> 0 \/ dy <> 0).
  { destruct (Z.eq_dec dx 0) as [Hx|]; [| left; assumption].
    destruct (Z.eq_dec dy 0) as [Hy|]; [| right; assumption].
    exfalso. apply Hne. unfold dx, dy in *.
    destruct target, (center r). simpl in *. f_equal; lia. }
  destruct (exitWalk _ _ _ _ _ _ _ _ _ _) eqn:Hwalk.
  - eauto.
  - destruct (find _ _); eauto.
  - exfalso. revert Hwalk. apply exitWalk_ends; [| unfold walkFuel; lia].
    destruct (Z.leb_spec (Z.abs dy) (Z.abs dx)).
    + assert (dx <> 0) by lia. unfold sign.
      destruct (Z.eqb_spec dx 0); [lia |]. destruct (dx >? 0); reflexivity.
    + assert (dy <> 0) by lia. unfold sign.
      destruct (Z.eqb_spec dy 0); [lia |]. destruct (dy >? 0); reflexivity.
Qed.

Lemma exitCellFromCenter_near (roomIdx : nat) (r : Room) (target p : Pos) :
  rooms !! roomIdx = Some r ->
  0 < room_width r -> 0 < room_height r ->
  inRoom r (fst (center r)) (snd (center r)) = true ->
  exitCellFromCenter rooms cols rows roomIdx target = Some p ->
  distToRect r (fst p) (snd p) <= 1.
Proof.
  intros Hr Hw Hh Hc. unfold exitCellFromCenter. rewrite Hr.
  destruct (exitWalk _ _ _ _ _ _ _ _ _ _) eqn:Hwalk.
  - intros [= <-].
    eapply (exitWalk_near roomIdx r _ _ _ Hr Hw Hh (sign_range _) (sign_range _));
      [| exact Hwalk].
    rewrite (distToRect_inRoom r _ _ Hc). lia.
  - destruct (find _ _) as [q|] eqn:Hfind.
    + intros [= <-]. apply find_some in Hfind as [Hin _].
      destruct q as [qx qy]. apply In_rectCells in Hin. simpl. unfold distToRect.
      repeat match goal with
             | |- context [?a <? ?b] => destruct (Z.ltb_spec a b)
             | |- context [?a >? ?b] => rewrite (Z.gtb_ltb a b); destruct (Z.ltb_spec b a)
             end; lia.
    + intros [= <-]. simpl. rewrite (distToRect_inRoom r _ _ Hc). lia.
  - discriminate.
Qed.

End ExitCells.


(** * The router: validation and commit *)

Section Validation.

Variable rooms : list Room.
Variables cols rows : Z.

Lemma cellInvalid_false (cells : Grid) (a b : nat) (s e p : Pos) :
  cellInvalid rooms cols rows cells a b s e p = false ->
  inGrid cols rows (fst p) (snd p) = true
  /\ roomIndexAt rooms (fst p) (snd p) = -1
  /\ cellTooCloseToRooms rooms p a b s e = false
  /\ corridorTooCloseToOthers cols rows cells p = false.
Proof.
  unfold cellInvalid. intros H.
  apply orb_false_iff in H as [H H4]. apply orb_false_iff in H as [H H3].
  apply orb_false_iff in H as [H1 H2].
  apply negb_false_iff in H1, H2. apply Z.eqb_eq in H2. tauto.
Qed.

Lemma pathAccepted_true (cells : Grid) (a b : nat) (s e : Pos) (path : list Pos) :
  pathAccepted rooms cols rows cells a b s e path = true ->
  (forall p, In p path -> cellInvalid rooms cols rows cells a b s e p = false)
  /\ createsCorridorSquare cols rows cells path = false.
Proof.
  unfold pathAccepted. intros H. apply andb_true_iff in H as [H1 H2].
  apply negb_true_iff in H1, H2. split; [| exact H2].
  intros p Hp. destruct (cellInvalid _ _ _ _ _ _ _ _ p) eqn:E; [| reflexivity].
  assert (existsb (cellInvalid rooms cols rows cells a b s e) path = true).
  { apply existsb_exists. exists p. split; assumption. }
  congruence.
Qed.

(** Every cell of an accepted path is a corridor after the commit. *)
Lemma accepted_path_carved (cells : Grid) (a b : nat) (s e : Pos) (path : list Pos) :
  rectGrid cols rows cells -> roomsDrawn rooms cells ->
  pathAccepted rooms cols rows cells a b s e path = true ->
  forall p, In p path ->
            typeAt (carveCells cols rows cells path) (fst p) (snd p) = Some corridor.
Proof.
  intros Hrect Hdrawn Hacc p Hp.
  apply pathAccepted_true in Hacc as [Hvalid _].
  destruct (cellInvalid_false _ _ _ _ _ _ (Hvalid p Hp)) as (Hg & Hnone & _ & _).
  rewrite carveCells_typeAt.
  pose proof Hg as Hg'. apply inGrid_iff in Hg'.
  destruct (cellAt_in_bounds cols rows cells (fst p) (snd p) Hrect) as [c Hc]; try lia.
  unfold typeAt at 1. rewrite Hc. simpl. f_equal.
  assert (Ht : typeAt cells (fst p) (snd p) = Some (cell_type c)).
  { unfold typeAt. rewrite Hc. reflexivity. }
  unfold carvedType.
  assert (Hin : existsb (pos_eqb (fst p, snd p)) path = true).
  { apply existsb_pos_In. destruct p; exact Hp. }
  rewrite Hin, Hg. simpl.
  destruct (cell_type c) eqn:Ec; try reflexivity.
  exfalso. destruct (Hdrawn _ _ _ Ht) as [Hfwd _].
  destruct (Hfwd eq_refl) as (r & Hr & Hinr).
  rewrite roomIndexAt_none in Hnone. rewrite (Hnone r Hr) in Hinr. discriminate.
Qed.

Lemma carveEdge_None (es : list Edge) :
  fold_left (carveEdge rooms cols rows) es None = None.
Proof. induction es; simpl; auto. Qed.

Lemma carveAll_cons (cells : Grid) (e : Edge) (es : list Edge) :
  carveAll rooms cols rows cells (e :: es)
  = match carveCorridorBetween rooms cols rows cells (ea e) (eb e) with
    | Some (cells', _) => carveAll rooms cols rows cells' es
    | None => None
    end.
Proof.
  unfold carveAll. simpl.
  destruct (carveCorridorBetween rooms cols rows cells (ea e) (eb e)) as [[c ok]|]; simpl.
  - reflexivity.
  - apply carveEdge_None.
Qed.

End Validation.


(** * The router: geometry of the candidate polylines *)

Lemma lineWalk_between (x1 y1 dx dy : Z) (n : nat) :
  forall x y q,
    (x < x1 -> dx = 1) -> (x1 < x -> dx = -1) ->
    (y < y1 -> dy = 1) -> (y1 < y -> dy = -1) ->
    In q (lineWalk n x y x1 y1 dx dy) ->
    between x x1 (fst q) /\ between y y1 (snd q).
Proof.
  unfold between. induction n as [|n IH]; intros x y q Hx1 Hx2 Hy1 Hy2 Hin.
  - destruct Hin.
  - simpl in Hin.
    set (x' := if x =? x1 then x else x + dx) in *.
    set (y' := if y =? y1 then y else y + dy) in *.
    assert (Hx' : between x x1 x' /\ (x' < x1 -> dx = 1) /\ (x1 < x' -> dx = -1)).
    { unfold between, x'. destruct (Z.eqb_spec x x1); lia. }
    assert (Hy' : between y y1 y' /\ (y' < y1 -> dy = 1) /\ (y1 < y' -> dy = -1)).
    { unfold between, y'. destruct (Z.eqb_spec y y1); lia. }
    unfold between in *.
    destruct Hin as [<- | Hin].
    + simpl. lia.
    + destruct (IH x' y' q) as [H1 H2]; try tauto. lia.
Qed.

Lemma lineCells_inBox (x0 y0 x1 y1 : Z) (q : Pos) :
  In q (lineCells x0 y0 x1 y1) -> inBox (x0, y0) (x1, y1) q.
Proof.
  unfold lineCells, inBox. cbn [fst snd]. intros [<- | Hin].
  - unfold between. simpl. lia.
  - eapply lineWalk_between; [| | | | exact Hin].
    + destruct (Z.eqb_spec x1 x0); [lia |]. destruct (Z.gtb_spec x1 x0); lia.
    + destruct (Z.eqb_spec x1 x0); [lia |]. destruct (Z.gtb_spec x1 x0); lia.
    + destruct (Z.eqb_spec y1 y0); [lia |]. destruct (Z.gtb_spec y1 y0); lia.
    + destruct (Z.eqb_spec y1 y0); [lia |]. destruct (Z.gtb_spec y1 y0); lia.
Qed.

Lemma last_nonempty_default {A : Type} (l : list A) (c d d' : A) :
  List.last (c :: l) d = List.last (c :: l) d'.
Proof.
  revert c. induction l as [|b l IH]; intros c; [reflexivity |].
  change (List.last (b :: l) d = List.last (b :: l) d'). apply IH.
Qed.

(** The walk of [lineCells] stops on the target: when the counter runs out
    the guard of the [while] loop is false. *)
Lemma lineWalk_reaches (x1 y1 dx dy : Z) (n : nat) :
  forall x y,
    (x < x1 -> dx = 1) -> (x1 < x -> dx = -1) ->
    (y < y1 -> dy = 1) -> (y1 < y -> dy = -1) ->
    - Z.of_nat n <= x1 - x <= Z.of_nat n ->
    - Z.of_nat n <= y1 - y <= Z.of_nat n ->
    List.last (lineWalk n x y x1 y1 dx dy) (x, y) = (x1, y1).
Proof.
  induction n as [|n IH]; intros x y Hx1 Hx2 Hy1 Hy2 Hnx Hny.
  - simpl. f_equal; lia.
  - cbn [lineWalk]. rewrite Nat2Z.inj_succ in Hnx, Hny.
    set (x' := if x =? x1 then x else x + dx) in *.
    set (y' := if y =? y1 then y else y + dy) in *.
    assert (Hx' : (x' < x1 -> dx = 1) /\ (x1 < x' -> dx = -1)
                  /\ - Z.of_nat n <= x1 - x' <= Z.of_nat n).
    { unfold x'. destruct (Z.eqb_spec x x1); lia. }
    assert (Hy' : (y' < y1 -> dy = 1) /\ (y1 < y' -> dy = -1)
                  /\ - Z.of_nat n <= y1 - y' <= Z.of_nat n).
    { unfold y'. destruct (Z.eqb_spec y y1); lia. }
    destruct Hx' as (Hx1' & Hx2' & Hax). destruct Hy' as (Hy1' & Hy2' & Hay).
    clearbody x' y'.
    specialize (IH x' y' Hx1' Hx2' Hy1' Hy2' Hax Hay).
    destruct (lineWalk n x' y' x1 y1 dx dy) as [|c l] eqn:E.
    + exact IH.
    + change (List.last ((x', y') :: c :: l) (x, y)) with (List.last (c :: l) (x, y)).
      rewrite (last_nonempty_default l c (x, y) (x', y')).
      exact IH.
Qed.

Lemma lineCells_reaches (x0 y0 x1 y1 : Z) :
  List.last (lineCells x0 y0 x1 y1) (x0, y0) = (x1, y1).
Proof.
  unfold lineCells.
  set (n := Z.to_nat (Z.max (Z.abs (x1 - x0)) (Z.abs (y1 - y0)))).
  set (dx := if x1 =? x0 then 0 else if x1 >? x0 then 1 else -1).
  set (dy := if y1 =? y0 then 0 else if y1 >? y0 then 1 else -1).
  assert (H : List.last (lineWalk n x0 y0 x1 y1 dx dy) (x0, y0) = (x1, y1)).
  { apply lineWalk_reaches; unfold dx, dy, n.
    - destruct (Z.eqb_spec x1 x0); [lia |]. destruct (Z.gtb_spec x1 x0); lia.
    - destruct (Z.eqb_spec x1 x0); [lia |]. destruct (Z.gtb_spec x1 x0); lia.
    - destruct (Z.eqb_spec y1 y0); [lia |]. destruct (Z.gtb_spec y1 y0); lia.
    - destruct (Z.eqb_spec y1 y0); [lia |]. destruct (Z.gtb_spec y1 y0); lia.
    - lia.
    - lia. }
  destruct (lineWalk n x0 y0 x1 y1 dx dy) as [|c l] eqn:E.
  - exact H.
  - change (List.last ((x0, y0) :: c :: l) (x0, y0)) with (List.last (c :: l) (x0, y0)).
    exact H.
Qed.

(** The cells of a polyline lie in the boxes of its segments. *)
Lemma polylineToCells_inBox (pts : list Pos) (q : Pos) :
  In q (polylineToCells pts) ->
  exists before u v after, pts = before ++ u :: v :: after /\ inBox u v q.
Proof.
  induction pts as [|a pts IH]; [intros [] |].
  destruct pts as [|b rest]; [intros [] |].
  cbn [polylineToCells]. intros Hin. apply in_app_or in Hin as [Hin | Hin].
  - destruct (pos_eqb a b); [destruct Hin |].
    exists [], a, b, rest. split; [reflexivity |].
    destruct a, b. apply lineCells_inBox. exact Hin.
  - destruct (IH Hin) as (before & u & v & after & Heq & Hbox).
    exists (a :: before), u, v, after. split; [| exact Hbox].
    rewrite Heq. reflexivity.
Qed.

Lemma dedupe_In (polys : list (list Pos)) :
  forall seen p, In p (dedupe seen polys) -> In p polys.
Proof.
  induction polys as [|q polys IH]; intros seen p H; [exact H |].
  simpl in H. destruct (existsb (poly_eqb q) seen).
  - right. eapply IH. exact H.
  - destruct H as [<- | H]; [left; reflexivity | right; eapply IH; exact H].
Qed.

Lemma candidatePolylines_shape (cols rows : Z) (s e : Pos) (poly : list Pos) :
  In poly (candidatePolylines cols rows s e) -> candidateShape cols rows s e poly.
Proof.
  unfold candidatePolylines. intros H. apply filter_In in H as [H _].
  apply dedupe_In in H.
  apply in_app_or in H as [H | H].
  { destruct ((fst s =? fst e) || (snd s =? snd e)) eqn:E; [| destruct H].
    destruct H as [<- | []]. apply shape_direct.
    apply orb_true_iff in E. rewrite !Z.eqb_eq in E. exact E. }
  apply in_app_or in H as [H | H].
  { destruct H as [<- | [<- | []]]; constructor. }
  apply in_app_or in H as [H | H].
  - apply in_map_iff in H as (off & <- & Hoff). apply In_seqZ in Hoff.
    apply shape_via_x. lia.
  - apply in_map_iff in H as (off & <- & Hoff). apply In_seqZ in Hoff.
    apply shape_via_y. lia.
Qed.


(** * The router: a path cannot fold onto itself *)

Lemma clamp_near_mid (a b off hi : Z) :
  0 <= a <= hi -> 0 <= b <= hi -> -2 <= off <= 2 ->
  (a + b) / 2 - 2 <= clamp ((a + b) / 2 + off) 0 hi <= (a + b) / 2 + 2.
Proof.
  intros Ha Hb Hoff. unfold clamp.
  assert (0 <= (a + b) / 2 <= hi).
  { split; [apply Z.div_pos; lia |]. apply Z.div_le_upper_bound; lia. }
  destruct (Z.ltb_spec ((a + b) / 2 + off) 0); [lia |].
  destruct (Z.gtb_spec ((a + b) / 2 + off) hi); lia.
Qed.

(** The cells of every candidate lie on a column turn or on a row turn. *)
Lemma candidate_cells_turn (cols rows : Z) (s e : Pos) (poly : list Pos) :
  candidateShape cols rows s e poly ->
  0 <= fst s < cols -> 0 <= fst e < cols ->
  0 <= snd s < rows -> 0 <= snd e < rows ->
  (exists t, (t = fst e \/ (fst s + fst e) / 2 - 2 <= t <= (fst s + fst e) / 2 + 2)
             /\ forall q, In q (polylineToCells poly) -> columnTurn s e t q)
  \/ (exists t, (t = snd e \/ (snd s + snd e) / 2 - 2 <= t <= (snd s + snd e) / 2 + 2)
                /\ forall q, In q (polylineToCells poly) -> rowTurn s e t q).
Proof.
  intros Hshape Hsx Hex Hsy Hey.
  assert (Hsegs : forall (pts : list Pos) q,
             In q (polylineToCells pts) ->
             exists before u v after, pts = before ++ u :: v :: after /\ inBox u v q)
    by (intros; apply polylineToCells_inBox; assumption).
  destruct s as [sx sy], e as [ex ey]. cbn [fst snd] in *.
  destruct Hshape as [[Hd | Hd] | | | off Hoff | off Hoff]; cbn [fst snd] in *.
  - (* vertical direct segment *)
    right. exists ey. split; [left; reflexivity |]. intros q Hq.
    destruct (Hsegs _ _ Hq) as (before & u & v & after & Heq & Hbox).
    destruct before as [|b0 before]; [| destruct before as [|b1 before]; [| destruct before; discriminate]].
    + injection Heq as <- <- _. unfold rowTurn, inBox, between in *. cbn [fst snd] in *. lia.
    + discriminate.
  - (* horizontal direct segment *)
    left. exists ex. split; [left; reflexivity |]. intros q Hq.
    destruct (Hsegs _ _ Hq) as (before & u & v & after & Heq & Hbox).
    destruct before as [|b0 before]; [| destruct before as [|b1 before]; [| destruct before; discriminate]].
    + injection Heq as <- <- _. unfold columnTurn, inBox, between in *. cbn [fst snd] in *. lia.
    + discriminate.
  - left. exists ex. split; [left; reflexivity |]. intros q Hq.
    destruct (Hsegs _ _ Hq) as (before & u & v & after & Heq & Hbox).
    destruct before as [|b0 before].
    { injection Heq as <- <- _. left. exact Hbox. }
    destruct before as [|b1 before].
    { injection Heq as _ <- <- _. right. left. exact Hbox. }
    destruct before as [|b2 before]; [discriminate |].
    destruct before; discriminate.
  - right. exists ey. split; [left; reflexivity |]. intros q Hq.
    destruct (Hsegs _ _ Hq) as (before & u & v & after & Heq & Hbox).
    destruct before as [|b0 before].
    { injection Heq as <- <- _. left. exact Hbox. }
    destruct before as [|b1 before].
    { injection Heq as _ <- <- _. right. left. exact Hbox. }
    destruct before as [|b2 before]; [discriminate |].
    destruct before; discriminate.
  - left. exists (clamp ((sx + ex) / 2 + off) 0 (cols - 1)).
    split; [right; apply clamp_near_mid; lia |]. intros q Hq.
    destruct (Hsegs _ _ Hq) as (before & u & v & after & Heq & Hbox).
    destruct before as [|b0 before].
    { injection Heq as <- <- _. left. exact Hbox. }
    destruct before as [|b1 before].
    { injection Heq as _ <- <- _. right. left. exact Hbox. }
    destruct before as [|b2 before].
    { injection Heq as _ _ <- <- _. right. right. exact Hbox. }
    destruct before as [|b3 before]; [discriminate |].
    destruct before; discriminate.
  - right. exists (clamp ((sy + ey) / 2 + off) 0 (rows - 1)).
    split; [right; apply clamp_near_mid; lia |]. intros q Hq.
    destruct (Hsegs _ _ Hq) as (before & u & v & after & Heq & Hbox).
    destruct before as [|b0 before].
    { injection Heq as <- <- _. left. exact Hbox. }
    destruct before as [|b1 before].
    { injection Heq as _ <- <- _. right. left. exact Hbox. }
    destruct before as [|b2 before].
    { injection Heq as _ _ <- <- _. right. right. exact Hbox. }
    destruct before as [|b3 before]; [discriminate |].
    destruct before; discriminate.
Qed.

(** Two cells, one above the other, in a column that is not the turning
    column: the two rows of the path are adjacent and overlap, which brings
    the two ends within three cells of each other. *)
Lemma column_pair_close (s e : Pos) (t xc y : Z) :
  xc <> t ->
  (t = fst e \/ (fst s + fst e) / 2 - 2 <= t <= (fst s + fst e) / 2 + 2) ->
  columnTurn s e t (xc, y) -> columnTurn s e t (xc, y + 1) ->
  1 <= chebyshev s e <= 3.
Proof.
  destruct s as [sx sy], e as [ex ey].
  unfold columnTurn, inBox, between, chebyshev. cbn [fst snd].
  intros Hne Ht H1 H2.
  pose proof (Z.div_mod (sx + ex) 2 ltac:(lia)) as Hdm.
  pose proof (Z.mod_pos_bound (sx + ex) 2 ltac:(lia)) as Hmb.
  set (m := (sx + ex) / 2) in *. clearbody m.
  set (rm := (sx + ex) mod 2) in *. clearbody rm.
  destruct H1 as [H1 | [H1 | H1]], H2 as [H2 | [H2 | H2]]; lia.
Qed.

Lemma row_pair_close (s e : Pos) (t x yc : Z) :
  yc <> t ->
  (t = snd e \/ (snd s + snd e) / 2 - 2 <= t <= (snd s + snd e) / 2 + 2) ->
  rowTurn s e t (x, yc) -> rowTurn s e t (x + 1, yc) ->
  1 <= chebyshev s e <= 3.
Proof.
  destruct s as [sx sy], e as [ex ey].
  unfold rowTurn, inBox, between, chebyshev. cbn [fst snd].
  intros Hne Ht H1 H2.
  pose proof (Z.div_mod (sy + ey) 2 ltac:(lia)) as Hdm.
  pose proof (Z.mod_pos_bound (sy + ey) 2 ltac:(lia)) as Hmb.
  set (m := (sy + ey) / 2) in *. clearbody m.
  set (rm := (sy + ey) mod 2) in *. clearbody rm.
  destruct H1 as [H1 | [H1 | H1]], H2 as [H2 | [H2 | H2]]; lia.
Qed.

(** A candidate whose own cells fill a 2x2 block joins two exit cells that
    are at most three cells apart. *)
Lemma block_on_path_close (cols rows : Z) (s e : Pos) (poly : list Pos) (x y : Z) :
  candidateShape cols rows s e poly ->
  0 <= fst s < cols -> 0 <= fst e < cols ->
  0 <= snd s < rows -> 0 <= snd e < rows ->
  In (x, y) (polylineToCells poly) -> In (x + 1, y) (polylineToCells poly) ->
  In (x, y + 1) (polylineToCells poly) -> In (x + 1, y + 1) (polylineToCells poly) ->
  1 <= chebyshev s e <= 3.
Proof.
  intros Hshape Hsx Hex Hsy Hey H00 H10 H01 H11.
  destruct (candidate_cells_turn cols rows s e poly Hshape Hsx Hex Hsy Hey)
    as [(t & Ht & Hturn) | (t & Ht & Hturn)].
  - destruct (Z.eq_dec x t) as [-> | Hne].
    + apply (column_pair_close s e t (t + 1) y); auto. lia.
    + apply (column_pair_close s e t x y); auto.
  - destruct (Z.eq_dec y t) as [-> | Hne].
    + apply (row_pair_close s e t x (t + 1)); auto. lia.
    + apply (row_pair_close s e t x y); auto.
Qed.

(** ** Exit cells of two separated rooms are far apart *)

Lemma exits_far (ra rb : Room) (s e : Pos) :
  0 < room_width ra -> 0 < room_height ra ->
  0 < room_width rb -> 0 < room_height rb ->
  apart ROOM_SEPARATION ra rb ->
  distToRect ra (fst s) (snd s) <= 1 ->
  distToRect rb (fst e) (snd e) <= 1 ->
  3 < chebyshev s e.
Proof.
  destruct s as [sx sy], e as [ex ey].
  unfold apart, distToRect, chebyshev, ROOM_SEPARATION. cbn [fst snd].
  intros Hwa Hha Hwb Hhb Hap.
  repeat match goal with
         | |- context [?a <? ?b] => destruct (Z.ltb_spec a b)
         | |- context [?a >? ?b] => rewrite (Z.gtb_ltb a b); destruct (Z.ltb_spec b a)
         end; lia.
Qed.


(** * The router: no filled 2x2 block *)

Lemma neighbourOffsets_In (dx dy : Z) :
  -1 <= dx <= 1 -> -1 <= dy <= 1 -> In (dx, dy) neighbourOffsets.
Proof.
  intros Hx Hy.
  assert (Ex : dx = -1 \/ dx = 0 \/ dx = 1) by lia.
  assert (Ey : dy = -1 \/ dy = 0 \/ dy = 1) by lia.
  destruct Ex as [-> | [-> | ->]], Ey as [-> | [-> | ->]]; simpl; tauto.
Qed.

Lemma corridorTooCloseToOthers_false (cols rows : Z) (cells : Grid) (p : Pos) :
  corridorTooCloseToOthers cols rows cells p = false ->
  inGrid cols rows (fst p) (snd p) = true
  /\ (typeIs corridor cells (fst p) (snd p) = true
      \/ forall dx dy,
        -1 <= dx <= 1 -> -1 <= dy <= 1 -> (dx <> 0 \/ dy <> 0) ->
        inGrid cols rows (fst p + dx) (snd p + dy) = true ->
        typeIs corridor cells (fst p + dx) (snd p + dy) = false).
Proof.
  unfold corridorTooCloseToOthers.
  destruct (inGrid cols rows (fst p) (snd p)); cbn [negb]; [| discriminate].
  destruct (typeIs corridor cells (fst p) (snd p)); [intros _; tauto |].
  intros H. split; [reflexivity |]. right. intros dx dy Hdx Hdy Hnz Hg.
  destruct (typeIs corridor cells (fst p + dx) (snd p + dy)) eqn:Ht; [| reflexivity].
  exfalso.
  assert (Hex : existsb
                  (fun d : Pos =>
                     negb ((fst d =? 0) && (snd d =? 0))
                     && inGrid cols rows (fst p + fst d) (snd p + snd d)
                     && typeIs corridor cells (fst p + fst d) (snd p + snd d)
                     && (Z.max (Z.abs (fst d)) (Z.abs (snd d)) <=? CORRIDOR_CORRIDOR_GAP))
                  neighbourOffsets = true).
  { apply existsb_exists. exists (dx, dy). split; [apply neighbourOffsets_In; lia |].
    cbn [fst snd]. rewrite Hg, Ht. unfold CORRIDOR_CORRIDOR_GAP.
    rewrite !andb_true_iff. repeat split.
    - apply negb_true_iff. apply andb_false_iff.
      destruct Hnz; [left | right]; apply Z.eqb_neq; assumption.
    - apply Z.leb_le. lia. }
  congruence.
Qed.

Section NoBlock.

Variable rooms : list Room.
Variables cols rows : Z.
Variable cells : Grid.
Variables a b : nat.
Variables s e : Pos.
Variable path : list Pos.

Hypothesis Hrect : rectGrid cols rows cells.
Hypothesis Hacc : pathAccepted rooms cols rows cells a b s e path = true.

(** A freshly carved cell has no corridor around it but those of its own
    path. *)
Lemma fresh_cell_isolated (x y dx dy : Z) :
  In (x, y) path -> typeAt cells x y <> Some corridor ->
  -1 <= dx <= 1 -> -1 <= dy <= 1 -> (dx <> 0 \/ dy <> 0) ->
  typeAt (carveCells cols rows cells path) (x + dx) (y + dy) = Some corridor ->
  In (x + dx, y + dy) path /\ typeAt cells (x + dx) (y + dy) <> Some corridor.
Proof.
  intros Hin Hfresh Hdx Hdy Hnz Hc.
  destruct (pathAccepted_true _ _ _ _ _ _ _ _ _ Hacc) as [Hvalid _].
  destruct (cellInvalid_false _ _ _ _ _ _ _ _ _ (Hvalid _ Hin)) as (_ & _ & _ & Hclose).
  apply corridorTooCloseToOthers_false in Hclose as [_ [Hold | Hnone]].
  { apply typeIs_typeAt in Hold. contradiction. }
  cbn [fst snd] in Hnone.
  apply carveCells_corridor in Hc as [Hc | (He & Hp & _)].
  - exfalso. unfold typeAt in Hc.
    destruct (cellAt cells (x + dx) (y + dy)) as [c|] eqn:Hcell; [| discriminate].
    pose proof (cellAt_Some_bounds _ _ _ _ _ _ Hrect Hcell) as Hb.
    assert (Hg : inGrid cols rows (x + dx) (y + dy) = true) by (apply inGrid_iff; lia).
    specialize (Hnone dx dy Hdx Hdy Hnz Hg). apply typeIs_false in Hnone.
    apply Hnone. unfold typeAt. rewrite Hcell. exact Hc.
  - split; [exact Hp | congruence].
Qed.

Lemma fresh_neighbour (u v u' v' : Z) :
  In (u, v) path -> typeAt cells u v <> Some corridor ->
  -1 <= u' - u <= 1 -> -1 <= v' - v <= 1 -> (u' <> u \/ v' <> v) ->
  typeAt (carveCells cols rows cells path) u' v' = Some corridor ->
  In (u', v') path /\ typeAt cells u' v' <> Some corridor.
Proof.
  intros Hin Hfresh Hu Hv Hne Hc.
  replace u' with (u + (u' - u)) in * by lia.
  replace v' with (v + (v' - v)) in * by lia.
  apply fresh_cell_isolated; auto; lia.
Qed.

(** A new filled block is made of cells of the path alone. *)
Lemma block_is_fresh (x y : Z) :
  noCorridorBlock cells ->
  corridorBlockAt (carveCells cols rows cells path) x y ->
  In (x, y) path /\ In (x + 1, y) path
  /\ In (x, y + 1) path /\ In (x + 1, y + 1) path.
Proof.
  intros Hno (H00 & H10 & H01 & H11).
  assert (Hcase : forall u v,
             typeAt (carveCells cols rows cells path) u v = Some corridor ->
             typeAt cells u v = Some corridor
             \/ (In (u, v) path /\ typeAt cells u v <> Some corridor)).
  { intros u v H. apply carveCells_corridor in H as [H | (H & Hp & _)];
      [left; exact H | right; split; [exact Hp | congruence]]. }
  assert (Hall : forall u v,
             In (u, v) path -> typeAt cells u v <> Some corridor ->
             x <= u <= x + 1 -> y <= v <= y + 1 ->
             forall u' v', x <= u' <= x + 1 -> y <= v' <= y + 1 ->
                           typeAt (carveCells cols rows cells path) u' v' = Some corridor ->
                           In (u', v') path /\ typeAt cells u' v' <> Some corridor).
  { intros u v Hin Hf Hu Hv u' v' Hu' Hv' Hc.
    destruct (Z.eq_dec u' u) as [-> | Hneu].
    - destruct (Z.eq_dec v' v) as [-> | Hnev]; [split; assumption |].
      apply (fresh_neighbour u v u v'); auto; lia.
    - apply (fresh_neighbour u v u' v'); auto; lia. }
  assert (Hfresh : exists u v, In (u, v) path /\ typeAt cells u v <> Some corridor
                               /\ x <= u <= x + 1 /\ y <= v <= y + 1).
  { destruct (Hcase _ _ H00) as [O00 | [P F]]; [| exists x, y; repeat split; auto; lia].
    destruct (Hcase _ _ H10) as [O10 | [P F]]; [| exists (x + 1), y; repeat split; auto; lia].
    destruct (Hcase _ _ H01) as [O01 | [P F]]; [| exists x, (y + 1); repeat split; auto; lia].
    destruct (Hcase _ _ H11) as [O11 | [P F]]; [| exists (x + 1), (y + 1); repeat split; auto; lia].
    exfalso. apply (Hno x y). repeat split; assumption. }
  destruct Hfresh as (u & v & Hin & Hf & Hu & Hv).
  repeat split.
  - apply (Hall u v Hin Hf Hu Hv x y); auto; lia.
  - apply (Hall u v Hin Hf Hu Hv (x + 1) y); auto; lia.
  - apply (Hall u v Hin Hf Hu Hv x (y + 1)); auto; lia.
  - apply (Hall u v Hin Hf Hu Hv (x + 1) (y + 1)); auto; lia.
Qed.

End NoBlock.


(** * The router keeps its invariant *)

Lemma roomShape_facts (r : Room) :
  roomShape r ->
  0 < room_width r /\ 0 < room_height r
  /\ inRoom r (fst (center r)) (snd (center r)) = true
  /\ inGrid (width DUNGEON_SIZE) (height DUNGEON_SIZE)
            (fst (center r)) (snd (center r)) = true.
Proof.
  unfold roomShape. unfold_consts. intros (Hx & Hy & Hxw & Hyh & Hw & Hh & Hc).
  rewrite Hc. cbn [fst snd]. rewrite inRoom_iff, inGrid_iff.
  pose proof (Z.div_mod (room_width r) 2 ltac:(lia)).
  pose proof (Z.mod_pos_bound (room_width r) 2 ltac:(lia)).
  pose proof (Z.div_mod (room_height r) 2 ltac:(lia)).
  pose proof (Z.mod_pos_bound (room_height r) 2 ltac:(lia)).
  lia.
Qed.

Lemma exitCellFromCenter_inGrid (rooms : list Room) (cols rows : Z)
      (roomIdx : nat) (r : Room) (target p : Pos) :
  rooms !! roomIdx = Some r ->
  0 < room_width r -> 0 < room_height r ->
  inRoom r (fst (center r)) (snd (center r)) = true ->
  inGrid cols rows (fst (center r)) (snd (center r)) = true ->
  exitCellFromCenter rooms cols rows roomIdx target = Some p ->
  inGrid cols rows (fst p) (snd p) = true.
Proof.
  intros Hr Hw Hh Hc Hg. unfold exitCellFromCenter. rewrite Hr.
  destruct (exitWalk _ _ _ _ _ _ _ _ _ _) eqn:Hwalk.
  - intros [= <-].
    eapply (exitWalk_near rooms cols rows roomIdx r _ _ _ Hr Hw Hh
                          (sign_range _) (sign_range _)); [| exact Hwalk].
    rewrite (distToRect_inRoom r _ _ Hc). lia.
  - destruct (find _ _) as [q|] eqn:Hfind.
    + intros [= <-]. apply find_some in Hfind as [_ Hq].
      apply andb_true_iff in Hq as [Hq _]. exact Hq.
    + intros [= <-]. exact Hg.
  - discriminate.
Qed.

Lemma lookup_In (rooms : list Room) (i : nat) (r : Room) :
  rooms !! i = Some r -> In r rooms.
Proof. intros H. apply list_elem_of_In. eapply list_elem_of_lookup_2. exact H. Qed.

Lemma accepted_no_block (rooms : list Room) (cells : Grid) (a b : nat)
      (ra rb : Room) (s e : Pos) (poly : list Pos) :
  RouterInv rooms cells ->
  rooms !! a = Some ra -> rooms !! b = Some rb ->
  exitCellFromCenter rooms (width DUNGEON_SIZE) (height DUNGEON_SIZE) a (center rb) = Some s ->
  exitCellFromCenter rooms (width DUNGEON_SIZE) (height DUNGEON_SIZE) b (center ra) = Some e ->
  In poly (candidatePolylines (width DUNGEON_SIZE) (height DUNGEON_SIZE) s e) ->
  pathAccepted rooms (width DUNGEON_SIZE) (height DUNGEON_SIZE) cells a b s e
               (polylineToCells poly) = true ->
  noCorridorBlock (carveCells (width DUNGEON_SIZE) (height DUNGEON_SIZE) cells
                              (polylineToCells poly)).
Proof.
  intros [Hrect Hshape Hapart Hdrawn Hno] Ha Hb Hs He Hpoly Hacc x y Hblock.
  rewrite List.Forall_forall in Hshape.
  destruct (roomShape_facts ra (Hshape ra (lookup_In _ _ _ Ha))) as (Hwa & Hha & Hca & Hga).
  destruct (roomShape_facts rb (Hshape rb (lookup_In _ _ _ Hb))) as (Hwb & Hhb & Hcb & Hgb).
  pose proof (exitCellFromCenter_inGrid _ _ _ _ _ _ _ Ha Hwa Hha Hca Hga Hs) as Hsg.
  pose proof (exitCellFromCenter_inGrid _ _ _ _ _ _ _ Hb Hwb Hhb Hcb Hgb He) as Heg.
  pose proof (exitCellFromCenter_near _ _ _ _ _ _ _ Ha Hwa Hha Hca Hs) as Hsn.
  pose proof (exitCellFromCenter_near _ _ _ _ _ _ _ Hb Hwb Hhb Hcb He) as Hen.
  apply inGrid_iff in Hsg, Heg.
  destruct (block_is_fresh rooms _ _ cells a b s e (polylineToCells poly) Hrect Hacc x y Hno Hblock)
    as (H00 & H10 & H01 & H11).
  pose proof (block_on_path_close _ _ s e poly x y
                                  (candidatePolylines_shape _ _ _ _ _ Hpoly)
                                  ltac:(lia) ltac:(lia) ltac:(lia) ltac:(lia)
                                  H00 H10 H01 H11) as Hclose.
  destruct (Nat.eq_dec a b) as [-> | Hab].
  - rewrite Ha in Hb. injection Hb as <-. rewrite Hs in He. injection He as <-.
    unfold chebyshev in Hclose. rewrite !Z.sub_diag in Hclose. simpl in Hclose. lia.
  - pose proof (exits_far ra rb s e Hwa Hha Hwb Hhb (Hapart a b ra rb Hab Ha Hb) Hsn Hen). lia.
Qed.

Lemma carvedType_room (cols rows : Z) (path : list Pos) (x y : Z) (t : CellTypeEnum) :
  carvedType cols rows path x y t = room <-> t = room.
Proof.
  unfold carvedType. destruct t; try tauto;
    destruct (existsb _ _ && _); split; congruence.
Qed.

Lemma carveCells_roomsDrawn (rooms : list Room) (cols rows : Z) (cells : Grid)
      (path : list Pos) :
  roomsDrawn rooms cells -> roomsDrawn rooms (carveCells cols rows cells path).
Proof.
  intros Hdrawn x y t Ht. rewrite carveCells_typeAt in Ht.
  destruct (typeAt cells x y) as [t0|] eqn:E; [| discriminate].
  simpl in Ht. injection Ht as <-. rewrite carvedType_room. apply Hdrawn. exact E.
Qed.

Lemma carveCorridorBetween_inv (rooms : list Room) (cells cells' : Grid)
      (a b : nat) (ok : bool) :
  RouterInv rooms cells ->
  carveCorridorBetween rooms (width DUNGEON_SIZE) (height DUNGEON_SIZE) cells a b
  = Some (cells', ok) ->
  RouterInv rooms cells'.
Proof.
  intros Hinv. unfold carveCorridorBetween, centerOf.
  destruct (rooms !! a) as [ra|] eqn:Ha; [| discriminate].
  destruct (rooms !! b) as [rb|] eqn:Hb; [| discriminate].
  cbn [fmap option_fmap option_map].
  destruct (exitCellFromCenter _ _ _ a _) as [s|] eqn:Hs; [| discriminate].
  destruct (exitCellFromCenter _ _ _ b _) as [e|] eqn:He; [| discriminate].
  destruct (find _ _) as [poly|] eqn:Hfind.
  - intros [= <- <-]. apply find_some in Hfind as [Hpoly Hacc].
    pose proof (accepted_no_block rooms cells a b ra rb s e poly Hinv Ha Hb Hs He Hpoly Hacc).
    destruct Hinv as [Hrect Hshape Hapart Hdrawn Hno].
    constructor; try assumption.
    + apply carveCells_rect. exact Hrect.
    + apply carveCells_roomsDrawn. exact Hdrawn.
  - intros [= <- <-]. exact Hinv.
Qed.

Lemma carveAll_inv (rooms : list Room) (es : list Edge) :
  forall cells cells',
    RouterInv rooms cells ->
    carveAll rooms (width DUNGEON_SIZE) (height DUNGEON_SIZE) cells es = Some cells' ->
    RouterInv rooms cells'.
Proof.
  induction es as [|e es IH]; intros cells cells' Hinv H.
  - injection H as <-. exact Hinv.
  - rewrite carveAll_cons in H.
    destruct (carveCorridorBetween _ _ _ cells (ea e) (eb e)) as [[c ok]|] eqn:Hc;
      [| discriminate].
    apply (IH c cells'); [| exact H].
    eapply carveCorridorBetween_inv; eassumption.
Qed.

Lemma PlaceInv_RouterInv (st : PlaceState) :
  PlaceInv st -> RouterInv (ps_rooms st) (ps_cells st).
Proof.
  intros [Hrect Hshape Hdrawn Hnc Hapart _]. constructor; try assumption.
  intros x y (H & _). exact (Hnc x y H).
Qed.

Lemma PlaceInv_dims (st : PlaceState) :
  PlaceInv st ->
  gridCols (ps_cells st) = width DUNGEON_SIZE
  /\ gridRows (ps_cells st) = height DUNGEON_SIZE.
Proof.
  intros Hinv. pose proof (pi_rect st Hinv) as Hrect. split.
  - apply (gridCols_rect _ _ _ Hrect). unfold_consts. lia.
  - apply Hrect.
Qed.

Lemma createDungeon_RouterInv (rng : RNG) (d : Dungeon) :
  unitRNG rng -> createDungeon rng = Some d -> RouterInv (d_rooms d) (d_cells d).
Proof.
  intros Hu. unfold createDungeon.
  destruct (placeRooms rng) as [st|] eqn:Hst; [| discriminate].
  pose proof (placeRooms_PlaceInv rng st Hu Hst) as Hinv.
  destruct (PlaceInv_dims st Hinv) as [-> ->].
  destruct (primMST _) as [mst|]; [| discriminate].
  destruct (carveAll _ _ _ _ _) as [cells'|] eqn:Hc; [| discriminate].
  intros [= <-]. cbn [d_rooms d_cells].
  eapply carveAll_inv; [| exact Hc]. apply PlaceInv_RouterInv. exact Hinv.
Qed.


(** * Triangulation: corners on the super-triangle *)

Lemma mapDelete_values (k : nat * nat) (m : EdgeMap) (e : Edge) :
  In e (mapValues (mapDelete k m)) -> In e (mapValues m).
Proof.
  unfold mapValues, mapDelete. intros H. apply in_map_iff in H as (kv & <- & Hkv).
  apply filter_In in Hkv as [Hkv _]. apply in_map. exact Hkv.
Qed.

Lemma toggleEdge_values (m : EdgeMap) (e0 e : Edge) :
  In e (mapValues (toggleEdge m e0)) -> e = e0 \/ In e (mapValues m).
Proof.
  unfold toggleEdge. destruct (mapHas _ m).
  - intros H. right. eapply mapDelete_values. exact H.
  - unfold mapValues. rewrite map_app. intros H. apply in_app_or in H as [H | [H | []]].
    + right. exact H.
    + left. symmetry. exact H.
Qed.

Lemma toggled_values (es : list Edge) :
  forall m e, In e (mapValues (fold_left toggleEdge es m)) ->
              In e es \/ In e (mapValues m).
Proof.
  induction es as [|e0 es IH]; intros m e H; [right; exact H |].
  simpl in H. apply IH in H as [H | H]; [left; right; exact H |].
  apply toggleEdge_values in H as [-> | H]; [left; left; reflexivity | right; exact H].
Qed.

Lemma triangleEdges_superEnds (n : nat) (t : Triangle) (e : Edge) :
  In e (triangleEdges t) -> (superCorners n t <= S (superEnds n e))%nat.
Proof.
  unfold triangleEdges, superCorners, superEnds.
  intros [<- | [<- | [<- | []]]]; cbn [ea eb];
    destruct (n <=? ta t)%nat, (n <=? tb t)%nat, (n <=? tc t)%nat; simpl; lia.
Qed.

Section SuperCorners.

Variable inCircle : Point -> Point -> Point -> Point -> bool.
Variable n : nat.

(** Inserting an input point lowers the number of super-triangle corners of
    a triangle by at most one. *)
Lemma insertPoint_superCorners (pts : list Point) (tris : list Triangle) (i k : nat) :
  Forall (fun t => (S k <= superCorners n t)%nat) tris ->
  Forall (fun t => (k <= superCorners n t)%nat) (insertPoint inCircle pts tris i).
Proof.
  intros Hall. rewrite List.Forall_forall in Hall. apply List.Forall_forall.
  intros t Ht. unfold insertPoint in Ht. apply in_app_or in Ht as [Ht | Ht].
  - apply filter_In in Ht as [Ht _]. specialize (Hall t Ht). lia.
  - apply in_map_iff in Ht as (e & <- & He).
    apply toggled_values in He as [He | []].
    apply in_flat_map in He as (t0 & Ht0 & He).
    apply filter_In in Ht0 as [Ht0 _]. specialize (Hall t0 Ht0).
    pose proof (triangleEdges_superEnds n t0 e He) as Hends.
    unfold superCorners, superEnds in *. cbn [ta tb tc].
    destruct (n <=? ea e)%nat, (n <=? eb e)%nat, (n <=? i)%nat; simpl in *; lia.
Qed.

Lemma insertPoints_superCorners (pts : list Point) (m : nat) :
  forall (tris : list Triangle) (k : nat),
    Forall (fun t => (k + m <= superCorners n t)%nat) tris ->
    Forall (fun t => (k <= superCorners n t)%nat)
           (fold_left (insertPoint inCircle pts) (seq 0 m) tris).
Proof.
  induction m as [|m IH]; intros tris k Hall.
  - simpl. eapply List.Forall_impl; [| exact Hall]. intros t Ht. simpl in Ht. lia.
  - rewrite seq_S, fold_left_app. simpl.
    apply insertPoint_superCorners. apply IH.
    eapply List.Forall_impl; [| exact Hall]. intros t Ht. simpl in Ht. lia.
Qed.

End SuperCorners.

Lemma superTriangle_length (p0 : Point) (pts : list Point) :
  length (superTriangle p0 pts) = 3%nat.
Proof.
  unfold superTriangle. destruct (boundingBox p0 pts) as [[[minX minY] maxX] maxY].
  reflexivity.
Qed.

Lemma few_points_no_triangle
      (inCircle : Point -> Point -> Point -> Point -> bool) (pnts : list Point) :
  (length pnts <= 2)%nat ->
  points (createGraphFromPointsBy inCircle pnts) = pnts
  /\ edges (createGraphFromPointsBy inCircle pnts) = []
  /\ (pnts <> [] -> triangles (createGraphFromPointsBy inCircle pnts) = Some []).
Proof.
  intros Hlen. destruct pnts as [|p0 rest]; [repeat split; congruence |].
  unfold createGraphFromPointsBy. cbn [points edges triangles].
  set (pnts := p0 :: rest) in *.
  set (n := length pnts) in *.
  set (pts := pnts ++ superTriangle p0 pnts).
  assert (Hpts : length pts = (n + 3)%nat).
  { unfold pts. rewrite length_app, superTriangle_length. reflexivity. }
  set (tris := fold_left (insertPoint inCircle pts) (seq 0 n) _).
  assert (Htris : Forall (fun t => (1 <= superCorners n t)%nat) tris).
  { unfold tris. apply insertPoints_superCorners.
    constructor; [| constructor].
    unfold superCorners. cbn [ta tb tc]. rewrite Hpts.
    replace (n <=? n + 3 - 3)%nat with true by (symmetry; apply Nat.leb_le; lia).
    replace (n <=? n + 3 - 2)%nat with true by (symmetry; apply Nat.leb_le; lia).
    replace (n <=? n + 3 - 1)%nat with true by (symmetry; apply Nat.leb_le; lia).
    simpl. lia. }
  assert (Hkept : List.filter
                    (fun t => (ta t <? n)%nat && (tb t <? n)%nat && (tc t <? n)%nat)
                    tris = []).
  { clearbody tris. induction Htris as [|t l Ht _ IH]; [reflexivity |].
    simpl. rewrite IH.
    unfold superCorners in Ht.
    destruct (Nat.leb_spec n (ta t)), (Nat.leb_spec n (tb t)), (Nat.leb_spec n (tc t));
      simpl in Ht; try lia;
      destruct (Nat.ltb_spec (ta t) n), (Nat.ltb_spec (tb t) n), (Nat.ltb_spec (tc t) n);
      simpl; try reflexivity; lia. }
  rewrite Hkept. simpl. repeat split; reflexivity.
Qed.


(** * Loop augmenter *)

Lemma degreeOf_bump (adj : list Z) (i j : nat) :
  (j < length adj)%nat ->
  degreeOf (bump adj i) j = degreeOf adj j + (if (i =? j)%nat then 1 else 0).
Proof.
  intros Hj. unfold degreeOf, bump. rewrite !nth_lookup.
  destruct (Nat.eqb_spec i j) as [-> | Hne].
  - rewrite list_lookup_alter_eq.
    destruct (lookup_lt_is_Some_2 adj j Hj) as [v Hv]. rewrite Hv. simpl. lia.
  - rewrite list_lookup_alter_ne by exact Hne. lia.
Qed.

Lemma length_bump (adj : list Z) (i : nat) : length (bump adj i) = length adj.
Proof. unfold bump. apply length_alter. Qed.

Lemma degreeOf_countEdge (adj : list Z) (e : Edge) (j : nat) :
  (j < length adj)%nat ->
  degreeOf (countEdge adj e) j = degreeOf adj j + edgeEnds e j.
Proof.
  intros Hj. unfold countEdge, edgeEnds.
  rewrite degreeOf_bump by (rewrite length_bump; exact Hj).
  rewrite degreeOf_bump by exact Hj. lia.
Qed.

Lemma length_countEdge (adj : list Z) (e : Edge) :
  length (countEdge adj e) = length adj.
Proof. unfold countEdge. rewrite !length_bump. reflexivity. Qed.

Lemma degreeIn_app (es1 es2 : list Edge) (i : nat) :
  degreeIn (es1 ++ es2) i = degreeIn es1 i + degreeIn es2 i.
Proof.
  induction es1 as [|e es1 IH]; simpl; [reflexivity |]. rewrite IH. lia.
Qed.

Lemma degreeOf_replicate (n j : nat) : degreeOf (replicate n 0) j = 0.
Proof.
  unfold degreeOf. rewrite nth_lookup.
  destruct (replicate n 0 !! j) as [v|] eqn:E; [| reflexivity].
  apply lookup_replicate in E as [-> _]. reflexivity.
Qed.

Lemma initialAdjacency_spec (n : nat) (mstEdges : list Edge) :
  length (initialAdjacency n mstEdges) = n
  /\ forall j, (j < n)%nat ->
               degreeOf (initialAdjacency n mstEdges) j = degreeIn mstEdges j.
Proof.
  unfold initialAdjacency.
  assert (Hgen : forall es adj,
             length (fold_left countEdge es adj) = length adj
             /\ forall j, (j < length adj)%nat ->
                          degreeOf (fold_left countEdge es adj) j
                          = degreeOf adj j + degreeIn es j).
  { induction es as [|e es IH]; intros adj; simpl.
    - split; [reflexivity | intros; lia].
    - destruct (IH (countEdge adj e)) as [Hl Hd]. rewrite length_countEdge in *.
      split; [exact Hl |]. intros j Hj. rewrite (Hd j Hj).
      rewrite degreeOf_countEdge by exact Hj. lia. }
  destruct (Hgen mstEdges (replicate n 0)) as [Hl Hd].
  rewrite length_replicate in *. split; [exact Hl |].
  intros j Hj. rewrite (Hd j Hj), degreeOf_replicate. lia.
Qed.

Lemma edgeEnds_range (e : Edge) (i : nat) :
  ea e <> eb e -> 0 <= edgeEnds e i <= 1.
Proof.
  intros Hne. unfold edgeEnds.
  destruct (Nat.eqb_spec (ea e) i), (Nat.eqb_spec (eb e) i); lia.
Qed.

Lemma edgeEnds_nonneg (e : Edge) (i : nat) : 0 <= edgeEnds e i.
Proof.
  unfold edgeEnds. destruct (ea e =? i)%nat, (eb e =? i)%nat; lia.
Qed.

(** The acceptance rule of one iteration. *)
Lemma augmentStep_rule (rng : RNG) (mstSet : list (nat * nat)) (st : AugState) (e : Edge) :
  let st' := augmentStep rng mstSet st e in
  if existsb (key_eqb (keyEdge (ea e) (eb e))) mstSet
  then st' = st
  else aug_draws st' = (aug_draws st + 1)%nat
       /\ if drawPasses rng st && underCap st e
          then finalEdges st' = finalEdges st ++ [e]
               /\ adjacency st' = countEdge (adjacency st) e
          else finalEdges st' = finalEdges st /\ adjacency st' = adjacency st.
Proof.
  unfold augmentStep, drawPasses, underCap.
  destruct (existsb _ mstSet); [reflexivity |].
  destruct (Qltb EXTRA_EDGE_CHANCE (rng (aug_draws st))); cbn [negb andb].
  { split; [reflexivity | split; reflexivity]. }
  rewrite !Z.gtb_ltb.
  destruct (Z.ltb_spec MAX_ALLOWED_CONNECTIONS (degreeOf (adjacency st) (ea e))) as [Ha | Ha].
  { replace (_ <=? _) with false by (symmetry; apply Z.leb_gt; lia).
    split; [reflexivity | split; reflexivity]. }
  replace (degreeOf (adjacency st) (ea e) <=? MAX_ALLOWED_CONNECTIONS) with true
    by (symmetry; apply Z.leb_le; lia).
  destruct (Z.ltb_spec MAX_ALLOWED_CONNECTIONS (degreeOf (adjacency st) (eb e))) as [Hb | Hb].
  { replace (_ <=? _) with false by (symmetry; apply Z.leb_gt; lia).
    split; [reflexivity | split; reflexivity]. }
  replace (degreeOf (adjacency st) (eb e) <=? MAX_ALLOWED_CONNECTIONS) with true
    by (symmetry; apply Z.leb_le; lia).
  split; [reflexivity | split; reflexivity].
Qed.

Section Augment.

Variable rng : RNG.
Variable n : nat.
Variable mstEdges : list Edge.
Variable mstSet : list (nat * nat).

Lemma augmentStep_inv (st : AugState) (e : Edge) :
  ea e <> eb e -> AugInv n mstEdges st -> AugInv n mstEdges (augmentStep rng mstSet st e).
Proof.
  intros Hne (Hlen & (extra & Hextra) & Hdeg & Hcap).
  pose proof (augmentStep_rule rng mstSet st e) as Hrule. cbn zeta in Hrule.
  destruct (existsb _ mstSet).
  { rewrite Hrule. repeat split; eauto. }
  destruct Hrule as [_ Hrule].
  destruct (drawPasses rng st && underCap st e) eqn:Hpass.
  - destruct Hrule as [Hf Ha]. unfold AugInv. rewrite Hf, Ha.
    apply andb_true_iff in Hpass as [_ Hunder]. unfold underCap in Hunder.
    apply andb_true_iff in Hunder as [Hua Hub]. apply Z.leb_le in Hua, Hub.
    split; [rewrite length_countEdge; exact Hlen |].
    split; [exists (extra ++ [e]); rewrite Hextra, app_assoc; reflexivity |].
    assert (Hsum : forall j, degreeIn (finalEdges st ++ [e]) j
                             = degreeIn (finalEdges st) j + edgeEnds e j).
    { intros j. rewrite degreeIn_app. simpl. lia. }
    split.
    + intros j Hj. rewrite degreeOf_countEdge by lia. rewrite Hsum, (Hdeg j Hj). reflexivity.
    + intros j Hj. rewrite Hsum. specialize (Hcap j Hj).
      pose proof (edgeEnds_range e j Hne) as Hrange.
      unfold edgeEnds in *.
      destruct (Nat.eqb_spec (ea e) j) as [Ea | Ea], (Nat.eqb_spec (eb e) j) as [Eb | Eb].
      * lia.
      * subst j. rewrite (Hdeg (ea e) Hj) in Hua. lia.
      * subst j. rewrite (Hdeg (eb e) Hj) in Hub. lia.
      * lia.
  - destruct Hrule as [Hf Ha]. unfold AugInv. rewrite Hf, Ha.
    repeat split; eauto.
Qed.

Lemma augmentLoop_inv (graphEdges : list Edge) :
  Forall (fun e => ea e <> eb e) graphEdges ->
  forall st, AugInv n mstEdges st ->
             AugInv n mstEdges (fold_left (augmentStep rng mstSet) graphEdges st).
Proof.
  induction graphEdges as [|e es IH]; intros Hall st Hinv; [exact Hinv |].
  simpl. inversion Hall; subst. apply IH; [assumption |].
  apply augmentStep_inv; assumption.
Qed.

End Augment.

Lemma augment_inv (rng : RNG) (draws n : nat) (mstEdges graphEdges : list Edge) :
  Forall (fun e => ea e <> eb e) graphEdges ->
  AugInv n mstEdges (augment rng draws n mstEdges graphEdges).
Proof.
  intros Hall. unfold augment. apply augmentLoop_inv; [exact Hall |].
  destruct (initialAdjacency_spec n mstEdges) as [Hlen Hdeg].
  unfold AugInv. cbn [adjacency finalEdges].
  split; [exact Hlen |]. split; [exists []; rewrite app_nil_r; reflexivity |].
  split; [exact Hdeg |]. intros j Hj. lia.
Qed.


(** * Prim's loop: graphs *)

Lemma Edge_eq_dec (e1 e2 : Edge) : {e1 = e2} + {e1 <> e2}.
Proof. decide equality; apply Nat.eq_dec. Qed.

Lemma adjacent_sym (es : list Edge) (u v : nat) : adjacent es u v -> adjacent es v u.
Proof. unfold adjacent. tauto. Qed.

Lemma adjacent_incl (es es' : list Edge) (u v : nat) :
  incl es es' -> adjacent es u v -> adjacent es' u v.
Proof. unfold adjacent. intros H [H1 | H1]; [left | right]; apply H; exact H1. Qed.

Lemma connected_trans (es : list Edge) (u v w : nat) :
  connected es u v -> connected es v w -> connected es u w.
Proof.
  intros Huv Hvw. induction Hvw as [|x y _ IH Hadj]; [exact Huv |].
  eapply connected_step; [exact IH | exact Hadj].
Qed.

Lemma connected_sym (es : list Edge) (u v : nat) :
  connected es u v -> connected es v u.
Proof.
  intros H. induction H as [|x y _ IH Hadj]; [constructor |].
  apply connected_trans with x; [| exact IH].
  eapply connected_step; [constructor | apply adjacent_sym; exact Hadj].
Qed.

(** A walk can be replayed in any graph that connects the two ends of each
    of its edges. *)
Lemma connected_replay (es es' : list Edge) (u v : nat) :
  (forall a b, adjacent es a b -> connected es' a b) ->
  connected es u v -> connected es' u v.
Proof.
  intros Hadj H. induction H as [|x y _ IH Hxy]; [constructor |].
  apply connected_trans with x; [exact IH | apply Hadj; exact Hxy].
Qed.

Lemma connected_incl (es es' : list Edge) (u v : nat) :
  incl es es' -> connected es u v -> connected es' u v.
Proof.
  intros Hincl. apply connected_replay. intros a b Hab.
  eapply connected_step; [constructor | eapply adjacent_incl; eassumption].
Qed.

Lemma connectedOut_end (es : list Edge) (S : nat -> bool) (u v : nat) :
  connectedOut es S u v -> S v = false.
Proof. intros [H | x y _ _ H]; exact H. Qed.

(** A walk that ends outside [S] after starting inside leaves [S] a last
    time. *)
Lemma last_crossing (es : list Edge) (S : nat -> bool) (u v : nat) :
  connected es u v -> S u = true -> S v = false ->
  exists x y, S x = true /\ S y = false /\ adjacent es x y
              /\ connectedOut es S y v.
Proof.
  intros H Hu. induction H as [|x w Hux IH Hxw]; intros Hv; [congruence |].
  destruct (S x) eqn:Hx.
  - exists x, w. repeat split; try assumption. constructor. exact Hv.
  - destruct (IH eq_refl) as (a & b & Ha & Hb & Hab & Hout).
    exists a, b. repeat split; try assumption.
    eapply connectedOut_step; eassumption.
Qed.

Lemma connectedOut_replay (es es' : list Edge) (S : nat -> bool) (u v : nat) :
  (forall f, In f es -> S (ea f) = false -> S (eb f) = false -> In f es') ->
  connectedOut es S u v -> connected es' u v.
Proof.
  intros Hkeep H. induction H as [|x w Hux IH Hxw Hw]; [constructor |].
  eapply connected_step; [exact IH |].
  pose proof (connectedOut_end _ _ _ _ Hux) as Hx.
  destruct Hxw as [Hin | Hin]; [left | right]; apply Hkeep; assumption.
Qed.

(** * Prim's loop: the tree marks *)

Lemma countTrue_cons (b : bool) (l : list bool) :
  countTrue (b :: l) = ((if b then 1 else 0) + countTrue l)%nat.
Proof. unfold countTrue. simpl. destruct b; reflexivity. Qed.

Lemma countTrue_le (l : list bool) : (countTrue l <= length l)%nat.
Proof. unfold countTrue. apply filter_length_le. Qed.

Lemma countTrue_insert (l : list bool) (i : nat) :
  (i < length l)%nat ->
  countTrue (<[i := true]> l)
  = (countTrue l + (if inTree l i then 0 else 1))%nat.
Proof.
  revert i. induction l as [|b l IH]; intros i Hi; [simpl in Hi; lia |].
  destruct i as [|i].
  - simpl. rewrite !countTrue_cons. unfold inTree. simpl. destruct b; lia.
  - simpl. rewrite !countTrue_cons. simpl in Hi.
    rewrite IH by lia. unfold inTree. simpl. lia.
Qed.

Lemma countTrue_full (l : list bool) :
  countTrue l = length l -> forall v, (v < length l)%nat -> inTree l v = true.
Proof.
  induction l as [|b l IH]; intros H v Hv; [simpl in Hv; lia |].
  rewrite countTrue_cons in H. simpl in H. pose proof (countTrue_le l).
  destruct b; [| lia]. destruct v as [|v]; [reflexivity |].
  unfold inTree. simpl. apply IH; [lia | simpl in Hv; lia].
Qed.

Lemma countTrue_missing (l : list bool) :
  (countTrue l < length l)%nat ->
  exists v, (v < length l)%nat /\ inTree l v = false.
Proof.
  induction l as [|b l IH]; intros H; [simpl in H; lia |].
  rewrite countTrue_cons in H. simpl in H. destruct b.
  - destruct IH as (v & Hv & Hf); [lia |]. exists (S v). split; [simpl; lia | exact Hf].
  - exists 0%nat. split; [simpl; lia | reflexivity].
Qed.

Lemma inTree_lt (l : list bool) (v : nat) : inTree l v = true -> (v < length l)%nat.
Proof.
  unfold inTree. intros H. destruct (Nat.lt_ge_cases v (length l)) as [Hlt | Hge]; [exact Hlt |].
  rewrite nth_overflow in H by exact Hge. discriminate.
Qed.

Lemma inTree_insert (l : list bool) (i v : nat) :
  (i < length l)%nat ->
  inTree (<[i := true]> l) v = inTree l v || (v =? i)%nat.
Proof.
  intros Hi. unfold inTree. rewrite !nth_lookup.
  destruct (Nat.eqb_spec v i) as [-> | Hne].
  - rewrite list_lookup_insert_eq by exact Hi. simpl. rewrite orb_true_r. reflexivity.
  - rewrite list_lookup_insert_ne by congruence. rewrite orb_false_r. reflexivity.
Qed.

Lemma inTree_markEdge (l : list bool) (e : Edge) (v : nat) :
  (ea e < length l)%nat -> (eb e < length l)%nat ->
  inTree (markEdge l e) v = inTree l v || (v =? ea e)%nat || (v =? eb e)%nat.
Proof.
  intros Ha Hb. unfold markEdge.
  rewrite inTree_insert by (rewrite length_insert; exact Hb).
  rewrite inTree_insert by exact Ha. reflexivity.
Qed.

Lemma length_markEdge (l : list bool) (e : Edge) : length (markEdge l e) = length l.
Proof. unfold markEdge. rewrite !length_insert. reflexivity. Qed.

Lemma countTrue_markEdge (l : list bool) (e : Edge) :
  (ea e < length l)%nat -> (eb e < length l)%nat ->
  crossing l e = true ->
  countTrue (markEdge l e) = S (countTrue l).
Proof.
  intros Ha Hb Hc. unfold markEdge.
  rewrite countTrue_insert by (rewrite length_insert; exact Hb).
  rewrite inTree_insert by exact Ha.
  rewrite countTrue_insert by exact Ha.
  unfold crossing in Hc.
  destruct (inTree l (ea e)) eqn:Ea, (inTree l (eb e)) eqn:Eb; simpl in Hc; try discriminate.
  - simpl. destruct (Nat.eqb_spec (eb e) (ea e)) as [E | _]; [| lia].
    rewrite E in Eb. congruence.
  - simpl. lia.
Qed.

Lemma treeAfter_snoc (n : nat) (F : list Edge) (e : Edge) :
  treeAfter n (F ++ [e]) = markEdge (treeAfter n F) e.
Proof. unfold treeAfter. rewrite fold_left_app. reflexivity. Qed.


(** * Prim's loop: the scan of the candidate edges *)

Lemma Qltb_true (a b : Q) : Qltb a b = true <-> (a < b)%Q.
Proof.
  unfold Qltb. destruct (Qlt_le_dec a b) as [H | H].
  - tauto.
  - split; [discriminate |]. intros Hlt. exfalso. exact (Qle_not_lt _ _ H Hlt).
Qed.

Lemma Qltb_false (a b : Q) : Qltb a b = false <-> (b <= a)%Q.
Proof.
  unfold Qltb. destruct (Qlt_le_dec a b) as [H | H].
  - split; [discriminate |]. intros Hle. exfalso. exact (Qle_not_lt _ _ Hle H).
  - tauto.
Qed.

Lemma dist_Some (pts : list Point) (a b : nat) :
  (a < length pts)%nat -> (b < length pts)%nat -> exists w, dist pts a b = Some w.
Proof.
  intros Ha Hb. unfold dist.
  destruct (lookup_lt_is_Some_2 pts a Ha) as [pa ->].
  destruct (lookup_lt_is_Some_2 pts b Hb) as [pb ->]. eauto.
Qed.

Lemma dist_inside (pts : list Point) (a b : nat) (w : float) :
  dist pts a b = Some w -> (a < length pts)%nat /\ (b < length pts)%nat.
Proof.
  unfold dist. destruct (pts !! a) as [pa|] eqn:Ea; [| discriminate].
  destruct (pts !! b) as [pb|] eqn:Eb; [| discriminate]. intros _.
  split; eapply lookup_lt_Some; eassumption.
Qed.

Lemma finiteLengths_valid (pts : list Point) (es : list Edge) :
  finiteLengths pts es -> validEdges (length pts) es.
Proof.
  unfold finiteLengths, validEdges. apply List.Forall_impl.
  intros e (w & Hw & _). exact (dist_inside pts _ _ w Hw).
Qed.

Lemma computedLength_dist (pts : list Point) (e : Edge) (w : float) :
  dist pts (ea e) (eb e) = Some w -> computedLength pts e = valueOf w.
Proof. intros H. unfold computedLength. rewrite H. reflexivity. Qed.

Section Scan.

Variable pts : list Point.
Variable inMST : list bool.

Lemma scanEdges_snoc (es : list Edge) (x : Edge) :
  scanEdges pts inMST (es ++ [x]) = scanStep pts inMST (scanEdges pts inMST es) x.
Proof. unfold scanEdges. rewrite fold_left_app. reflexivity. Qed.

(** What the scan returns, whatever the lengths are: [bestEdge] is a
    crossing candidate whose length [bestWeight] is, and it stays [null],
    with [bestWeight] at [Infinity], when no crossing candidate has a length
    below [Infinity]. *)
Lemma scanEdges_result (es : list Edge) (b : Best) :
  scanEdges pts inMST es = Some b ->
  match bestEdge b with
  | None =>
      bestWeight b = infinity
      /\ forall e, In e es -> crossing inMST e = true ->
                   exists w, dist pts (ea e) (eb e) = Some w
                             /\ (w <? infinity)%float = false
  | Some e =>
      In e es /\ crossing inMST e = true
      /\ dist pts (ea e) (eb e) = Some (bestWeight b)
      /\ (bestWeight b <? infinity)%float = true
  end.
Proof.
  revert b. induction es as [|x es IH] using rev_ind; intros b.
  - intros [= <-]. cbn. split; [reflexivity | intros e []].
  - rewrite scanEdges_snoc. unfold scanStep.
    destruct (scanEdges pts inMST es) as [b0|]; [| discriminate].
    specialize (IH b0 eq_refl).
    destruct (crossing inMST x) eqn:Hx.
    + destruct (dist pts (ea x) (eb x)) as [w|] eqn:Hw; [| discriminate].
      destruct (w <? bestWeight b0)%float eqn:Hlt; intros [= <-]; cbn [bestEdge bestWeight].
      * split; [apply in_or_app; right; left; reflexivity |].
        split; [exact Hx |]. split; [exact Hw |].
        destruct (bestEdge b0) as [e0|].
        -- destruct IH as (_ & _ & _ & Hfin).
           rewrite ltb_spec in Hlt, Hfin |- *.
           change (Prim2SF infinity) with (S754_infinity false) in *.
           destruct (Prim2SF w) as [s | [|] | | s m e]; try reflexivity;
             destruct (Prim2SF (bestWeight b0)) as [s' | [|] | | s' m' e'];
             try discriminate; try reflexivity.
        -- destruct IH as [Hinf _]. rewrite <- Hinf. exact Hlt.
      * destruct (bestEdge b0) as [e0|] eqn:Hb0.
        -- destruct IH as (Hin & Hrest). split; [apply in_or_app; left; exact Hin | exact Hrest].
        -- destruct IH as [Hinf Hnone]. split; [exact Hinf |].
           intros e He Hc. apply in_app_or in He as [He | [<- | []]].
           ++ apply Hnone; assumption.
           ++ exists w. split; [exact Hw |]. rewrite <- Hinf. exact Hlt.
    + intros [= <-]. destruct (bestEdge b0) as [e0|] eqn:Hb0.
      * destruct IH as (Hin & Hrest). split; [apply in_or_app; left; exact Hin | exact Hrest].
      * destruct IH as [Hinf Hnone]. split; [exact Hinf |].
        intros e He Hc. apply in_app_or in He as [He | [<- | []]].
        -- apply Hnone; assumption.
        -- congruence.
Qed.

(** The scan raises only on a crossing candidate with a missing end. *)
Lemma scanEdges_returns (es : list Edge) :
  (forall e, In e es -> crossing inMST e = true ->
             exists w, dist pts (ea e) (eb e) = Some w) ->
  exists b, scanEdges pts inMST es = Some b.
Proof.
  induction es as [|x es IH] using rev_ind; intros Hall.
  - eexists. reflexivity.
  - destruct IH as [b0 Hb0].
    { intros e He. apply Hall. apply in_or_app. left. exact He. }
    rewrite scanEdges_snoc, Hb0. unfold scanStep.
    destruct (crossing inMST x) eqn:Hx; [| eauto].
    assert (Hin : In x (es ++ [x])) by (apply in_or_app; right; left; reflexivity).
    destruct (Hall x Hin Hx) as [w ->]. eauto.
Qed.

Lemma scanEdges_no_crossing (es : list Edge) :
  (forall e, In e es -> crossing inMST e = false) ->
  scanEdges pts inMST es = Some noBest.
Proof.
  induction es as [|x es IH] using rev_ind; intros Hall; [reflexivity |].
  rewrite scanEdges_snoc, IH.
  - unfold scanStep. rewrite (Hall x); [reflexivity |].
    apply in_or_app. right. left. reflexivity.
  - intros e He. apply Hall. apply in_or_app. left. exact He.
Qed.

(** On candidates of finite length the scan returns the first crossing
    candidate of least computed length, or nothing when none crosses. *)
Lemma scanEdges_spec (es : list Edge) :
  finiteLengths pts es ->
  exists b,
    scanEdges pts inMST es = Some b
    /\ match bestEdge b with
       | None => forall e, In e es -> crossing inMST e = false
       | Some e =>
           dist pts (ea e) (eb e) = Some (bestWeight b)
           /\ primChoice pts es inMST e
       end.
Proof.
  induction es as [|x es IH] using rev_ind; intros Hfin.
  - exists noBest. split; [reflexivity |]. cbn. intros e [].
  - unfold finiteLengths in Hfin. apply List.Forall_app in Hfin as [Hes Hx].
    inversion Hx as [|x' l' (w & Hw & Hwfin) _]; subst.
    destruct (IH Hes) as (b0 & Hb0 & Hspec).
    rewrite scanEdges_snoc, Hb0. unfold scanStep.
    destruct (crossing inMST x) eqn:Hcx.
    + rewrite Hw. eexists. split; [reflexivity |].
      destruct (bestEdge b0) as [e0|] eqn:Eb0.
      * destruct Hspec as [Hw0 (c1 & c2 & Heq & Hc0 & Hbefore & Hafter)].
        assert (Hfin0 : isFinite (bestWeight b0) = true).
        { assert (Hin0 : In e0 es).
          { rewrite Heq. apply in_or_app. right. left. reflexivity. }
          unfold finiteLengths in Hes. rewrite List.Forall_forall in Hes.
          destruct (Hes e0 Hin0) as (w0 & Hw0' & Hf0). congruence. }
        destruct (w <? bestWeight b0)%float eqn:Hlt; cbn [bestEdge bestWeight].
        -- apply (ltb_true_value _ _ Hwfin Hfin0) in Hlt.
           rewrite <- (computedLength_dist pts x w Hw) in Hlt.
           rewrite <- (computedLength_dist pts e0 _ Hw0) in Hlt.
           split; [exact Hw |].
           exists es, []. split; [reflexivity |]. split; [exact Hcx |]. split.
           ++ intros e' He' Hc'. rewrite Heq in He'.
              apply in_app_or in He' as [He' | [<- | He']].
              ** eapply Qlt_trans; [exact Hlt | apply Hbefore; assumption].
              ** exact Hlt.
              ** eapply Qlt_le_trans; [exact Hlt | apply Hafter; assumption].
           ++ intros e' [].
        -- apply (ltb_false_value _ _ Hwfin Hfin0) in Hlt.
           rewrite <- (computedLength_dist pts x w Hw) in Hlt.
           rewrite <- (computedLength_dist pts e0 _ Hw0) in Hlt.
           rewrite Eb0. split; [exact Hw0 |].
           exists c1, (c2 ++ [x]). split; [rewrite Heq, <- app_assoc; reflexivity |].
           split; [exact Hc0 |]. split; [exact Hbefore |].
           intros e' He' Hc'. apply in_app_or in He' as [He' | [<- | []]].
           ++ apply Hafter; assumption.
           ++ exact Hlt.
      * assert (Hinf : bestWeight b0 = infinity).
        { pose proof (scanEdges_result es b0 Hb0) as Hres. rewrite Eb0 in Hres.
          apply Hres. }
        rewrite Hinf, (isFinite_below_infinity w Hwfin). cbn [bestEdge bestWeight].
        split; [exact Hw |].
        exists es, []. split; [reflexivity |]. split; [exact Hcx |]. split.
        -- intros e' He' Hc'. rewrite (Hspec e' He') in Hc'. discriminate.
        -- intros e' [].
    + exists b0. split; [reflexivity |].
      destruct (bestEdge b0) as [e0|] eqn:Eb0.
      * destruct Hspec as [Hw0 (c1 & c2 & Heq & Hc0 & Hbefore & Hafter)].
        split; [exact Hw0 |].
        exists c1, (c2 ++ [x]). split; [rewrite Heq, <- app_assoc; reflexivity |].
        split; [exact Hc0 |]. split; [exact Hbefore |].
        intros e' He' Hc'. apply in_app_or in He' as [He' | [<- | []]].
        -- apply Hafter; assumption.
        -- congruence.
      * intros e He. apply in_app_or in He as [He | [<- | []]];
          [apply Hspec; exact He | exact Hcx].
Qed.

(** The edge the scan returns is a crossing candidate of least length. *)
Lemma primChoice_least (es : list Edge) (e : Edge) :
  primChoice pts es inMST e ->
  In e es /\ crossing inMST e = true
  /\ forall e', In e' es -> crossing inMST e' = true ->
                (computedLength pts e <= computedLength pts e')%Q.
Proof.
  intros (c1 & c2 & -> & Hc & Hbefore & Hafter).
  split; [apply in_or_app; right; left; reflexivity |]. split; [exact Hc |].
  intros e' He' Hc'. apply in_app_or in He' as [He' | [<- | He']].
  - apply Qlt_le_weak. apply Hbefore; assumption.
  - apply Qle_refl.
  - apply Hafter; assumption.
Qed.

End Scan.


(** * Prim's loop: the exchange argument *)

Lemma totalOf_app (wt : Edge -> R) (l1 l2 : list Edge) :
  totalOf wt (l1 ++ l2) = (totalOf wt l1 + totalOf wt l2)%R.
Proof.
  induction l1 as [|e l1 IH]; simpl; [Lra.lra |]. rewrite IH. Lra.lra.
Qed.

Lemma totalOf_perm (wt : Edge -> R) (l1 l2 : list Edge) :
  Permutation l1 l2 -> totalOf wt l1 = totalOf wt l2.
Proof.
  intros H. induction H as [| x l l' _ IH | x y l | l l' l'' _ IH1 _ IH2]; simpl.
  - reflexivity.
  - rewrite IH. reflexivity.
  - Lra.lra.
  - congruence.
Qed.

Lemma crossing_ends (inMST : list bool) (e : Edge) :
  crossing inMST e = true ->
  (inTree inMST (ea e) = true /\ inTree inMST (eb e) = false)
  \/ (inTree inMST (ea e) = false /\ inTree inMST (eb e) = true).
Proof.
  unfold crossing.
  destruct (inTree inMST (ea e)), (inTree inMST (eb e)); simpl; intros H;
    try discriminate; tauto.
Qed.

Lemma crossing_of_ends (inMST : list bool) (x y : nat) (e : Edge) :
  inTree inMST x = true -> inTree inMST y = false ->
  e = mkEdge x y \/ e = mkEdge y x -> crossing inMST e = true.
Proof.
  intros Hx Hy [-> | ->]; unfold crossing; cbn [ea eb]; rewrite Hx, Hy; reflexivity.
Qed.

Section Prim.

Variable pts : list Point.
Variable es : list Edge.
Variable n : nat.
Hypothesis Hvalid : validEdges n es.
Hypothesis Hfin : finiteLengths pts es.

(** Any way of weighing the candidates that agrees with the order the loop
    compares them in. *)
Variable wt : Edge -> R.
Hypothesis wt_mono :
  forall e e', In e es -> In e' es ->
               (computedLength pts e <= computedLength pts e')%Q -> (wt e <= wt e')%R.

Lemma valid_ends (e : Edge) : In e es -> (ea e < n)%nat /\ (eb e < n)%nat.
Proof. intros H. unfold validEdges in Hvalid. rewrite List.Forall_forall in Hvalid. auto. Qed.

Lemma exchange (inMST : list bool) (F T : list Edge) (e : Edge) :
  PrimInv n es inMST F -> spanningTree n es T -> incl F T ->
  In e es -> crossing inMST e = true ->
  (forall e', In e' es -> crossing inMST e' = true ->
              (computedLength pts e <= computedLength pts e')%Q) ->
  exists T', spanningTree n es T' /\ incl (F ++ [e]) T'
             /\ (totalOf wt T' <= totalOf wt T)%R.
Proof.
  intros Hinv (HTes & HTlen & HTconn) HFT He Hcross Hleast.
  destruct (in_dec Edge_eq_dec e T) as [HeT | HeT].
  { exists T. split; [repeat split; assumption |]. split; [| Lra.lra].
    intros f Hf. apply in_app_or in Hf as [Hf | [<- | []]]; auto. }
  set (S := inTree inMST).
  assert (Huv : exists u v, S u = true /\ S v = false /\ (v < n)%nat
                            /\ (e = mkEdge u v \/ e = mkEdge v u)).
  { destruct (valid_ends e He) as [Ha Hb].
    destruct (crossing_ends inMST e Hcross) as [[H1 H2] | [H1 H2]].
    - exists (ea e), (eb e). repeat split; try assumption. left. destruct e; reflexivity.
    - exists (eb e), (ea e). repeat split; try assumption. right. destruct e; reflexivity. }
  destruct Huv as (u & v & Hu & Hv & Hvn & Heuv).
  destruct (last_crossing T S 0%nat v (HTconn v Hvn) (pr_root _ _ _ _ Hinv) Hv)
    as (x & y & Hx & Hy & Hxy & Hout).
  assert (He' : exists e', In e' T /\ (e' = mkEdge x y \/ e' = mkEdge y x)).
  { destruct Hxy as [H | H]; eexists; split; eauto. }
  destruct He' as (e' & He'T & He'xy).
  destruct (in_split e' T He'T) as (l1 & l2 & HT).
  set (T' := e :: l1 ++ l2).
  assert (Hrest : forall f, In f T -> f <> e' -> In f T').
  { intros f Hf Hne. rewrite HT in Hf. right.
    apply in_app_or in Hf as [Hf | [Hf | Hf]]; [| congruence |]; apply in_or_app; tauto. }
  assert (He'S : forall f, f = e' -> S (ea f) = S (eb f) -> False).
  { intros f -> Heq. destruct He'xy as [-> | ->]; cbn [ea eb] in Heq; congruence. }
  assert (HFT' : incl F T').
  { intros f Hf. apply Hrest; [apply HFT; exact Hf |].
    intros Heq. apply (He'S f Heq).
    destruct (pr_inside _ _ _ _ Hinv f Hf) as [H1 H2]. unfold S. congruence. }
  assert (Hin0 : forall z, S z = true -> connected T' 0%nat z).
  { intros z Hz. eapply connected_incl; [exact HFT' |].
    apply (pr_connected _ _ _ _ Hinv). exact Hz. }
  assert (Hxy' : connected T' x y).
  { apply connected_trans with 0%nat; [apply connected_sym, Hin0, Hx |].
    apply connected_trans with u; [apply Hin0, Hu |].
    apply connected_trans with v.
    - eapply connected_step; [constructor |].
      destruct Heuv as [E | E]; [left | right]; rewrite <- E; left; reflexivity.
    - apply connected_sym. eapply connectedOut_replay; [| exact Hout].
      intros f Hf H1 H2. apply Hrest; [exact Hf |].
      intros Heq. apply (He'S f Heq). congruence. }
  exists T'. split; [split; [| split] |]; [| | | split].
  - intros f [<- | Hf]; [exact He |]. apply HTes. rewrite HT.
    apply in_app_or in Hf as [Hf | Hf]; apply in_or_app; [left | right; right]; exact Hf.
  - unfold T'. rewrite <- HTlen, HT. cbn [length]. rewrite !length_app. cbn [length]. lia.
  - intros z Hz. eapply connected_replay; [| exact (HTconn z Hz)].
    intros a b Hab.
    assert (Hone : forall g, In g T -> (g = mkEdge a b \/ g = mkEdge b a) ->
                             connected T' a b).
    { intros g Hg Hgab. destruct (Edge_eq_dec g e') as [Heq | Hne].
      - subst g.
        assert (Hcases : (a = x /\ b = y) \/ (a = y /\ b = x)).
        { destruct He'xy as [E1 | E1], Hgab as [E2 | E2];
            rewrite E1 in E2; injection E2 as <- <-; tauto. }
        destruct Hcases as [[-> ->] | [-> ->]];
          [exact Hxy' | apply connected_sym; exact Hxy'].
      - eapply connected_step; [constructor |].
        destruct Hgab as [-> | ->]; [left | right]; apply Hrest; assumption. }
    destruct Hab as [H | H]; eapply Hone; eauto.
  - intros f Hf. apply in_app_or in Hf as [Hf | [<- | []]]; [apply HFT'; exact Hf |].
    left. reflexivity.
  - assert (Hw : (wt e <= wt e')%R).
    { apply wt_mono; [exact He | apply HTes; exact He'T |].
      apply Hleast; [apply HTes; exact He'T |].
      eapply crossing_of_ends; eassumption. }
    unfold T'. rewrite HT. cbn [totalOf fold_right].
    fold (totalOf wt (l1 ++ l2)). rewrite !totalOf_app. cbn [totalOf fold_right].
    fold (totalOf wt l2). Lra.lra.
Qed.

(** ** One iteration *)

Lemma prim_step (inMST : list bool) (F : list Edge) (e : Edge) :
  PrimInv n es inMST F -> In e es -> crossing inMST e = true ->
  PrimInv n es (markEdge inMST e) (F ++ [e]).
Proof.
  intros [Htree Hlen Hroot Hinside Hconn Hcount Hincl Hnodup] He Hc.
  destruct (valid_ends e He) as [Ha Hb]. rewrite <- Hlen in Ha, Hb.
  assert (Hmark : forall v, inTree (markEdge inMST e) v
                            = inTree inMST v || (v =? ea e)%nat || (v =? eb e)%nat)
    by (intros v; apply inTree_markEdge; assumption).
  constructor.
  - rewrite treeAfter_snoc, <- Htree. reflexivity.
  - rewrite length_markEdge. exact Hlen.
  - rewrite Hmark, Hroot. reflexivity.
  - intros f Hf. rewrite !Hmark. apply in_app_or in Hf as [Hf | [<- | []]].
    + destruct (Hinside f Hf) as [-> ->]. split; reflexivity.
    + rewrite !Nat.eqb_refl, !orb_true_r. split; reflexivity.
  - intros v Hv. rewrite Hmark in Hv.
    assert (Hold : forall z, inTree inMST z = true -> connected (F ++ [e]) 0%nat z).
    { intros z Hz. eapply connected_incl; [| apply Hconn; exact Hz].
      intros f Hf. apply in_or_app. left. exact Hf. }
    assert (Hedge : adjacent (F ++ [e]) (ea e) (eb e)).
    { left. apply in_or_app. right. left. destruct e; reflexivity. }
    destruct (inTree inMST v) eqn:Ev; [apply Hold; exact Ev |].
    destruct (crossing_ends inMST e Hc) as [[H1 H2] | [H1 H2]].
    + destruct (Nat.eqb_spec v (ea e)) as [-> | _]; [congruence |].
      destruct (Nat.eqb_spec v (eb e)) as [-> | _]; [| discriminate].
      eapply connected_step; [apply Hold; exact H1 | exact Hedge].
    + destruct (Nat.eqb_spec v (ea e)) as [-> | _].
      * eapply connected_step; [apply Hold; exact H2 | apply adjacent_sym; exact Hedge].
      * destruct (Nat.eqb_spec v (eb e)) as [-> | _]; [congruence | discriminate].
  - rewrite countTrue_markEdge by assumption. rewrite Hcount, length_app. simpl. lia.
  - intros f Hf. apply in_app_or in Hf as [Hf | [<- | []]]; auto.
  - apply List.NoDup_app; [exact Hnodup | |].
    + constructor; [intros [] | constructor].
    + intros f Hf [<- | []].
      destruct (Hinside e Hf) as [H1 H2].
      destruct (crossing_ends inMST e Hc) as [[_ H] | [H _]]; congruence.
Qed.

Lemma PrimInv_initial : (0 < n)%nat ->
  PrimInv n es (<[0%nat := true]> (replicate n false)) [].
Proof.
  intros Hn.
  assert (Hlen : length (replicate n false) = n) by apply length_replicate.
  assert (Hcnt : forall m, countTrue (replicate m false) = 0%nat).
  { induction m as [|m IH]; [reflexivity |]. simpl. rewrite countTrue_cons. exact IH. }
  assert (Hnone : forall v, inTree (replicate n false) v = false).
  { intros v. unfold inTree. rewrite nth_lookup.
    destruct (replicate n false !! v) as [b|] eqn:E; [| reflexivity].
    apply lookup_replicate in E as [-> _]. reflexivity. }
  constructor.
  - reflexivity.
  - rewrite length_insert. exact Hlen.
  - rewrite inTree_insert by lia. rewrite orb_true_r. reflexivity.
  - intros e [].
  - intros v Hv. rewrite inTree_insert in Hv by lia. rewrite Hnone in Hv.
    simpl in Hv. apply Nat.eqb_eq in Hv. subst v. constructor.
  - rewrite countTrue_insert by lia. rewrite Hcnt, Hnone. reflexivity.
  - intros e [].
  - constructor.
Qed.

(** While a point is missing from the tree, a connected candidate graph has
    a crossing edge, so the scan finds one and the fallback is not used. *)
Lemma scan_finds_edge (inMST : list bool) (F : list Edge) :
  PrimInv n es inMST F -> connectedGraph n es -> (S (length F) < n)%nat ->
  exists b e, scanEdges pts inMST es = Some b /\ bestEdge b = Some e
              /\ primChoice pts es inMST e.
Proof.
  intros Hinv Hconn Hlt.
  destruct (countTrue_missing inMST) as (v & Hv & Hout).
  { rewrite (pr_count _ _ _ _ Hinv), (pr_length _ _ _ _ Hinv). exact Hlt. }
  rewrite (pr_length _ _ _ _ Hinv) in Hv.
  destruct (last_crossing es (inTree inMST) 0%nat v (Hconn v Hv)
                          (pr_root _ _ _ _ Hinv) Hout)
    as (x & y & Hx & Hy & Hxy & _).
  destruct (scanEdges_spec pts inMST es Hfin) as (b & Hb & Hspec).
  destruct (bestEdge b) as [e|] eqn:Eb; [exists b, e; tauto |].
  exfalso. destruct Hxy as [Hin | Hin].
  - specialize (Hspec _ Hin).
    rewrite (crossing_of_ends inMST x y _ Hx Hy (or_introl eq_refl)) in Hspec. discriminate.
  - specialize (Hspec _ Hin).
    rewrite (crossing_of_ends inMST x y _ Hx Hy (or_intror eq_refl)) in Hspec. discriminate.
Qed.

Lemma nextEdge_scanned (inMST : list bool) (b : Best) (e : Edge) :
  scanEdges pts inMST es = Some b -> bestEdge b = Some e ->
  nextEdge pts es inMST n = Some (Some e).
Proof. intros Hb He. unfold nextEdge. rewrite Hb, He. reflexivity. Qed.

(** ** The loop *)

Lemma primLoop_spec (k : nat) :
  connectedGraph n es ->
  forall inMST F,
    PrimInv n es inMST F -> (S (length F + k) = n)%nat ->
    exists R,
      primLoop k pts es n inMST F = Some R
      /\ (exists inMST', PrimInv n es inMST' R)
      /\ length R = (n - 1)%nat
      /\ (exists rest, R = F ++ rest
                       /\ forall l1 e l2, rest = l1 ++ e :: l2 ->
                                          primChoice pts es (treeAfter n (F ++ l1)) e)
      /\ (forall T0, (exists T, spanningTree n es T /\ incl F T
                                /\ (totalOf wt T <= totalOf wt T0)%R) ->
                     exists T, spanningTree n es T /\ incl R T
                               /\ (totalOf wt T <= totalOf wt T0)%R).
Proof.
  intros Hconn. induction k as [|k IH]; intros inMST F Hinv Hk.
  - exists F. split; [reflexivity |]. split; [exists inMST; exact Hinv |].
    split; [lia |]. split; [| auto].
    exists []. split; [rewrite app_nil_r; reflexivity |].
    intros l1 e l2 H. destruct l1; discriminate.
  - destruct (scan_finds_edge inMST F Hinv Hconn ltac:(lia)) as (b & e & Hscan & Hbest & Hchoice).
    destruct (primChoice_least pts inMST es e Hchoice) as (He & Hc & Hleast).
    pose proof (prim_step inMST F e Hinv He Hc) as Hinv'.
    destruct (IH (markEdge inMST e) (F ++ [e]) Hinv')
      as (R & HR & Hfinal & Hlen & (rest & Hrest & Hchoices) & Hopt).
    { rewrite length_app. simpl. lia. }
    exists R. split.
    { cbn [primLoop]. rewrite (nextEdge_scanned inMST b e Hscan Hbest). exact HR. }
    split; [exact Hfinal |]. split; [exact Hlen |]. split.
    + exists (e :: rest). split; [rewrite Hrest, <- app_assoc; reflexivity |].
      intros l1 e1 l2 Hsplit. destruct l1 as [|e0 l1].
      * injection Hsplit as <- _. rewrite app_nil_r.
        rewrite <- (pr_tree _ _ _ _ Hinv). exact Hchoice.
      * injection Hsplit as <- Hsplit.
        replace (F ++ e :: l1) with ((F ++ [e]) ++ l1) by (rewrite <- app_assoc; reflexivity).
        eapply Hchoices. exact Hsplit.
    + intros T0 (T & HT & HFT & Hw). apply Hopt.
      destruct (exchange inMST F T e Hinv HT HFT He Hc Hleast) as (T' & HT' & HFT' & Hw').
      exists T'. split; [exact HT' |]. split; [exact HFT' |]. Lra.lra.
Qed.

(** The tree built by the loop is a spanning tree of least total weight. *)
Lemma primLoop_optimal :
  (0 < n)%nat -> connectedGraph n es ->
  exists R,
    primLoop (n - 1) pts es n (<[0%nat := true]> (replicate n false)) [] = Some R
    /\ spanningTree n es R
    /\ (forall T, spanningTree n es T -> (totalOf wt R <= totalOf wt T)%R)
    /\ (forall l1 e l2, R = l1 ++ e :: l2 -> primChoice pts es (treeAfter n l1) e).
Proof.
  intros Hn Hconn.
  destruct (primLoop_spec (n - 1) Hconn _ [] (PrimInv_initial Hn))
    as (R & HR & (inMST' & Hinv) & Hlen & (rest & Hrest & Hchoices) & Hopt).
  { simpl. lia. }
  exists R. split; [exact HR |].
  assert (Hspan : spanningTree n es R).
  { split; [exact (pr_incl _ _ _ _ Hinv) |]. split; [exact Hlen |].
    intros v Hv. apply (pr_connected _ _ _ _ Hinv).
    apply countTrue_full; [| rewrite (pr_length _ _ _ _ Hinv); exact Hv].
    rewrite (pr_count _ _ _ _ Hinv), (pr_length _ _ _ _ Hinv), Hlen. lia. }
  split; [exact Hspan |]. split.
  - intros T HT.
    destruct (Hopt T) as (T' & (HT'es & HT'len & HT'conn) & HRT' & Hw).
    { exists T. split; [exact HT |]. split; [intros f [] | Lra.lra]. }
    assert (Hperm : Permutation R T').
    { apply NoDup_Permutation_bis; [exact (pr_nodup _ _ _ _ Hinv) | lia | exact HRT']. }
    rewrite (totalOf_perm wt R T' Hperm). exact Hw.
  - intros l1 e l2 Hsplit. simpl in Hrest. subst rest.
    apply (Hchoices l1 e l2 Hsplit).
Qed.

End Prim.

(** The two ways of weighing: by the computed lengths, and by the exact
    ones where rounding keeps the order of the candidates. *)
Lemma computedLength_mono (pts : list Point) (e e' : Edge) :
  (computedLength pts e <= computedLength pts e')%Q ->
  (Q2R (computedLength pts e) <= Q2R (computedLength pts e'))%R.
Proof. apply Qle_Rle. Qed.

Lemma edgeLength_mono (pts : list Point) (es : list Edge) (e e' : Edge) :
  roundingKeepsOrder pts es -> In e es -> In e' es ->
  (computedLength pts e <= computedLength pts e')%Q ->
  (edgeLength pts e <= edgeLength pts e')%R.
Proof.
  intros Hkeep He He' H. unfold edgeLength. apply sqrt_le_1_alt. apply Qle_Rle.
  exact (Hkeep e e' He He' H).
Qed.

Lemma computedTotal_totalOf (pts : list Point) (T : list Edge) :
  Q2R (computedTotal pts T) = totalOf (fun e => Q2R (computedLength pts e)) T.
Proof.
  induction T as [|e T IH]; cbn [computedTotal totalOf fold_right].
  - apply RMicromega.Q2R_0.
  - fold (computedTotal pts T). fold (totalOf (fun e => Q2R (computedLength pts e)) T).
    rewrite Q2R_plus, IH. reflexivity.
Qed.

Lemma primMST_many (g : Graph) :
  (2 <= length (points g))%nat ->
  primMST g
  = match primLoop (length (points g) - 1) (points g) (edges g) (length (points g))
                   (<[0%nat := true]> (replicate (length (points g)) false)) [] with
    | Some mstEdges => Some (mkGraph (points g) mstEdges None)
    | None => None
    end.
Proof.
  intros H. unfold primMST.
  destruct (points g) as [|p0 [|p1 rest]]; [cbn in H; lia | cbn in H; lia | reflexivity].
Qed.

Lemma primMST_few (g : Graph) :
  (length (points g) <= 1)%nat -> primMST g = Some (mkGraph (points g) [] None).
Proof.
  intros H. unfold primMST.
  destruct (points g) as [|p0 [|p1 rest]]; [reflexivity | reflexivity | cbn in H; lia].
Qed.


(** * The edges handed to the router are proper *)

Lemma triangleEdges_proper (n i : nat) (t : Triangle) (e : Edge) :
  properTriangle n i t -> In e (triangleEdges t) ->
  ea e <> eb e
  /\ ((ea e < i)%nat \/ (n <= ea e < n + 3)%nat)
  /\ ((eb e < i)%nat \/ (n <= eb e < n + 3)%nat).
Proof.
  intros (H1 & H2 & H3 & Hv) [<- | [<- | [<- | []]]]; cbn [ea eb];
    repeat split; try assumption; apply Hv; tauto.
Qed.

Lemma insertPoint_proper
      (inCircle : Point -> Point -> Point -> Point -> bool)
      (pts : list Point) (tris : list Triangle) (n i : nat) :
  (i < n)%nat ->
  Forall (properTriangle n i) tris ->
  Forall (properTriangle n (S i)) (insertPoint inCircle pts tris i).
Proof.
  intros Hi Hall. rewrite List.Forall_forall in Hall. apply List.Forall_forall.
  intros t Ht. unfold insertPoint in Ht. apply in_app_or in Ht as [Ht | Ht].
  - apply filter_In in Ht as [Ht _]. destruct (Hall t Ht) as (H1 & H2 & H3 & Hv).
    repeat split; try assumption. intros v Hcase. destruct (Hv v Hcase); lia.
  - apply in_map_iff in Ht as (e & <- & He).
    apply toggled_values in He as [He | []].
    apply in_flat_map in He as (t0 & Ht0 & He).
    apply filter_In in Ht0 as [Ht0 _].
    destruct (triangleEdges_proper n i t0 e (Hall t0 Ht0) He) as (Hne & Ha & Hb).
    unfold properTriangle. cbn [ta tb tc].
    repeat split; try lia; intros v [-> | [-> | ->]]; lia.
Qed.

Lemma insertPoints_proper
      (inCircle : Point -> Point -> Point -> Point -> bool)
      (pts : list Point) (n m : nat) :
  (m <= n)%nat ->
  forall tris,
    Forall (properTriangle n 0) tris ->
    Forall (properTriangle n m) (fold_left (insertPoint inCircle pts) (seq 0 m) tris).
Proof.
  induction m as [|m IH]; intros Hm tris Hall; [exact Hall |].
  rewrite seq_S, fold_left_app. simpl.
  apply insertPoint_proper; [lia |]. apply IH; [lia | exact Hall].
Qed.

Lemma addEdgeOnce_values (es : list Edge) :
  forall m e, In e (mapValues (fold_left addEdgeOnce es m)) ->
              In e es \/ In e (mapValues m).
Proof.
  induction es as [|e0 es IH]; intros m e H; [right; exact H |].
  simpl in H. apply IH in H as [H | H]; [left; right; exact H |].
  unfold addEdgeOnce in H. destruct (mapHas _ m); [right; exact H |].
  unfold mapValues in H. rewrite map_app in H.
  apply in_app_or in H as [H | [H | []]]; [right; exact H | left; left; exact H].
Qed.

Lemma createGraphFromPointsBy_proper
      (inCircle : Point -> Point -> Point -> Point -> bool) (pnts : list Point) :
  points (createGraphFromPointsBy inCircle pnts) = pnts
  /\ Forall (properEdge (length pnts)) (edges (createGraphFromPointsBy inCircle pnts)).
Proof.
  destruct pnts as [|p0 rest]; [split; [reflexivity | constructor] |].
  unfold createGraphFromPointsBy. cbn [points edges].
  set (pnts := p0 :: rest) in *. set (n := length pnts).
  set (pts := pnts ++ superTriangle p0 pnts).
  assert (Hpts : length pts = (n + 3)%nat).
  { unfold pts. rewrite length_app, superTriangle_length. reflexivity. }
  split; [reflexivity |].
  assert (Htris : Forall (properTriangle n n)
                         (fold_left (insertPoint inCircle pts) (seq 0 n)
                                    [mkTriangle (length pts - 3) (length pts - 2)
                                                (length pts - 1)])).
  { apply insertPoints_proper; [lia |]. constructor; [| constructor].
    unfold properTriangle. cbn [ta tb tc]. rewrite Hpts.
    repeat split; try lia; intros v [-> | [-> | ->]]; lia. }
  rewrite List.Forall_forall in Htris. apply List.Forall_forall. intros e He.
  apply addEdgeOnce_values in He as [He | []].
  apply in_flat_map in He as (t & Ht & He).
  apply filter_In in Ht as [Ht Hkeep].
  apply andb_true_iff in Hkeep as [Hkeep Hc]. apply andb_true_iff in Hkeep as [Ha Hb].
  apply Nat.ltb_lt in Ha, Hb, Hc.
  destruct (Htris t Ht) as (H1 & H2 & H3 & _).
  unfold properEdge.
  destruct He as [<- | [<- | [<- | []]]]; cbn [ea eb]; repeat split; assumption.
Qed.

(** ** Prim's edges *)

Lemma indexPairs_In (n i j : nat) :
  In (i, j) (indexPairs n) -> (i < n)%nat /\ (j < n)%nat.
Proof.
  unfold indexPairs. intros H. apply in_flat_map in H as (i' & Hi' & H).
  apply in_map_iff in H as (j' & [= <- <-] & Hj').
  apply in_seq in Hi', Hj'. lia.
Qed.

(** The fallback returns the first pair, in the order of its loops, of a
    tree point and an outside point whose distance is below [bestWeight]. *)
Lemma firstPair_found (pts : list Point) (inMST : list bool) (bw : float)
      (pairs : list (nat * nat)) (e : Edge) :
  firstPair pts inMST bw pairs = Some (Some e) ->
  exists l1 l2 d,
    pairs = l1 ++ (ea e, eb e) :: l2
    /\ inTree inMST (ea e) = true /\ inTree inMST (eb e) = false
    /\ dist pts (ea e) (eb e) = Some d /\ (d <? bw)%float = true
    /\ forall i j, In (i, j) l1 ->
                   inTree inMST i = true -> inTree inMST j = false ->
                   exists d', dist pts i j = Some d' /\ (d' <? bw)%float = false.
Proof.
  induction pairs as [|[i j] rest IH]; [discriminate |]. cbn [firstPair].
  destruct (inTree inMST i && negb (inTree inMST j)) eqn:Hij.
  - apply andb_true_iff in Hij as [Hi Hj]. apply negb_true_iff in Hj.
    destruct (dist pts i j) as [d|] eqn:Hd; [| discriminate].
    destruct (d <? bw)%float eqn:Hlt.
    + intros [= <-]. exists [], rest, d. cbn [ea eb app].
      repeat split; try assumption. intros i' j' [].
    + intros H. destruct (IH H) as (l1 & l2 & d0 & -> & Ha & Hb & Hd0 & Hlt0 & Hbefore).
      exists ((i, j) :: l1), l2, d0. repeat split; try assumption.
      intros i' j' [[= <- <-] | Hin] Hi' Hj'; [exists d; split; assumption |].
      apply Hbefore; assumption.
  - intros H. destruct (IH H) as (l1 & l2 & d0 & -> & Ha & Hb & Hd0 & Hlt0 & Hbefore).
    exists ((i, j) :: l1), l2, d0. repeat split; try assumption.
    intros i' j' [[= <- <-] | Hin] Hi' Hj'; [| apply Hbefore; assumption].
    rewrite Hi', Hj' in Hij. discriminate.
Qed.

Lemma fallbackEdge_proper (pts : list Point) (inMST : list bool) (n : nat)
      (bw : float) (e : Edge) :
  fallbackEdge pts inMST n bw = Some (Some e) ->
  properEdge n e /\ In e (allPairs n) /\ crossing inMST e = true.
Proof.
  unfold fallbackEdge. intros H.
  destruct (firstPair_found _ _ _ _ _ H) as (l1 & l2 & d & Heq & Ha & Hb & _).
  assert (Hin : In (ea e, eb e) (indexPairs n)).
  { rewrite Heq. apply in_or_app. right. left. reflexivity. }
  split; [| split].
  - apply indexPairs_In in Hin. unfold properEdge. repeat split; try lia.
    intros Heq'. rewrite Heq' in Ha. congruence.
  - unfold allPairs. apply in_map_iff. exists (ea e, eb e). split; [| exact Hin].
    destruct e; reflexivity.
  - unfold crossing. rewrite Ha, Hb. reflexivity.
Qed.

Lemma nextEdge_proper (pts : list Point) (es : list Edge) (inMST : list bool)
      (n : nat) (e : Edge) :
  Forall (properEdge n) es ->
  nextEdge pts es inMST n = Some (Some e) -> properEdge n e.
Proof.
  intros Hes. unfold nextEdge.
  destruct (scanEdges pts inMST es) as [b|] eqn:Hb; [| discriminate].
  pose proof (scanEdges_result pts inMST es b Hb) as Hres.
  destruct (bestEdge b) as [e0|].
  - intros [= <-]. destruct Hres as (Hin & _).
    rewrite List.Forall_forall in Hes. apply Hes. exact Hin.
  - intros H. apply (fallbackEdge_proper _ _ _ _ _ H).
Qed.

Lemma primLoop_proper (pts : list Point) (es : list Edge) (n k : nat) :
  Forall (properEdge n) es ->
  forall inMST F R,
    primLoop k pts es n inMST F = Some R ->
    Forall (properEdge n) F -> Forall (properEdge n) R.
Proof.
  intros Hes. induction k as [|k IH]; intros inMST F R; cbn [primLoop].
  - intros [= <-] HF. exact HF.
  - destruct (nextEdge pts es inMST n) as [[e|]|] eqn:Hnext; [| | discriminate].
    + intros HR HF. apply (IH _ _ _ HR). apply List.Forall_app. split; [exact HF |].
      constructor; [| constructor]. exact (nextEdge_proper pts es inMST n e Hes Hnext).
    + intros [= <-] HF. exact HF.
Qed.

Lemma primMST_points (g mst : Graph) :
  primMST g = Some mst -> points mst = points g /\ triangles mst = None.
Proof.
  unfold primMST. destruct (points g) as [|p0 [|p1 rest]].
  - intros [= <-]. split; reflexivity.
  - intros [= <-]. split; reflexivity.
  - destruct (primLoop _ _ _ _ _ _); [| discriminate]. intros [= <-]. split; reflexivity.
Qed.

Lemma primMST_proper (g mst : Graph) :
  primMST g = Some mst ->
  Forall (properEdge (length (points g))) (edges g) ->
  Forall (properEdge (length (points g))) (edges mst).
Proof.
  intros Hmst Hes.
  destruct (le_lt_dec (length (points g)) 1) as [Hfew | Hmany].
  - rewrite (primMST_few g Hfew) in Hmst. injection Hmst as <-. constructor.
  - rewrite (primMST_many g) in Hmst by lia.
    destruct (primLoop _ _ _ _ _ _) as [R|] eqn:HR; [| discriminate].
    injection Hmst as <-. cbn [edges].
    eapply primLoop_proper; [exact Hes | exact HR | constructor].
Qed.

(** [primMST] raises on no graph whose candidate edges end at points of the
    graph. *)
Lemma firstPair_returns (pts : list Point) (inMST : list bool) (bw : float)
      (pairs : list (nat * nat)) :
  (forall i j, In (i, j) pairs -> (i < length pts)%nat /\ (j < length pts)%nat) ->
  exists r, firstPair pts inMST bw pairs = Some r.
Proof.
  induction pairs as [|[i j] rest IH]; intros Hall; [eexists; reflexivity |].
  cbn [firstPair].
  assert (Hrest : exists r, firstPair pts inMST bw rest = Some r).
  { apply IH. intros i' j' Hin. apply Hall. right. exact Hin. }
  destruct (inTree inMST i && negb (inTree inMST j)); [| exact Hrest].
  destruct (Hall i j (or_introl eq_refl)) as [Hi Hj].
  destruct (dist_Some pts i j Hi Hj) as [d ->].
  destruct (d <? bw)%float; [eexists; reflexivity | exact Hrest].
Qed.

Lemma nextEdge_returns (pts : list Point) (es : list Edge) (inMST : list bool) :
  validEdges (length pts) es ->
  exists r, nextEdge pts es inMST (length pts) = Some r.
Proof.
  intros Hvalid. unfold nextEdge.
  destruct (scanEdges_returns pts inMST es) as [b ->].
  { intros e He _. unfold validEdges in Hvalid. rewrite List.Forall_forall in Hvalid.
    destruct (Hvalid e He) as [Ha Hb]. apply dist_Some; assumption. }
  destruct (bestEdge b); [eexists; reflexivity |].
  apply firstPair_returns. intros i j Hin. apply indexPairs_In. exact Hin.
Qed.

Lemma primLoop_returns (pts : list Point) (es : list Edge) (k : nat) :
  validEdges (length pts) es ->
  forall inMST F, exists R, primLoop k pts es (length pts) inMST F = Some R.
Proof.
  intros Hvalid. induction k as [|k IH]; intros inMST F; cbn [primLoop]; [eauto |].
  destruct (nextEdge_returns pts es inMST Hvalid) as [[e|] ->]; [apply IH | eauto].
Qed.

Lemma primMST_returns (g : Graph) :
  validEdges (length (points g)) (edges g) -> exists mst, primMST g = Some mst.
Proof.
  intros Hvalid.
  destruct (le_lt_dec (length (points g)) 1) as [Hfew | Hmany].
  - rewrite (primMST_few g Hfew). eauto.
  - rewrite (primMST_many g) by lia.
    destruct (primLoop_returns (points g) (edges g) (length (points g) - 1) Hvalid
                               (<[0%nat := true]> (replicate (length (points g)) false)) [])
      as [R ->].
    eauto.
Qed.

Lemma proper_valid (n : nat) (es : list Edge) :
  Forall (properEdge n) es -> validEdges n es.
Proof.
  unfold validEdges. apply List.Forall_impl. intros e (Ha & Hb & _). split; assumption.
Qed.

(** The triangulation of the room centres is a graph [primMST] returns on. *)
Lemma roomGraph_primMST (rooms : list Room) :
  exists mst, primMST (createGraphFromPoints (map centerPoint rooms)) = Some mst.
Proof.
  destruct (createGraphFromPointsBy_proper circumcircleContains (map centerPoint rooms))
    as [Hp Hg].
  fold createGraphFromPoints in Hp, Hg.
  apply primMST_returns. rewrite Hp. apply proper_valid. exact Hg.
Qed.

(** ** The augmenter's edges *)

Lemma augment_Forall (P : Edge -> Prop) (rng : RNG) (draws n : nat)
      (mstEdges graphEdges : list Edge) :
  Forall P mstEdges -> Forall P graphEdges ->
  Forall P (finalEdges (augment rng draws n mstEdges graphEdges)).
Proof.
  intros Hm Hg. unfold augment.
  set (mstSet := map _ mstEdges). clearbody mstSet.
  set (st0 := mkAugState mstEdges _ draws).
  assert (H0 : Forall P (finalEdges st0)) by exact Hm. clearbody st0.
  revert st0 H0. induction graphEdges as [|e es IH]; intros st H0; [exact H0 |].
  simpl. inversion Hg; subst. apply IH; [assumption |].
  unfold augmentStep. destruct (existsb _ _); [exact H0 |].
  destruct (Qltb _ _); [exact H0 |].
  destruct (_ >? _); [exact H0 |]. destruct (_ >? _); [exact H0 |].
  cbn [finalEdges]. apply List.Forall_app. split; [exact H0 |].
  constructor; [assumption | constructor].
Qed.

Lemma acceptedEdges_proper (rng : RNG) (st : PlaceState) (es : list Edge) :
  placeRooms rng = Some st -> acceptedEdges rng = Some es ->
  Forall (properEdge (length (ps_rooms st))) es.
Proof.
  intros Hst. unfold acceptedEdges. rewrite Hst.
  set (pnts := map centerPoint (ps_rooms st)).
  destruct (primMST (createGraphFromPoints pnts)) as [mst|] eqn:Hmst; [| discriminate].
  intros [= <-].
  assert (Hlen : length pnts = length (ps_rooms st)) by (unfold pnts; apply length_map).
  rewrite <- Hlen.
  destruct (createGraphFromPointsBy_proper circumcircleContains pnts) as [Hp Hg].
  fold createGraphFromPoints in Hp, Hg.
  apply augment_Forall.
  - rewrite <- Hp at 1. apply (primMST_proper _ _ Hmst). rewrite Hp. exact Hg.
  - exact Hg.
Qed.


(** * The generator always returns *)

Lemma centers_differ (rooms : list Room) (a b : nat) (ra rb : Room) :
  Forall roomShape rooms -> pairwiseApart ROOM_SEPARATION rooms ->
  a <> b -> rooms !! a = Some ra -> rooms !! b = Some rb ->
  center ra <> center rb.
Proof.
  intros Hshape Hapart Hab Ha Hb Heq.
  rewrite List.Forall_forall in Hshape.
  destruct (roomShape_facts ra (Hshape ra (lookup_In _ _ _ Ha))) as (_ & _ & Hca & _).
  destruct (roomShape_facts rb (Hshape rb (lookup_In _ _ _ Hb))) as (_ & _ & Hcb & _).
  pose proof (chebyshev_apart ra rb (center ra) (center rb) ROOM_SEPARATION
                              (Hapart a b ra rb Hab Ha Hb) Hca Hcb) as Hfar.
  rewrite Heq in Hfar. unfold chebyshev, ROOM_SEPARATION in Hfar.
  rewrite !Z.sub_diag in Hfar. simpl in Hfar. lia.
Qed.

Lemma carveCorridorBetween_total (rooms : list Room) (cols rows : Z) (cells : Grid)
      (a b : nat) (ra rb : Room) :
  rooms !! a = Some ra -> rooms !! b = Some rb -> center ra <> center rb ->
  exists cells' ok, carveCorridorBetween rooms cols rows cells a b = Some (cells', ok).
Proof.
  intros Ha Hb Hne.
  destruct (exitCellFromCenter_total rooms cols rows a ra (center rb) Ha)
    as [s Hs]; [congruence |].
  destruct (exitCellFromCenter_total rooms cols rows b rb (center ra) Hb)
    as [e He]; [congruence |].
  assert (Hca : centerOf rooms a = Some (center ra)) by (unfold centerOf; rewrite Ha; reflexivity).
  assert (Hcb : centerOf rooms b = Some (center rb)) by (unfold centerOf; rewrite Hb; reflexivity).
  unfold carveCorridorBetween. rewrite Hca, Hcb, Hs, He.
  destruct (find _ _); eauto.
Qed.

Lemma carveAll_total (rooms : list Room) (es : list Edge) :
  Forall (properEdge (length rooms)) es ->
  forall cells,
    RouterInv rooms cells ->
    exists cells',
      carveAll rooms (width DUNGEON_SIZE) (height DUNGEON_SIZE) cells es = Some cells'.
Proof.
  induction es as [|e es IH]; intros Hall cells Hinv; [exists cells; reflexivity |].
  inversion Hall as [|e0 es0 (Ha & Hb & Hab) Hrest]; subst.
  destruct (lookup_lt_is_Some_2 rooms (ea e) Ha) as [ra Hra].
  destruct (lookup_lt_is_Some_2 rooms (eb e) Hb) as [rb Hrb].
  pose proof (centers_differ rooms (ea e) (eb e) ra rb
                             (ri_shape _ _ Hinv) (ri_apart _ _ Hinv) Hab Hra Hrb) as Hne.
  destruct (carveCorridorBetween_total rooms (width DUNGEON_SIZE) (height DUNGEON_SIZE)
                                       cells (ea e) (eb e) ra rb Hra Hrb Hne)
    as (c & ok & Hc).
  rewrite carveAll_cons, Hc. apply IH; [exact Hrest |].
  eapply carveCorridorBetween_inv; eassumption.
Qed.

Lemma createDungeon_total (rng : RNG) :
  unitRNG rng -> exists d, createDungeon rng = Some d.
Proof.
  intros Hu. destruct (placeRooms_inv rng Hu) as (st & Hst & Hinv).
  destruct (roomGraph_primMST (ps_rooms st)) as [mst Hmst].
  assert (Hedges : exists es, acceptedEdges rng = Some es).
  { unfold acceptedEdges. rewrite Hst, Hmst. eauto. }
  destruct Hedges as (es & Hes).
  pose proof (acceptedEdges_proper rng st es Hst Hes) as Hproper.
  unfold acceptedEdges in Hes. rewrite Hst, Hmst in Hes. injection Hes as Hes.
  unfold createDungeon. rewrite Hst, Hmst.
  destruct (PlaceInv_dims st Hinv) as [-> ->]. rewrite Hes.
  destruct (carveAll_total (ps_rooms st) es Hproper (ps_cells st)
                           (PlaceInv_RouterInv st Hinv)) as (cells' & ->).
  eauto.
Qed.

Lemma sampleState_inv : PlaceInv sampleState.
Proof. exact (placeRooms_PlaceInv sampleRNG sampleState sampleRNG_unit sampleState_run). Qed.

Lemma crowdedRNG_unit : unitRNG crowdedRNG.
Proof.
  intros n. unfold crowdedRNG, Qle, Qlt. cbn [Qnum Qden].
  pose proof (Z.mod_pos_bound (Z.of_nat n * 7919 + 726) 101 ltac:(lia)). lia.
Qed.


(** * Prim's loop on any candidate list: the fallback connects *)

Lemma indexPairs_complete (n i j : nat) :
  (i < n)%nat -> (j < n)%nat -> In (i, j) (indexPairs n).
Proof.
  intros Hi Hj. unfold indexPairs. apply in_flat_map. exists i.
  split; [apply in_seq; lia |]. apply in_map. apply in_seq. lia.
Qed.

Lemma allPairs_valid (n : nat) : validEdges n (allPairs n).
Proof.
  unfold validEdges, allPairs. apply List.Forall_forall. intros e He.
  apply in_map_iff in He as ([i j] & <- & Hij). apply indexPairs_In in Hij.
  cbn [ea eb fst snd]. exact Hij.
Qed.

(** A pair of a tree point and an outside point at a distance below
    [bestWeight] makes the fallback return an edge, when no [dist] raises. *)
Lemma firstPair_finds (pts : list Point) (inMST : list bool) (bw : float)
      (pairs : list (nat * nat)) (i j : nat) (d : float) :
  (forall i' j', In (i', j') pairs -> exists d', dist pts i' j' = Some d') ->
  In (i, j) pairs ->
  inTree inMST i = true -> inTree inMST j = false ->
  dist pts i j = Some d -> (d <? bw)%float = true ->
  exists e, firstPair pts inMST bw pairs = Some (Some e).
Proof.
  intros Hall Hin Hi Hj Hd Hlt.
  induction pairs as [|[i0 j0] rest IH]; [destruct Hin |]. cbn [firstPair].
  assert (Hrest : In (i, j) rest -> exists e, firstPair pts inMST bw rest = Some (Some e)).
  { intros Hin'. apply IH; [| exact Hin'].
    intros i' j' H. apply Hall. right. exact H. }
  destruct Hin as [[= -> ->] | Hin].
  - rewrite Hi, Hj, Hd, Hlt. cbn. eauto.
  - destruct (inTree inMST i0 && negb (inTree inMST j0)); [| exact (Hrest Hin)].
    destruct (Hall i0 j0 (or_introl eq_refl)) as [d0 ->].
    destruct (d0 <? bw)%float; [eauto | exact (Hrest Hin)].
Qed.

Section AnyCandidates.

Variable pts : list Point.
Variable es : list Edge.
Variable n : nat.
Hypothesis Hvalid : validEdges n es.
Hypothesis Hbelow : distancesBelowInfinity pts n.

Lemma withPairs_valid : validEdges n (es ++ allPairs n).
Proof.
  unfold validEdges. apply List.Forall_app. split; [exact Hvalid | apply allPairs_valid].
Qed.

Lemma nextEdge_any (inMST : list bool) (F : list Edge) :
  PrimInv n (es ++ allPairs n) inMST F -> (S (length F) < n)%nat ->
  exists e, nextEdge pts es inMST n = Some (Some e)
            /\ In e (es ++ allPairs n) /\ crossing inMST e = true.
Proof.
  intros Hinv Hlt. unfold nextEdge.
  destruct (scanEdges_returns pts inMST es) as [b Hb].
  { intros e He _. unfold validEdges in Hvalid. rewrite List.Forall_forall in Hvalid.
    destruct (Hvalid e He) as [Ha Hb]. destruct (Hbelow _ _ Ha Hb) as (w & Hw & _). eauto. }
  rewrite Hb. pose proof (scanEdges_result pts inMST es b Hb) as Hres.
  destruct (bestEdge b) as [e|].
  - destruct Hres as (He & Hc & _). exists e. split; [reflexivity |].
    split; [apply in_or_app; left; exact He | exact Hc].
  - destruct Hres as [Hinf _]. rewrite Hinf.
    destruct (countTrue_missing inMST) as (v & Hv & Hout).
    { rewrite (pr_count _ _ _ _ Hinv), (pr_length _ _ _ _ Hinv). exact Hlt. }
    rewrite (pr_length _ _ _ _ Hinv) in Hv.
    assert (H0 : (0 < n)%nat) by lia.
    destruct (Hbelow 0%nat v H0 Hv) as (d & Hd & Hdlt).
    destruct (firstPair_finds pts inMST infinity (indexPairs n) 0 v d) as [e He].
    + intros i' j' Hin. apply indexPairs_In in Hin as [Hi' Hj'].
      destruct (Hbelow _ _ Hi' Hj') as (w & Hw & _). eauto.
    + apply indexPairs_complete; assumption.
    + exact (pr_root _ _ _ _ Hinv).
    + exact Hout.
    + exact Hd.
    + exact Hdlt.
    + exists e. split; [exact He |].
      destruct (fallbackEdge_proper pts inMST n infinity e He) as (_ & Hin & Hc).
      split; [apply in_or_app; right; exact Hin | exact Hc].
Qed.

Lemma primLoop_connects (k : nat) :
  forall inMST F,
    PrimInv n (es ++ allPairs n) inMST F -> (S (length F + k) = n)%nat ->
    exists R inMST',
      primLoop k pts es n inMST F = Some R
      /\ PrimInv n (es ++ allPairs n) inMST' R
      /\ length R = (n - 1)%nat.
Proof.
  induction k as [|k IH]; intros inMST F Hinv Hk.
  - exists F, inMST. split; [reflexivity |]. split; [exact Hinv | lia].
  - destruct (nextEdge_any inMST F Hinv ltac:(lia)) as (e & Hnext & He & Hc).
    cbn [primLoop]. rewrite Hnext. apply IH.
    + apply (prim_step (es ++ allPairs n) n withPairs_valid inMST F e Hinv He Hc).
    + rewrite length_app. simpl. lia.
Qed.

Lemma primLoop_spans :
  (0 < n)%nat ->
  exists R,
    primLoop (n - 1) pts es n (<[0%nat := true]> (replicate n false)) [] = Some R
    /\ length R = (n - 1)%nat /\ connectedGraph n R /\ List.NoDup R.
Proof.
  intros Hn.
  destruct (primLoop_connects (n - 1) _ [] (PrimInv_initial (es ++ allPairs n) n Hn))
    as (R & inMST' & HR & Hinv & Hlen).
  { simpl. lia. }
  exists R. split; [exact HR |]. split; [exact Hlen |]. split.
  - intros v Hv. apply (pr_connected _ _ _ _ Hinv).
    apply countTrue_full; [| rewrite (pr_length _ _ _ _ Hinv); exact Hv].
    rewrite (pr_count _ _ _ _ Hinv), (pr_length _ _ _ _ Hinv), Hlen. lia.
  - exact (pr_nodup _ _ _ _ Hinv).
Qed.

End AnyCandidates.

(** With candidate edges that end at points of the graph and all distances
    below [Infinity], [primMST] returns [N - 1] edges that connect the
    points. *)
Lemma primMST_spans (g : Graph) :
  (1 <= length (points g))%nat ->
  validEdges (length (points g)) (edges g) ->
  distancesBelowInfinity (points g) (length (points g)) ->
  exists mst,
    primMST g = Some mst
    /\ length (edges mst) = (length (points g) - 1)%nat
    /\ connectedGraph (length (points g)) (edges mst).
Proof.
  intros Hn Hvalid Hbelow.
  destruct (Nat.eq_dec (length (points g)) 1%nat) as [E1 | E1].
  - rewrite (primMST_few g) by lia. eexists. split; [reflexivity |].
    cbn [edges]. rewrite E1. split; [reflexivity |].
    intros v Hv. assert (v = 0%nat) as -> by lia. constructor.
  - rewrite primMST_many by lia.
    destruct (primLoop_spans (points g) (edges g) (length (points g)) Hvalid Hbelow)
      as (R & -> & Hlen & Hconn & _); [lia |].
    eexists. split; [reflexivity |]. cbn [edges]. split; assumption.
Qed.


(** * The run of the generator, iteration by iteration *)

Lemma placeLoop_add (rng : RNG) (k m : nat) :
  forall st,
    placeLoop (k + m) rng st
    = match placeLoop k rng st with
      | Some s => placeLoop m rng s
      | None => None
      end.
Proof.
  induction k as [|k IH]; intros st; [reflexivity |].
  cbn [Nat.add placeLoop].
  destruct (placeGuard st) eqn:Hg.
  - destruct (placeAttempt rng st) as [st1|]; [apply IH | reflexivity].
  - destruct m as [|m]; [reflexivity |]. cbn [placeLoop]. rewrite Hg. reflexivity.
Qed.

Lemma carveAll_None (rooms : list Room) (cols rows : Z) (es : list Edge) :
  fold_left (carveEdge rooms cols rows) es None = None.
Proof. induction es as [|e es IH]; [reflexivity | exact IH]. Qed.

Lemma carveAll_app (rooms : list Room) (cols rows : Z) (cells : Grid)
      (l1 l2 : list Edge) :
  carveAll rooms cols rows cells (l1 ++ l2)
  = match carveAll rooms cols rows cells l1 with
    | Some c => carveAll rooms cols rows c l2
    | None => None
    end.
Proof.
  unfold carveAll. rewrite fold_left_app.
  destruct (fold_left (carveEdge rooms cols rows) l1 (Some cells)); [reflexivity |].
  apply carveAll_None.
Qed.

(** One more iteration of the placement loop places one room or changes
    nothing. *)
Lemma placeLoop_next (rng : RNG) (k : nat) (s s' : PlaceState) :
  placeLoop k rng initialPlaceState = Some s ->
  placeLoop (S k) rng initialPlaceState = Some s' ->
  ps_cells s' = ps_cells s \/ genStep (ps_cells s) (ps_cells s').
Proof.
  intros Hk HS. replace (S k) with (k + 1)%nat in HS by lia.
  rewrite placeLoop_add, Hk in HS. cbn [placeLoop] in HS.
  destruct (placeGuard s); [| injection HS as <-; left; reflexivity].
  destruct (placeAttempt rng s) as [s1|] eqn:Hatt; [| discriminate].
  injection HS as <-. rewrite placeAttempt_cases in Hatt.
  destruct (isAreaEmpty _ _ _ _ _).
  - destruct (placeRoom _ _) as [c|] eqn:Hp; [| discriminate].
    injection Hatt as <-. right. cbn [ps_cells]. econstructor. exact Hp.
  - injection Hatt as <-. left. reflexivity.
Qed.

(** One more edge carves one path or changes nothing. *)
Lemma carveAll_next (rooms : list Room) (cols rows : Z) (cells : Grid)
      (es : list Edge) (j : nat) (c c' : Grid) :
  carveAll rooms cols rows cells (take j es) = Some c ->
  carveAll rooms cols rows cells (take (S j) es) = Some c' ->
  c' = c \/ genStep c c'.
Proof.
  intros Hj HS.
  destruct (es !! j) as [e|] eqn:He.
  - rewrite (take_S_r es j e He), carveAll_app, Hj, carveAll_cons in HS.
    destruct (carveCorridorBetween rooms cols rows c (ea e) (eb e)) as [[c1 ok]|] eqn:Hc;
      [| discriminate].
    injection HS as <-. revert Hc. unfold carveCorridorBetween.
    destruct (centerOf rooms (ea e)); [| discriminate].
    destruct (centerOf rooms (eb e)); [| discriminate].
    destruct (exitCellFromCenter _ _ _ (ea e) _); [| discriminate].
    destruct (exitCellFromCenter _ _ _ (eb e) _); [| discriminate].
    destruct (find _ _).
    + intros [= <- <-]. right. constructor.
    + intros [= <- <-]. left. reflexivity.
  - apply lookup_ge_None in He.
    rewrite take_ge in Hj, HS by lia. left. congruence.
Qed.

Lemma createDungeon_parts (rng : RNG) (d : Dungeon) :
  createDungeon rng = Some d ->
  exists st es,
    placeRooms rng = Some st /\ acceptedEdges rng = Some es
    /\ carveAll (ps_rooms st) (gridCols (ps_cells st)) (gridRows (ps_cells st))
                (ps_cells st) es = Some (d_cells d).
Proof.
  unfold createDungeon, acceptedEdges.
  destruct (placeRooms rng) as [st|]; [| discriminate].
  destruct (primMST _) as [mst|]; [| discriminate].
  destruct (carveAll _ _ _ _ _) as [cells'|] eqn:Hc; [| discriminate].
  intros [= <-]. exists st. eexists. split; [reflexivity |]. split; [reflexivity |].
  exact Hc.
Qed.

Section Run.

Variable rng : RNG.
Variable d : Dungeon.
Hypothesis Hrun : createDungeon rng = Some d.

Lemma gridAfter_placement (t : nat) :
  (t <= placementSteps)%nat ->
  gridAfter rng t = ps_cells <$> placeLoop t rng initialPlaceState.
Proof.
  intros Ht. unfold gridAfter.
  destruct (Nat.leb_spec t placementSteps); [reflexivity | lia].
Qed.

Lemma gridAfter_routing (t : nat) (st : PlaceState) (es : list Edge) :
  placeRooms rng = Some st -> acceptedEdges rng = Some es ->
  (placementSteps <= t)%nat ->
  gridAfter rng t
  = carveAll (ps_rooms st) (gridCols (ps_cells st)) (gridRows (ps_cells st))
             (ps_cells st) (take (t - placementSteps) es).
Proof.
  intros Hst Hes Ht. unfold gridAfter.
  destruct (Nat.leb_spec t placementSteps) as [Hle | Hgt].
  - assert (t = placementSteps) as -> by lia. rewrite Nat.sub_diag. cbn [take carveAll fold_left].
    unfold placeRooms in Hst. fold initialPlaceState in Hst. fold placementSteps in Hst.
    rewrite Hst. reflexivity.
  - rewrite Hst, Hes. reflexivity.
Qed.

Lemma gridAfter_start :
  gridAfter rng 0 = Some (createEmptyDungeon (width DUNGEON_SIZE) (height DUNGEON_SIZE)).
Proof. reflexivity. Qed.

Lemma gridAfter_end :
  exists T, forall t, (T <= t)%nat -> gridAfter rng t = Some (d_cells d).
Proof.
  destruct (createDungeon_parts rng d Hrun) as (st & es & Hst & Hes & Hcarve).
  exists (placementSteps + length es)%nat. intros t Ht.
  rewrite (gridAfter_routing t st es Hst Hes) by lia.
  rewrite take_ge by lia. exact Hcarve.
Qed.

Lemma gridAfter_returns (t : nat) : exists c, gridAfter rng t = Some c.
Proof.
  destruct (createDungeon_parts rng d Hrun) as (st & es & Hst & Hes & Hcarve).
  destruct (le_lt_dec t placementSteps) as [Hle | Hgt].
  - rewrite gridAfter_placement by exact Hle.
    unfold placeRooms in Hst. fold initialPlaceState in Hst. fold placementSteps in Hst.
    replace placementSteps with (t + (placementSteps - t))%nat in Hst by lia.
    rewrite placeLoop_add in Hst.
    destruct (placeLoop t rng initialPlaceState) as [s|]; [| discriminate].
    eexists. reflexivity.
  - rewrite (gridAfter_routing t st es Hst Hes) by lia.
    rewrite <- (take_drop (t - placementSteps) es) in Hcarve at 1.
    rewrite carveAll_app in Hcarve.
    destruct (carveAll _ _ _ _ (take (t - placementSteps) es)) as [c|]; [| discriminate].
    eexists. reflexivity.
Qed.

(** From one iteration to the next the grid changes by at most one write
    operation. *)
Lemma gridAfter_next (t : nat) (c c' : Grid) :
  gridAfter rng t = Some c -> gridAfter rng (S t) = Some c' ->
  c' = c \/ genStep c c'.
Proof.
  destruct (createDungeon_parts rng d Hrun) as (st & es & Hst & Hes & Hcarve).
  destruct (le_lt_dec (S t) placementSteps) as [Hle | Hgt].
  - rewrite !gridAfter_placement by lia.
    destruct (placeLoop t rng initialPlaceState) as [s|] eqn:Hs; [| discriminate].
    destruct (placeLoop (S t) rng initialPlaceState) as [s'|] eqn:Hs'; [| discriminate].
    cbn. intros [= <-] [= <-]. exact (placeLoop_next rng t s s' Hs Hs').
  - rewrite (gridAfter_routing t st es Hst Hes) by lia.
    rewrite (gridAfter_routing (S t) st es Hst Hes) by lia.
    replace (S t - placementSteps)%nat with (S (t - placementSteps)) by lia.
    apply carveAll_next.
Qed.

Lemma gridAfter_steps (t k : nat) (c c' : Grid) :
  gridAfter rng t = Some c -> gridAfter rng (t + k) = Some c' -> rtc genStep c c'.
Proof.
  revert c'. induction k as [|k IH]; intros c' Ht Hk.
  - rewrite Nat.add_0_r, Ht in Hk. injection Hk as <-. apply rtc_refl.
  - destruct (gridAfter_returns (t + k)) as [c1 Hc1].
    replace (t + S k)%nat with (S (t + k)) in Hk by lia.
    apply rtc_trans with c1; [exact (IH c1 Ht Hc1) |].
    destruct (gridAfter_next (t + k) c1 c' Hc1 Hk) as [-> | Hstep];
      [apply rtc_refl | apply rtc_once; exact Hstep].
Qed.

Lemma gridAfter_keeps_room (t t' : nat) (c c' : Grid) (x y : Z) :
  (t <= t')%nat -> gridAfter rng t = Some c -> gridAfter rng t' = Some c' ->
  typeAt c x y = Some room -> typeAt c' x y = Some room.
Proof.
  intros Hle Ht Ht'. replace t' with (t + (t' - t))%nat in Ht' by lia.
  pose proof (gridAfter_steps t (t' - t) c c' Ht Ht') as Hsteps.
  clear Ht Ht'. induction Hsteps as [|c1 c2 c3 Hstep _ IH]; [auto |].
  intros Hroom. apply IH. eapply genStep_keeps_room; eassumption.
Qed.

End Run.

(** ** Inside one operation *)

Lemma writeAll_app (t : CellTypeEnum) (cells : Grid) (l1 l2 : list Pos) :
  writeAll t cells (l1 ++ l2)
  = match writeAll t cells l1 with
    | Some c => writeAll t c l2
    | None => None
    end.
Proof.
  unfold writeAll. rewrite fold_left_app.
  destruct (fold_left _ l1 (Some cells)); [reflexivity |].
  induction l2 as [|p l2 IH]; [reflexivity | exact IH].
Qed.

Lemma writeAll_prefix_keeps_room (cells : Grid) (ps : list Pos) (m : nat)
      (c c' : Grid) (x y : Z) :
  writeAll room cells (take m ps) = Some c -> writeAll room cells ps = Some c' ->
  typeAt c x y = Some room -> typeAt c' x y = Some room.
Proof.
  intros Hm Hall. rewrite <- (take_drop m ps) in Hall. rewrite writeAll_app, Hm in Hall.
  eapply writeAll_keeps_room. exact Hall.
Qed.

Lemma carveCells_prefix_keeps_room (cols rows : Z) (cells : Grid) (path : list Pos)
      (m : nat) (x y : Z) :
  typeAt (carveCells cols rows cells (take m path)) x y = Some room ->
  typeAt (carveCells cols rows cells path) x y = Some room.
Proof.
  intros H. rewrite <- (take_drop m path). unfold carveCells. rewrite fold_left_app.
  apply (carveCells_keeps_room cols rows _ (drop m path)). exact H.
Qed.


(** * Distances between room centres *)

(** The distance [dist] computes between two points of the grid is below
    [Infinity]: checked on the 30^4 pairs of points. *)
Lemma grid_distances_below_infinity :
  let coords := map ofZ (seqZ 0 30) in
  forallb (fun ax => forallb (fun ay => forallb (fun bx => forallb (fun by_ =>
    (PrimFloat.sqrt ((ax - bx) * (ax - bx) + (ay - by_) * (ay - by_)) <? infinity)%float)
    coords) coords) coords) coords = true.
Proof. vm_compute. reflexivity. Qed.

Lemma In_grid_coord (z : Z) : 0 <= z < 30 -> In (ofZ z) (map ofZ (seqZ 0 30)).
Proof.
  intros Hz. apply in_map. apply In_seqZ. lia.
Qed.

Lemma grid_distance_below_infinity (ax ay bx by_ : Z) :
  0 <= ax < 30 -> 0 <= ay < 30 -> 0 <= bx < 30 -> 0 <= by_ < 30 ->
  (PrimFloat.sqrt ((ofZ ax - ofZ bx) * (ofZ ax - ofZ bx)
                   + (ofZ ay - ofZ by_) * (ofZ ay - ofZ by_)) <? infinity)%float = true.
Proof.
  intros Hax Hay Hbx Hby.
  pose proof grid_distances_below_infinity as H. cbv zeta in H.
  rewrite forallb_forall in H. specialize (H _ (In_grid_coord ax Hax)).
  rewrite forallb_forall in H. specialize (H _ (In_grid_coord ay Hay)).
  rewrite forallb_forall in H. specialize (H _ (In_grid_coord bx Hbx)).
  rewrite forallb_forall in H. exact (H _ (In_grid_coord by_ Hby)).
Qed.

Lemma roomShape_center (r : Room) :
  roomShape r ->
  0 <= fst (center r) < width DUNGEON_SIZE /\ 0 <= snd (center r) < height DUNGEON_SIZE.
Proof.
  intros (Hx & Hy & Hxw & Hyh & Hw & Hh & ->). cbn [fst snd].
  revert Hxw Hyh Hw Hh. unfold_consts. intros.
  pose proof (Z.div_pos (room_width r) 2 ltac:(lia) ltac:(lia)).
  pose proof (Z.div_pos (room_height r) 2 ltac:(lia) ltac:(lia)).
  assert (room_width r / 2 <= room_width r) by (apply Z.div_le_upper_bound; lia).
  assert (room_height r / 2 <= room_height r) by (apply Z.div_le_upper_bound; lia).
  lia.
Qed.

(** Between the centres of rooms of the generator's shape every distance is
    below [Infinity], so the fallback of [primMST] always finds a pair. *)
Lemma centres_below_infinity (rooms : list Room) :
  Forall roomShape rooms ->
  distancesBelowInfinity (map centerPoint rooms) (length rooms).
Proof.
  intros Hshape i j Hi Hj. rewrite List.Forall_forall in Hshape.
  destruct (lookup_lt_is_Some_2 rooms i Hi) as [ri Hri].
  destruct (lookup_lt_is_Some_2 rooms j Hj) as [rj Hrj].
  destruct (roomShape_center ri (Hshape ri (lookup_In _ _ _ Hri))) as [Hix Hiy].
  destruct (roomShape_center rj (Hshape rj (lookup_In _ _ _ Hrj))) as [Hjx Hjy].
  unfold dist. rewrite !list_lookup_fmap, Hri, Hrj. cbn [fmap option_fmap option_map].
  eexists. split; [reflexivity |]. cbn [centerPoint px py].
  revert Hix Hiy Hjx Hjy. unfold_consts. intros.
  apply grid_distance_below_infinity; assumption.
Qed.

(** ** The sample triangle *)

Lemma triangleGraph_connected :
  connectedGraph (length (points triangleGraph)) (edges triangleGraph).
Proof.
  intros v Hv. simpl in Hv.
  destruct v as [|[|[|v]]]; [| | | lia].
  - apply connected_refl.
  - apply connected_step with 0%nat; [apply connected_refl |]. left. simpl. tauto.
  - apply connected_step with 0%nat; [apply connected_refl |]. right. simpl. tauto.
Qed.

Lemma triangleGraph_finite :
  finiteLengths (points triangleGraph) (edges triangleGraph).
Proof.
  repeat constructor; eexists; (split; [vm_compute; reflexivity | vm_compute; reflexivity]).
Qed.

(** The sides of the sample triangle are 4, 5 and 3 long, exactly. *)
Lemma triangleGraph_exact :
  roundingKeepsOrder (points triangleGraph) (edges triangleGraph).
Proof.
  intros e e' He He' Hle.
  cbn [edges triangleGraph] in He, He'.
  destruct He as [<- | [<- | [<- | []]]]; destruct He' as [<- | [<- | [<- | []]]];
    first [ vm_compute; discriminate
          | exfalso; vm_compute in Hle; apply Hle; reflexivity ].
Qed.


(** * The claims *)

(** C1.  In every grid the generator can reach (rooms placed by the
    placement loop, any corridors carved so far, no filled 2x2 block yet), a
    candidate polyline whose carving would fill a 2x2 block with corridor
    cells is rejected by the validation; so the router never creates such a
    block, whatever the edges, and the generator returns a grid in which no
    2x2 block is made of corridor cells only. *)
Theorem no_filled_corridor_block :
  (forall rooms cells a b ra rb s e poly,
      RouterInv rooms cells ->
      rooms !! a = Some ra -> rooms !! b = Some rb ->
      exitCellFromCenter rooms (width DUNGEON_SIZE) (height DUNGEON_SIZE) a (center rb)
      = Some s ->
      exitCellFromCenter rooms (width DUNGEON_SIZE) (height DUNGEON_SIZE) b (center ra)
      = Some e ->
      In poly (candidatePolylines (width DUNGEON_SIZE) (height DUNGEON_SIZE) s e) ->
      (exists x y,
          corridorBlockAt
            (carveCells (width DUNGEON_SIZE) (height DUNGEON_SIZE) cells
                        (polylineToCells poly)) x y) ->
      pathAccepted rooms (width DUNGEON_SIZE) (height DUNGEON_SIZE) cells a b s e
                   (polylineToCells poly) = false)
  /\ (forall rooms cells es cells',
         RouterInv rooms cells ->
         carveAll rooms (width DUNGEON_SIZE) (height DUNGEON_SIZE) cells es = Some cells' ->
         noCorridorBlock cells')
  /\ (forall rng,
         unitRNG rng ->
         exists d,
           createDungeon rng = Some d
           /\ forall x y,
               ~ (typeAt (d_cells d) x y = Some corridor
                  /\ typeAt (d_cells d) (x + 1) y = Some corridor
                  /\ typeAt (d_cells d) x (y + 1) = Some corridor
                  /\ typeAt (d_cells d) (x + 1) (y + 1) = Some corridor)).
Proof.
  split; [| split].
  - intros rooms cells a b ra rb s e poly Hinv Ha Hb Hs He Hpoly (x & y & Hblock).
    destruct (pathAccepted _ _ _ _ _ _ _ _ _) eqn:Hacc; [| reflexivity].
    exfalso.
    exact (accepted_no_block rooms cells a b ra rb s e poly Hinv Ha Hb Hs He Hpoly Hacc
                             x y Hblock).
  - intros rooms cells es cells' Hinv Hc.
    exact (ri_noblock _ _ (carveAll_inv rooms es cells cells' Hinv Hc)).
  - intros rng Hu. destruct (createDungeon_total rng Hu) as [d Hd].
    exists d. split; [exact Hd |]. intros x y.
    exact (ri_noblock _ _ (createDungeon_RouterInv rng d Hu Hd) x y).
Qed.

Lemma no_filled_corridor_block_witness :
  exists d,
    createDungeon sampleRNG = Some d
    /\ forall x y,
        ~ (typeAt (d_cells d) x y = Some corridor
           /\ typeAt (d_cells d) (x + 1) y = Some corridor
           /\ typeAt (d_cells d) x (y + 1) = Some corridor
           /\ typeAt (d_cells d) (x + 1) (y + 1) = Some corridor).
Proof.
  exact (proj2 (proj2 no_filled_corridor_block) sampleRNG sampleRNG_unit).
Defined.

(** C2, as the claim states it, fails: under [crowdedRNG] the generator hands
    the router an edge list in which room 1 has three corridors, one more
    than [MAX_ALLOWED_CONNECTIONS]. *)
Lemma augmenter_exceeds_cap :
  unitRNG crowdedRNG
  /\ exists es, acceptedEdges crowdedRNG = Some es
                /\ MAX_ALLOWED_CONNECTIONS < degreeIn es 1.
Proof.
  split; [exact crowdedRNG_unit |].
  destruct (acceptedEdges crowdedRNG) as [es|] eqn:E; [| vm_compute in E; discriminate].
  exists es. split; [reflexivity |].
  vm_compute in E. injection E as <-. vm_compute. reflexivity.
Qed.

(** C2, amended.  The list returned by the loop augmenter is the tree edges
    followed by the accepted extra edges.  A candidate edge that is not in
    the tree is accepted exactly when the random draw passes
    [EXTRA_EDGE_CHANCE] and both its ends have, at that moment, a counter of
    at most [MAX_ALLOWED_CONNECTIONS]; both counters are then incremented at
    once, and the counters are the degrees in the list built so far.  So a
    point's degree in the returned list is at most the larger of its degree
    in the tree and [MAX_ALLOWED_CONNECTIONS + 1]. *)
Theorem extra_edges_enter_under_cap
        (rng : RNG) (draws n : nat) (mstEdges graphEdges : list Edge)
        (Hloops : Forall (fun e => ea e <> eb e) graphEdges) :
  let st := augment rng draws n mstEdges graphEdges in
  (exists extra, finalEdges st = mstEdges ++ extra)
  /\ (forall j, (j < n)%nat -> degreeOf (adjacency st) j = degreeIn (finalEdges st) j)
  /\ (forall j, (j < n)%nat ->
                degreeIn (finalEdges st) j
                <= Z.max (degreeIn mstEdges j) (MAX_ALLOWED_CONNECTIONS + 1))
  /\ (forall mstSet s e,
         let s' := augmentStep rng mstSet s e in
         if existsb (key_eqb (keyEdge (ea e) (eb e))) mstSet
         then s' = s
         else aug_draws s' = (aug_draws s + 1)%nat
              /\ if drawPasses rng s && underCap s e
                 then finalEdges s' = finalEdges s ++ [e]
                      /\ adjacency s' = countEdge (adjacency s) e
                 else finalEdges s' = finalEdges s /\ adjacency s' = adjacency s)
  /\ (forall adj e j, (j < length adj)%nat ->
                      degreeOf (countEdge adj e) j = degreeOf adj j + edgeEnds e j).
Proof.
  intros st.
  destruct (augment_inv rng draws n mstEdges graphEdges Hloops) as (_ & Hex & Hdeg & Hcap).
  split; [exact Hex |]. split; [exact Hdeg |]. split; [exact Hcap |].
  split; [intros mstSet s e; apply augmentStep_rule |].
  intros adj e j Hj. apply degreeOf_countEdge. exact Hj.
Qed.

Lemma extra_edges_enter_under_cap_witness :
  degreeIn (finalEdges (augment zeroRNG 0 4
                                [mkEdge 0 1; mkEdge 1 2; mkEdge 2 3]
                                [mkEdge 0 1; mkEdge 1 2; mkEdge 2 3; mkEdge 1 3])) 1
  <= Z.max (degreeIn [mkEdge 0 1; mkEdge 1 2; mkEdge 2 3] 1)
           (MAX_ALLOWED_CONNECTIONS + 1).
Proof.
  refine (proj1 (proj2 (proj2
            (extra_edges_enter_under_cap zeroRNG 0 4
               [mkEdge 0 1; mkEdge 1 2; mkEdge 2 3]
               [mkEdge 0 1; mkEdge 1 2; mkEdge 2 3; mkEdge 1 3] _))) 1%nat _).
  - repeat constructor; simpl; lia.
  - lia.
Defined.

(** C3, on the code.  When no candidate edge crosses the tree boundary the
    next edge is the one the fallback returns, and the fallback does force
    connectivity wherever every distance is below [Infinity]: [primMST] then
    returns [N - 1] edges that connect all the points.  But the fallback
    returns the first pair, in the order of its two nested loops, of a point
    in the tree and a point outside it at a distance below [Infinity], and
    looks at no later pair, so the pair need not be the nearest one: on
    three points on a line with no candidate edge, [primMST] first joins
    points 0 and 1, ten apart, although point 2 is one away from point 0. *)
Theorem fallback_takes_first_pair :
  (forall pts es inMST n,
      (forall e, In e es -> crossing inMST e = false) ->
      nextEdge pts es inMST n = fallbackEdge pts inMST n infinity)
  /\ (forall pts inMST n e,
         fallbackEdge pts inMST n infinity = Some (Some e) ->
         exists l1 l2 d,
           indexPairs n = l1 ++ (ea e, eb e) :: l2
           /\ inTree inMST (ea e) = true /\ inTree inMST (eb e) = false
           /\ dist pts (ea e) (eb e) = Some d /\ (d <? infinity)%float = true
           /\ forall i j, In (i, j) l1 ->
                          inTree inMST i = true -> inTree inMST j = false ->
                          exists d', dist pts i j = Some d'
                                     /\ (d' <? infinity)%float = false)
  /\ (forall g,
         (1 <= length (points g))%nat ->
         validEdges (length (points g)) (edges g) ->
         distancesBelowInfinity (points g) (length (points g)) ->
         exists mst,
           primMST g = Some mst
           /\ length (edges mst) = (length (points g) - 1)%nat
           /\ connectedGraph (length (points g)) (edges mst))
  /\ fallbackEdge linePoints (treeAfter 3 []) 3 infinity = Some (Some (mkEdge 0 1))
  /\ (inTree (treeAfter 3 []) 0 = true /\ inTree (treeAfter 3 []) 2 = false
      /\ dist linePoints 0 2 = Some 1%float /\ dist linePoints 0 1 = Some 10%float)
  /\ primMST (mkGraph linePoints [] None)
     = Some (mkGraph linePoints [mkEdge 0 1; mkEdge 0 2] None).
Proof.
  split; [| split; [| split; [| split; [| split]]]].
  - intros pts es inMST n Hnone. unfold nextEdge.
    rewrite (scanEdges_no_crossing pts inMST es Hnone). reflexivity.
  - intros pts inMST n e H. exact (firstPair_found _ _ _ _ _ H).
  - intros g Hn Hvalid Hbelow. apply primMST_spans; assumption.
  - vm_compute. reflexivity.
  - repeat split; vm_compute; reflexivity.
  - vm_compute. reflexivity.
Qed.

(** C4, as the claim states it, fails on doubles in two ways.  Two points
    [2^600] apart joined by a candidate edge form a connected graph, but the
    squared distance overflows, [dist] returns [Infinity], which is not
    below the initial [bestWeight], and [primMST] returns no edge at all.
    And on the thin triangle the side of exact length [sqrt (2^60 + 1)] is
    computed as [2^30], ties with the side of that length and wins the tie
    by coming first: the tree returned is longer than another spanning
    tree. *)
Lemma primMST_fails_on_doubles :
  ((1 <= length (points farGraph))%nat
   /\ validEdges (length (points farGraph)) (edges farGraph)
   /\ connectedGraph (length (points farGraph)) (edges farGraph)
   /\ exists mst, primMST farGraph = Some mst
                  /\ length (edges mst) <> (length (points farGraph) - 1)%nat)
  /\ ((1 <= length (points thinGraph))%nat
      /\ validEdges (length (points thinGraph)) (edges thinGraph)
      /\ connectedGraph (length (points thinGraph)) (edges thinGraph)
      /\ exists mst T,
          primMST thinGraph = Some mst
          /\ spanningTree (length (points thinGraph)) (edges thinGraph) T
          /\ (totalLength (points thinGraph) T
              < totalLength (points thinGraph) (edges mst))%R).
Proof.
  split.
  - split; [cbn; lia |]. split; [repeat constructor; cbn; lia |]. split.
    + intros v Hv. cbn in Hv. destruct v as [|[|v]]; [| | lia].
      * apply connected_refl.
      * apply connected_step with 0%nat; [apply connected_refl |]. left. cbn. tauto.
    + eexists. split; [vm_compute; reflexivity |]. cbn. lia.
  - split; [cbn; lia |]. split; [repeat constructor; cbn; lia |]. split.
    + intros v Hv. cbn in Hv. destruct v as [|[|[|v]]]; [| | | lia].
      * apply connected_refl.
      * apply connected_step with 0%nat; [apply connected_refl |]. left. cbn. tauto.
      * apply connected_step with 0%nat; [apply connected_refl |]. right. cbn. tauto.
    + exists (mkGraph (points thinGraph) [mkEdge 0 1; mkEdge 1 2] None),
             [mkEdge 2 0; mkEdge 1 2].
      split; [vm_compute; reflexivity |]. split.
      * split; [| split].
        -- intros e [<- | [<- | []]]; cbn; tauto.
        -- reflexivity.
        -- intros v Hv. cbn in Hv. destruct v as [|[|[|v]]]; [| | | lia].
           ++ apply connected_refl.
           ++ apply connected_step with 2%nat.
              ** apply connected_step with 0%nat; [apply connected_refl |].
                 right. cbn. tauto.
              ** right. cbn. tauto.
           ++ apply connected_step with 0%nat; [apply connected_refl |]. right. cbn. tauto.
      * cbn [edges]. unfold totalLength, totalOf, fold_right, edgeLength.
        apply Rplus_lt_compat_r. apply sqrt_lt_1_alt. split.
        -- rewrite <- RMicromega.Q2R_0. apply Qle_Rle. vm_compute. discriminate.
        -- apply Qlt_Rlt. vm_compute. reflexivity.
Qed.

(** C4, amended.  For a graph of at least one point whose candidate edges
    reach every point and all have a finite computed length, [primMST]
    returns the same points and exactly [N - 1] candidate edges that connect
    all the points, whose computed lengths add up to no more than those of
    any spanning tree made of candidate edges; where rounding does not
    reverse the order of two candidates, the same holds of the exact
    Euclidean lengths.  Each edge of the result is, in the tree built by the
    edges before it, the first edge in the order of the candidate list among
    the crossing candidates of least computed length (every crossing
    candidate before it is computed strictly longer). *)
Theorem primMST_minimum_spanning_tree (g : Graph)
        (Hn : (1 <= length (points g))%nat)
        (Hconn : connectedGraph (length (points g)) (edges g))
        (Hfin : finiteLengths (points g) (edges g)) :
  exists mst,
    primMST g = Some mst
    /\ points mst = points g
    /\ length (edges mst) = (length (points g) - 1)%nat
    /\ spanningTree (length (points g)) (edges g) (edges mst)
    /\ (forall T, spanningTree (length (points g)) (edges g) T ->
                  (computedTotal (points g) (edges mst)
                   <= computedTotal (points g) T)%Q)
    /\ (roundingKeepsOrder (points g) (edges g) ->
        forall T, spanningTree (length (points g)) (edges g) T ->
                  (totalLength (points g) (edges mst)
                   <= totalLength (points g) T)%R)
    /\ (forall l1 e l2,
           edges mst = l1 ++ e :: l2 ->
           primChoice (points g) (edges g) (treeAfter (length (points g)) l1) e).
Proof.
  pose proof (finiteLengths_valid _ _ Hfin) as Hvalid.
  destruct (Nat.eq_dec (length (points g)) 1%nat) as [E1 | E1].
  - exists (mkGraph (points g) [] None). rewrite (primMST_few g) by lia.
    split; [reflexivity |]. split; [reflexivity |]. cbn [edges]. rewrite E1.
    split; [reflexivity |].
    assert (Hnil : forall T, spanningTree 1 (edges g) T -> T = []).
    { intros T (_ & Hlen & _). destruct T; [reflexivity | discriminate]. }
    split; [| split; [| split]].
    + split; [intros e [] |]. split; [reflexivity |].
      intros v Hv. assert (v = 0%nat) as -> by lia. constructor.
    + intros T HT. rewrite (Hnil T HT). apply Qle_refl.
    + intros _ T HT. rewrite (Hnil T HT). apply Rle_refl.
    + intros l1 e l2 H. destruct l1; discriminate.
  - rewrite primMST_many by lia.
    destruct (primLoop_optimal (points g) (edges g) (length (points g)) Hvalid Hfin
                (fun e => Q2R (computedLength (points g) e))
                (fun e e' _ _ => computedLength_mono (points g) e e')
                ltac:(lia) Hconn)
      as (R & HR & Hspan & Hopt & Hchoice).
    rewrite HR. exists (mkGraph (points g) R None).
    split; [reflexivity |]. split; [reflexivity |]. cbn [edges].
    split; [apply Hspan |]. split; [exact Hspan |]. split; [| split].
    + intros T HT. apply Rle_Qle. rewrite !computedTotal_totalOf. exact (Hopt T HT).
    + intros Hkeep.
      destruct (primLoop_optimal (points g) (edges g) (length (points g)) Hvalid Hfin
                  (edgeLength (points g))
                  (fun e e' He He' => edgeLength_mono (points g) (edges g) e e' Hkeep He He')
                  ltac:(lia) Hconn)
        as (R' & HR' & _ & Hopt' & _).
      rewrite HR in HR'. injection HR' as <-. exact Hopt'.
    + exact Hchoice.
Qed.

Lemma primMST_minimum_spanning_tree_witness :
  finiteLengths (points triangleGraph) (edges triangleGraph)
  /\ roundingKeepsOrder (points triangleGraph) (edges triangleGraph)
  /\ exists mst,
      primMST triangleGraph = Some mst
      /\ points mst = points triangleGraph
      /\ length (edges mst) = (length (points triangleGraph) - 1)%nat
      /\ spanningTree (length (points triangleGraph)) (edges triangleGraph) (edges mst)
      /\ (forall T, spanningTree (length (points triangleGraph)) (edges triangleGraph) T ->
                    (computedTotal (points triangleGraph) (edges mst)
                     <= computedTotal (points triangleGraph) T)%Q)
      /\ (roundingKeepsOrder (points triangleGraph) (edges triangleGraph) ->
          forall T, spanningTree (length (points triangleGraph)) (edges triangleGraph) T ->
                    (totalLength (points triangleGraph) (edges mst)
                     <= totalLength (points triangleGraph) T)%R)
      /\ (forall l1 e l2,
             edges mst = l1 ++ e :: l2 ->
             primChoice (points triangleGraph) (edges triangleGraph)
                        (treeAfter (length (points triangleGraph)) l1) e).
Proof.
  split; [exact triangleGraph_finite |]. split; [exact triangleGraph_exact |].
  apply (primMST_minimum_spanning_tree triangleGraph).
  - simpl. lia.
  - exact triangleGraph_connected.
  - exact triangleGraph_finite.
Defined.



(** C5.  Any two rooms placed by the generator are at Chebyshev distance at
    least [ROOM_SEPARATION], cell to cell, and so share no cell; the
    separation comes from the test made before a room is placed: the drawn
    room is added exactly when the rectangle grown by [ROOM_SEPARATION] on
    every side is empty, and is dropped otherwise. *)
Theorem rooms_keep_apart (rng : RNG) (Hu : unitRNG rng) :
  exists d,
    createDungeon rng = Some d
    /\ (forall i j r1 r2,
           i <> j -> d_rooms d !! i = Some r1 -> d_rooms d !! j = Some r2 ->
           forall p1 p2,
             inRoom r1 (fst p1) (snd p1) = true ->
             inRoom r2 (fst p2) (snd p2) = true ->
             ROOM_SEPARATION <= chebyshev p1 p2 /\ p1 <> p2)
    /\ (forall s s',
           placeAttempt rng s = Some s' ->
           let r := drawRoom rng (ps_draws s) in
           if isAreaEmpty (ps_cells s)
                          (room_x r - ROOM_SEPARATION) (room_y r - ROOM_SEPARATION)
                          (room_width r + ROOM_SEPARATION * 2)
                          (room_height r + ROOM_SEPARATION * 2)
           then ps_rooms s' = ps_rooms s ++ [r]
           else ps_rooms s' = ps_rooms s /\ ps_cells s' = ps_cells s).
Proof.
  destruct (createDungeon_total rng Hu) as [d Hd]. exists d. split; [exact Hd |].
  pose proof (createDungeon_RouterInv rng d Hu Hd) as Hinv.
  split.
  - intros i j r1 r2 Hij H1 H2 p1 p2 Hp1 Hp2.
    pose proof (chebyshev_apart r1 r2 p1 p2 ROOM_SEPARATION
                                (ri_apart _ _ Hinv i j r1 r2 Hij H1 H2) Hp1 Hp2) as Hlt.
    split; [lia |]. intros ->. unfold chebyshev in Hlt.
    rewrite !Z.sub_diag in Hlt. unfold ROOM_SEPARATION in Hlt. simpl in Hlt. lia.
  - intros s s' Hs r. rewrite placeAttempt_cases in Hs. fold r in Hs.
    destruct (isAreaEmpty _ _ _ _ _).
    + destruct (placeRoom (ps_cells s) r); [| discriminate].
      injection Hs as <-. reflexivity.
    + injection Hs as <-. split; reflexivity.
Qed.

Lemma rooms_keep_apart_witness :
  exists d,
    createDungeon sampleRNG = Some d
    /\ (forall i j r1 r2,
           i <> j -> d_rooms d !! i = Some r1 -> d_rooms d !! j = Some r2 ->
           forall p1 p2,
             inRoom r1 (fst p1) (snd p1) = true ->
             inRoom r2 (fst p2) (snd p2) = true ->
             ROOM_SEPARATION <= chebyshev p1 p2 /\ p1 <> p2)
    /\ (forall s s',
           placeAttempt sampleRNG s = Some s' ->
           let r := drawRoom sampleRNG (ps_draws s) in
           if isAreaEmpty (ps_cells s)
                          (room_x r - ROOM_SEPARATION) (room_y r - ROOM_SEPARATION)
                          (room_width r + ROOM_SEPARATION * 2)
                          (room_height r + ROOM_SEPARATION * 2)
           then ps_rooms s' = ps_rooms s ++ [r]
           else ps_rooms s' = ps_rooms s /\ ps_cells s' = ps_cells s).
Proof. exact (rooms_keep_apart sampleRNG sampleRNG_unit). Defined.

(** C6.  A room cell stays a room cell at every step of a run.  Each of the
    two writing operations ([placeRoom], [carveCells]) leaves a room cell a
    room cell, also part of the way through its loop; [carveCell] returns
    the grid untouched on a room cell, and carving never produces a room
    cell (only [placeRoom] does).  And in a run of the generator, whose
    grids [gridAfter] lists iteration by iteration from the empty grid to
    the grid returned, each iteration changes the grid by at most one of
    these operations, and a cell that is a room after some iteration is a
    room after every later one, and so in the dungeon returned. *)
Theorem room_cells_are_permanent :
  (forall cells cells' x y,
      genStep cells cells' ->
      typeAt cells x y = Some room -> typeAt cells' x y = Some room)
  /\ (forall cols rows cells p,
         typeIs room cells (fst p) (snd p) = true ->
         carveCell cols rows cells p = cells)
  /\ (forall cols rows cells path x y,
         typeAt (carveCells cols rows cells path) x y = Some room ->
         typeAt cells x y = Some room)
  /\ (forall cells r m c c' x y,
         writeAll room cells
                  (take m (rectCells (room_x r) (room_y r) (room_width r) (room_height r)))
         = Some c ->
         placeRoom cells r = Some c' ->
         typeAt c x y = Some room -> typeAt c' x y = Some room)
  /\ (forall cols rows cells path m x y,
         typeAt (carveCells cols rows cells (take m path)) x y = Some room ->
         typeAt (carveCells cols rows cells path) x y = Some room)
  /\ (forall rng d,
         createDungeon rng = Some d ->
         gridAfter rng 0
         = Some (createEmptyDungeon (width DUNGEON_SIZE) (height DUNGEON_SIZE))
         /\ (exists T, forall t, (T <= t)%nat -> gridAfter rng t = Some (d_cells d))
         /\ (forall t, exists c, gridAfter rng t = Some c)
         /\ (forall t c c',
                gridAfter rng t = Some c -> gridAfter rng (S t) = Some c' ->
                c' = c \/ genStep c c')
         /\ (forall t t' c c' x y,
                (t <= t')%nat ->
                gridAfter rng t = Some c -> gridAfter rng t' = Some c' ->
                typeAt c x y = Some room -> typeAt c' x y = Some room)
         /\ (forall t c x y,
                gridAfter rng t = Some c ->
                typeAt c x y = Some room -> typeAt (d_cells d) x y = Some room))
  /\ (forall rng, unitRNG rng -> exists d, createDungeon rng = Some d).
Proof.
  split; [| split; [| split; [| split; [| split; [| split]]]]].
  - intros cells cells' x y. apply genStep_keeps_room.
  - intros cols rows cells p Hroom. unfold carveCell. rewrite Hroom.
    destruct (negb _); reflexivity.
  - intros cols rows cells path x y. apply carveCells_keeps_room.
  - intros cells r m c c' x y Hm Hall. unfold placeRoom in Hall.
    exact (writeAll_prefix_keeps_room cells _ m c c' x y Hm Hall).
  - intros cols rows cells path m x y. apply carveCells_prefix_keeps_room.
  - intros rng d Hd. split; [exact (gridAfter_start rng) |].
    split; [exact (gridAfter_end rng d Hd) |].
    split; [exact (gridAfter_returns rng d Hd) |].
    split; [exact (gridAfter_next rng d Hd) |].
    split; [exact (gridAfter_keeps_room rng d Hd) |].
    intros t c x y Ht Hroom.
    destruct (gridAfter_end rng d Hd) as [T HT].
    apply (gridAfter_keeps_room rng d Hd t (T + t) c (d_cells d) x y); try assumption.
    + lia.
    + apply HT. lia.
  - intros rng. apply createDungeon_total.
Qed.

(** C7.  Routing an edge between two rooms with different centres always
    returns, and its outcome is all or nothing: either no candidate passes
    validation and the grid is returned unchanged, or the first candidate
    that passes validation on the grid as it was before the call is carved
    whole (every cell of its path is a corridor afterwards and no cell off
    the path changes).  The loop over the final edges calls the router once
    per edge, in order, each call starting from the grid the previous one
    left. *)
Theorem corridor_carving_is_atomic
        (rooms : list Room) (cols rows : Z) (cells : Grid) (a b : nat) (ra rb : Room)
        (Hrect : rectGrid cols rows cells) (Hdrawn : roomsDrawn rooms cells)
        (Ha : rooms !! a = Some ra) (Hb : rooms !! b = Some rb)
        (Hne : center ra <> center rb) :
  (exists start end_ cells' ok,
      exitCellFromCenter rooms cols rows a (center rb) = Some start
      /\ exitCellFromCenter rooms cols rows b (center ra) = Some end_
      /\ carveCorridorBetween rooms cols rows cells a b = Some (cells', ok)
      /\ (ok = false ->
          cells' = cells
          /\ forall poly, In poly (candidatePolylines cols rows start end_) ->
                          pathAccepted rooms cols rows cells a b start end_
                                       (polylineToCells poly) = false)
      /\ (ok = true ->
          exists before poly after,
            candidatePolylines cols rows start end_ = before ++ poly :: after
            /\ (forall q, In q before ->
                          pathAccepted rooms cols rows cells a b start end_
                                       (polylineToCells q) = false)
            /\ pathAccepted rooms cols rows cells a b start end_
                            (polylineToCells poly) = true
            /\ cells' = carveCells cols rows cells (polylineToCells poly)
            /\ (forall p, In p (polylineToCells poly) ->
                          typeAt cells' (fst p) (snd p) = Some corridor)
            /\ (forall x y, ~ In (x, y) (polylineToCells poly) ->
                            typeAt cells' x y = typeAt cells x y)))
  /\ (forall e es,
         carveAll rooms cols rows cells (e :: es)
         = match carveCorridorBetween rooms cols rows cells (ea e) (eb e) with
           | Some (cells', _) => carveAll rooms cols rows cells' es
           | None => None
           end)
  /\ carveAll rooms cols rows cells [] = Some cells.
Proof.
  split; [| split; [intros e es; apply carveAll_cons | reflexivity]].
  destruct (exitCellFromCenter_total rooms cols rows a ra (center rb) Ha)
    as [start Hstart]; [congruence |].
  destruct (exitCellFromCenter_total rooms cols rows b rb (center ra) Hb)
    as [end_ Hend]; [congruence |].
  assert (Hca : centerOf rooms a = Some (center ra)) by (unfold centerOf; rewrite Ha; reflexivity).
  assert (Hcb : centerOf rooms b = Some (center rb)) by (unfold centerOf; rewrite Hb; reflexivity).
  unfold carveCorridorBetween. rewrite Hca, Hcb, Hstart, Hend.
  destruct (find _ (candidatePolylines cols rows start end_)) as [poly|] eqn:Hfind.
  - exists start, end_, (carveCells cols rows cells (polylineToCells poly)), true.
    split; [reflexivity |]. split; [reflexivity |]. split; [reflexivity |].
    split; [discriminate |]. intros _.
    assert (Hsplit : exists before after,
               candidatePolylines cols rows start end_ = before ++ poly :: after
               /\ forall q, In q before ->
                            pathAccepted rooms cols rows cells a b start end_
                                         (polylineToCells q) = false).
    { revert Hfind. generalize (candidatePolylines cols rows start end_).
      induction l as [|q l IH]; simpl; [discriminate |].
      destruct (pathAccepted _ _ _ _ _ _ _ _ (polylineToCells q)) eqn:Hq.
      - intros [= ->]. exists [], l. split; [reflexivity | intros ? []].
      - intros H. destruct (IH H) as (before & after & -> & Hbefore).
        exists (q :: before), after. split; [reflexivity |].
        intros q' [<- | Hq']; auto. }
    destruct Hsplit as (before & after & Heq & Hbefore).
    apply find_some in Hfind as [_ Hacc].
    exists before, poly, after.
    split; [exact Heq |]. split; [exact Hbefore |]. split; [exact Hacc |].
    split; [reflexivity |]. split.
    + intros p Hp. eapply accepted_path_carved; eassumption.
    + intros x y Hnot. rewrite carveCells_typeAt.
      destruct (typeAt cells x y) as [t|]; [| reflexivity]. simpl. f_equal.
      unfold carvedType.
      replace (existsb (pos_eqb (x, y)) (polylineToCells poly)) with false.
      * destruct t; reflexivity.
      * symmetry. apply not_true_is_false. rewrite existsb_pos_In. exact Hnot.
  - exists start, end_, cells, false.
    split; [reflexivity |]. split; [reflexivity |]. split; [reflexivity |].
    split; [| discriminate]. intros _. split; [reflexivity |].
    intros poly Hpoly. eapply find_none in Hfind; [exact Hfind | exact Hpoly].
Qed.

Lemma corridor_carving_is_atomic_witness :
  exists cells' ok,
    carveCorridorBetween (ps_rooms sampleState) 30 30 (ps_cells sampleState) 0 1
    = Some (cells', ok).
Proof.
  destruct (corridor_carving_is_atomic
              (ps_rooms sampleState) 30 30 (ps_cells sampleState) 0%nat 1%nat
              (mkRoom 25 8 3 5 (26, 10)) (mkRoom 13 26 6 3 (16, 27))
              (pi_rect _ sampleState_inv) (pi_drawn _ sampleState_inv))
    as [(start & end_ & cells' & ok & _ & _ & H & _) _].
  - vm_compute. reflexivity.
  - vm_compute. reflexivity.
  - discriminate.
  - exists cells', ok. exact H.
Defined.

(** C8.  For at most two input points the triangulation returns the same
    points and no edge (and no triangle): every triangle left after the
    insertions has a corner on the super-triangle, whatever the in-circle
    test answers, so the final filter drops them all. *)
Theorem few_points_give_no_edges (pnts : list Point) (Hlen : (length pnts <= 2)%nat) :
  points (createGraphFromPoints pnts) = pnts
  /\ edges (createGraphFromPoints pnts) = []
  /\ (forall inCircle,
         points (createGraphFromPointsBy inCircle pnts) = pnts
         /\ edges (createGraphFromPointsBy inCircle pnts) = []).
Proof.
  unfold createGraphFromPoints.
  destruct (few_points_no_triangle circumcircleContains pnts Hlen) as (Hp & He & _).
  split; [exact Hp |]. split; [exact He |].
  intros inCircle.
  destruct (few_points_no_triangle inCircle pnts Hlen) as (Hp' & He' & _).
  split; assumption.
Qed.

Lemma few_points_give_no_edges_witness :
  points (createGraphFromPoints [mkPoint 0 0; mkPoint 3 4]) = [mkPoint 0 0; mkPoint 3 4]
  /\ edges (createGraphFromPoints [mkPoint 0 0; mkPoint 3 4]) = []
  /\ (forall inCircle,
         points (createGraphFromPointsBy inCircle [mkPoint 0 0; mkPoint 3 4])
         = [mkPoint 0 0; mkPoint 3 4]
         /\ edges (createGraphFromPointsBy inCircle [mkPoint 0 0; mkPoint 3 4]) = []).
Proof.
  apply (few_points_give_no_edges [mkPoint 0 0; mkPoint 3 4]). simpl. lia.
Defined.


(** C9.  Whatever the random stream returns, each room placed by the
    generator lies inside the grid ([0 <= x], [0 <= y],
    [x + width <= DUNGEON_SIZE.width], [y + height <= DUNGEON_SIZE.height]):
    the placement loop finishes without any of [placeRoom]'s writes falling
    outside the grid, and [placeRoom] on such a room never raises. *)
Theorem rooms_inside_grid (rng : RNG) (Hu : unitRNG rng) :
  (exists st, placeRooms rng = Some st /\ Forall roomInGrid (ps_rooms st))
  /\ (exists d,
         createDungeon rng = Some d
         /\ Forall roomInGrid (d_rooms d)
         /\ forall r cells,
             In r (d_rooms d) ->
             rectGrid (width DUNGEON_SIZE) (height DUNGEON_SIZE) cells ->
             exists cells', placeRoom cells r = Some cells').
Proof.
  destruct (placeRooms_inv rng Hu) as (st & Hst & Hinv).
  assert (Hin : Forall roomInGrid (ps_rooms st)).
  { eapply List.Forall_impl; [| apply (pi_shape st Hinv)]. apply roomShape_inGrid. }
  split; [exists st; split; assumption |].
  destruct (createDungeon_total rng Hu) as [d Hd]. exists d. split; [exact Hd |].
  apply createDungeon_rooms in Hd as (st' & Hst' & Hrooms).
  rewrite Hst in Hst'. injection Hst' as <-. rewrite Hrooms.
  split; [exact Hin |].
  intros r cells Hr Hrect. rewrite List.Forall_forall in Hin.
  destruct (placeRoom_spec cells r Hrect (Hin r Hr)) as (cells' & H & _).
  exists cells'. exact H.
Qed.

Lemma rooms_inside_grid_witness :
  (exists st, placeRooms sampleRNG = Some st /\ Forall roomInGrid (ps_rooms st))
  /\ (exists d,
         createDungeon sampleRNG = Some d
         /\ Forall roomInGrid (d_rooms d)
         /\ forall r cells,
             In r (d_rooms d) ->
             rectGrid (width DUNGEON_SIZE) (height DUNGEON_SIZE) cells ->
             exists cells', placeRoom cells r = Some cells').
Proof. exact (rooms_inside_grid sampleRNG sampleRNG_unit). Defined.

(** C10.  [isAreaEmpty] looks only at the part of the rectangle that lies in
    the grid: it answers [true] exactly when every cell of the rectangle that
    exists in the grid is empty, so positions outside the grid never make it
    fail.  The separation test therefore accepts a room whose grown rectangle
    sticks out of the grid, and a room can sit against the border: the
    stream of zeros places a room in the corner [(0, 0)]. *)
Theorem isAreaEmpty_clips_to_grid :
  (forall cells x y w h,
      isAreaEmpty cells x y w h = true
      <-> forall i j,
          x <= i < x + w -> y <= j < y + h ->
          0 <= i < gridCols cells -> 0 <= j < gridRows cells ->
          typeAt cells i j = Some empty)
  /\ (exists rng d r,
         unitRNG rng /\ createDungeon rng = Some d /\ In r (d_rooms d)
         /\ room_x r = 0 /\ room_y r = 0
         /\ room_x r - ROOM_SEPARATION < 0 /\ room_y r - ROOM_SEPARATION < 0
         /\ isAreaEmpty (createEmptyDungeon (width DUNGEON_SIZE) (height DUNGEON_SIZE))
                        (room_x r - ROOM_SEPARATION) (room_y r - ROOM_SEPARATION)
                        (room_width r + ROOM_SEPARATION * 2)
                        (room_height r + ROOM_SEPARATION * 2) = true).
Proof.
  split; [exact isAreaEmpty_spec |].
  exists zeroRNG.
  destruct (createDungeon zeroRNG) as [d|] eqn:Hd; [| vm_compute in Hd; discriminate].
  exists d, (mkRoom 0 0 3 3 (1, 1)).
  split; [exact zeroRNG_unit |]. split; [reflexivity |].
  assert (Hrooms : d_rooms d = [mkRoom 0 0 3 3 (1, 1)]).
  { apply createDungeon_rooms in Hd as (st & Hst & ->).
    vm_compute in Hst. injection Hst as <-. reflexivity. }
  rewrite Hrooms. cbn [room_x room_y room_width room_height].
  split; [left; reflexivity |].
  repeat split; try (vm_compute; reflexivity).
Qed.


(** * The rest of the grid primitives *)

Lemma cellAt_createEmptyDungeon (w h x y : Z) :
  cellAt (createEmptyDungeon w h) x y
  = if (0 <=? x) && (x <? w) && (0 <=? y) && (y <? h)
    then Some (mkCell x y empty) else None.
Proof.
  unfold cellAt, createEmptyDungeon.
  destruct (0 <=? x) eqn:Hx; cbn [andb]; [| reflexivity].
  destruct (0 <=? y) eqn:Hy; cbn [andb]; [| rewrite andb_false_r; reflexivity].
  apply Z.leb_le in Hx, Hy.
  rewrite list_lookup_fmap.
  destruct (y <? h) eqn:Hh.
  - apply Z.ltb_lt in Hh. rewrite lookup_seqZ_lt by lia. cbn [fmap option_fmap option_map].
    rewrite list_lookup_fmap. rewrite andb_true_r.
    destruct (x <? w) eqn:Hw.
    + apply Z.ltb_lt in Hw. rewrite lookup_seqZ_lt by lia. cbn.
      do 2 f_equal; lia.
    + apply Z.ltb_ge in Hw. rewrite lookup_seqZ_ge by lia. reflexivity.
  - apply Z.ltb_ge in Hh. rewrite lookup_seqZ_ge by lia. rewrite andb_false_r. reflexivity.
Qed.

Lemma isAreaEmpty_createEmptyDungeon (w h x y rw rh : Z) :
  isAreaEmpty (createEmptyDungeon w h) x y rw rh = true.
Proof.
  apply isAreaEmpty_spec. intros i j _ _ Hi Hj.
  destruct (typeAt (createEmptyDungeon w h) i j) as [t|] eqn:Ht.
  - apply createEmptyDungeon_empty in Ht. congruence.
  - exfalso. unfold typeAt in Ht. rewrite cellAt_createEmptyDungeon in Ht.
    assert (Hrows : gridRows (createEmptyDungeon w h) = Z.max 0 h).
    { unfold gridRows, createEmptyDungeon. rewrite length_map, length_seqZ. lia. }
    assert (Hcols : gridCols (createEmptyDungeon w h) <= Z.max 0 w).
    { unfold gridCols, createEmptyDungeon.
      destruct (seqZ 0 h) as [|y0 l]; simpl; [lia |].
      rewrite length_map, length_seqZ. lia. }
    assert (E : (0 <=? i) && (i <? w) && (0 <=? j) && (j <? h) = true).
    { repeat (apply andb_true_iff; split);
        try (apply Z.leb_le; lia); apply Z.ltb_lt; lia. }
    rewrite E in Ht. discriminate.
Qed.

(** X1.  [createEmptyDungeon(width, height)] returns [height] rows of
    [width] cells (none when a dimension is zero or negative); the cell stored
    at column [x] of row [y] is [{x, y, type: empty}], so every cell carries
    its own position, and [isAreaEmpty] answers [true] for every rectangle of
    the fresh grid. *)
Theorem createEmptyDungeon_cells (w h : Z) :
  gridRows (createEmptyDungeon w h) = Z.max 0 h
  /\ Forall (fun row => Z.of_nat (length row) = Z.max 0 w) (createEmptyDungeon w h)
  /\ (forall x y,
         cellAt (createEmptyDungeon w h) x y
         = if (0 <=? x) && (x <? w) && (0 <=? y) && (y <? h)
           then Some (mkCell x y empty) else None)
  /\ (forall x y rw rh, isAreaEmpty (createEmptyDungeon w h) x y rw rh = true).
Proof.
  split; [| split; [| split]].
  - unfold gridRows, createEmptyDungeon. rewrite length_map, length_seqZ. lia.
  - apply List.Forall_forall. intros row Hin. unfold createEmptyDungeon in Hin.
    apply in_map_iff in Hin as (y & <- & _). rewrite length_map, length_seqZ. lia.
  - apply cellAt_createEmptyDungeon.
  - intros x y rw rh. apply isAreaEmpty_createEmptyDungeon.
Qed.

(** ** [placeRoom]: when it raises and what it writes *)

Lemma writeAll_from_None (t : CellTypeEnum) (ps : list Pos) :
  fold_left (fun acc p => match acc with
                          | Some cs => writeType t cs p
                          | None => None
                          end) ps None = None.
Proof. induction ps as [|p ps IH]; [reflexivity | exact IH]. Qed.

Lemma writeAll_cons (t : CellTypeEnum) (cells : Grid) (p : Pos) (ps : list Pos) :
  writeAll t cells (p :: ps)
  = match writeType t cells p with
    | Some cs => writeAll t cs ps
    | None => None
    end.
Proof.
  unfold writeAll. cbn [fold_left].
  destruct (writeType t cells p); [reflexivity | apply writeAll_from_None].
Qed.

Lemma writeAll_cellAt (t : CellTypeEnum) (ps : list Pos) :
  forall cells cells',
    writeAll t cells ps = Some cells' ->
    (forall p, In p ps -> cellAt cells (fst p) (snd p) <> None)
    /\ forall x y,
        cellAt cells' x y
        = if existsb (pos_eqb (x, y)) ps
          then setType t <$> cellAt cells x y
          else cellAt cells x y.
Proof.
  induction ps as [|p ps IH]; intros cells cells' Hw.
  - unfold writeAll in Hw. simpl in Hw. injection Hw as <-.
    split; [intros p [] | reflexivity].
  - rewrite writeAll_cons in Hw. unfold writeType in Hw.
    destruct (cellAt cells (fst p) (snd p)) as [c|] eqn:Hc; [| discriminate].
    destruct (cellAt_Some_nonneg _ _ _ _ Hc) as [Hp1 Hp2].
    destruct (IH _ _ Hw) as [Hdom Hcell]. split.
    + intros q [<- | Hq]; [congruence |].
      specialize (Hdom q Hq). rewrite cellAt_alterType in Hdom by assumption.
      destruct ((fst q =? fst p) && (snd q =? snd p));
        destruct (cellAt cells (fst q) (snd q)); simpl in *; congruence.
    + intros x y. rewrite Hcell. rewrite cellAt_alterType by assumption.
      cbn [existsb]. unfold pos_eqb at 2. cbn [fst snd].
      destruct ((x =? fst p) && (y =? snd p)); cbn [orb].
      * destruct (existsb (pos_eqb (x, y)) ps); [| reflexivity].
        destruct (cellAt cells x y) as [c'|]; reflexivity.
      * reflexivity.
Qed.

Lemma inRoom_rectCells (r : Room) (x y : Z) :
  existsb (pos_eqb (x, y))
          (rectCells (room_x r) (room_y r) (room_width r) (room_height r))
  = inRoom r x y.
Proof.
  apply eq_true_iff_eq. rewrite existsb_pos_In, In_rectCells, inRoom_iff. tauto.
Qed.

(** X2.  On a rectangular grid, [placeRoom] with a room of positive width
    and height returns exactly when the room's rectangle lies inside the grid
    (otherwise it raises on a missing cell); when it returns, the cells of
    the rectangle have type [room], every other cell is the cell it was and
    the grid keeps its dimensions and each cell's coordinates.  A room with
    no column or no row writes nothing. *)
Theorem placeRoom_exact (cols rows : Z) (cells : Grid) (r : Room)
        (Hrect : rectGrid cols rows cells) :
  (0 < room_width r -> 0 < room_height r ->
   (placeRoom cells r <> None <-> roomFits cols rows r))
  /\ (forall cells',
         placeRoom cells r = Some cells' ->
         rectGrid cols rows cells'
         /\ forall x y,
             cellAt cells' x y
             = if inRoom r x y then setType room <$> cellAt cells x y
               else cellAt cells x y)
  /\ (room_width r <= 0 \/ room_height r <= 0 -> placeRoom cells r = Some cells).
Proof.
  split; [| split].
  - intros Hw Hh. unfold roomFits. split.
    + intros Hsome. destruct (placeRoom cells r) as [cells'|] eqn:Hp; [| congruence].
      unfold placeRoom in Hp. apply writeAll_cellAt in Hp as [Hdom _].
      assert (H1 : cellAt cells (room_x r) (room_y r) <> None).
      { apply (Hdom (room_x r, room_y r)). apply In_rectCells. lia. }
      assert (H2 : cellAt cells (room_x r + room_width r - 1)
                          (room_y r + room_height r - 1) <> None).
      { apply (Hdom (room_x r + room_width r - 1, room_y r + room_height r - 1)).
        apply In_rectCells. lia. }
      destruct (cellAt cells (room_x r) (room_y r)) as [c1|] eqn:E1; [| congruence].
      destruct (cellAt cells (room_x r + room_width r - 1) (room_y r + room_height r - 1))
        as [c2|] eqn:E2; [| congruence].
      apply (cellAt_Some_bounds _ _ _ _ _ _ Hrect) in E1, E2. lia.
    + intros Hfit.
      destruct (writeAll_spec cols rows
                  (rectCells (room_x r) (room_y r) (room_width r) (room_height r))
                  cells Hrect) as (cells' & Hwr & _).
      { intros [i j] Hp. apply In_rectCells in Hp. cbn [fst snd]. lia. }
      unfold placeRoom. rewrite Hwr. discriminate.
  - intros cells' Hp. unfold placeRoom in Hp.
    pose proof (writeAll_cellAt _ _ _ _ Hp) as [Hdom Hcell]. split.
    + destruct (writeAll_spec cols rows
                  (rectCells (room_x r) (room_y r) (room_width r) (room_height r))
                  cells Hrect) as (cells2 & Hwr & Hrect2 & _).
      { intros p Hin. specialize (Hdom p Hin).
        destruct (cellAt cells (fst p) (snd p)) as [c|] eqn:E; [| congruence].
        exact (cellAt_Some_bounds _ _ _ _ _ _ Hrect E). }
      rewrite Hwr in Hp. injection Hp as <-. exact Hrect2.
    + intros x y. rewrite Hcell, inRoom_rectCells. reflexivity.
  - intros Hempty. unfold placeRoom.
    assert (Hnil : rectCells (room_x r) (room_y r) (room_width r) (room_height r) = []).
    { destruct (rectCells _ _ _ _) as [|[i j] l] eqn:E; [reflexivity |].
      assert (Hin : In (i, j) (rectCells (room_x r) (room_y r) (room_width r) (room_height r)))
        by (rewrite E; left; reflexivity).
      apply In_rectCells in Hin. lia. }
    rewrite Hnil. reflexivity.
Qed.

Lemma placeRoom_exact_witness :
  (placeRoom (createEmptyDungeon 4 3) (mkRoom 1 1 2 2 (2, 2)) <> None
   <-> roomFits 4 3 (mkRoom 1 1 2 2 (2, 2)))
  /\ (placeRoom (createEmptyDungeon 4 3) (mkRoom 3 1 2 2 (4, 2)) <> None
      <-> roomFits 4 3 (mkRoom 3 1 2 2 (4, 2))).
Proof.
  split.
  - apply (proj1 (placeRoom_exact 4 3 (createEmptyDungeon 4 3) (mkRoom 1 1 2 2 (2, 2))
                                  (createEmptyDungeon_rect 4 3 ltac:(lia) ltac:(lia))));
      simpl; lia.
  - apply (proj1 (placeRoom_exact 4 3 (createEmptyDungeon 4 3) (mkRoom 3 1 2 2 (4, 2))
                                  (createEmptyDungeon_rect 4 3 ltac:(lia) ltac:(lia))));
      simpl; lia.
Defined.


(** * The placement loop: its test and its counters *)

Lemma placeLoop_reaches_inv (rng : RNG) (k : nat) (st : PlaceState) :
  unitRNG rng ->
  placeLoop k rng
            (mkPlaceState (createEmptyDungeon (width DUNGEON_SIZE) (height DUNGEON_SIZE))
                          [] 0 0%nat) = Some st ->
  PlaceInv st.
Proof.
  intros Hu Hst.
  destruct (placeLoop_inv rng k Hu _ PlaceInv_initial) as (st' & Hst' & Hinv).
  rewrite Hst in Hst'. injection Hst' as <-. exact Hinv.
Qed.

Lemma apart_area_empty (st : PlaceState) (r : Room) :
  PlaceInv st -> roomShape r ->
  (forall r0, In r0 (ps_rooms st) -> apart ROOM_SEPARATION r0 r) ->
  isAreaEmpty (ps_cells st) (room_x r - ROOM_SEPARATION) (room_y r - ROOM_SEPARATION)
              (room_width r + ROOM_SEPARATION * 2)
              (room_height r + ROOM_SEPARATION * 2) = true.
Proof.
  intros Hinv Hr Hall. apply isAreaEmpty_spec. intros i j Hi Hj Hgi Hgj.
  destruct (PlaceInv_dims st Hinv) as [Hcols Hrows]. rewrite Hcols in Hgi. rewrite Hrows in Hgj.
  destruct (cellAt_in_bounds _ _ _ i j (pi_rect st Hinv) Hgi Hgj) as [c Hc].
  assert (Ht : typeAt (ps_cells st) i j = Some (cell_type c)).
  { unfold typeAt. rewrite Hc. reflexivity. }
  rewrite Ht. f_equal.
  destruct (cell_type c) eqn:Et; [| | reflexivity].
  - exfalso. destruct (pi_drawn st Hinv i j room Ht) as [Hroom _].
    destruct (Hroom eq_refl) as (r0 & Hin & Hin0).
    apply inRoom_iff in Hin0. specialize (Hall r0 Hin). unfold apart in Hall.
    revert Hi Hj Hall. unfold_consts. lia.
  - exfalso. exact (pi_nocorridor st Hinv i j Ht).
Qed.

(** X4.  The separation test of the placement loop is exact: in every state
    the loop reaches, the room drawn next passes [isAreaEmpty] on its grown
    rectangle exactly when at least [ROOM_SEPARATION] columns or rows lie
    between it and every room placed so far.  No room is rejected for another
    reason, the border of the grid included. *)
Theorem separation_test_is_exact (rng : RNG) (k n : nat) (st : PlaceState)
        (Hu : unitRNG rng)
        (Hst : placeLoop k rng
                         (mkPlaceState
                            (createEmptyDungeon (width DUNGEON_SIZE) (height DUNGEON_SIZE))
                            [] 0 0%nat) = Some st) :
  let r := drawRoom rng n in
  isAreaEmpty (ps_cells st) (room_x r - ROOM_SEPARATION) (room_y r - ROOM_SEPARATION)
              (room_width r + ROOM_SEPARATION * 2)
              (room_height r + ROOM_SEPARATION * 2) = true
  <-> forall r0, In r0 (ps_rooms st) -> apart ROOM_SEPARATION r0 r.
Proof.
  intros r. pose proof (placeLoop_reaches_inv rng k st Hu Hst) as Hinv.
  assert (Hr : roomShape r) by (apply drawRoom_shape; exact Hu).
  split.
  - intros Hempty r0 Hin.
    apply (empty_area_apart (ps_cells st) (ps_rooms st) r0 r (pi_rect st Hinv)
                            (pi_drawn st Hinv) Hin); [| exact Hr | exact Hempty].
    pose proof (pi_shape st Hinv) as Hs. rewrite List.Forall_forall in Hs. auto.
  - apply apart_area_empty; assumption.
Qed.

Lemma separation_test_is_exact_witness :
  isAreaEmpty (ps_cells sampleState)
              (room_x (drawRoom sampleRNG 0) - ROOM_SEPARATION)
              (room_y (drawRoom sampleRNG 0) - ROOM_SEPARATION)
              (room_width (drawRoom sampleRNG 0) + ROOM_SEPARATION * 2)
              (room_height (drawRoom sampleRNG 0) + ROOM_SEPARATION * 2) = true
  <-> forall r0, In r0 (ps_rooms sampleState) ->
                 apart ROOM_SEPARATION r0 (drawRoom sampleRNG 0).
Proof.
  exact (separation_test_is_exact sampleRNG (Z.to_nat (MAX_ROOMS * 8)) 0 sampleState
                                  sampleRNG_unit sampleState_run).
Defined.

(** ** The counters *)

Lemma PlaceCount_initial :
  PlaceCount (mkPlaceState
                (createEmptyDungeon (width DUNGEON_SIZE) (height DUNGEON_SIZE))
                [] 0 0%nat).
Proof.
  constructor; cbn [ps_cells ps_rooms ps_attempts ps_draws length]; unfold_consts;
    try lia; reflexivity.
Qed.

Lemma placeAttempt_count (rng : RNG) (st st' : PlaceState) :
  PlaceCount st -> placeGuard st = true ->
  placeAttempt rng st = Some st' -> PlaceCount st'.
Proof.
  intros [Hrooms Hatt Hdraws Hfresh Hfirst] Hg Hstep.
  unfold placeGuard in Hg. apply andb_true_iff in Hg as [Hg1 Hg2].
  apply Z.ltb_lt in Hg1, Hg2.
  rewrite placeAttempt_cases in Hstep.
  destruct (isAreaEmpty _ _ _ _ _) eqn:Hempty.
  - destruct (placeRoom _ _) as [cells'|]; [| discriminate].
    injection Hstep as <-.
    constructor; cbn [ps_cells ps_rooms ps_attempts ps_draws];
      rewrite ?length_app; cbn [length]; lia.
  - injection Hstep as <-.
    constructor; cbn [ps_cells ps_rooms ps_attempts ps_draws]; try lia.
    intros _. destruct (Z.eq_dec (ps_attempts st) 0) as [E0 | Hne].
    + rewrite (Hfresh E0) in Hempty.
      rewrite isAreaEmpty_createEmptyDungeon in Hempty. discriminate.
    + apply Hfirst. lia.
Qed.

Lemma placeLoop_count (rng : RNG) (k : nat) :
  forall st st', PlaceCount st -> placeLoop k rng st = Some st' -> PlaceCount st'.
Proof.
  induction k as [|k IH]; intros st st' Hc Hloop; simpl in Hloop.
  - injection Hloop as <-. exact Hc.
  - destruct (placeGuard st) eqn:Hg.
    + destruct (placeAttempt rng st) as [st1|] eqn:Hst1; [| discriminate].
      apply (IH st1 st' (placeAttempt_count rng st st1 Hc Hg Hst1) Hloop).
    + injection Hloop as <-. exact Hc.
Qed.

(** X5.  The placement loop always ends with at least one room and at most
    [MAX_ROOMS]: the first attempt is made on an empty grid and cannot fail,
    and the loop stops exactly when [MAX_ROOMS] rooms are placed or
    [MAX_ROOMS * 8] attempts were made.  Every attempt, accepted or not,
    consumes four random numbers, and these rooms are the rooms of the
    dungeon returned. *)
Theorem placement_counts (rng : RNG) (Hu : unitRNG rng) :
  exists st d,
    placeRooms rng = Some st
    /\ createDungeon rng = Some d
    /\ d_rooms d = ps_rooms st
    /\ 1 <= Z.of_nat (length (ps_rooms st)) <= MAX_ROOMS
    /\ Z.of_nat (length (ps_rooms st)) <= ps_attempts st <= MAX_ROOMS * 8
    /\ (Z.of_nat (length (ps_rooms st)) = MAX_ROOMS \/ ps_attempts st = MAX_ROOMS * 8)
    /\ Z.of_nat (ps_draws st) = 4 * ps_attempts st.
Proof.
  destruct (createDungeon_total rng Hu) as [d Hd].
  destruct (createDungeon_rooms rng d Hd) as (st & Hst & Hrooms).
  exists st, d. split; [exact Hst |]. split; [exact Hd |]. split; [exact Hrooms |].
  pose proof (placeLoop_count rng _ _ st PlaceCount_initial Hst)
    as [Hr Hatt Hdraws Hfresh Hfirst].
  assert (Hexit : placeGuard st = false).
  { eapply (placeLoop_exit rng _ Hu _ st PlaceInv_initial); [| exact Hst].
    cbn [ps_attempts]. unfold_consts. lia. }
  unfold placeGuard in Hexit. apply andb_false_iff in Hexit.
  rewrite !Z.ltb_ge in Hexit.
  assert (Hstop : Z.of_nat (length (ps_rooms st)) = MAX_ROOMS
                  \/ ps_attempts st = MAX_ROOMS * 8) by lia.
  assert (Hone : 1 <= Z.of_nat (length (ps_rooms st))).
  { destruct Hstop as [E | E]; [rewrite E; unfold_consts; lia |].
    assert (1 <= ps_attempts st) by (rewrite E; unfold_consts; lia).
    specialize (Hfirst H). lia. }
  repeat split; try assumption; lia.
Qed.

Lemma placement_counts_witness :
  exists st d,
    placeRooms sampleRNG = Some st
    /\ createDungeon sampleRNG = Some d
    /\ d_rooms d = ps_rooms st
    /\ 1 <= Z.of_nat (length (ps_rooms st)) <= MAX_ROOMS
    /\ Z.of_nat (length (ps_rooms st)) <= ps_attempts st <= MAX_ROOMS * 8
    /\ (Z.of_nat (length (ps_rooms st)) = MAX_ROOMS \/ ps_attempts st = MAX_ROOMS * 8)
    /\ Z.of_nat (ps_draws st) = 4 * ps_attempts st.
Proof. exact (placement_counts sampleRNG sampleRNG_unit). Defined.

(** X6.  Every room of the dungeon returned has a width and a height between
    [MIN_ROOM_SIZE] and [MAX_ROOM_SIZE], starts at a non-negative position
    and ends strictly before the last column and the last row (a room never
    touches the right or the bottom border); its [center] is
    [(x + floor(width / 2), y + floor(height / 2))], a cell of the room. *)
Theorem placed_room_shape (rng : RNG) (Hu : unitRNG rng) :
  exists d,
    createDungeon rng = Some d
    /\ forall r,
        In r (d_rooms d) ->
        width MIN_ROOM_SIZE <= room_width r <= width MAX_ROOM_SIZE
        /\ height MIN_ROOM_SIZE <= room_height r <= height MAX_ROOM_SIZE
        /\ 0 <= room_x r /\ room_x r + room_width r <= width DUNGEON_SIZE - 1
        /\ 0 <= room_y r /\ room_y r + room_height r <= height DUNGEON_SIZE - 1
        /\ center r = (room_x r + room_width r / 2, room_y r + room_height r / 2)
        /\ inRoom r (fst (center r)) (snd (center r)) = true.
Proof.
  destruct (createDungeon_total rng Hu) as [d Hd]. exists d. split; [exact Hd |].
  intros r Hin.
  pose proof (ri_shape _ _ (createDungeon_RouterInv rng d Hu Hd)) as Hs.
  rewrite List.Forall_forall in Hs. specialize (Hs r Hin).
  destruct (roomShape_facts r Hs) as (_ & _ & Hc & _).
  unfold roomShape in Hs. repeat split; try tauto; lia.
Qed.

Lemma placed_room_shape_witness :
  exists d,
    createDungeon sampleRNG = Some d
    /\ forall r,
        In r (d_rooms d) ->
        width MIN_ROOM_SIZE <= room_width r <= width MAX_ROOM_SIZE
        /\ height MIN_ROOM_SIZE <= room_height r <= height MAX_ROOM_SIZE
        /\ 0 <= room_x r /\ room_x r + room_width r <= width DUNGEON_SIZE - 1
        /\ 0 <= room_y r /\ room_y r + room_height r <= height DUNGEON_SIZE - 1
        /\ center r = (room_x r + room_width r / 2, room_y r + room_height r / 2)
        /\ inRoom r (fst (center r)) (snd (center r)) = true.
Proof. exact (placed_room_shape sampleRNG sampleRNG_unit). Defined.

(** ** Cells keep their coordinates *)

Lemma coordsKept_empty (w h : Z) : coordsKept (createEmptyDungeon w h).
Proof.
  intros x y c Hc. rewrite cellAt_createEmptyDungeon in Hc.
  destruct ((0 <=? x) && (x <? w) && (0 <=? y) && (y <? h)); [| discriminate].
  injection Hc as <-. split; reflexivity.
Qed.

Lemma cellAt_carveCell (cols rows : Z) (cells : Grid) (p : Pos) (x y : Z) :
  cellAt (carveCell cols rows cells p) x y = cellAt cells x y
  \/ cellAt (carveCell cols rows cells p) x y = setType corridor <$> cellAt cells x y.
Proof.
  unfold carveCell.
  destruct (inGrid cols rows (fst p) (snd p)) eqn:Hg; cbn [negb]; [| left; reflexivity].
  destruct (typeIs room cells (fst p) (snd p)); [left; reflexivity |].
  apply inGrid_iff in Hg. rewrite cellAt_alterType by lia.
  destruct ((x =? fst p) && (y =? snd p)); [right | left]; reflexivity.
Qed.

Lemma coordsKept_carveCells (cols rows : Z) (path : list Pos) :
  forall cells, coordsKept cells -> coordsKept (carveCells cols rows cells path).
Proof.
  induction path as [|p path IH]; intros cells Hk; [exact Hk |].
  unfold carveCells. cbn [fold_left]. apply IH.
  intros x y c Hc.
  destruct (cellAt_carveCell cols rows cells p x y) as [E | E]; rewrite E in Hc.
  - exact (Hk x y c Hc).
  - destruct (cellAt cells x y) as [c0|] eqn:E0; [| discriminate].
    injection Hc as <-. exact (Hk x y c0 E0).
Qed.

Lemma coordsKept_genStep (cells cells' : Grid) :
  genStep cells cells' -> coordsKept cells -> coordsKept cells'.
Proof.
  intros Hstep Hk. destruct Hstep as [cells cells' r Hp | cols rows cells path].
  - unfold placeRoom in Hp. apply writeAll_cellAt in Hp as [_ Hcell].
    intros x y c Hc. rewrite Hcell in Hc.
    destruct (existsb _ _).
    + destruct (cellAt cells x y) as [c0|] eqn:E0; [| discriminate].
      injection Hc as <-. exact (Hk x y c0 E0).
    + exact (Hk x y c Hc).
  - apply coordsKept_carveCells. exact Hk.
Qed.

Lemma createDungeon_coordsKept (rng : RNG) (d : Dungeon) :
  createDungeon rng = Some d -> coordsKept (d_cells d).
Proof.
  intros Hd. pose proof (createDungeon_steps rng d Hd) as Hsteps.
  assert (Hgen : forall c1 c2, rtc genStep c1 c2 -> coordsKept c1 -> coordsKept c2).
  { intros c1 c2 H. induction H as [|a b c Hab _ IH]; [auto |].
    intros Ha. apply IH. exact (coordsKept_genStep a b Hab Ha). }
  apply (Hgen _ _ Hsteps). apply coordsKept_empty.
Qed.

Lemma createDungeon_graph (rng : RNG) (d : Dungeon) :
  createDungeon rng = Some d ->
  roomGraph d = createGraphFromPoints (map centerPoint (d_rooms d)).
Proof.
  unfold createDungeon. destruct (placeRooms rng) as [st|]; [| discriminate].
  destruct (primMST _) as [mst|]; [| discriminate].
  destruct (carveAll _ _ _ _ _) as [cells'|]; [| discriminate].
  intros [= <-]. reflexivity.
Qed.

Lemma createGraphFromPoints_points (pnts : list Point) :
  points (createGraphFromPoints pnts) = pnts.
Proof. destruct pnts; reflexivity. Qed.

(** X7.  The dungeon returned is consistent: the grid has
    [DUNGEON_SIZE.height] rows of [DUNGEON_SIZE.width] cells, the cell stored
    at column [x] of row [y] has the fields [x] and [y], a cell has type
    [room] exactly when it lies in one of the rooms of [rooms] (when
    [roomIndexAt] finds a room), and [roomGraph] is the triangulation of the
    rooms' centres, one point per room in the order of [rooms]. *)
Theorem dungeon_is_consistent (rng : RNG) (Hu : unitRNG rng) :
  exists d,
    createDungeon rng = Some d
    /\ gridRows (d_cells d) = height DUNGEON_SIZE
    /\ Forall (fun row => Z.of_nat (length row) = width DUNGEON_SIZE) (d_cells d)
    /\ (forall x y,
           0 <= x < width DUNGEON_SIZE -> 0 <= y < height DUNGEON_SIZE ->
           exists t,
             cellAt (d_cells d) x y = Some (mkCell x y t)
             /\ (t = room <-> roomIndexAt (d_rooms d) x y <> -1))
    /\ roomGraph d = createGraphFromPoints (map centerPoint (d_rooms d))
    /\ points (roomGraph d) = map centerPoint (d_rooms d).
Proof.
  destruct (createDungeon_total rng Hu) as [d Hd]. exists d. split; [exact Hd |].
  pose proof (createDungeon_RouterInv rng d Hu Hd) as Hinv.
  destruct (ri_rect _ _ Hinv) as [Hrows Hcols].
  split; [exact Hrows |]. split; [exact Hcols |]. split.
  - intros x y Hx Hy.
    destruct (cellAt_in_bounds _ _ _ x y (ri_rect _ _ Hinv) Hx Hy) as [c Hc].
    destruct (createDungeon_coordsKept rng d Hd x y c Hc) as [Ex Ey].
    exists (cell_type c). split.
    + rewrite Hc. f_equal. destruct c; simpl in *; congruence.
    + assert (Ht : typeAt (d_cells d) x y = Some (cell_type c)).
      { unfold typeAt. rewrite Hc. reflexivity. }
      rewrite (ri_drawn _ _ Hinv x y _ Ht). rewrite roomIndexAt_none. split.
      * intros (r & Hin & Hr) Hnone. rewrite (Hnone r Hin) in Hr. discriminate.
      * intros Hsome.
        destruct (existsb (fun r => inRoom r x y) (d_rooms d)) eqn:E.
        -- apply existsb_exists in E as (r & Hin & Hr). exists r. split; assumption.
        -- exfalso. apply Hsome. intros r Hin.
           destruct (inRoom r x y) eqn:Er; [| reflexivity].
           assert (existsb (fun r => inRoom r x y) (d_rooms d) = true).
           { apply existsb_exists. exists r. split; assumption. }
           congruence.
  - split; [exact (createDungeon_graph rng d Hd) |].
    rewrite (createDungeon_graph rng d Hd). apply createGraphFromPoints_points.
Qed.

Lemma dungeon_is_consistent_witness :
  exists d,
    createDungeon sampleRNG = Some d
    /\ gridRows (d_cells d) = height DUNGEON_SIZE
    /\ Forall (fun row => Z.of_nat (length row) = width DUNGEON_SIZE) (d_cells d)
    /\ (forall x y,
           0 <= x < width DUNGEON_SIZE -> 0 <= y < height DUNGEON_SIZE ->
           exists t,
             cellAt (d_cells d) x y = Some (mkCell x y t)
             /\ (t = room <-> roomIndexAt (d_rooms d) x y <> -1))
    /\ roomGraph d = createGraphFromPoints (map centerPoint (d_rooms d))
    /\ points (roomGraph d) = map centerPoint (d_rooms d).
Proof. exact (dungeon_is_consistent sampleRNG sampleRNG_unit). Defined.


(** * The helpers of the router *)

Ltac zcases :=
  repeat match goal with
         | |- context [?x <? ?y] => destruct (Z.ltb_spec x y)
         | |- context [?x >? ?y] => rewrite (Z.gtb_ltb x y)
         | |- context [?x =? ?y] => destruct (Z.eqb_spec x y)
         | |- context [?x <=? ?y] => destruct (Z.leb_spec x y)
         end.

(** ** [lineCells] *)

Lemma toward_step (a b i : Z) :
  0 <= i -> toward (toward a b 1) b i = toward a b (i + 1).
Proof. intros Hi. unfold toward. zcases; lia. Qed.

Lemma lineWalk_length (x1 y1 dx dy : Z) (n : nat) :
  forall x y, length (lineWalk n x y x1 y1 dx dy) = n.
Proof. induction n as [|n IH]; intros x y; simpl; [reflexivity | rewrite IH; reflexivity]. Qed.

Lemma lineWalk_lookup (x1 y1 dx dy : Z) (n : nat) :
  forall x y i,
    (x < x1 -> dx = 1) -> (x1 < x -> dx = -1) ->
    (y < y1 -> dy = 1) -> (y1 < y -> dy = -1) ->
    (i < n)%nat ->
    lineWalk n x y x1 y1 dx dy !! i
    = Some (toward x x1 (Z.of_nat i + 1), toward y y1 (Z.of_nat i + 1)).
Proof.
  induction n as [|n IH]; intros x y i Hx1 Hx2 Hy1 Hy2 Hi; [lia |].
  assert (Ex : (if x =? x1 then x else x + dx) = toward x x1 1).
  { unfold toward. zcases; lia. }
  assert (Ey : (if y =? y1 then y else y + dy) = toward y y1 1).
  { unfold toward. zcases; lia. }
  cbn [lineWalk]. rewrite Ex, Ey.
  destruct i as [|i].
  - reflexivity.
  - cbn [lookup list_lookup]. rewrite IH.
    + rewrite !toward_step by lia. do 2 f_equal; f_equal; lia.
    + unfold toward. zcases; lia.
    + unfold toward. zcases; lia.
    + unfold toward. zcases; lia.
    + unfold toward. zcases; lia.
    + lia.
Qed.

Lemma lineCells_length (x0 y0 x1 y1 : Z) :
  Z.of_nat (length (lineCells x0 y0 x1 y1))
  = Z.max (Z.abs (x1 - x0)) (Z.abs (y1 - y0)) + 1.
Proof. unfold lineCells. cbn [length]. rewrite lineWalk_length. lia. Qed.

Lemma lineCells_lookup (x0 y0 x1 y1 i : Z) :
  0 <= i <= Z.max (Z.abs (x1 - x0)) (Z.abs (y1 - y0)) ->
  lineCells x0 y0 x1 y1 !! Z.to_nat i = Some (toward x0 x1 i, toward y0 y1 i).
Proof.
  intros Hi. unfold lineCells.
  destruct (Z.to_nat i) as [|k] eqn:Ek.
  - assert (i = 0) by lia. subst i. cbn [lookup list_lookup].
    do 2 f_equal; unfold toward; zcases; lia.
  - cbn [lookup list_lookup]. rewrite lineWalk_lookup.
    + do 2 f_equal; f_equal; lia.
    + zcases; lia.
    + zcases; lia.
    + zcases; lia.
    + zcases; lia.
    + lia.
Qed.

Lemma lineCells_lookup_nat (x0 y0 x1 y1 : Z) (i : nat) (p : Pos) :
  lineCells x0 y0 x1 y1 !! i = Some p ->
  Z.of_nat i <= Z.max (Z.abs (x1 - x0)) (Z.abs (y1 - y0))
  /\ p = (toward x0 x1 (Z.of_nat i), toward y0 y1 (Z.of_nat i)).
Proof.
  intros Hp. pose proof (lookup_lt_Some _ _ _ Hp) as Hlt.
  pose proof (lineCells_length x0 y0 x1 y1) as Hlen.
  assert (Hi : 0 <= Z.of_nat i <= Z.max (Z.abs (x1 - x0)) (Z.abs (y1 - y0))) by lia.
  split; [lia |].
  pose proof (lineCells_lookup x0 y0 x1 y1 (Z.of_nat i) Hi) as H.
  rewrite Nat2Z.id in H. congruence.
Qed.

(** X8.  [lineCells(x0, y0, x1, y1)] returns [max(|x1 - x0|, |y1 - y0|) + 1]
    cells; the cell at index [i] has each coordinate moved [i] steps from the
    start toward its target, stopping when the target is reached.  So the
    list starts at [(x0, y0)], each cell is a king's move from the one
    before, and the target [(x1, y1)] is the last cell and no earlier one:
    the loop always ends, after exactly that many iterations. *)
Theorem lineCells_closed_form (x0 y0 x1 y1 : Z) :
  Z.of_nat (length (lineCells x0 y0 x1 y1))
  = Z.max (Z.abs (x1 - x0)) (Z.abs (y1 - y0)) + 1
  /\ (forall (i : nat) (p : Pos),
         lineCells x0 y0 x1 y1 !! i = Some p ->
         p = (toward x0 x1 (Z.of_nat i), toward y0 y1 (Z.of_nat i))
         /\ (p = (x1, y1)
             <-> Z.of_nat i = Z.max (Z.abs (x1 - x0)) (Z.abs (y1 - y0))))
  /\ head (lineCells x0 y0 x1 y1) = Some (x0, y0)
  /\ last (lineCells x0 y0 x1 y1) = Some (x1, y1)
  /\ stepsBy chebyshev (lineCells x0 y0 x1 y1).
Proof.
  split; [apply lineCells_length |]. split; [| split; [| split]].
  - intros i p Hp. destruct (lineCells_lookup_nat _ _ _ _ _ _ Hp) as [Hi ->].
    split; [reflexivity |]. split.
    + intros [= E1 E2]. revert E1 E2. unfold toward. zcases; lia.
    + intros E. f_equal; unfold toward; zcases; lia.
  - reflexivity.
  - rewrite last_lookup.
    pose proof (lineCells_length x0 y0 x1 y1) as Hlen.
    set (n := Z.max (Z.abs (x1 - x0)) (Z.abs (y1 - y0))) in *.
    replace (Nat.pred (length (lineCells x0 y0 x1 y1))) with (Z.to_nat n) by lia.
    rewrite lineCells_lookup by lia. do 2 f_equal; unfold toward, n; zcases; lia.
  - intros i p q Hp Hq.
    destruct (lineCells_lookup_nat _ _ _ _ _ _ Hp) as [_ ->].
    destruct (lineCells_lookup_nat _ _ _ _ _ _ Hq) as [_ ->].
    unfold chebyshev, toward. cbn [fst snd]. zcases; lia.
Qed.


(** ** [polylineToCells] *)

Lemma stepsBy_app (dist : Pos -> Pos -> Z) (l1 l2 : list Pos) :
  stepsBy dist l1 -> stepsBy dist l2 ->
  (forall p q, last l1 = Some p -> head l2 = Some q -> dist p q <= 1) ->
  stepsBy dist (l1 ++ l2).
Proof.
  intros H1 H2 Hj i p q Hp Hq.
  destruct (Nat.lt_ge_cases (S i) (length l1)) as [Hlt | Hge].
  - rewrite lookup_app_l in Hp by lia. rewrite lookup_app_l in Hq by lia.
    exact (H1 i p q Hp Hq).
  - destruct (Nat.eq_dec (S i) (length l1)) as [E | Hne].
    + rewrite lookup_app_l in Hp by lia. rewrite lookup_app_r in Hq by lia.
      apply Hj.
      * rewrite last_lookup. rewrite <- E. exact Hp.
      * rewrite head_lookup. replace (S i - length l1)%nat with 0%nat in Hq by lia.
        exact Hq.
    + rewrite lookup_app_r in Hp by lia. rewrite lookup_app_r in Hq by lia.
      replace (S i - length l1)%nat with (S (i - length l1)) in Hq by lia.
      exact (H2 _ p q Hp Hq).
Qed.

Lemma lineCells_steps (x0 y0 x1 y1 : Z) : stepsBy chebyshev (lineCells x0 y0 x1 y1).
Proof.
  intros i p q Hp Hq.
  destruct (lineCells_lookup_nat _ _ _ _ _ _ Hp) as [_ ->].
  destruct (lineCells_lookup_nat _ _ _ _ _ _ Hq) as [_ ->].
  unfold chebyshev, toward. cbn [fst snd]. zcases; lia.
Qed.

(** Along a row or a column the steps are orthogonal. *)
Lemma lineCells_steps_axis (x0 y0 x1 y1 : Z) :
  x0 = x1 \/ y0 = y1 -> stepsBy manhattan (lineCells x0 y0 x1 y1).
Proof.
  intros Haxis i p q Hp Hq.
  destruct (lineCells_lookup_nat _ _ _ _ _ _ Hp) as [_ ->].
  destruct (lineCells_lookup_nat _ _ _ _ _ _ Hq) as [_ ->].
  unfold manhattan, toward. cbn [fst snd]. zcases; lia.
Qed.

Lemma lineCells_last (x0 y0 x1 y1 : Z) : last (lineCells x0 y0 x1 y1) = Some (x1, y1).
Proof.
  rewrite last_lookup.
  pose proof (lineCells_length x0 y0 x1 y1) as Hlen.
  set (n := Z.max (Z.abs (x1 - x0)) (Z.abs (y1 - y0))) in *.
  replace (Nat.pred (length (lineCells x0 y0 x1 y1))) with (Z.to_nat n) by lia.
  rewrite lineCells_lookup by lia. do 2 f_equal; unfold toward, n; zcases; lia.
Qed.

Lemma polylineToCells_cons2 (a b : Pos) (rest : list Pos) :
  polylineToCells (a :: b :: rest)
  = (if pos_eqb a b then [] else lineCells (fst a) (snd a) (fst b) (snd b))
    ++ polylineToCells (b :: rest).
Proof. reflexivity. Qed.

Lemma polylineToCells_nil_iff (pts : list Pos) :
  polylineToCells pts = [] <-> forall p q, In p pts -> In q pts -> p = q.
Proof.
  induction pts as [|a pts IH].
  - split; [intros _ p q [] | reflexivity].
  - destruct pts as [|b rest].
    + split; [| reflexivity]. intros _ p q [<- | []] [<- | []]. reflexivity.
    + rewrite polylineToCells_cons2. split.
      * intros H. apply app_eq_nil in H as [Hseg Hrest].
        destruct (pos_eqb a b) eqn:E; [| discriminate].
        apply pos_eqb_eq in E. subst b.
        pose proof (proj1 IH Hrest) as Hall.
        assert (Hall' : forall p, In p (a :: a :: rest) -> p = a).
        { intros p [<- | Hp]; [reflexivity |]. apply Hall; [exact Hp | left; reflexivity]. }
        intros p q Hp Hq. rewrite (Hall' p Hp), (Hall' q Hq). reflexivity.
      * intros Hall.
        assert (E : pos_eqb a b = true).
        { apply pos_eqb_eq. apply Hall; [left; reflexivity | right; left; reflexivity]. }
        rewrite E. cbn [app]. apply IH.
        intros p q Hp Hq. apply Hall; right; assumption.
Qed.

Lemma polylineToCells_ends (pts : list Pos) :
  polylineToCells pts <> [] ->
  head (polylineToCells pts) = head pts /\ last (polylineToCells pts) = last pts.
Proof.
  induction pts as [|a pts IH]; [intros H; contradiction H; reflexivity |].
  destruct pts as [|b rest]; [intros H; contradiction H; reflexivity |].
  rewrite polylineToCells_cons2. intros Hne.
  destruct (pos_eqb a b) eqn:E.
  - apply pos_eqb_eq in E. subst b. cbn [app] in *.
    destruct (IH Hne) as [Hh Hl]. split.
    + rewrite Hh. reflexivity.
    + rewrite Hl. reflexivity.
  - split; [destruct a; reflexivity |].
    destruct (polylineToCells (b :: rest)) as [|c l] eqn:Erest.
    + rewrite app_nil_r, lineCells_last.
      assert (Hall : forall p, In p (b :: rest) -> p = b).
      { intros p Hp. apply (proj1 (polylineToCells_nil_iff (b :: rest)) Erest);
          [exact Hp | left; reflexivity]. }
      clear - Hall. destruct a as [ax ay], b as [bx bb]. cbn [fst snd].
      symmetry. change (last ((ax, ay) :: (bx, bb) :: rest)) with (last ((bx, bb) :: rest)).
      revert Hall. generalize (bx, bb). intros b Hall.
      induction rest as [|c rest IHr] using rev_ind; [reflexivity |].
      rewrite app_comm_cons, last_snoc. f_equal. apply Hall.
      right. apply in_or_app. right. left. reflexivity.
    + destruct (IH ltac:(discriminate)) as [_ Hl].
      rewrite last_app, Hl.
      change (last (a :: b :: rest)) with (last (b :: rest)).
      destruct (last (b :: rest)) eqn:El; [reflexivity |].
      apply last_None in El. discriminate.
Qed.

Lemma polylineToCells_steps (dist : Pos -> Pos -> Z) (pts : list Pos) :
  (forall p, dist p p <= 1) ->
  (forall i a b, pts !! i = Some a -> pts !! S i = Some b ->
                 stepsBy dist (lineCells (fst a) (snd a) (fst b) (snd b))) ->
  stepsBy dist (polylineToCells pts).
Proof.
  intros Hrefl. induction pts as [|a pts IH]; intros Hseg.
  - intros i p q Hp. cbn in Hp. discriminate.
  - destruct pts as [|b rest].
    + intros i p q Hp. cbn in Hp. discriminate.
    + rewrite polylineToCells_cons2.
      assert (IH' : stepsBy dist (polylineToCells (b :: rest))).
      { apply IH. intros i u v Hu Hv. exact (Hseg (S i) u v Hu Hv). }
      destruct (pos_eqb a b) eqn:E; [exact IH' |].
      apply stepsBy_app; [exact (Hseg 0%nat a b eq_refl eq_refl) | exact IH' |].
      intros p q Hp Hq. rewrite lineCells_last in Hp. injection Hp as <-.
      destruct (polylineToCells (b :: rest)) as [|c l] eqn:Erest; [discriminate |].
      assert (Hne : polylineToCells (b :: rest) <> []) by (rewrite Erest; discriminate).
      destruct (polylineToCells_ends (b :: rest) Hne) as [Hh _].
      rewrite Erest in Hh. cbn [head] in Hh, Hq.
      assert (q = b) by congruence. subst q.
      destruct b as [bx bb]. apply Hrefl.
Qed.

(** X9.  [polylineToCells] turns a polyline into a connected path: each cell
    is a king's move from the next or equal to it (a corner cell appears
    twice, as the end of one segment and the start of the next).  When the
    result is not empty it starts at the first point of the polyline and ends
    at its last point; it is empty exactly when all the points are the same
    cell (or there are fewer than two), every segment being skipped. *)
Theorem polylineToCells_is_path (pts : list Pos) :
  stepsBy chebyshev (polylineToCells pts)
  /\ (polylineToCells pts <> [] ->
      head (polylineToCells pts) = head pts /\ last (polylineToCells pts) = last pts)
  /\ (polylineToCells pts = [] <-> forall p q, In p pts -> In q pts -> p = q).
Proof.
  split; [| split].
  - apply polylineToCells_steps.
    + intros p. unfold chebyshev. lia.
    + intros i a b _ _. apply lineCells_steps.
  - apply polylineToCells_ends.
  - apply polylineToCells_nil_iff.
Qed.


(** ** [candidatePolylines] *)

Lemma poly_eqb_eq (p q : list Pos) : poly_eqb p q = true <-> p = q.
Proof.
  unfold poly_eqb. revert q. induction p as [|a p IH]; intros [|b q]; simpl.
  - split; reflexivity.
  - split; discriminate.
  - split; discriminate.
  - specialize (IH q). rewrite andb_true_iff in IH.
    rewrite !andb_true_iff, pos_eqb_eq, Nat.eqb_eq. rewrite Nat.eqb_eq in IH. split.
    + intros (Hlen & Hab & Hrest). f_equal; [exact Hab |]. apply IH. split; assumption.
    + intros [= -> ->]. destruct IH as [_ IH]. destruct (IH eq_refl) as [Hl Hf].
      repeat split; assumption.
Qed.

Lemma existsb_poly_In (p : list Pos) (seen : list (list Pos)) :
  existsb (poly_eqb p) seen = true <-> In p seen.
Proof.
  rewrite existsb_exists. split.
  - intros (q & Hq & E). apply poly_eqb_eq in E. subst. exact Hq.
  - intros H. exists p. split; [exact H | apply poly_eqb_eq; reflexivity].
Qed.

Lemma dedupe_NoDup (polys : list (list Pos)) :
  forall seen,
    List.NoDup (dedupe seen polys)
    /\ forall p, In p (dedupe seen polys) -> ~ In p seen.
Proof.
  induction polys as [|q polys IH]; intros seen.
  - split; [constructor | intros p []].
  - cbn [dedupe]. destruct (existsb (poly_eqb q) seen) eqn:E.
    + apply IH.
    + destruct (IH (q :: seen)) as [Hnd Hfresh]. split.
      * constructor; [| exact Hnd]. intros Hin. apply (Hfresh q Hin). left. reflexivity.
      * intros p [<- | Hp].
        -- intros Hin. apply existsb_poly_In in Hin. congruence.
        -- intros Hin. apply (Hfresh p Hp). right. exact Hin.
Qed.

Lemma dedupe_complete (polys : list (list Pos)) :
  forall seen p, In p polys -> In p seen \/ In p (dedupe seen polys).
Proof.
  induction polys as [|q polys IH]; intros seen p Hp; [destruct Hp |].
  cbn [dedupe]. destruct (existsb (poly_eqb q) seen) eqn:E.
  - destruct Hp as [<- | Hp]; [left; apply existsb_poly_In; exact E | apply IH; exact Hp].
  - destruct Hp as [<- | Hp]; [right; left; reflexivity |].
    destruct (IH (q :: seen) p Hp) as [[<- | Hs] | Hd].
    + right. left. reflexivity.
    + left. exact Hs.
    + right. right. exact Hd.
Qed.

Lemma dedupe_length (polys : list (list Pos)) :
  forall seen, (length (dedupe seen polys) <= length polys)%nat.
Proof.
  induction polys as [|q polys IH]; intros seen; cbn [dedupe length]; [lia |].
  destruct (existsb (poly_eqb q) seen).
  - specialize (IH seen). lia.
  - cbn [length]. specialize (IH (q :: seen)). lia.
Qed.

Lemma candidateShape_facts (cols rows : Z) (s e : Pos) (poly : list Pos) :
  candidateShape cols rows s e poly ->
  (2 <= length poly <= 4)%nat
  /\ head poly = Some s /\ last poly = Some e
  /\ forall i p q, poly !! i = Some p -> poly !! S i = Some q ->
                   fst p = fst q \/ snd p = snd q.
Proof.
  intros H. destruct H as [Hd | | | off Hoff | off Hoff];
    (split; [cbn [length]; lia |]); (split; [reflexivity |]); (split; [reflexivity |]);
    intros i p q Hp Hq;
    repeat (destruct i as [|i]; [cbn in Hp, Hq; injection Hp as <-; injection Hq as <-;
                                 cbn [fst snd]; tauto |]);
    cbn in Hq; discriminate.
Qed.

(** X10.  [candidatePolylines(s, e)] returns between one and thirteen
    polylines, all different, in the order straight segment (when [s] and [e]
    share a row or a column), the two L shapes, the paths through a pivot
    column and those through a pivot row.  Each has two to four points,
    starts at [s], ends at [e] and only has segments along a row or along a
    column; so the closing filter on [length <= 4] removes nothing, and the
    result holds exactly the shapes listed. *)
Theorem candidatePolylines_sound (cols rows : Z) (s e : Pos) :
  List.NoDup (candidatePolylines cols rows s e)
  /\ (1 <= length (candidatePolylines cols rows s e) <= 13)%nat
  /\ (forall poly,
         In poly (candidatePolylines cols rows s e) <-> candidateShape cols rows s e poly)
  /\ (forall poly,
         In poly (candidatePolylines cols rows s e) ->
         (2 <= length poly <= 4)%nat
         /\ head poly = Some s /\ last poly = Some e
         /\ forall i p q, poly !! i = Some p -> poly !! S i = Some q ->
                          fst p = fst q \/ snd p = snd q)
  /\ head (candidatePolylines cols rows s e)
     = Some (if (fst s =? fst e) || (snd s =? snd e) then [s; e]
             else [s; (fst e, snd s); e]).
Proof.
  assert (Hiff : forall poly,
             In poly (candidatePolylines cols rows s e) <-> candidateShape cols rows s e poly).
  { intros poly. split; [apply candidatePolylines_shape |].
    intros Hshape. unfold candidatePolylines. apply filter_In. split.
    - match goal with |- In poly (dedupe [] ?raw) =>
        assert (Hraw : In poly raw); [| destruct (dedupe_complete raw [] poly Hraw) as [[] | H];
                                        exact H]
      end.
      destruct Hshape as [Hd | | | off Hoff | off Hoff].
      + apply in_or_app. left.
        replace ((fst s =? fst e) || (snd s =? snd e)) with true; [left; reflexivity |].
        symmetry. apply orb_true_iff. rewrite !Z.eqb_eq. exact Hd.
      + apply in_or_app. right. apply in_or_app. left. left. reflexivity.
      + apply in_or_app. right. apply in_or_app. left. right. left. reflexivity.
      + apply in_or_app. right. apply in_or_app. right. apply in_or_app. left.
        apply in_map_iff. exists off. split; [reflexivity | apply In_seqZ; lia].
      + apply in_or_app. right. apply in_or_app. right. apply in_or_app. right.
        apply in_map_iff. exists off. split; [reflexivity | apply In_seqZ; lia].
    - destruct (candidateShape_facts cols rows s e poly Hshape) as [Hlen _].
      apply Nat.leb_le. lia. }
  assert (Hhead : head (candidatePolylines cols rows s e)
                  = Some (if (fst s =? fst e) || (snd s =? snd e) then [s; e]
                          else [s; (fst e, snd s); e])).
  { unfold candidatePolylines. destruct ((fst s =? fst e) || (snd s =? snd e)); reflexivity. }
  split; [| split; [| split; [exact Hiff | split; [| exact Hhead]]]].
  - unfold candidatePolylines. apply List.NoDup_filter. apply dedupe_NoDup.
  - split.
    + destruct (candidatePolylines cols rows s e); [discriminate | cbn [length]; lia].
    + unfold candidatePolylines.
      match goal with |- (length (List.filter ?f (dedupe [] ?raw)) <= 13)%nat =>
        pose proof (List.filter_length_le f (dedupe [] raw)) as H1;
        pose proof (dedupe_length raw []) as H2;
        assert (H3 : (length raw <= 13)%nat)
      end.
      { rewrite !length_app, !length_map, !length_seqZ.
        destruct ((fst s =? fst e) || (snd s =? snd e)); cbn [length]; lia. }
      lia.
  - intros poly Hin. apply candidateShape_facts with cols rows. apply Hiff. exact Hin.
Qed.


(** ** [distToRoom] *)

(** X12.  For a room with at least one column and one row, [distToRoom] is
    the Chebyshev distance from the cell to the nearest cell of the room: no
    cell of the room is nearer, one is exactly that far, and the distance is
    zero exactly on the cells of the room. *)
Theorem distToRect_is_chebyshev (r : Room) (x y : Z)
        (Hw : 0 < room_width r) (Hh : 0 < room_height r) :
  (forall qx qy, inRoom r qx qy = true ->
                 distToRect r x y <= chebyshev (x, y) (qx, qy))
  /\ (exists qx qy, inRoom r qx qy = true
                    /\ chebyshev (x, y) (qx, qy) = distToRect r x y)
  /\ (distToRect r x y = 0 <-> inRoom r x y = true).
Proof.
  split; [| split].
  - intros qx qy Hq. apply inRoom_iff in Hq.
    unfold distToRect, chebyshev. cbn [fst snd]. zcases; lia.
  - exists (clamp x (room_x r) (room_x r + room_width r - 1)),
           (clamp y (room_y r) (room_y r + room_height r - 1)).
    split.
    + apply inRoom_iff. unfold clamp. zcases; lia.
    + unfold distToRect, chebyshev, clamp. cbn [fst snd]. zcases; lia.
  - rewrite inRoom_iff. unfold distToRect. zcases; lia.
Qed.

Lemma distToRect_is_chebyshev_witness :
  (forall qx qy, inRoom (mkRoom 2 3 4 5 (4, 5)) qx qy = true ->
                 distToRect (mkRoom 2 3 4 5 (4, 5)) 9 1 <= chebyshev (9, 1) (qx, qy))
  /\ (exists qx qy, inRoom (mkRoom 2 3 4 5 (4, 5)) qx qy = true
                    /\ chebyshev (9, 1) (qx, qy) = distToRect (mkRoom 2 3 4 5 (4, 5)) 9 1)
  /\ (distToRect (mkRoom 2 3 4 5 (4, 5)) 9 1 = 0
      <-> inRoom (mkRoom 2 3 4 5 (4, 5)) 9 1 = true).
Proof.
  apply (distToRect_is_chebyshev (mkRoom 2 3 4 5 (4, 5)) 9 1); simpl; lia.
Defined.

(** ** [corridorTooCloseToOthers] *)

Lemma neighbourOffsets_range (d : Pos) :
  In d neighbourOffsets -> -1 <= fst d <= 1 /\ -1 <= snd d <= 1.
Proof.
  unfold neighbourOffsets. cbn.
  intros H. repeat (destruct H as [<- | H]; [cbn [fst snd]; lia |]). destruct H.
Qed.

(** X13.  [corridorTooCloseToOthers(p)] answers [true] exactly when [p] is
    outside the grid, or [p] is not yet a corridor cell and one of its eight
    neighbours inside the grid is one.  A cell that is already a corridor is
    always accepted, and the comparison with [CORRIDOR_CORRIDOR_GAP] never
    rejects a neighbour. *)
Theorem corridorTooCloseToOthers_iff (cols rows : Z) (cells : Grid) (p : Pos) :
  corridorTooCloseToOthers cols rows cells p = true
  <-> inGrid cols rows (fst p) (snd p) = false
      \/ (typeIs corridor cells (fst p) (snd p) = false
          /\ exists q, chebyshev p q = 1
                       /\ inGrid cols rows (fst q) (snd q) = true
                       /\ typeIs corridor cells (fst q) (snd q) = true).
Proof.
  split.
  - unfold corridorTooCloseToOthers.
    destruct (inGrid cols rows (fst p) (snd p)); cbn [negb]; [| intros _; left; reflexivity].
    destruct (typeIs corridor cells (fst p) (snd p)); [discriminate |].
    intros H. right. split; [reflexivity |].
    apply existsb_exists in H as (d & Hd & Hc).
    apply neighbourOffsets_range in Hd.
    repeat (apply andb_true_iff in Hc as [Hc ?]).
    exists (fst p + fst d, snd p + snd d). cbn [fst snd]. split; [| split; assumption].
    apply negb_true_iff, andb_false_iff in Hc. rewrite !Z.eqb_neq in Hc.
    unfold chebyshev. cbn [fst snd]. lia.
  - intros H.
    destruct (corridorTooCloseToOthers cols rows cells p) eqn:E; [reflexivity |].
    exfalso. apply corridorTooCloseToOthers_false in E as [Hg Hcases].
    destruct H as [Hout | (Hnot & q & Hcheb & Hqg & Hqc)]; [congruence |].
    destruct Hcases as [Hc | Hfree]; [congruence |].
    specialize (Hfree (fst q - fst p) (snd q - snd p)).
    unfold chebyshev in Hcheb.
    replace (fst p + (fst q - fst p)) with (fst q) in Hfree by lia.
    replace (snd p + (snd q - snd p)) with (snd q) in Hfree by lia.
    rewrite Hfree in Hqc; [discriminate | lia | lia | lia | exact Hqg].
Qed.

(** ** [createsCorridorSquare] *)

Lemma rectCells_window (sx sy : Z) :
  rectCells sx sy 2 2 = [(sx, sy); (sx + 1, sy); (sx, sy + 1); (sx + 1, sy + 1)].
Proof.
  unfold rectCells, seqZ. change (Z.to_nat 2) with 2%nat. cbn.
  change (Z.of_nat 0) with 0. change (Z.of_nat 1) with 1.
  rewrite !Z.add_0_l, !(Z.add_comm 1). reflexivity.
Qed.

Lemma windowCount_split (cells : Grid) (c : Pos) (l : list Pos) :
  forall k,
    fold_left
      (fun cnt q =>
         if pos_eqb q c then cnt + 1
         else if typeIs corridor cells (fst q) (snd q) then cnt + 1 else cnt)
      l k
    = k + Z.of_nat (length (List.filter (fun q => pos_eqb q c) l))
      + Z.of_nat (length (List.filter
                            (fun q => negb (pos_eqb q c)
                                      && typeIs corridor cells (fst q) (snd q)) l)).
Proof.
  induction l as [|q l IH]; intros k; cbn [fold_left List.filter length]; [lia |].
  rewrite IH. destruct (pos_eqb q c); cbn [negb andb length].
  - lia.
  - destruct (typeIs corridor cells (fst q) (snd q)); cbn [length]; lia.
Qed.

Lemma windowCount_beside (cells : Grid) (c : Pos) (sx sy : Z) :
  fst c - 1 <= sx <= fst c -> snd c - 1 <= sy <= snd c ->
  windowCount cells c sx sy = 1 + Z.of_nat (length (corridorsBeside cells c sx sy)).
Proof.
  intros Hx Hy. unfold windowCount, corridorsBeside. rewrite windowCount_split.
  rewrite rectCells_window. destruct c as [cx cy]. cbn [fst snd] in *.
  assert (Hone : length (List.filter (fun q => pos_eqb q (cx, cy))
                                     [(sx, sy); (sx + 1, sy); (sx, sy + 1); (sx + 1, sy + 1)])
                 = 1%nat).
  { cbn [List.filter]. unfold pos_eqb. cbn [fst snd].
    assert (Ex : sx = cx - 1 \/ sx = cx) by lia.
    assert (Ey : sy = cy - 1 \/ sy = cy) by lia.
    destruct Ex as [-> | ->], Ey as [-> | ->]; zcases; cbn; try lia; reflexivity. }
  rewrite Hone. lia.
Qed.

(** X14.  [createsCorridorSquare(path)] answers [true] exactly when, for
    some cell [c] of the path and some 2x2 window of the grid that holds [c],
    at least two of the three other cells of the window are already corridor
    cells of the grid.  Only [c] itself is counted among the cells of the
    path: on a grid without corridor cells the answer is [false] for every
    path, including a path that is itself a filled 2x2 block. *)
Theorem createsCorridorSquare_iff (cols rows : Z) (cells : Grid) (path : list Pos) :
  (createsCorridorSquare cols rows cells path = true
   <-> exists c sx sy,
      In c path
      /\ fst c - 1 <= sx <= fst c /\ snd c - 1 <= sy <= snd c
      /\ 0 <= sx /\ 0 <= sy /\ sx + 1 < cols /\ sy + 1 < rows
      /\ (2 <= length (corridorsBeside cells c sx sy))%nat)
  /\ ((forall x y, typeIs corridor cells x y = false) ->
      createsCorridorSquare cols rows cells path = false).
Proof.
  assert (Hiff : createsCorridorSquare cols rows cells path = true
                 <-> exists c sx sy,
             In c path
             /\ fst c - 1 <= sx <= fst c /\ snd c - 1 <= sy <= snd c
             /\ 0 <= sx /\ 0 <= sy /\ sx + 1 < cols /\ sy + 1 < rows
             /\ (2 <= length (corridorsBeside cells c sx sy))%nat).
  { unfold createsCorridorSquare. rewrite existsb_exists. split.
    - intros (c & Hc & Hex). apply existsb_exists in Hex as (o & Ho & Hw).
      destruct o as [ox oy]. apply In_rectCells in Ho. cbn [fst snd] in Hw.
      destruct ((fst c + ox <? 0) || (snd c + oy <? 0) || (fst c + ox + 1 >=? cols)
                || (snd c + oy + 1 >=? rows)) eqn:Eb; [discriminate |].
      repeat (apply orb_false_iff in Eb as [Eb ?]).
      exists c, (fst c + ox), (snd c + oy).
      rewrite windowCount_beside in Hw by lia.
      rewrite Z.geb_leb in *.
      repeat match goal with
             | H : (_ <? _) = false |- _ => apply Z.ltb_ge in H
             | H : (_ <=? _) = false |- _ => apply Z.leb_gt in H
             | H : (_ <=? _) = true |- _ => apply Z.leb_le in H
             end.
      repeat split; try assumption; lia.
    - intros (c & sx & sy & Hc & Hx & Hy & H0x & H0y & Hcx & Hry & Hbeside).
      exists c. split; [exact Hc |]. apply existsb_exists.
      exists (sx - fst c, sy - snd c). split; [apply In_rectCells; lia |].
      cbn [fst snd].
      replace (fst c + (sx - fst c)) with sx by lia.
      replace (snd c + (sy - snd c)) with sy by lia.
      replace ((sx <? 0) || (sy <? 0) || (sx + 1 >=? cols) || (sy + 1 >=? rows)) with false.
      + rewrite windowCount_beside by lia. rewrite Z.geb_leb. apply Z.leb_le. lia.
      + symmetry. rewrite !Z.geb_leb. repeat (apply orb_false_iff; split);
          try (apply Z.ltb_ge; lia); apply Z.leb_gt; lia. }
  split; [exact Hiff |].
  intros Hnone. apply not_true_is_false. intros Htrue.
  apply Hiff in Htrue as (c & sx & sy & _ & _ & _ & _ & _ & _ & _ & Hbeside).
  assert (Hnil : corridorsBeside cells c sx sy = []).
  { unfold corridorsBeside. induction (rectCells sx sy 2 2) as [|q l IH]; [reflexivity |].
    cbn [List.filter]. rewrite Hnone, andb_false_r. exact IH. }
  rewrite Hnil in Hbeside. cbn in Hbeside. lia.
Qed.


(** ** [carveCells] *)

Lemma rowLengths_alterType (t : CellTypeEnum) (cells : Grid) (p : Pos) :
  map length (alterType t cells p) = map length cells.
Proof.
  unfold alterType. apply list_eq. intros j.
  change (map length) with (fmap (M := list) (length (A := Cell))).
  rewrite !list_lookup_fmap.
  destruct (decide (j = Z.to_nat (snd p))) as [-> | Hne].
  - rewrite list_lookup_alter_eq. destruct (cells !! Z.to_nat (snd p)); cbn; [| reflexivity].
    rewrite length_alter. reflexivity.
  - rewrite list_lookup_alter_ne by congruence. reflexivity.
Qed.

Lemma rowLengths_carveCells (cols rows : Z) (path : list Pos) :
  forall cells, map length (carveCells cols rows cells path) = map length cells.
Proof.
  induction path as [|p path IH]; intros cells; [reflexivity |].
  unfold carveCells. cbn [fold_left]. fold (carveCells cols rows (carveCell cols rows cells p) path).
  rewrite IH. unfold carveCell.
  destruct (negb _); [reflexivity |]. destruct (typeIs _ _ _ _); [reflexivity |].
  apply rowLengths_alterType.
Qed.

Lemma grid_ext (g1 g2 : Grid) :
  map length g1 = map length g2 ->
  (forall x y, cellAt g1 x y = cellAt g2 x y) ->
  g1 = g2.
Proof.
  intros Hshape Hcell. apply list_eq. intros j.
  assert (Hrow : length <$> g1 !! j = length <$> g2 !! j).
  { change (map length) with (fmap (M := list) (length (A := Cell))) in Hshape.
    rewrite <- !list_lookup_fmap, Hshape. reflexivity. }
  destruct (g1 !! j) as [r1|] eqn:E1, (g2 !! j) as [r2|] eqn:E2; try discriminate;
    [| reflexivity].
  f_equal. apply list_eq. intros i.
  specialize (Hcell (Z.of_nat i) (Z.of_nat j)). unfold cellAt in Hcell.
  replace (0 <=? Z.of_nat i) with true in Hcell by (symmetry; apply Z.leb_le; lia).
  replace (0 <=? Z.of_nat j) with true in Hcell by (symmetry; apply Z.leb_le; lia).
  cbn [andb] in Hcell. rewrite !Nat2Z.id, E1, E2 in Hcell. exact Hcell.
Qed.

Lemma carveCells_fields (cols rows : Z) (path : list Pos) :
  forall cells x y c',
    cellAt (carveCells cols rows cells path) x y = Some c' ->
    exists c, cellAt cells x y = Some c /\ cell_x c' = cell_x c /\ cell_y c' = cell_y c.
Proof.
  induction path as [|p path IH]; intros cells x y c' Hc'.
  - exists c'. split; [exact Hc' | split; reflexivity].
  - unfold carveCells in Hc'. cbn [fold_left] in Hc'.
    destruct (IH _ x y c' Hc') as (c1 & Hc1 & Ex & Ey).
    destruct (cellAt_carveCell cols rows cells p x y) as [E | E]; rewrite E in Hc1.
    + exists c1. split; [exact Hc1 | split; assumption].
    + destruct (cellAt cells x y) as [c|]; [| discriminate]. injection Hc1 as <-.
      exists c. split; [reflexivity |]. cbn in Ex, Ey. split; assumption.
Qed.

Lemma carveCells_cellAt (cols rows : Z) (cells : Grid) (path : list Pos) (x y : Z) :
  cellAt (carveCells cols rows cells path) x y
  = (fun c => mkCell (cell_x c) (cell_y c)
                     (carvedType cols rows path x y (cell_type c)))
      <$> cellAt cells x y.
Proof.
  pose proof (carveCells_typeAt cols rows path cells x y) as Ht. unfold typeAt in Ht.
  destruct (cellAt (carveCells cols rows cells path) x y) as [c'|] eqn:E'.
  - destruct (carveCells_fields cols rows path cells x y c' E') as (c & Hc & Ex & Ey).
    rewrite Hc in *. cbn in Ht |- *. injection Ht as Ht.
    f_equal. destruct c'. cbn in *. congruence.
  - destruct (cellAt cells x y); [discriminate | reflexivity].
Qed.

Lemma carvedType_idem (cols rows : Z) (path : list Pos) (x y : Z) (t : CellTypeEnum) :
  carvedType cols rows path x y (carvedType cols rows path x y t)
  = carvedType cols rows path x y t.
Proof.
  unfold carvedType.
  destruct t; try reflexivity;
    destruct (existsb (pos_eqb (x, y)) path && inGrid cols rows x y) eqn:E;
    try reflexivity; rewrite E; reflexivity.
Qed.

(** X15.  What [carveCells] does to the grid depends only on the set of
    cells of the path: a cell becomes a corridor when it is on the path,
    inside the grid and not a room cell, and every other cell, like every
    cell's [x] and [y], is left as it was.  So carving is idempotent and does
    not depend on the order or on repetitions in the path, cells outside the
    grid are skipped without an error, and a room cell is never overwritten. *)
Theorem carveCells_effect (cols rows : Z) (cells : Grid) (path : list Pos) :
  (forall x y,
      cellAt (carveCells cols rows cells path) x y
      = (fun c => mkCell (cell_x c) (cell_y c)
                         (if CellType_eqb (cell_type c) room then room
                          else if existsb (pos_eqb (x, y)) path && inGrid cols rows x y
                               then corridor else cell_type c))
          <$> cellAt cells x y)
  /\ carveCells cols rows (carveCells cols rows cells path) path
     = carveCells cols rows cells path
  /\ (forall path',
         (forall p, In p path <-> In p path') ->
         carveCells cols rows cells path' = carveCells cols rows cells path).
Proof.
  split; [| split].
  - intros x y. rewrite carveCells_cellAt.
    destruct (cellAt cells x y) as [c|]; [| reflexivity]. cbn. do 2 f_equal.
    unfold carvedType. destruct (cell_type c); reflexivity.
  - apply grid_ext.
    + rewrite !rowLengths_carveCells. reflexivity.
    + intros x y. rewrite !carveCells_cellAt.
      destruct (cellAt cells x y) as [c|]; [| reflexivity]. cbn.
      rewrite carvedType_idem. reflexivity.
  - intros path' Hsame. apply grid_ext.
    + rewrite !rowLengths_carveCells. reflexivity.
    + intros x y. rewrite !carveCells_cellAt.
      destruct (cellAt cells x y) as [c|]; [| reflexivity]. cbn. do 2 f_equal.
      unfold carvedType.
      replace (existsb (pos_eqb (x, y)) path') with (existsb (pos_eqb (x, y)) path);
        [reflexivity |].
      apply eq_true_iff_eq. rewrite !existsb_pos_In. apply Hsame.
Qed.


(** * The router: exit cells *)

Lemma exitWalk_found_other (rooms : list Room) (cols rows : Z) (roomIdx : nat)
      (primaryX : bool) (stepX stepY : Z) :
  forall fuel x y p,
    exitWalk rooms cols rows fuel roomIdx primaryX stepX stepY x y = Found p ->
    roomIndexAt rooms (fst p) (snd p) <> Z.of_nat roomIdx.
Proof.
  induction fuel as [|fuel IH]; intros x y p H; [discriminate |].
  cbn [exitWalk] in H. destruct (inGrid cols rows x y); [| discriminate].
  destruct (roomIndexAt rooms x y =? Z.of_nat roomIdx) eqn:E; cbn [negb] in H.
  - destruct primaryX; eapply IH; exact H.
  - injection H as <-. cbn [fst snd]. apply Z.eqb_neq. exact E.
Qed.

Lemma roomIndexFrom_first (rs : list Room) (x y : Z) :
  forall i k r,
    rs !! k = Some r -> inRoom r x y = true ->
    exists j rj, (j <= k)%nat /\ roomIndexFrom i rs x y = i + Z.of_nat j
                 /\ rs !! j = Some rj /\ inRoom rj x y = true.
Proof.
  induction rs as [|r0 rs IH]; intros i k r Hk Hin.
  - rewrite lookup_nil in Hk. discriminate.
  - cbn [roomIndexFrom]. destruct (inRoom r0 x y) eqn:E0.
    + exists 0%nat, r0. repeat split; [lia | lia | assumption].
    + destruct k as [|k].
      * cbn in Hk. injection Hk as <-. congruence.
      * cbn in Hk. destruct (IH (i + 1) k r Hk Hin) as (j & rj & Hj & Hidx & Hrj & Hinj).
        exists (S j), rj. repeat split; [lia | lia | assumption | assumption].
Qed.

Lemma apart_disjoint (gap : Z) (r1 r2 : Room) (x y : Z) :
  0 <= gap -> apart gap r1 r2 ->
  inRoom r1 x y = true -> inRoom r2 x y = true -> False.
Proof.
  intros Hg Ha H1 H2. apply inRoom_iff in H1, H2. unfold apart in Ha. lia.
Qed.

Lemma distToRect_zero (r : Room) (x y : Z) :
  0 < room_width r -> 0 < room_height r ->
  distToRect r x y = 0 -> inRoom r x y = true.
Proof.
  intros Hw Hh. rewrite inRoom_iff. unfold distToRect. zcases; lia.
Qed.

Lemma near_room_free (rooms : list Room) (i : nat) (r : Room) (x y : Z) :
  Forall roomShape rooms -> pairwiseApart ROOM_SEPARATION rooms ->
  rooms !! i = Some r ->
  distToRect r x y <= 1 -> inRoom r x y = false ->
  roomIndexAt rooms x y = -1.
Proof.
  intros Hshape Hapart Hr Hd Hout. apply roomIndexAt_none. intros r' Hin'.
  apply list_elem_of_In, list_elem_of_lookup_1 in Hin' as [k Hk].
  destruct (decide (k = i)) as [-> | Hne]; [congruence |].
  pose proof (Hapart i k r r' ltac:(congruence) Hr Hk) as Ha.
  rewrite List.Forall_forall in Hshape.
  destruct (roomShape_facts r (Hshape r (lookup_In _ _ _ Hr))) as (Hw & Hh & _).
  destruct (roomShape_facts r' (Hshape r' (lookup_In _ _ _ Hk))) as (Hw' & Hh' & _).
  destruct (inRoom r' x y) eqn:E; [| reflexivity]. exfalso.
  apply inRoom_iff in E. revert Hd Ha. unfold distToRect, apart. unfold_consts.
  zcases; lia.
Qed.

Lemma exitCell_door (rooms : list Room) (roomIdx : nat) (r : Room) (target p : Pos) :
  Forall roomShape rooms -> pairwiseApart ROOM_SEPARATION rooms ->
  rooms !! roomIdx = Some r ->
  exitCellFromCenter rooms (width DUNGEON_SIZE) (height DUNGEON_SIZE) roomIdx target = Some p ->
  inGrid (width DUNGEON_SIZE) (height DUNGEON_SIZE) (fst p) (snd p) = true
  /\ roomIndexAt rooms (fst p) (snd p) = -1
  /\ distToRect r (fst p) (snd p) = 1.
Proof.
  intros Hshape Hapart Hr Hexit.
  pose proof Hshape as Hall. rewrite List.Forall_forall in Hall.
  pose proof (Hall r (lookup_In _ _ _ Hr)) as Hs.
  destruct (roomShape_facts r Hs) as (Hw & Hh & Hc & Hg).
  pose proof (exitCellFromCenter_inGrid _ _ _ _ _ _ _ Hr Hw Hh Hc Hg Hexit) as Hin.
  pose proof (exitCellFromCenter_near _ _ _ _ _ _ _ Hr Hw Hh Hc Hexit) as Hnear.
  assert (Hout : inRoom r (fst p) (snd p) = false).
  { unfold exitCellFromCenter in Hexit. rewrite Hr in Hexit.
    destruct (exitWalk _ _ _ _ _ _ _ _ _ _) eqn:Hwalk.
    - injection Hexit as <-. apply exitWalk_found_other in Hwalk.
      destruct (inRoom r (fst p0) (snd p0)) eqn:E; [| reflexivity]. exfalso.
      destruct (roomIndexFrom_first rooms (fst p0) (snd p0) 0 roomIdx r Hr E)
        as (j & rj & Hj & Hidx & Hrj & Hinj).
      fold (roomIndexAt rooms (fst p0) (snd p0)) in Hidx.
      assert (Hne : j <> roomIdx) by (intros ->; apply Hwalk; lia).
      apply (apart_disjoint ROOM_SEPARATION rj r (fst p0) (snd p0));
        [unfold_consts; lia | exact (Hapart j roomIdx rj r Hne Hrj Hr) | exact Hinj | exact E].
    - destruct (find _ _) as [q|] eqn:Hfind.
      + injection Hexit as <-. apply find_some in Hfind as [_ Hq].
        apply andb_true_iff in Hq as [_ Hq]. apply Z.eqb_eq in Hq.
        apply (proj1 (roomIndexAt_none rooms (fst q) (snd q)) Hq r (lookup_In _ _ _ Hr)).
      + exfalso.
        pose proof (find_none _ _ Hfind (room_x r + room_width r, room_y r)) as Hq.
        cbn [fst snd] in Hq.
        assert (Hfree : roomIndexAt rooms (room_x r + room_width r) (room_y r) = -1).
        { apply (near_room_free rooms roomIdx r); try assumption.
          - unfold distToRect. zcases; lia.
          - apply not_true_is_false. rewrite inRoom_iff. lia. }
        rewrite Hfree in Hq. unfold roomShape in Hs.
        replace (inGrid (width DUNGEON_SIZE) (height DUNGEON_SIZE)
                        (room_x r + room_width r) (room_y r)) with true in Hq.
        * cbn in Hq. assert (true = false); [| discriminate].
          apply Hq. apply In_rectCells. lia.
        * symmetry. apply inGrid_iff. lia.
    - discriminate. }
  split; [exact Hin |]. split.
  - apply (near_room_free rooms roomIdx r); assumption.
  - destruct (Z.eq_dec (distToRect r (fst p) (snd p)) 0) as [E0 | Hne].
    + apply (distToRect_zero r _ _ Hw Hh) in E0. congruence.
    + assert (0 <= distToRect r (fst p) (snd p)) by (unfold distToRect; zcases; lia).
      lia.
Qed.

(** X16.  Among rooms as the placement loop leaves them, the exit cell of a
    room toward any target other than its own centre always exists, lies
    inside the grid, belongs to no room and touches the room it leaves
    (Chebyshev distance 1): the fallback scan around the room always finds
    such a cell, so the room's centre is never returned. *)
Theorem exit_cell_is_a_door (rooms : list Room) (roomIdx : nat) (r : Room) (target : Pos)
        (Hshape : Forall roomShape rooms)
        (Hapart : pairwiseApart ROOM_SEPARATION rooms)
        (Hr : rooms !! roomIdx = Some r)
        (Hne : target <> center r) :
  exists p,
    exitCellFromCenter rooms (width DUNGEON_SIZE) (height DUNGEON_SIZE) roomIdx target
    = Some p
    /\ inGrid (width DUNGEON_SIZE) (height DUNGEON_SIZE) (fst p) (snd p) = true
    /\ roomIndexAt rooms (fst p) (snd p) = -1
    /\ distToRect r (fst p) (snd p) = 1
    /\ p <> center r.
Proof.
  destruct (exitCellFromCenter_total rooms (width DUNGEON_SIZE) (height DUNGEON_SIZE)
                                     roomIdx r target Hr Hne) as [p Hp].
  exists p. split; [exact Hp |].
  destruct (exitCell_door rooms roomIdx r target p Hshape Hapart Hr Hp) as (Hin & Hfree & Hd).
  repeat split; try assumption.
  intros ->. rewrite List.Forall_forall in Hshape.
  destruct (roomShape_facts r (Hshape r (lookup_In _ _ _ Hr))) as (_ & _ & Hc & _).
  rewrite (distToRect_inRoom r _ _ Hc) in Hd. discriminate.
Qed.

Lemma exit_cell_is_a_door_witness :
  exists p,
    exitCellFromCenter (ps_rooms sampleState) (width DUNGEON_SIZE) (height DUNGEON_SIZE)
                       0 (16, 27) = Some p
    /\ inGrid (width DUNGEON_SIZE) (height DUNGEON_SIZE) (fst p) (snd p) = true
    /\ roomIndexAt (ps_rooms sampleState) (fst p) (snd p) = -1
    /\ distToRect (mkRoom 25 8 3 5 (26, 10)) (fst p) (snd p) = 1
    /\ p <> center (mkRoom 25 8 3 5 (26, 10)).
Proof.
  apply (exit_cell_is_a_door (ps_rooms sampleState) 0 (mkRoom 25 8 3 5 (26, 10)) (16, 27)
                             (pi_shape _ sampleState_inv) (pi_apart _ sampleState_inv)).
  - vm_compute. reflexivity.
  - discriminate.
Defined.

(** X17.  Asked for the exit of a room toward that room's own centre, the
    walk of [exitCellFromCenter] has a zero step: it stays on the centre
    whatever the number of iterations, so the call never returns, and neither
    does [carveCorridorBetween] for an edge from a room to itself. *)
Theorem exit_toward_own_centre_hangs (rooms : list Room) (cols rows : Z)
        (roomIdx : nat) (r : Room)
        (Hr : rooms !! roomIdx = Some r)
        (Hin : inGrid cols rows (fst (center r)) (snd (center r)) = true)
        (Hidx : roomIndexAt rooms (fst (center r)) (snd (center r)) = Z.of_nat roomIdx) :
  (forall fuel,
      exitWalk rooms cols rows fuel roomIdx true 0 0 (fst (center r)) (snd (center r))
      = Spins)
  /\ exitCellFromCenter rooms cols rows roomIdx (center r) = None
  /\ forall cells, carveCorridorBetween rooms cols rows cells roomIdx roomIdx = None.
Proof.
  assert (Hspin : forall fuel,
             exitWalk rooms cols rows fuel roomIdx true 0 0
                      (fst (center r)) (snd (center r)) = Spins).
  { induction fuel as [|fuel IH]; [reflexivity |].
    cbn [exitWalk]. rewrite Hin, Hidx, Z.eqb_refl. cbn [negb].
    rewrite Z.add_0_r. exact IH. }
  assert (Hexit : exitCellFromCenter rooms cols rows roomIdx (center r) = None).
  { unfold exitCellFromCenter. rewrite Hr, !Z.sub_diag.
    change (sign 0) with 0. change (Z.abs 0 <=? Z.abs 0) with true.
    rewrite Hspin. reflexivity. }
  split; [exact Hspin |]. split; [exact Hexit |].
  intros cells. unfold carveCorridorBetween, centerOf. rewrite Hr. cbn.
  rewrite Hexit. reflexivity.
Qed.

Lemma exit_toward_own_centre_hangs_witness :
  (forall fuel, exitWalk [mkRoom 0 0 3 3 (1, 1)] 30 30 fuel 0 true 0 0 1 1 = Spins)
  /\ exitCellFromCenter [mkRoom 0 0 3 3 (1, 1)] 30 30 0 (1, 1) = None
  /\ forall cells, carveCorridorBetween [mkRoom 0 0 3 3 (1, 1)] 30 30 cells 0 0 = None.
Proof.
  apply (exit_toward_own_centre_hangs [mkRoom 0 0 3 3 (1, 1)] 30 30 0
                                      (mkRoom 0 0 3 3 (1, 1)));
    reflexivity.
Defined.


(** * The router: what a carved corridor is *)

Lemma carveCorridorBetween_true (rooms : list Room) (cols rows : Z)
      (cells cells' : Grid) (a b : nat) :
  carveCorridorBetween rooms cols rows cells a b = Some (cells', true) ->
  exists ra rb s e poly,
    rooms !! a = Some ra /\ rooms !! b = Some rb
    /\ exitCellFromCenter rooms cols rows a (center rb) = Some s
    /\ exitCellFromCenter rooms cols rows b (center ra) = Some e
    /\ In poly (candidatePolylines cols rows s e)
    /\ pathAccepted rooms cols rows cells a b s e (polylineToCells poly) = true
    /\ cells' = carveCells cols rows cells (polylineToCells poly).
Proof.
  unfold carveCorridorBetween, centerOf.
  destruct (rooms !! a) as [ra|] eqn:Ha; [| discriminate].
  destruct (rooms !! b) as [rb|] eqn:Hb; [| discriminate].
  cbn [fmap option_fmap option_map].
  destruct (exitCellFromCenter _ _ _ a _) as [s|] eqn:Hs; [| discriminate].
  destruct (exitCellFromCenter _ _ _ b _) as [e|] eqn:He; [| discriminate].
  destruct (find _ _) as [poly|] eqn:Hfind; [| discriminate].
  intros [= <-]. apply find_some in Hfind as [Hpoly Hacc].
  exists ra, rb, s, e, poly. repeat split; assumption.
Qed.

Lemma carveCorridorBetween_false (rooms : list Room) (cols rows : Z)
      (cells cells' : Grid) (a b : nat) :
  carveCorridorBetween rooms cols rows cells a b = Some (cells', false) -> cells' = cells.
Proof.
  unfold carveCorridorBetween.
  destruct (centerOf rooms a); [| discriminate].
  destruct (centerOf rooms b); [| discriminate].
  destruct (exitCellFromCenter _ _ _ a _); [| discriminate].
  destruct (exitCellFromCenter _ _ _ b _); [| discriminate].
  destruct (find _ _); [discriminate |]. intros [= <-]. reflexivity.
Qed.

Lemma candidate_path_steps (cols rows : Z) (s e : Pos) (poly : list Pos) :
  candidateShape cols rows s e poly -> stepsBy manhattan (polylineToCells poly).
Proof.
  intros Hshape. destruct (candidateShape_facts cols rows s e poly Hshape) as (_ & _ & _ & Haxis).
  apply polylineToCells_steps.
  - intros p. unfold manhattan. lia.
  - intros i u v Hu Hv. apply lineCells_steps_axis. exact (Haxis i u v Hu Hv).
Qed.

Lemma candidate_path_ends (cols rows : Z) (s e : Pos) (poly : list Pos) :
  candidateShape cols rows s e poly -> s <> e ->
  head (polylineToCells poly) = Some s /\ last (polylineToCells poly) = Some e.
Proof.
  intros Hshape Hne.
  destruct (candidateShape_facts cols rows s e poly Hshape) as (_ & Hh & Hl & _).
  assert (Hnn : polylineToCells poly <> []).
  { intros Hnil. apply Hne. apply (proj1 (polylineToCells_nil_iff poly) Hnil).
    - destruct poly as [|p0 l]; [discriminate |]. cbn in Hh. injection Hh as ->.
      left. reflexivity.
    - apply list_elem_of_In. apply last_Some_elem_of. exact Hl. }
  destruct (polylineToCells_ends poly Hnn) as [H1 H2]. rewrite H1, H2. split; assumption.
Qed.

(** X18.  When [carveCorridorBetween(a, b)] returns [true] for two rooms of
    the dungeon, the cells it has turned into corridor form one path that
    starts on a cell touching room [a], ends on a cell touching room [b],
    and moves from each cell to the next by one step along a row or a column
    (a corner cell is listed twice); every cell of the path is a corridor
    cell of the grid afterwards. *)
Theorem carved_corridor_joins_rooms (rooms : list Room) (cells cells' : Grid)
        (a b : nat) (ra rb : Room)
        (Hinv : RouterInv rooms cells)
        (Ha : rooms !! a = Some ra) (Hb : rooms !! b = Some rb) (Hab : a <> b)
        (Hcarve : carveCorridorBetween rooms (width DUNGEON_SIZE) (height DUNGEON_SIZE)
                                       cells a b = Some (cells', true)) :
  exists path s e,
    head path = Some s /\ last path = Some e
    /\ distToRect ra (fst s) (snd s) = 1
    /\ distToRect rb (fst e) (snd e) = 1
    /\ stepsBy manhattan path
    /\ forall p, In p path -> typeAt cells' (fst p) (snd p) = Some corridor.
Proof.
  destruct (carveCorridorBetween_true _ _ _ _ _ _ _ Hcarve)
    as (ra' & rb' & s & e & poly & Ha' & Hb' & Hs & He & Hpoly & Hacc & ->).
  rewrite Ha in Ha'. injection Ha' as <-. rewrite Hb in Hb'. injection Hb' as <-.
  destruct Hinv as [Hrect Hshape Hapart Hdrawn Hno].
  destruct (exitCell_door rooms a ra (center rb) s Hshape Hapart Ha Hs) as (_ & _ & Hds).
  destruct (exitCell_door rooms b rb (center ra) e Hshape Hapart Hb He) as (_ & _ & Hde).
  pose proof (candidatePolylines_shape _ _ _ _ _ Hpoly) as Hsh.
  assert (Hne : s <> e).
  { intros ->. pose proof Hshape as Hall. rewrite List.Forall_forall in Hall.
    destruct (roomShape_facts ra (Hall ra (lookup_In _ _ _ Ha))) as (Hwa & Hha & _).
    destruct (roomShape_facts rb (Hall rb (lookup_In _ _ _ Hb))) as (Hwb & Hhb & _).
    pose proof (exits_far ra rb e e Hwa Hha Hwb Hhb (Hapart a b ra rb Hab Ha Hb)
                          ltac:(lia) ltac:(lia)) as Hfar.
    unfold chebyshev in Hfar. rewrite !Z.sub_diag in Hfar. cbn in Hfar. lia. }
  destruct (candidate_path_ends _ _ _ _ _ Hsh Hne) as [Hh Hl].
  exists (polylineToCells poly), s, e.
  split; [exact Hh |]. split; [exact Hl |]. split; [exact Hds |]. split; [exact Hde |].
  split; [exact (candidate_path_steps _ _ _ _ _ Hsh) |].
  intros p Hp. eapply accepted_path_carved; eassumption.
Qed.

Lemma sampleCarved_run :
  carveCorridorBetween (ps_rooms sampleState) (width DUNGEON_SIZE) (height DUNGEON_SIZE)
                       (ps_cells sampleState) 0 1 = Some (sampleCarved, true).
Proof. vm_compute. reflexivity. Qed.

Lemma carved_corridor_joins_rooms_witness :
  exists path s e,
    head path = Some s /\ last path = Some e
    /\ distToRect (mkRoom 25 8 3 5 (26, 10)) (fst s) (snd s) = 1
    /\ distToRect (mkRoom 13 26 6 3 (16, 27)) (fst e) (snd e) = 1
    /\ stepsBy manhattan path
    /\ forall p, In p path -> typeAt sampleCarved (fst p) (snd p) = Some corridor.
Proof.
  apply (carved_corridor_joins_rooms (ps_rooms sampleState) (ps_cells sampleState)
                                     sampleCarved 0 1
                                     (mkRoom 25 8 3 5 (26, 10)) (mkRoom 13 26 6 3 (16, 27))
                                     (PlaceInv_RouterInv _ sampleState_inv)).
  - vm_compute. reflexivity.
  - vm_compute. reflexivity.
  - discriminate.
  - exact sampleCarved_run.
Defined.

(** ** Corridors and rooms *)

Lemma In_combine_seq {A : Type} (l : list A) :
  forall k i x, l !! i = Some x -> In ((k + i)%nat, x) (combine (seq k (length l)) l).
Proof.
  induction l as [|y l IH]; intros k i x Hi.
  - rewrite lookup_nil in Hi. discriminate.
  - cbn [length seq combine]. destruct i as [|i].
    + cbn in Hi. injection Hi as <-. left. f_equal. lia.
    + cbn in Hi. right. replace (k + S i)%nat with (S k + i)%nat by lia.
      apply IH. exact Hi.
Qed.

Lemma cellTooCloseToRooms_false (rooms : list Room) (p : Pos) (a b : nat) (s e : Pos) :
  cellTooCloseToRooms rooms p a b s e = false ->
  forall i r, rooms !! i = Some r ->
              ROOM_CORRIDOR_GAP <= distToRect r (fst p) (snd p)
              \/ (i = a /\ p = s) \/ (i = b /\ p = e).
Proof.
  unfold cellTooCloseToRooms. intros Hf i r Hr.
  pose proof (In_combine_seq rooms 0 i r Hr) as Hin. cbn [Nat.add] in Hin.
  destruct (Z.ltb_spec (distToRect r (fst p) (snd p)) ROOM_CORRIDOR_GAP) as [Hlt | Hge];
    [| left; exact Hge].
  right.
  assert (Hall : forall ir, In ir (combine (seq 0 (length rooms)) rooms) ->
                            (distToRect (snd ir) (fst p) (snd p) <? ROOM_CORRIDOR_GAP)
                            && negb (((fst ir =? a)%nat && pos_eqb p s)
                                     || ((fst ir =? b)%nat && pos_eqb p e)) = false).
  { intros ir Hir. destruct (_ && _) eqn:E; [| reflexivity].
    assert (existsb (fun ir : nat * Room =>
                       (distToRect (snd ir) (fst p) (snd p) <? ROOM_CORRIDOR_GAP)
                       && negb (((fst ir =? a)%nat && pos_eqb p s)
                                || ((fst ir =? b)%nat && pos_eqb p e)))
                    (combine (seq 0 (length rooms)) rooms) = true).
    { apply existsb_exists. exists ir. split; assumption. }
    congruence. }
  specialize (Hall (i, r) Hin). cbn [fst snd] in Hall.
  apply andb_false_iff in Hall as [Hall | Hall].
  - apply Z.ltb_ge in Hall. lia.
  - apply negb_false_iff, orb_true_iff in Hall.
    destruct Hall as [Hall | Hall]; apply andb_true_iff in Hall as [Hi Hp];
      apply Nat.eqb_eq in Hi; apply pos_eqb_eq in Hp; [left | right]; split; assumption.
Qed.

Lemma carveCorridorBetween_doors (rooms : list Room) (cells cells' : Grid)
      (a b : nat) (ok : bool) :
  doorsOnly rooms cells ->
  carveCorridorBetween rooms (width DUNGEON_SIZE) (height DUNGEON_SIZE) cells a b
  = Some (cells', ok) ->
  doorsOnly rooms cells'.
Proof.
  intros Hdoors Hcarve. destruct ok.
  - destruct (carveCorridorBetween_true _ _ _ _ _ _ _ Hcarve)
      as (ra & rb & s & e & poly & Ha & Hb & Hs & He & Hpoly & Hacc & ->).
    intros x y Hc i r Hr.
    apply carveCells_corridor in Hc as [Hold | (_ & Hin & _)].
    + exact (Hdoors x y Hold i r Hr).
    + destruct (pathAccepted_true _ _ _ _ _ _ _ _ _ Hacc) as [Hvalid _].
      destruct (cellInvalid_false _ _ _ _ _ _ _ _ _ (Hvalid (x, y) Hin)) as (_ & _ & Hgap & _).
      destruct (cellTooCloseToRooms_false rooms (x, y) a b s e Hgap i r Hr)
        as [Hfar | [[-> <-] | [-> <-]]].
      * left. exact Hfar.
      * right. exists b, rb. split; assumption.
      * right. exists a, ra. split; assumption.
  - apply carveCorridorBetween_false in Hcarve. subst cells'. exact Hdoors.
Qed.

Lemma carveAll_doors (rooms : list Room) (es : list Edge) :
  forall cells cells',
    doorsOnly rooms cells ->
    carveAll rooms (width DUNGEON_SIZE) (height DUNGEON_SIZE) cells es = Some cells' ->
    doorsOnly rooms cells'.
Proof.
  induction es as [|e es IH]; intros cells cells' Hd H.
  - injection H as <-. exact Hd.
  - rewrite carveAll_cons in H.
    destruct (carveCorridorBetween _ _ _ cells (ea e) (eb e)) as [[c ok]|] eqn:Hc;
      [| discriminate].
    apply (IH c cells'); [| exact H].
    eapply carveCorridorBetween_doors; eassumption.
Qed.

(** X19.  In the dungeon returned, a corridor cell is at Chebyshev distance
    at least [ROOM_CORRIDOR_GAP] from every room, except where a corridor
    leaves a room: a corridor cell nearer to a room is the exit cell of that
    room toward the centre of another room (and then it touches the room
    without being in it). *)
Theorem corridors_keep_off_rooms (rng : RNG) (Hu : unitRNG rng) :
  exists d,
    createDungeon rng = Some d
    /\ forall x y,
        typeAt (d_cells d) x y = Some corridor ->
        forall i r,
          d_rooms d !! i = Some r ->
          ROOM_CORRIDOR_GAP <= distToRect r x y
          \/ (distToRect r x y = 1
              /\ exists j rj,
                d_rooms d !! j = Some rj
                /\ exitCellFromCenter (d_rooms d) (width DUNGEON_SIZE)
                                      (height DUNGEON_SIZE) i (center rj) = Some (x, y)).
Proof.
  destruct (createDungeon_total rng Hu) as [d Hd]. exists d. split; [exact Hd |].
  pose proof (createDungeon_RouterInv rng d Hu Hd) as Hinv.
  assert (Hdoors : doorsOnly (d_rooms d) (d_cells d)).
  { revert Hd. unfold createDungeon.
    destruct (placeRooms rng) as [st|] eqn:Hst; [| discriminate].
    pose proof (placeRooms_PlaceInv rng st Hu Hst) as Hpi.
    destruct (PlaceInv_dims st Hpi) as [-> ->].
    destruct (primMST _) as [mst|]; [| discriminate].
    destruct (carveAll _ _ _ _ _) as [cells'|] eqn:Hc; [| discriminate].
    intros [= <-]. cbn [d_rooms d_cells].
    eapply carveAll_doors; [| exact Hc].
    intros x y Hcor. exfalso. exact (pi_nocorridor st Hpi x y Hcor). }
  intros x y Hc i r Hr.
  destruct (Hdoors x y Hc i r Hr) as [Hfar | (j & rj & Hj & Hexit)]; [left; exact Hfar |].
  right. split.
  - destruct (exitCell_door (d_rooms d) i r (center rj) (x, y)
                            (ri_shape _ _ Hinv) (ri_apart _ _ Hinv) Hr Hexit) as (_ & _ & H1).
    exact H1.
  - exists j, rj. split; assumption.
Qed.

Lemma corridors_keep_off_rooms_witness :
  exists d,
    createDungeon sampleRNG = Some d
    /\ forall x y,
        typeAt (d_cells d) x y = Some corridor ->
        forall i r,
          d_rooms d !! i = Some r ->
          ROOM_CORRIDOR_GAP <= distToRect r x y
          \/ (distToRect r x y = 1
              /\ exists j rj,
                d_rooms d !! j = Some rj
                /\ exitCellFromCenter (d_rooms d) (width DUNGEON_SIZE)
                                      (height DUNGEON_SIZE) i (center rj) = Some (x, y)).
Proof. exact (corridors_keep_off_rooms sampleRNG sampleRNG_unit). Defined.


(** ** Corridors and older corridors *)

Lemma valid_step_same_age (cols rows : Z) (cells : Grid) (p q : Pos) :
  chebyshev p q <= 1 ->
  inGrid cols rows (fst p) (snd p) = true ->
  inGrid cols rows (fst q) (snd q) = true ->
  corridorTooCloseToOthers cols rows cells p = false ->
  corridorTooCloseToOthers cols rows cells q = false ->
  typeIs corridor cells (fst p) (snd p) = typeIs corridor cells (fst q) (snd q).
Proof.
  intros Hd Hgp Hgq Hp Hq.
  destruct (decide (p = q)) as [-> | Hne]; [reflexivity |].
  assert (Hoff : fst q <> fst p \/ snd q <> snd p).
  { destruct p, q. cbn [fst snd]. destruct (Z.eq_dec z1 z); [| left; congruence].
    destruct (Z.eq_dec z2 z0); [| right; congruence]. subst. contradiction Hne. reflexivity. }
  unfold chebyshev in Hd.
  apply corridorTooCloseToOthers_false in Hp as [_ Hp], Hq as [_ Hq].
  destruct (typeIs corridor cells (fst p) (snd p)) eqn:Ep,
           (typeIs corridor cells (fst q) (snd q)) eqn:Eq; try reflexivity; exfalso.
  - destruct Hq as [Hq | Hq]; [congruence |].
    specialize (Hq (fst p - fst q) (snd p - snd q)).
    replace (fst q + (fst p - fst q)) with (fst p) in Hq by lia.
    replace (snd q + (snd p - snd q)) with (snd p) in Hq by lia.
    rewrite Hq in Ep; [discriminate | lia | lia | lia | exact Hgp].
  - destruct Hp as [Hp | Hp]; [congruence |].
    specialize (Hp (fst q - fst p) (snd q - snd p)).
    replace (fst p + (fst q - fst p)) with (fst q) in Hp by lia.
    replace (snd p + (snd q - snd p)) with (snd q) in Hp by lia.
    rewrite Hp in Eq; [discriminate | lia | lia | lia | exact Hgq].
Qed.

Lemma valid_path_same_age (cols rows : Z) (cells : Grid) (path : list Pos) (p0 : Pos) :
  stepsBy chebyshev path ->
  (forall p, In p path ->
             inGrid cols rows (fst p) (snd p) = true
             /\ corridorTooCloseToOthers cols rows cells p = false) ->
  head path = Some p0 ->
  forall p, In p path ->
            typeIs corridor cells (fst p) (snd p)
            = typeIs corridor cells (fst p0) (snd p0).
Proof.
  intros Hsteps Hvalid Hhead.
  assert (Hidx : forall i p, path !! i = Some p ->
                             typeIs corridor cells (fst p) (snd p)
                             = typeIs corridor cells (fst p0) (snd p0)).
  { induction i as [|i IH]; intros p Hp.
    - rewrite head_lookup in Hhead. congruence.
    - destruct (path !! i) as [q|] eqn:Hq.
      + rewrite <- (IH q eq_refl).
        assert (Hinp : In p path).
        { apply list_elem_of_In. eapply list_elem_of_lookup_2. exact Hp. }
        assert (Hinq : In q path).
        { apply list_elem_of_In. eapply list_elem_of_lookup_2. exact Hq. }
        destruct (Hvalid p Hinp) as [Hgp Hcp]. destruct (Hvalid q Hinq) as [Hgq Hcq].
        symmetry. apply (valid_step_same_age cols rows); try assumption.
        exact (Hsteps i q p Hq Hp).
      + apply lookup_ge_None in Hq. apply lookup_lt_Some in Hp. lia. }
  intros p Hp. apply list_elem_of_In, list_elem_of_lookup_1 in Hp as [i Hi].
  exact (Hidx i p Hi).
Qed.

(** X20.  A corridor is never joined to an older one.  When
    [carveCorridorBetween] returns [true], either every cell of the accepted
    path was already a corridor cell and the grid is unchanged, or no cell of
    the path was: then each cell it turns into corridor is more than one
    king's move away from every corridor cell that was there before.  The
    sharing of a cell that [corridorTooCloseToOthers] allows only ever
    accepts a path that retraces an older one. *)
Theorem new_corridor_never_touches_old (rooms : list Room) (cols rows : Z)
        (cells cells' : Grid) (a b : nat)
        (Hrect : rectGrid cols rows cells)
        (Hcarve : carveCorridorBetween rooms cols rows cells a b = Some (cells', true)) :
  cells' = cells
  \/ forall x y x' y',
      typeAt cells x y = Some corridor ->
      typeAt cells' x' y' = Some corridor ->
      typeAt cells x' y' <> Some corridor ->
      1 < chebyshev (x, y) (x', y').
Proof.
  destruct (carveCorridorBetween_true _ _ _ _ _ _ _ Hcarve)
    as (ra & rb & s & e & poly & Ha & Hb & Hs & He & Hpoly & Hacc & ->).
  destruct (pathAccepted_true _ _ _ _ _ _ _ _ _ Hacc) as [Hvalid _].
  assert (Hcells : forall p, In p (polylineToCells poly) ->
                             inGrid cols rows (fst p) (snd p) = true
                             /\ corridorTooCloseToOthers cols rows cells p = false).
  { intros p Hp. destruct (cellInvalid_false _ _ _ _ _ _ _ _ _ (Hvalid p Hp))
      as (Hg & _ & _ & Hc). split; assumption. }
  assert (Hsteps : stepsBy chebyshev (polylineToCells poly)).
  { apply polylineToCells_steps.
    - intros p. unfold chebyshev. lia.
    - intros i u v _ _. apply lineCells_steps. }
  destruct (polylineToCells poly) as [|p0 path] eqn:Epath; [left; reflexivity |].
  pose proof (valid_path_same_age cols rows cells (p0 :: path) p0 Hsteps Hcells eq_refl)
    as Hage.
  destruct (typeIs corridor cells (fst p0) (snd p0)) eqn:E0.
  - left. apply grid_ext; [apply rowLengths_carveCells |].
    intros x y. rewrite carveCells_cellAt.
    destruct (cellAt cells x y) as [c|] eqn:Ec; [| reflexivity]. cbn. f_equal.
    assert (Ht : carvedType cols rows (p0 :: path) x y (cell_type c) = cell_type c).
    { unfold carvedType. destruct (cell_type c) eqn:Et; try reflexivity.
      - destruct (_ && _); reflexivity.
      - destruct (existsb (pos_eqb (x, y)) (p0 :: path)) eqn:Ein; [| reflexivity].
        apply existsb_pos_In in Ein. specialize (Hage (x, y) Ein). cbn [fst snd] in Hage.
        apply typeIs_typeAt in Hage. unfold typeAt in Hage.
        rewrite Ec in Hage. cbn in Hage. congruence. }
    rewrite Ht. destruct c; reflexivity.
  - right. intros x y x' y' Hold Hnew Hfresh.
    apply carveCells_corridor in Hnew as [Hnew | (_ & Hin & _)]; [contradiction |].
    destruct (Hcells (x', y') Hin) as [Hg Hclose].
    apply corridorTooCloseToOthers_false in Hclose as [_ [Hc | Hfree]].
    + cbn [fst snd] in Hc. apply typeIs_typeAt in Hc. contradiction.
    + destruct (Z.lt_ge_cases 1 (chebyshev (x, y) (x', y'))) as [Hfar | Hnear];
        [exact Hfar |].
      exfalso. unfold chebyshev in Hnear. cbn [fst snd] in Hnear, Hfree.
      assert (Hxy : x <> x' \/ y <> y').
      { destruct (Z.eq_dec x x'); [| left; assumption].
        destruct (Z.eq_dec y y'); [| right; assumption]. subst. contradiction. }
      specialize (Hfree (x - x') (y - y')).
      replace (x' + (x - x')) with x in Hfree by lia.
      replace (y' + (y - y')) with y in Hfree by lia.
      assert (Hgo : inGrid cols rows x y = true).
      { unfold typeAt in Hold. destruct (cellAt cells x y) as [c|] eqn:Ec; [| discriminate].
        apply inGrid_iff. exact (cellAt_Some_bounds _ _ _ _ _ _ Hrect Ec). }
      apply typeIs_typeAt in Hold. rewrite Hfree in Hold; [discriminate | lia | lia | lia |].
      exact Hgo.
Qed.

Lemma sampleCarvedTwice_run :
  carveCorridorBetween (ps_rooms sampleState) (width DUNGEON_SIZE) (height DUNGEON_SIZE)
                       sampleCarved 2 1 = Some (sampleCarvedTwice, true).
Proof. vm_compute. reflexivity. Qed.

Lemma sampleCarved_inv : RouterInv (ps_rooms sampleState) sampleCarved.
Proof.
  exact (carveCorridorBetween_inv _ _ _ 0 1 true
           (PlaceInv_RouterInv _ sampleState_inv) sampleCarved_run).
Qed.

(** The second corridor of the sample run is carved on a grid that holds the
    first: 23 corridor cells, of which (16, 17) is one; (9, 17) is a cell of
    the second. *)
Lemma new_corridor_never_touches_old_witness :
  typeAt sampleCarved 16 17 = Some corridor
  /\ typeAt sampleCarved 9 17 <> Some corridor
  /\ typeAt sampleCarvedTwice 9 17 = Some corridor
  /\ (sampleCarvedTwice = sampleCarved
      \/ forall x y x' y',
          typeAt sampleCarved x y = Some corridor ->
          typeAt sampleCarvedTwice x' y' = Some corridor ->
          typeAt sampleCarved x' y' <> Some corridor ->
          1 < chebyshev (x, y) (x', y')).
Proof.
  split; [vm_compute; reflexivity |]. split; [vm_compute; discriminate |].
  split; [vm_compute; reflexivity |].
  exact (new_corridor_never_touches_old (ps_rooms sampleState) _ _
                                        sampleCarved sampleCarvedTwice 2 1
                                        (ri_rect _ _ sampleCarved_inv) sampleCarvedTwice_run).
Defined.


(** * The triangulation: what it returns *)

Lemma key_eqb_eq (k1 k2 : nat * nat) : key_eqb k1 k2 = true <-> k1 = k2.
Proof.
  unfold key_eqb. rewrite andb_true_iff, !Nat.eqb_eq.
  destruct k1, k2; cbn [fst snd]. split; [intros [-> ->]; reflexivity | intros [= -> ->]; tauto].
Qed.

Lemma mapHas_In (k : nat * nat) (m : EdgeMap) : mapHas k m = true <-> In k (map fst m).
Proof.
  unfold mapHas. rewrite existsb_exists, in_map_iff. split.
  - intros (kv & Hin & E). apply key_eqb_eq in E. exists kv. split; assumption.
  - intros (kv & E & Hin). exists kv. split; [exact Hin | apply key_eqb_eq; exact E].
Qed.

Lemma addEdgeOnce_ok (m : EdgeMap) (e : Edge) : edgeSetOk m -> edgeSetOk (addEdgeOnce m e).
Proof.
  intros [Hnd Hkey]. unfold addEdgeOnce.
  destruct (mapHas (edgeKey (ea e) (eb e)) m) eqn:E; [split; assumption |].
  split.
  - rewrite map_app. cbn [map fst]. apply List.NoDup_app; [exact Hnd | |].
    + constructor; [intros [] | constructor].
    + intros k Hk [<- | []]. apply mapHas_In in Hk. congruence.
  - intros kv Hin. apply in_app_or in Hin as [Hin | [<- | []]]; [apply Hkey; exact Hin |].
    reflexivity.
Qed.

Lemma addEdgeOnce_keeps (m : EdgeMap) (e : Edge) (k : nat * nat) :
  In k (map fst m) -> In k (map fst (addEdgeOnce m e)).
Proof.
  intros Hk. unfold addEdgeOnce. destruct (mapHas _ m); [exact Hk |].
  rewrite map_app. apply in_or_app. left. exact Hk.
Qed.

Lemma addEdgeOnce_has (m : EdgeMap) (e : Edge) :
  In (edgeKey (ea e) (eb e)) (map fst (addEdgeOnce m e)).
Proof.
  unfold addEdgeOnce. destruct (mapHas _ m) eqn:E; [apply mapHas_In; exact E |].
  rewrite map_app. apply in_or_app. right. left. reflexivity.
Qed.

Lemma addEdges_ok (es : list Edge) :
  forall m, edgeSetOk m ->
            edgeSetOk (fold_left addEdgeOnce es m)
            /\ (forall k, In k (map fst m) -> In k (map fst (fold_left addEdgeOnce es m)))
            /\ forall e, In e es ->
                         In (edgeKey (ea e) (eb e)) (map fst (fold_left addEdgeOnce es m)).
Proof.
  induction es as [|e0 es IH]; intros m Hm.
  - split; [exact Hm |]. split; [auto | intros e []].
  - cbn [fold_left].
    destruct (IH (addEdgeOnce m e0) (addEdgeOnce_ok m e0 Hm)) as (Hok & Hkeep & Hhas).
    split; [exact Hok |]. split.
    + intros k Hk. apply Hkeep. apply addEdgeOnce_keeps. exact Hk.
    + intros e [<- | He]; [apply Hkeep; apply addEdgeOnce_has | apply Hhas; exact He].
Qed.

Lemma edgeSet_keys (m : EdgeMap) :
  edgeSetOk m -> map (fun e => edgeKey (ea e) (eb e)) (mapValues m) = map fst m.
Proof.
  intros [_ Hkey]. unfold mapValues. rewrite map_map. apply map_ext_in.
  intros kv Hin. symmetry. apply Hkey. exact Hin.
Qed.

(** What [createGraphFromPoints] returns for a non-empty input: the kept
    triangles and the edge set built from their sides. *)
Lemma createGraphFromPointsBy_parts
      (inCircle : Point -> Point -> Point -> Point -> bool) (pnts : list Point) :
  pnts <> [] ->
  exists kept,
    triangles (createGraphFromPointsBy inCircle pnts) = Some kept
    /\ Forall (goodTriangle (length pnts)) kept
    /\ edges (createGraphFromPointsBy inCircle pnts)
       = mapValues (fold_left addEdgeOnce (flat_map triangleEdges kept) []).
Proof.
  destruct pnts as [|p0 rest]; [intros H; contradiction H; reflexivity | intros _].
  unfold createGraphFromPointsBy. cbn [points edges triangles].
  set (pnts := p0 :: rest) in *. set (n := length pnts).
  set (pts := pnts ++ superTriangle p0 pnts).
  assert (Hpts : length pts = (n + 3)%nat).
  { unfold pts. rewrite length_app, superTriangle_length. reflexivity. }
  eexists. split; [reflexivity |]. split; [| reflexivity].
  assert (Htris : Forall (properTriangle n n)
                         (fold_left (insertPoint inCircle pts) (seq 0 n)
                                    [mkTriangle (length pts - 3) (length pts - 2)
                                                (length pts - 1)])).
  { apply insertPoints_proper; [lia |]. constructor; [| constructor].
    unfold properTriangle. cbn [ta tb tc]. rewrite Hpts.
    repeat split; try lia; intros v [-> | [-> | ->]]; lia. }
  rewrite List.Forall_forall in Htris. apply List.Forall_forall. intros t Ht.
  apply filter_In in Ht as [Ht Hkeep].
  apply andb_true_iff in Hkeep as [Hkeep Hc]. apply andb_true_iff in Hkeep as [Ha Hb].
  apply Nat.ltb_lt in Ha, Hb, Hc.
  destruct (Htris t Ht) as (H1 & H2 & H3 & _).
  unfold goodTriangle. repeat split; assumption.
Qed.

Lemma createGraphFromPointsBy_wellFormed
      (inCircle : Point -> Point -> Point -> Point -> bool) (pnts : list Point) :
  wellFormedGraph (length pnts) (createGraphFromPointsBy inCircle pnts).
Proof.
  destruct (createGraphFromPointsBy_proper inCircle pnts) as [_ Hedges].
  destruct pnts as [|p0 rest].
  - split; [split; reflexivity |]. split; [intros ts t H; discriminate H | constructor].
  - destruct (createGraphFromPointsBy_parts inCircle (p0 :: rest) ltac:(discriminate))
      as (kept & Hk & Hgood & _).
    split; [| split].
    + rewrite Hk. split; discriminate.
    + intros ts t Hts Ht. rewrite Hk in Hts. injection Hts as <-.
      rewrite List.Forall_forall in Hgood. apply Hgood. exact Ht.
    + exact Hedges.
Qed.

(** X23.  Whatever the in-circle test answers, [createGraphFromPoints]
    returns the input points with triangles and edges over them only: every
    index is below the number of input points (no vertex of the
    super-triangle is left), the three corners of a triangle differ, and
    the two ends of an edge differ.  The [triangles] field is missing exactly
    for the empty input. *)
Theorem triangulation_well_formed (pnts : list Point) :
  points (createGraphFromPoints pnts) = pnts
  /\ wellFormedGraph (length pnts) (createGraphFromPoints pnts)
  /\ forall inCircle,
      points (createGraphFromPointsBy inCircle pnts) = pnts
      /\ wellFormedGraph (length pnts) (createGraphFromPointsBy inCircle pnts).
Proof.
  split; [apply createGraphFromPointsBy_proper |].
  split; [apply createGraphFromPointsBy_wellFormed |].
  intros inCircle. split;
    [apply createGraphFromPointsBy_proper | apply createGraphFromPointsBy_wellFormed].
Qed.

Lemma createGraphFromPointsBy_sides
      (inCircle : Point -> Point -> Point -> Point -> bool) (pnts : list Point) :
  edgesAreSides (createGraphFromPointsBy inCircle pnts).
Proof.
  destruct pnts as [|p0 rest].
  - split; [constructor |]. split; [intros e [] | intros ts t s H; discriminate H].
  - destruct (createGraphFromPointsBy_parts inCircle (p0 :: rest) ltac:(discriminate))
      as (kept & Hk & _ & He).
    assert (Hnil : edgeSetOk []) by (split; [constructor | intros kv []]).
    destruct (addEdges_ok (flat_map triangleEdges kept) [] Hnil) as (Hok & _ & Hhas).
    unfold edgesAreSides. rewrite He, Hk. split; [| split].
    + rewrite (edgeSet_keys _ Hok). apply Hok.
    + intros e Hin. apply addEdgeOnce_values in Hin as [Hin | []].
      apply in_flat_map in Hin as (t & Ht & Hs). exists kept, t. repeat split; assumption.
    + intros ts t s [= <-] Ht Hs.
      assert (Hin : In s (flat_map triangleEdges kept)).
      { apply in_flat_map. exists t. split; assumption. }
      specialize (Hhas s Hin). rewrite <- (edgeSet_keys _ Hok) in Hhas.
      apply in_map_iff in Hhas as (e & Hkey & Hine). exists e. split; assumption.
Qed.

(** X24.  The edges [createGraphFromPoints] returns are the sides of the
    triangles it returns: every edge is a side of one of them, every side of
    each of them is among the edges in one direction or the other, and no
    two edges join the same pair of points. *)
Theorem triangulation_edges_are_sides (pnts : list Point) :
  edgesAreSides (createGraphFromPoints pnts)
  /\ forall inCircle, edgesAreSides (createGraphFromPointsBy inCircle pnts).
Proof.
  split; [apply createGraphFromPointsBy_sides |].
  intros inCircle. apply createGraphFromPointsBy_sides.
Qed.


(** * Prim's loop on its own: the fallback alone *)

Lemma firstPair_skip (pts : list Point) (inMST : list bool) (bw : float)
      (l1 l2 : list (nat * nat)) :
  (forall i j, In (i, j) l1 -> inTree inMST i && negb (inTree inMST j) = false) ->
  firstPair pts inMST bw (l1 ++ l2) = firstPair pts inMST bw l2.
Proof.
  intros Hl1. induction l1 as [|[i j] l1 IH]; [reflexivity |].
  cbn [app firstPair]. rewrite (Hl1 i j (or_introl eq_refl)).
  apply IH. intros i' j' Hin. apply Hl1. right. exact Hin.
Qed.

Lemma indexPairs_from_zero (n m : nat) :
  (S m < n)%nat ->
  exists l2, indexPairs n = map (fun j => (0%nat, j)) (seq 0 (S m)) ++ (0%nat, S m) :: l2.
Proof.
  intros Hm. unfold indexPairs.
  assert (Hsplit : seq 0 n = seq 0 (S m) ++ S m :: seq (S (S m)) (n - S (S m))).
  { replace n with (S m + S (n - S (S m)))%nat at 1 by lia.
    rewrite seq_app. reflexivity. }
  assert (Hout : seq 0 n = 0%nat :: seq 1 (n - 1)).
  { destruct n as [|n]; [lia |]. cbn [seq]. do 2 f_equal. lia. }
  remember (fun i : nat => map (fun j : nat => (i, j)) (seq 0 n)) as g eqn:Hg.
  rewrite Hout. cbn [flat_map]. subst g. cbv beta.
  eexists. rewrite Hsplit at 1. rewrite map_app. cbn [map].
  rewrite <- app_assoc. cbn [app]. reflexivity.
Qed.

Lemma fallbackEdge_star (pts : list Point) (inMST : list bool) (n m : nat) (w : float) :
  (forall v, inTree inMST v = (v <=? m)%nat) -> (S m < n)%nat ->
  dist pts 0 (S m) = Some w -> (w <? infinity)%float = true ->
  fallbackEdge pts inMST n infinity = Some (Some (mkEdge 0 (S m))).
Proof.
  intros Htree Hm Hw Hlt. unfold fallbackEdge.
  destruct (indexPairs_from_zero n m Hm) as [l2 ->].
  rewrite firstPair_skip.
  - cbn [firstPair]. rewrite !Htree, Hw, Hlt.
    replace (S m <=? m)%nat with false by (symmetry; apply Nat.leb_gt; lia). reflexivity.
  - intros i j Hin. apply in_map_iff in Hin as (j' & [= <- <-] & Hj).
    apply in_seq in Hj. rewrite !Htree.
    replace (j' <=? m)%nat with true by (symmetry; apply Nat.leb_le; lia). reflexivity.
Qed.

Lemma inTree_replicate (n v : nat) : inTree (replicate n false) v = false.
Proof.
  unfold inTree. revert v. induction n as [|n IH]; intros [|v]; cbn; try reflexivity.
  apply IH.
Qed.

Lemma primLoop_star (pts : list Point) (n k : nat) :
  (forall j, (0 < j < n)%nat ->
             exists w, dist pts 0 j = Some w /\ (w <? infinity)%float = true) ->
  forall m inMST F,
    length inMST = n ->
    (forall v, inTree inMST v = (v <=? m)%nat) ->
    (m + k = n - 1)%nat -> (m < n)%nat ->
    primLoop k pts [] n inMST F = Some (F ++ map (mkEdge 0) (seq (S m) k)).
Proof.
  intros Hbelow. induction k as [|k IH]; intros m inMST F Hlen Htree Hk Hm.
  - cbn. rewrite app_nil_r. reflexivity.
  - cbn [primLoop]. unfold nextEdge. cbn [scanEdges fold_left noBest bestEdge bestWeight].
    destruct (Hbelow (S m) ltac:(lia)) as (w & Hw & Hlt).
    rewrite (fallbackEdge_star pts inMST n m w Htree ltac:(lia) Hw Hlt).
    rewrite (IH (S m)).
    + rewrite <- app_assoc. reflexivity.
    + rewrite length_markEdge. exact Hlen.
    + intros v. rewrite inTree_markEdge by (cbn [ea eb]; lia).
      cbn [ea eb]. rewrite Htree.
      destruct (Nat.leb_spec v m), (Nat.leb_spec v (S m)), (Nat.eqb_spec v 0),
        (Nat.eqb_spec v (S m)); cbn; try reflexivity; lia.
    + lia.
    + lia.
Qed.

(** X25.  With an empty candidate list every edge of [primMST] comes from
    the fallback, which takes the pair of the tree point of lowest index and
    the outside point of lowest index whose distance is below [Infinity]:
    where point 0 is at a distance below [Infinity] from every other point,
    the result is the star [(0,1), (0,2), ..., (0,N-1)] around point 0,
    whatever the positions of the points, and no edge when there are fewer
    than two points.  On any graph on which it returns, [primMST] returns
    the points it was given and no [triangles] field. *)
Theorem primMST_without_candidates (pts : list Point) (tris : option (list Triangle))
        (Hbelow : forall j, (0 < j < length pts)%nat ->
                            exists w, dist pts 0 j = Some w
                                      /\ (w <? infinity)%float = true) :
  primMST (mkGraph pts [] tris)
  = Some (mkGraph pts (map (mkEdge 0) (seq 1 (length pts - 1))) None)
  /\ (forall g mst,
         primMST g = Some mst -> points mst = points g /\ triangles mst = None).
Proof.
  split; [| exact primMST_points].
  destruct (le_lt_dec (length pts) 1) as [Hfew | Hmany].
  - rewrite primMST_few by exact Hfew. cbn [points].
    replace (length pts - 1)%nat with 0%nat by lia. reflexivity.
  - rewrite primMST_many by (cbn [points]; lia). cbn [points edges].
    rewrite (primLoop_star pts (length pts) (length pts - 1) Hbelow 0).
    + reflexivity.
    + rewrite length_insert, length_replicate. reflexivity.
    + intros v. rewrite inTree_insert by (rewrite length_replicate; lia).
      rewrite inTree_replicate. cbn [orb].
      destruct (Nat.eqb_spec v 0), (Nat.leb_spec v 0); try reflexivity; lia.
    + lia.
    + lia.
Qed.

Lemma primMST_without_candidates_witness :
  primMST (mkGraph linePoints [] None)
  = Some (mkGraph linePoints (map (mkEdge 0) (seq 1 (length linePoints - 1))) None)
  /\ (forall g mst,
         primMST g = Some mst -> points mst = points g /\ triangles mst = None).
Proof.
  apply (primMST_without_candidates linePoints None).
  intros j Hj. cbn in Hj.
  destruct j as [|[|[|j]]]; [lia | | | lia];
    eexists; (split; [vm_compute; reflexivity | vm_compute; reflexivity]).
Defined.


(** * The augmenter: which edges it adds *)

Lemma augmentLoop_extra (rng : RNG) (mstEdges : list Edge) (graphEdges : list Edge) :
  forall st,
    let mstSet := map (fun m => keyEdge (ea m) (eb m)) mstEdges in
    let st' := fold_left (augmentStep rng mstSet) graphEdges st in
    let cand := loopCandidates mstEdges graphEdges in
    exists extra,
      finalEdges st' = finalEdges st ++ extra
      /\ sublist extra cand
      /\ aug_draws st' = (aug_draws st + length cand)%nat
      /\ ((forall i, (i < length cand)%nat ->
                     (EXTRA_EDGE_CHANCE < rng (aug_draws st + i)%nat)%Q) ->
          extra = []).
Proof.
  induction graphEdges as [|e es IH]; intros st mstSet.
  - exists []. cbn. rewrite app_nil_r, Nat.add_0_r. repeat split. constructor.
  - cbn [fold_left]. unfold loopCandidates. cbn [List.filter].
    fold (loopCandidates mstEdges es). fold mstSet.
    destruct (IH (augmentStep rng mstSet st e)) as (extra & Hfin & Hsub & Hdraws & Hfail).
    fold mstSet in Hfin, Hdraws. unfold augmentStep in *.
    destruct (existsb (key_eqb (keyEdge (ea e) (eb e))) mstSet) eqn:Emst; cbn [negb].
    + exists extra. repeat split; assumption.
    + destruct (Qltb EXTRA_EDGE_CHANCE (rng (aug_draws st))) eqn:Edraw.
      * cbn [finalEdges aug_draws length] in *. exists extra.
        split; [exact Hfin |]. split; [apply sublist_cons; exact Hsub |].
        split; [lia |]. intros Hall. apply Hfail. intros i Hi.
        replace (aug_draws st + 1 + i)%nat with (aug_draws st + S i)%nat by lia.
        apply Hall. lia.
      * assert (Hnot : ~ (EXTRA_EDGE_CHANCE < rng (aug_draws st + 0)%nat)%Q).
        { rewrite Nat.add_0_r. apply Qltb_false in Edraw. apply Qle_not_lt. exact Edraw. }
        destruct (degreeOf (adjacency st) (ea e) >? MAX_ALLOWED_CONNECTIONS);
          [| destruct (degreeOf (adjacency st) (eb e) >? MAX_ALLOWED_CONNECTIONS)];
          cbn [finalEdges aug_draws length] in *.
        -- exists extra. split; [exact Hfin |]. split; [apply sublist_cons; exact Hsub |].
           split; [lia |]. intros Hall. exfalso. apply Hnot. apply Hall. lia.
        -- exists extra. split; [exact Hfin |]. split; [apply sublist_cons; exact Hsub |].
           split; [lia |]. intros Hall. exfalso. apply Hnot. apply Hall. lia.
        -- exists (e :: extra). split; [rewrite Hfin, <- app_assoc; reflexivity |].
           split; [apply sublist_skip; exact Hsub |].
           split; [lia |]. intros Hall. exfalso. apply Hnot. apply Hall. lia.
Qed.

Lemma loopCandidates_new (mstEdges graphEdges : list Edge) (e : Edge) :
  In e (loopCandidates mstEdges graphEdges) ->
  In e graphEdges
  /\ ~ In (keyEdge (ea e) (eb e)) (map (fun m => keyEdge (ea m) (eb m)) mstEdges).
Proof.
  unfold loopCandidates. intros H. apply filter_In in H as [Hin Hnew].
  split; [exact Hin |]. intros Hk. apply negb_true_iff in Hnew.
  assert (existsb (key_eqb (keyEdge (ea e) (eb e)))
                  (map (fun m => keyEdge (ea m) (eb m)) mstEdges) = true).
  { apply existsb_exists. eexists. split; [exact Hk | apply key_eqb_eq; reflexivity]. }
  congruence.
Qed.

Lemma sublist_In {A : Type} (l1 l2 : list A) (x : A) :
  sublist l1 l2 -> In x l1 -> In x l2.
Proof.
  intros Hs Hx. apply list_elem_of_In. eapply sublist_submseteq in Hs.
  eapply elem_of_submseteq; [| exact Hs]. apply list_elem_of_In. exact Hx.
Qed.

Lemma sublist_ListNoDup {A : Type} (l1 l2 : list A) :
  sublist l1 l2 -> List.NoDup l2 -> List.NoDup l1.
Proof.
  intros Hs Hn. apply NoDup_ListNoDup. apply NoDup_ListNoDup in Hn.
  eapply sublist_NoDup; eassumption.
Qed.

Lemma sublist_List_filter {A : Type} (f : A -> bool) (l : list A) :
  sublist (List.filter f l) l.
Proof.
  induction l as [|x l IH]; cbn [List.filter]; [constructor |].
  destruct (f x); [apply sublist_skip | apply sublist_cons]; exact IH.
Qed.

Lemma augment_distinct (mstEdges graphEdges extra : list Edge) :
  distinctPairs mstEdges -> distinctPairs graphEdges ->
  sublist extra (loopCandidates mstEdges graphEdges) ->
  distinctPairs (mstEdges ++ extra).
Proof.
  unfold distinctPairs. intros Hm Hg Hsub. rewrite map_app.
  apply List.NoDup_app; [exact Hm | |].
  - apply (sublist_ListNoDup _ (map (fun e => keyEdge (ea e) (eb e)) graphEdges));
      [| exact Hg].
    change (map (fun e : Edge => keyEdge (ea e) (eb e)))
      with (fmap (M := list) (fun e : Edge => keyEdge (ea e) (eb e))).
    apply fmap_sublist. etransitivity; [exact Hsub |].
    unfold loopCandidates. apply sublist_List_filter.
  - intros k Hk Hk'. apply in_map_iff in Hk' as (e & <- & He).
    apply (sublist_In _ _ _ Hsub) in He.
    apply loopCandidates_new in He as [_ Hnew]. contradiction.
Qed.

Lemma extra_edges_loop (rng : RNG) (draws n : nat) (mstEdges graphEdges : list Edge) :
  exists extra,
    finalEdges (augment rng draws n mstEdges graphEdges) = mstEdges ++ extra
    /\ sublist extra (loopCandidates mstEdges graphEdges).
Proof.
  unfold augment.
  destruct (augmentLoop_extra rng mstEdges graphEdges
                              (mkAugState mstEdges (initialAdjacency n mstEdges) draws))
    as (extra & Hfin & Hsub & _).
  exists extra. split; assumption.
Qed.

(** X27.  The loop augmenter returns the tree edges followed by a
    subsequence, in candidate order, of the candidate edges whose pair of
    points is not already joined by a tree edge.  It draws one random number
    for each of these candidates and none for the others; when every draw is
    above [EXTRA_EDGE_CHANCE] nothing is added.  If no pair of points occurs
    twice among the tree edges, nor among the candidates, none occurs twice
    in the result. *)
Theorem extra_edges_are_new_candidates (rng : RNG) (draws n : nat)
        (mstEdges graphEdges : list Edge) :
  exists extra,
    finalEdges (augment rng draws n mstEdges graphEdges) = mstEdges ++ extra
    /\ sublist extra (loopCandidates mstEdges graphEdges)
    /\ aug_draws (augment rng draws n mstEdges graphEdges)
       = (draws + length (loopCandidates mstEdges graphEdges))%nat
    /\ ((forall i, (i < length (loopCandidates mstEdges graphEdges))%nat ->
                   (EXTRA_EDGE_CHANCE < rng (draws + i)%nat)%Q) ->
        extra = [])
    /\ (distinctPairs mstEdges -> distinctPairs graphEdges ->
        distinctPairs (finalEdges (augment rng draws n mstEdges graphEdges))).
Proof.
  unfold augment.
  destruct (augmentLoop_extra rng mstEdges graphEdges
                              (mkAugState mstEdges (initialAdjacency n mstEdges) draws))
    as (extra & Hfin & Hsub & Hdraws & Hfail).
  cbn [finalEdges aug_draws] in Hfin, Hdraws, Hfail.
  exists extra. split; [exact Hfin |]. split; [exact Hsub |]. split; [exact Hdraws |].
  split; [exact Hfail |].
  intros Hm Hg. rewrite Hfin. apply (augment_distinct mstEdges graphEdges); assumption.
Qed.


(** * The corridors the router is asked for *)

Lemma keyEdge_pair (a b c d : nat) :
  keyEdge a b = keyEdge c d -> (a = c /\ b = d) \/ (a = d /\ b = c).
Proof.
  unfold keyEdge. destruct (Nat.ltb_spec a b), (Nat.ltb_spec c d); intros [= -> ->]; lia.
Qed.

Lemma nextEdge_crossing (pts : list Point) (es : list Edge) (inMST : list bool)
      (n : nat) (e : Edge) :
  nextEdge pts es inMST n = Some (Some e) ->
  In e (es ++ allPairs n) /\ crossing inMST e = true.
Proof.
  unfold nextEdge.
  destruct (scanEdges pts inMST es) as [b|] eqn:Hb; [| discriminate].
  pose proof (scanEdges_result pts inMST es b Hb) as Hres.
  destruct (bestEdge b) as [e0|].
  - intros [= <-]. destruct Hres as (Hin & Hc & _).
    split; [apply in_or_app; left; exact Hin | exact Hc].
  - intros H. destruct (fallbackEdge_proper _ _ _ _ _ H) as (_ & Hin & Hc).
    split; [apply in_or_app; right; exact Hin | exact Hc].
Qed.

Lemma primLoop_distinct (pts : list Point) (es : list Edge) (n k : nat) :
  validEdges n es ->
  forall inMST F R,
    PrimInv n (es ++ allPairs n) inMST F ->
    primLoop k pts es n inMST F = Some R ->
    distinctPairs F ->
    distinctPairs R.
Proof.
  intros Hvalid. induction k as [|k IH]; intros inMST F R Hinv; cbn [primLoop].
  - intros [= <-] Hd. exact Hd.
  - destruct (nextEdge pts es inMST n) as [[e|]|] eqn:Hnext; [| | discriminate].
    + destruct (nextEdge_crossing _ _ _ _ _ Hnext) as [He Hc].
      intros HR Hd. apply (IH (markEdge inMST e) (F ++ [e]) R); [| exact HR |].
      * apply (prim_step (es ++ allPairs n) n (withPairs_valid es n Hvalid)
                         inMST F e Hinv He Hc).
      * unfold distinctPairs in *. rewrite map_app. cbn [map].
        apply List.NoDup_app; [exact Hd | constructor; [intros [] | constructor] |].
        intros key Hkey [<- | []]. apply in_map_iff in Hkey as (f & Hfk & Hf).
        destruct (pr_inside _ _ _ _ Hinv f Hf) as [Hfa Hfb].
        apply crossing_ends in Hc.
        apply keyEdge_pair in Hfk as [[E1 E2] | [E1 E2]]; rewrite E1, E2 in *;
          destruct Hc as [[H1 H2] | [H1 H2]]; congruence.
    + intros [= <-] Hd. exact Hd.
Qed.

Lemma primMST_distinct (g mst : Graph) :
  validEdges (length (points g)) (edges g) ->
  primMST g = Some mst -> distinctPairs (edges mst).
Proof.
  intros Hvalid Hmst.
  destruct (le_lt_dec (length (points g)) 1) as [Hfew | Hmany].
  - rewrite (primMST_few g Hfew) in Hmst. injection Hmst as <-. constructor.
  - rewrite (primMST_many g) in Hmst by lia.
    destruct (primLoop _ _ _ _ _ _) as [R|] eqn:HR; [| discriminate].
    injection Hmst as <-. cbn [edges].
    eapply (primLoop_distinct _ _ _ _ Hvalid); [| exact HR | constructor].
    apply PrimInv_initial. lia.
Qed.

(** X28.  The list of corridors the router is asked to carve is sound: each
    edge joins two different rooms, no pair of rooms is listed twice, and
    the edges connect all the rooms (they hold a spanning tree, so there are
    at least as many as rooms minus one).  The grid of the dungeon returned
    is the result of running the router on this list, starting from the grid
    the placement loop left. *)
Theorem corridor_requests_are_sound (rng : RNG) (Hu : unitRNG rng) :
  exists st es d,
    placeRooms rng = Some st
    /\ acceptedEdges rng = Some es
    /\ createDungeon rng = Some d
    /\ carveAll (ps_rooms st) (width DUNGEON_SIZE) (height DUNGEON_SIZE) (ps_cells st) es
       = Some (d_cells d)
    /\ Forall (properEdge (length (ps_rooms st))) es
    /\ distinctPairs es
    /\ connectedGraph (length (ps_rooms st)) es
    /\ (length (ps_rooms st) - 1 <= length es)%nat.
Proof.
  destruct (createDungeon_total rng Hu) as [d Hd].
  destruct (createDungeon_rooms rng d Hd) as (st & Hst & Hrooms).
  pose proof (placeRooms_PlaceInv rng st Hu Hst) as Hinv.
  set (pnts := map centerPoint (ps_rooms st)).
  assert (Hlen : length pnts = length (ps_rooms st)) by (unfold pnts; apply length_map).
  destruct (createGraphFromPointsBy_proper circumcircleContains pnts) as [Hp Hg].
  fold createGraphFromPoints in Hp, Hg.
  set (graph := createGraphFromPoints pnts) in *.
  assert (Hvalid : validEdges (length (points graph)) (edges graph)).
  { rewrite Hp. apply proper_valid. exact Hg. }
  assert (Hn : (1 <= length (points graph))%nat).
  { rewrite Hp, Hlen.
    pose proof (placeLoop_count rng _ _ st PlaceCount_initial Hst) as Hcount.
    assert (Hexit : placeGuard st = false).
    { eapply (placeLoop_exit rng _ Hu _ st PlaceInv_initial); [| exact Hst].
      cbn [ps_attempts]. unfold_consts. lia. }
    unfold placeGuard in Hexit. apply andb_false_iff in Hexit. rewrite !Z.ltb_ge in Hexit.
    destruct Hcount as [_ _ _ _ Hfirst]. revert Hexit Hfirst. unfold_consts. lia. }
  assert (Hbelow : distancesBelowInfinity (points graph) (length (points graph))).
  { rewrite Hp, Hlen. apply centres_below_infinity. exact (pi_shape st Hinv). }
  destruct (primMST_spans graph Hn Hvalid Hbelow) as (mst & Hmst & Hcount & Hconn).
  assert (Hes : acceptedEdges rng
                = Some (finalEdges (augment rng (ps_draws st) (length pnts)
                                            (edges mst) (edges graph)))).
  { unfold acceptedEdges. rewrite Hst. fold pnts. fold graph. rewrite Hmst. reflexivity. }
  eexists st, _, d.
  split; [exact Hst |]. split; [exact Hes |]. split; [exact Hd |].
  pose proof (acceptedEdges_proper rng st _ Hst Hes) as Hproper.
  split.
  { revert Hd. unfold createDungeon. rewrite Hst. fold pnts. fold graph. rewrite Hmst.
    destruct (PlaceInv_dims st Hinv) as [-> ->].
    destruct (carveAll _ _ _ _ _) as [cells'|]; [| discriminate].
    intros [= <-]. reflexivity. }
  split; [exact Hproper |].
  destruct (extra_edges_loop rng (ps_draws st) (length pnts) (edges mst)
                             (edges graph)) as (extra & Hfin & Hsub).
  split; [| split].
  - rewrite Hfin. apply (augment_distinct _ (edges graph)); [| | exact Hsub].
    + apply (primMST_distinct graph mst Hvalid Hmst).
    + pose proof (createGraphFromPointsBy_sides circumcircleContains pnts) as [Hnd _].
      exact Hnd.
  - rewrite Hfin. intros v Hv. rewrite <- Hlen, <- Hp in Hv.
    apply connected_incl with (edges mst); [| apply Hconn; exact Hv].
    intros e He. apply in_or_app. left. exact He.
  - rewrite Hfin, length_app, Hcount, Hp, Hlen. lia.
Qed.

Lemma corridor_requests_are_sound_witness :
  exists st es d,
    placeRooms sampleRNG = Some st
    /\ acceptedEdges sampleRNG = Some es
    /\ createDungeon sampleRNG = Some d
    /\ carveAll (ps_rooms st) (width DUNGEON_SIZE) (height DUNGEON_SIZE) (ps_cells st) es
       = Some (d_cells d)
    /\ Forall (properEdge (length (ps_rooms st))) es
    /\ distinctPairs es
    /\ connectedGraph (length (ps_rooms st)) es
    /\ (length (ps_rooms st) - 1 <= length es)%nat.
Proof. exact (corridor_requests_are_sound sampleRNG sampleRNG_unit). Defined.


(** * The string keys identify what they stand for *)

Lemma digitsOf_range (d : Decimal.uint) (c : Z) : In c (digitsOf d) -> 48 <= c <= 57.
Proof.
  induction d; cbn [digitsOf]; intros H; try (destruct H as [<- | H]; [lia | auto]).
  destruct H.
Qed.

Lemma digitsOf_inj (d1 d2 : Decimal.uint) : digitsOf d1 = digitsOf d2 -> d1 = d2.
Proof.
  revert d2. induction d1; intros d2 H; destruct d2; cbn [digitsOf] in H;
    try discriminate; try reflexivity; injection H as H; f_equal; auto.
Qed.

Lemma natToString_inj (n m : nat) : natToString n = natToString m -> n = m.
Proof.
  unfold natToString. intros H. apply digitsOf_inj in H.
  apply DecimalNat.Unsigned.to_uint_inj. exact H.
Qed.

Lemma natToString_range (n : nat) (c : Z) : In c (natToString n) -> 48 <= c <= 57.
Proof. apply digitsOf_range. Qed.

Lemma natToString_nonempty (n : nat) : natToString n <> [].
Proof.
  unfold natToString. intros H.
  assert (E : Nat.to_uint n = Decimal.Nil) by (apply digitsOf_inj; exact H).
  pose proof (DecimalNat.Unsigned.of_to n) as Hof. rewrite E in Hof. cbn in Hof. subst n.
  discriminate E.
Qed.

Lemma intToString_range (z c : Z) : In c (intToString z) -> c = 45 \/ 48 <= c <= 57.
Proof.
  unfold intToString. destruct (z <? 0).
  - intros [<- | H]; [left; reflexivity | right; eapply natToString_range; exact H].
  - intros H. right. eapply natToString_range; exact H.
Qed.

Lemma intToString_nonempty (z : Z) : intToString z <> [].
Proof.
  unfold intToString. destruct (z <? 0); [discriminate | apply natToString_nonempty].
Qed.

Lemma intToString_inj (z1 z2 : Z) : intToString z1 = intToString z2 -> z1 = z2.
Proof.
  unfold intToString.
  destruct (Z.ltb_spec z1 0) as [L1 | L1], (Z.ltb_spec z2 0) as [L2 | L2]; intros Heq.
  - injection Heq as Heq. apply natToString_inj in Heq. lia.
  - exfalso. destruct (natToString (Z.to_nat z2)) as [|c l] eqn:E; [discriminate |].
    injection Heq as <- _.
    assert (48 <= 45 <= 57); [| lia].
    apply (natToString_range (Z.to_nat z2)). rewrite E. left. reflexivity.
  - exfalso. destruct (natToString (Z.to_nat z1)) as [|c l] eqn:E; [discriminate |].
    injection Heq as -> _.
    assert (48 <= 45 <= 57); [| lia].
    apply (natToString_range (Z.to_nat z1)). rewrite E. left. reflexivity.
  - apply natToString_inj in Heq. lia.
Qed.

(** Two texts cut at the first occurrence of a separator agree part by
    part. *)
Lemma split_at_separator (c : Z) (s1 s2 t1 t2 : JsString) :
  ~ In c s1 -> ~ In c t1 ->
  s1 ++ c :: s2 = t1 ++ c :: t2 -> s1 = t1 /\ s2 = t2.
Proof.
  revert t1. induction s1 as [|x s1 IH]; intros [|y t1] Hs Ht H; cbn [app] in H.
  - injection H as <-. split; reflexivity.
  - injection H as <- _. exfalso. apply Ht. left. reflexivity.
  - injection H as -> _. exfalso. apply Hs. left. reflexivity.
  - injection H as <- H.
    destruct (IH t1) as [-> ->]; [| | exact H | split; reflexivity].
    + intros Hin. apply Hs. right. exact Hin.
    + intros Hin. apply Ht. right. exact Hin.
Qed.

Lemma no_comma_in_digits (n : nat) : ~ In 44 (natToString n).
Proof. intros H. apply natToString_range in H. lia. Qed.

Lemma edgeKey_pair (a b c d : nat) :
  edgeKey a b = edgeKey c d <-> (a = c /\ b = d) \/ (a = d /\ b = c).
Proof.
  unfold edgeKey. destruct (Nat.ltb_spec a b), (Nat.ltb_spec c d); split;
    try (intros [= -> ->]; lia); intros [[-> ->] | [-> ->]]; try reflexivity; try lia;
    f_equal; lia.
Qed.

(** X21.  The key of an edge identifies the unordered pair of its ends, as
    the ordered pair of the model and as the string the source builds: two
    keys are equal exactly when the two edges join the same pair of points,
    in either direction.  A decimal number holds no comma, so the text
    [min,max] is read back in one way only.  [keyEdge] in [createDungeon] is
    the same function as [edgeKey]. *)
Theorem edge_key_identifies_pair (a b c d : nat) :
  (edgeKeyString a b = edgeKeyString c d <-> edgeKey a b = edgeKey c d)
  /\ (edgeKey a b = edgeKey c d <-> (a = c /\ b = d) \/ (a = d /\ b = c))
  /\ edgeKey a b = edgeKey b a
  /\ keyEdge a b = edgeKey a b.
Proof.
  split; [| split; [apply edgeKey_pair | split; [| reflexivity]]].
  - unfold edgeKeyString, edgeKey.
    destruct (a <? b)%nat, (c <? d)%nat; split; intros H;
      try (apply split_at_separator in H as [H1 H2]; try apply no_comma_in_digits;
           apply natToString_inj in H1, H2; subst; reflexivity);
      injection H as -> ->; reflexivity.
  - apply edgeKey_pair. destruct (Nat.eq_dec a b); [left | right]; split; congruence.
Qed.

Lemma posKey_inj (p q : Pos) : posKey p = posKey q -> p = q.
Proof.
  unfold posKey. intros H. apply split_at_separator in H as [H1 H2].
  - apply intToString_inj in H1, H2. destruct p, q. cbn [fst snd] in *. congruence.
  - intros Hin. apply intToString_range in Hin. lia.
  - intros Hin. apply intToString_range in Hin. lia.
Qed.

Lemma posKey_range (p : Pos) (c : Z) :
  In c (posKey p) -> c = 44 \/ c = 45 \/ 48 <= c <= 57.
Proof.
  unfold posKey. intros H. apply in_app_or in H as [H | [<- | H]].
  - apply intToString_range in H. tauto.
  - left. reflexivity.
  - apply intToString_range in H. tauto.
Qed.

Lemma posKey_no_bar (p : Pos) : ~ In 124 (posKey p).
Proof. intros H. apply posKey_range in H. lia. Qed.

Lemma posKey_nonempty (p : Pos) : posKey p <> [].
Proof.
  unfold posKey. intros H. apply app_eq_nil in H as [_ H]. discriminate.
Qed.

Lemma polyKey_cons (p : Pos) (poly : list Pos) :
  polyKey (p :: poly)
  = match poly with
    | [] => posKey p
    | _ :: _ => posKey p ++ 124 :: polyKey poly
    end.
Proof. destruct poly; reflexivity. Qed.

Lemma polyKey_nonempty (p : Pos) (poly : list Pos) : polyKey (p :: poly) <> [].
Proof.
  rewrite polyKey_cons. destruct poly.
  - apply posKey_nonempty.
  - intros H. apply app_eq_nil in H as [H _]. exact (posKey_nonempty p H).
Qed.

Lemma polyKey_inj (p q : list Pos) : polyKey p = polyKey q -> p = q.
Proof.
  revert q. induction p as [|a p IH]; intros [|b q] H.
  - reflexivity.
  - exfalso. symmetry in H. exact (polyKey_nonempty b q H).
  - exfalso. exact (polyKey_nonempty a p H).
  - rewrite !polyKey_cons in H. destruct p as [|a' p], q as [|b' q].
    + apply posKey_inj in H. subst. reflexivity.
    + exfalso. apply (posKey_no_bar a). rewrite H. apply in_or_app. right. left. reflexivity.
    + exfalso. apply (posKey_no_bar b). rewrite <- H. apply in_or_app. right. left.
      reflexivity.
    + apply split_at_separator in H as [H1 H2]; try apply posKey_no_bar.
      apply posKey_inj in H1. subst b. f_equal. apply IH. exact H2.
Qed.

(** X11.  The key under which [candidatePolylines] remembers a polyline,
    the texts [x,y] of its points joined by a vertical bar, identifies the
    polyline: two polylines have the same key exactly when they have the
    same points in the same order, negative coordinates included.  The
    deduplication therefore drops a polyline only when the very same
    polyline was already kept. *)
Theorem polyline_key_identifies_polyline (p q : list Pos) :
  (polyKey p = polyKey q <-> p = q)
  /\ (polyKey p = polyKey q <-> poly_eqb p q = true).
Proof.
  assert (H : polyKey p = polyKey q <-> p = q).
  { split; [apply polyKey_inj | intros ->; reflexivity]. }
  split; [exact H |]. rewrite H. symmetry. apply poly_eqb_eq.
Qed.


(** * Rendering the grid as text *)

Lemma appendRow_map (glyph : CellTypeEnum -> Z) (row : list Cell) :
  forall text, appendRow glyph text row = text ++ map (fun c => glyph (cell_type c)) row.
Proof.
  unfold appendRow. induction row as [|c row IH]; intros text; cbn [fold_left map].
  - rewrite app_nil_r. reflexivity.
  - rewrite IH, <- app_assoc. reflexivity.
Qed.

Lemma dungeonToString_rows (rows : Grid) :
  forall text,
    fold_left (fun s row => appendRow stringChar s row ++ [10]) rows text
    = text ++ flat_map (fun row => map (fun c => stringChar (cell_type c)) row ++ [10]) rows.
Proof.
  induction rows as [|row rows IH]; intros text; cbn [fold_left flat_map].
  - rewrite app_nil_r. reflexivity.
  - rewrite IH, appendRow_map, <- !app_assoc. reflexivity.
Qed.

Lemma readStringChar_stringChar (t : CellTypeEnum) : readStringChar (stringChar t) = t.
Proof. destruct t; reflexivity. Qed.

Lemma readRows_row (row : list Cell) (rest : JsString) :
  forall acc,
    readRows (map (fun c => stringChar (cell_type c)) row ++ 10 :: rest) acc
    = (rev acc ++ map cell_type row) :: readRows rest [].
Proof.
  induction row as [|c row IH]; intros acc; cbn [map app readRows].
  - rewrite app_nil_r. reflexivity.
  - replace (stringChar (cell_type c) =? 10) with false by (destruct (cell_type c); reflexivity).
    rewrite IH. cbn [rev]. rewrite readStringChar_stringChar, <- app_assoc. reflexivity.
Qed.

(** X29.  [dungeonToString] writes the grid row by row, one character per
    cell (U+25AE for a room, U+25FB for a corridor, a space for an empty
    cell) and a line feed after every row, so the text has one line per row
    and the grid of cell types can be read back from it.  [printDungeon]
    logs one line per row with the same layout, a full stop for a room and
    a hash sign for a corridor.  Rows of different lengths are rendered as
    they are. *)
Theorem text_rendering_round_trips (dungeon : Dungeon) :
  dungeonToString dungeon
  = flat_map (fun row => map (fun c => stringChar (cell_type c)) row ++ [10])
             (d_cells dungeon)
  /\ readRows (dungeonToString dungeon) [] = map (map cell_type) (d_cells dungeon)
  /\ Z.of_nat (length (dungeonToString dungeon))
     = fold_right (fun row n => Z.of_nat (length row) + 1 + n) 0 (d_cells dungeon)
  /\ length (printDungeon dungeon) = length (d_cells dungeon)
  /\ map (map readPrintChar) (printDungeon dungeon) = map (map cell_type) (d_cells dungeon)
  /\ dungeonToString dungeon
     = flat_map (fun line => map (fun c => stringChar (readPrintChar c)) line ++ [10])
                (printDungeon dungeon).
Proof.
  assert (Hs : dungeonToString dungeon
               = flat_map (fun row => map (fun c => stringChar (cell_type c)) row ++ [10])
                          (d_cells dungeon)).
  { unfold dungeonToString. rewrite dungeonToString_rows. reflexivity. }
  assert (Hp : printDungeon dungeon
               = map (fun row => map (fun c => printChar (cell_type c)) row)
                     (d_cells dungeon)).
  { unfold printDungeon. apply map_ext. intros row. rewrite appendRow_map. reflexivity. }
  split; [exact Hs |]. rewrite Hs, Hp. clear Hs Hp.
  induction (d_cells dungeon) as [|row rows IH]; [repeat split |].
  destruct IH as (IH1 & IH2 & IH3 & IH4 & IH5).
  cbn [flat_map map fold_right length].
  split; [| split; [| split; [| split]]].
  - rewrite <- app_assoc. cbn [app]. rewrite readRows_row, IH1. reflexivity.
  - rewrite !length_app, length_map. cbn [length]. lia.
  - rewrite length_map. reflexivity.
  - f_equal; [| exact IH4]. rewrite map_map. apply map_ext. intros c.
    destruct (cell_type c); reflexivity.
  - f_equal; [| exact IH5]. f_equal. rewrite map_map. apply map_ext. intros c.
    destruct (cell_type c); reflexivity.
Qed.


(** * Merging the chunks of a streamed answer *)

Lemma startsWith_app (s prefix : JsString) :
  startsWith s prefix = true <-> exists rest, s = prefix ++ rest.
Proof.
  revert s. induction prefix as [|p prefix IH]; intros s; cbn [startsWith].
  - split; [intros _; exists s; reflexivity | intros _; reflexivity].
  - destruct s as [|c s].
    + split; [discriminate | intros [rest H]; discriminate H].
    + rewrite andb_true_iff, Z.eqb_eq, IH. split.
      * intros [-> [rest ->]]. exists rest. reflexivity.
      * intros [rest [= -> ->]]. split; [reflexivity | exists rest; reflexivity].
Qed.

Lemma receive_response (chunks : list JsString) :
  forall st, response st = fullText st ->
             response (fold_left receiveChunk chunks st)
             = fullText (fold_left receiveChunk chunks st).
Proof.
  induction chunks as [|c chunks IH]; intros st H; [exact H |].
  cbn [fold_left]. apply IH. cbn [receiveChunk response fullText]. rewrite H. reflexivity.
Qed.

Lemma receive_cumulative (chunks : list JsString) :
  forall st,
    fullText st = previousChunk st ->
    (forall c, head chunks = Some c -> startsWith c (previousChunk st) = true) ->
    (forall i c1 c2, chunks !! i = Some c1 -> chunks !! S i = Some c2 ->
                     startsWith c2 c1 = true) ->
    fullText (fold_left receiveChunk chunks st) = List.last chunks (previousChunk st)
    /\ previousChunk (fold_left receiveChunk chunks st) = List.last chunks (previousChunk st).
Proof.
  induction chunks as [|c chunks IH]; intros st Hst Hhead Hnext.
  - split; [exact Hst | reflexivity].
  - cbn [fold_left].
    assert (Hc : startsWith c (previousChunk st) = true) by (apply Hhead; reflexivity).
    destruct (IH (receiveChunk st c)) as [H1 H2].
    + unfold receiveChunk. cbn [fullText previousChunk]. rewrite Hc, Hst.
      apply startsWith_app in Hc as [rest ->].
      rewrite drop_app_length. reflexivity.
    + intros c2 Hc2. cbn [receiveChunk previousChunk].
      apply (Hnext 0%nat c c2); [reflexivity |].
      destruct chunks as [|c' chunks']; [discriminate Hc2 | exact Hc2].
    + intros i c1 c2 H1 H2. exact (Hnext (S i) c1 c2 H1 H2).
    + cbn [receiveChunk previousChunk] in H1, H2.
      destruct chunks as [|c' chunks]; [split; assumption |].
      change (List.last (c :: c' :: chunks) (previousChunk st))
        with (List.last (c' :: chunks) (previousChunk st)).
      rewrite (last_nonempty_default chunks c' (previousChunk st) c).
      split; assumption.
Qed.

Lemma receive_deltas (chunks : list JsString) :
  forall st,
    (forall c, head chunks = Some c ->
               startsWith c (previousChunk st) = true -> previousChunk st = []) ->
    (forall i c1 c2, chunks !! i = Some c1 -> chunks !! S i = Some c2 ->
                     startsWith c2 c1 = true -> c1 = []) ->
    fullText (fold_left receiveChunk chunks st) = fullText st ++ concat chunks.
Proof.
  induction chunks as [|c chunks IH]; intros st Hhead Hnext.
  - cbn. rewrite app_nil_r. reflexivity.
  - cbn [fold_left concat]. rewrite IH.
    + unfold receiveChunk. cbn [fullText].
      destruct (startsWith c (previousChunk st)) eqn:Hc.
      * rewrite (Hhead c eq_refl Hc). cbn [length drop]. rewrite <- app_assoc. reflexivity.
      * rewrite <- app_assoc. reflexivity.
    + intros c2 Hc2 Hs. cbn [receiveChunk previousChunk] in *.
      apply (Hnext 0%nat c c2); [reflexivity | | exact Hs].
      destruct chunks as [|c' chunks']; [discriminate Hc2 | exact Hc2].
    + intros i c1 c2 H1 H2. exact (Hnext (S i) c1 c2 H1 H2).
Qed.

(** X30.  The loop that merges the chunks of a streamed answer handles both
    kinds of stream.  When every chunk repeats the whole text so far (each
    chunk starts with the one before), the text shown is the last chunk;
    when the chunks are increments (no chunk starts with the non-empty
    chunk before it), the text shown is their concatenation.  In every case
    the [response] state equals the accumulated [fullText]. *)
Theorem stream_merge (chunks : list JsString) :
  response (receiveAll chunks) = fullText (receiveAll chunks)
  /\ ((forall i c1 c2, chunks !! i = Some c1 -> chunks !! S i = Some c2 ->
                       startsWith c2 c1 = true) ->
      fullText (receiveAll chunks) = List.last chunks [])
  /\ ((forall i c1 c2, chunks !! i = Some c1 -> chunks !! S i = Some c2 ->
                       startsWith c2 c1 = true -> c1 = []) ->
      fullText (receiveAll chunks) = concat chunks).
Proof.
  unfold receiveAll. split; [apply receive_response; reflexivity |]. split.
  - intros Hcum. apply receive_cumulative; [reflexivity | reflexivity | exact Hcum].
  - intros Hdelta. rewrite receive_deltas; [reflexivity | reflexivity | exact Hdelta].
Qed.


(** * [isAreaEmpty] after [placeRoom] *)

(** X3.  Placing a room and testing an area compose as expected: after
    [placeRoom] has written a room that fits the grid, [isAreaEmpty] answers
    [true] for a rectangle exactly when it did before and the rectangle
    shares no cell with the room.  In particular the area of the room itself
    is no longer empty, and areas away from the room are judged as before. *)
Theorem isAreaEmpty_after_placeRoom (cols rows : Z) (cells cells' : Grid) (r : Room)
        (Hrect : rectGrid cols rows cells)
        (Hw : 0 < room_width r) (Hh : 0 < room_height r)
        (Hplace : placeRoom cells r = Some cells') :
  forall x y w h,
    isAreaEmpty cells' x y w h = isAreaEmpty cells x y w h && negb (overlapsRoom r x y w h).
Proof.
  assert (Hfit : roomFits cols rows r).
  { unfold placeRoom in Hplace. pose proof (writeAll_cellAt _ _ _ _ Hplace) as [Hdom _].
    assert (H1 : cellAt cells (room_x r) (room_y r) <> None).
    { apply (Hdom (room_x r, room_y r)). apply In_rectCells. lia. }
    assert (H2 : cellAt cells (room_x r + room_width r - 1)
                        (room_y r + room_height r - 1) <> None).
    { apply (Hdom (room_x r + room_width r - 1, room_y r + room_height r - 1)).
      apply In_rectCells. lia. }
    destruct (cellAt cells (room_x r) (room_y r)) as [c1|] eqn:E1; [| congruence].
    destruct (cellAt cells (room_x r + room_width r - 1) (room_y r + room_height r - 1))
      as [c2|] eqn:E2; [| congruence].
    apply (cellAt_Some_bounds _ _ _ _ _ _ Hrect) in E1, E2. unfold roomFits. lia. }
  assert (Hrect' : rectGrid cols rows cells'
                   /\ forall x y, typeAt cells' x y
                                  = if inRoom r x y then (fun _ => room) <$> typeAt cells x y
                                    else typeAt cells x y).
  { unfold placeRoom in Hplace.
    destruct (writeAll_spec cols rows
                (rectCells (room_x r) (room_y r) (room_width r) (room_height r))
                cells Hrect) as (cells2 & Hwr & Hrect2 & Htype).
    { intros [i j] Hp. apply In_rectCells in Hp. unfold roomFits in Hfit.
      cbn [fst snd]. lia. }
    rewrite Hwr in Hplace. injection Hplace as <-. split; [exact Hrect2 |].
    intros x y. rewrite Htype, inRoom_rectCells. reflexivity. }
  destruct Hrect' as [Hrect' Htype].
  assert (Hrows : 0 < rows) by (unfold roomFits in Hfit; lia).
  pose proof (gridCols_rect _ _ _ Hrect Hrows) as Hc.
  pose proof (gridCols_rect _ _ _ Hrect' Hrows) as Hc'.
  destruct Hrect as [Hr Hall]. destruct Hrect' as [Hr' Hall'].
  assert (Hgrid : rectGrid cols rows cells) by (split; assumption).
  intros x y w h. apply eq_true_iff_eq.
  rewrite andb_true_iff, negb_true_iff, !isAreaEmpty_spec, Hc, Hc', Hr, Hr'.
  unfold overlapsRoom, roomFits in *. split.
  - intros Hempty. split.
    + intros i j Hi Hj Hgi Hgj. specialize (Hempty i j Hi Hj Hgi Hgj).
      rewrite Htype in Hempty. destruct (inRoom r i j); [| exact Hempty].
      destruct (typeAt cells i j); discriminate.
    + apply not_true_is_false. intros Hov. apply andb_true_iff in Hov as [Hx Hy].
      apply Z.ltb_lt in Hx, Hy.
      set (i := Z.max x (room_x r)) in *. set (j := Z.max y (room_y r)) in *.
      assert (Hin : inRoom r i j = true) by (apply inRoom_iff; lia).
      assert (He : typeAt cells' i j = Some empty) by (apply Hempty; lia).
      rewrite Htype, Hin in He. destruct (typeAt cells i j); discriminate.
  - intros [Hempty Hov] i j Hi Hj Hgi Hgj. rewrite Htype.
    destruct (inRoom r i j) eqn:Hin; [| apply Hempty; assumption].
    exfalso. apply inRoom_iff in Hin.
    apply andb_false_iff in Hov. rewrite !Z.ltb_ge in Hov. lia.
Qed.

Lemma isAreaEmpty_after_placeRoom_witness :
  isAreaEmpty (alterType room (createEmptyDungeon 3 2) (1, 1)) 0 0 2 2
  = isAreaEmpty (createEmptyDungeon 3 2) 0 0 2 2
    && negb (overlapsRoom (mkRoom 1 1 1 1 (1, 1)) 0 0 2 2).
Proof.
  apply (isAreaEmpty_after_placeRoom 3 2 (createEmptyDungeon 3 2)
                                     (alterType room (createEmptyDungeon 3 2) (1, 1))
                                     (mkRoom 1 1 1 1 (1, 1))).
  - apply createEmptyDungeon_rect; lia.
  - simpl. lia.
  - simpl. lia.
  - reflexivity.
Defined.


(** * Running Prim's loop on its own result *)

Lemma treeAfter_length (n : nat) (F : list Edge) : length (treeAfter n F) = n.
Proof.
  induction F as [|e F IH] using rev_ind.
  - unfold treeAfter. cbn [fold_left]. rewrite length_insert, length_replicate. reflexivity.
  - rewrite treeAfter_snoc, length_markEdge. exact IH.
Qed.

Lemma treeAfter_inside (n : nat) (F : list Edge) :
  validEdges n F ->
  forall f, In f F ->
            inTree (treeAfter n F) (ea f) = true /\ inTree (treeAfter n F) (eb f) = true.
Proof.
  induction F as [|e F IH] using rev_ind; intros Hvalid f Hf; [destruct Hf |].
  unfold validEdges in Hvalid. apply List.Forall_app in Hvalid as [HF He].
  inversion He as [|e' l' [Hea Heb] _]; subst.
  rewrite treeAfter_snoc.
  rewrite !inTree_markEdge by (rewrite treeAfter_length; assumption).
  apply in_app_or in Hf as [Hf | [<- | []]].
  - destruct (IH HF f Hf) as [-> ->]. split; reflexivity.
  - rewrite !Nat.eqb_refl, !orb_true_r. split; [rewrite orb_true_l |]; reflexivity.
Qed.

Lemma not_crossing_inside (inMST : list bool) (e : Edge) :
  inTree inMST (ea e) = true -> inTree inMST (eb e) = true -> crossing inMST e = false.
Proof. intros Ha Hb. unfold crossing. rewrite Ha, Hb. reflexivity. Qed.

Lemma finiteLengths_incl (pts : list Point) (es R : list Edge) :
  finiteLengths pts es -> incl R es -> finiteLengths pts R.
Proof.
  unfold finiteLengths. rewrite !List.Forall_forall. intros H Hincl e He.
  apply H, Hincl, He.
Qed.

Lemma primLoop_replay (pts : list Point) (es R : list Edge) (n : nat) :
  validEdges n es -> finiteLengths pts es -> incl R es ->
  (forall l1 e l2, R = l1 ++ e :: l2 -> primChoice pts es (treeAfter n l1) e) ->
  forall k l1 rest,
    R = l1 ++ rest -> length rest = k ->
    primLoop k pts R n (treeAfter n l1) l1 = Some R.
Proof.
  intros Hvalid Hfin Hincl Hchoice.
  assert (HvalidR : validEdges n R).
  { unfold validEdges in *. rewrite List.Forall_forall in *. intros e He.
    apply Hvalid, Hincl, He. }
  pose proof (finiteLengths_incl pts es R Hfin Hincl) as HfinR.
  induction k as [|k IH]; intros l1 rest HR Hlen.
  - destruct rest; [| discriminate]. rewrite app_nil_r in HR. subst l1. reflexivity.
  - destruct rest as [|e l2]; [discriminate |].
    pose proof (Hchoice l1 e l2 HR) as He.
    destruct (primChoice_least pts (treeAfter n l1) es e He) as (_ & Hcross & Hleast).
    assert (Hnext : nextEdge pts R (treeAfter n l1) n = Some (Some e)).
    { unfold nextEdge.
      destruct (scanEdges_spec pts (treeAfter n l1) R HfinR) as (b & -> & Hspec).
      destruct (bestEdge b) as [e'|].
      - destruct Hspec as [_ (c1 & c2 & Hsplit & Hc' & Hbefore & _)].
        do 2 f_equal. rewrite HR in Hsplit.
        apply app_eq_app in Hsplit as [m [[E1 E2] | [E1 E2]]].
        + destruct m as [|x m].
          * rewrite app_nil_r in E1. cbn [app] in E2. congruence.
          * exfalso. cbn [app] in E2. injection E2 as <- E2.
            assert (Hin : In e' l1).
            { rewrite E1. apply in_or_app. right. left. reflexivity. }
            assert (Hv1 : validEdges n l1).
            { unfold validEdges in *. rewrite HR in HvalidR.
              apply List.Forall_app in HvalidR as [H _]. exact H. }
            destruct (treeAfter_inside n l1 Hv1 e' Hin) as [Ha Hb].
            rewrite (not_crossing_inside _ _ Ha Hb) in Hc'. discriminate.
        + destruct m as [|x m].
          * rewrite app_nil_r in E1. cbn [app] in E2. congruence.
          * exfalso. cbn [app] in E2. injection E2 as <- E2.
            assert (Hin : In e c1).
            { rewrite E1. apply in_or_app. right. left. reflexivity. }
            pose proof (Hbefore e Hin Hcross) as Hlt.
            assert (Hine' : In e' es).
            { apply Hincl. rewrite HR, E2. apply in_or_app. right. right.
              apply in_or_app. right. left. reflexivity. }
            pose proof (Hleast e' Hine' Hc') as Hle.
            apply Qle_not_lt in Hle. contradiction.
      - exfalso. assert (Hin : In e R).
        { rewrite HR. apply in_or_app. right. left. reflexivity. }
        rewrite (Hspec e Hin) in Hcross. discriminate. }
    cbn [primLoop]. rewrite Hnext, <- treeAfter_snoc.
    apply (IH (l1 ++ [e]) l2).
    + rewrite <- app_assoc. exact HR.
    + cbn [length] in Hlen. lia.
Qed.

(** X26.  On a graph whose candidate edges reach every point and all have a
    finite computed length, [primMST] is idempotent: run again on the graph
    it returned, with the tree edges as the only candidates, it returns the
    same graph, the edges in the same order. *)
Theorem primMST_is_idempotent (g : Graph)
        (Hconn : connectedGraph (length (points g)) (edges g))
        (Hfin : finiteLengths (points g) (edges g)) :
  exists mst, primMST g = Some mst /\ primMST mst = Some mst.
Proof.
  pose proof (finiteLengths_valid _ _ Hfin) as Hvalid.
  destruct (le_lt_dec (length (points g)) 1) as [Hfew | Hmany].
  - exists (mkGraph (points g) [] None). split; [apply primMST_few; exact Hfew |].
    apply (primMST_few (mkGraph (points g) [] None)). exact Hfew.
  - destruct (primLoop_optimal (points g) (edges g) (length (points g)) Hvalid Hfin
                (fun e => Q2R (computedLength (points g) e))
                (fun e e' _ _ => computedLength_mono (points g) e e')
                ltac:(lia) Hconn)
      as (R & HR & (Hincl & HlenR & _) & _ & Hchoice).
    exists (mkGraph (points g) R None). split.
    + rewrite primMST_many by lia. rewrite HR. reflexivity.
    + rewrite (primMST_many (mkGraph (points g) R None)) by (cbn [points]; lia).
      cbn [points edges].
      pose proof (primLoop_replay (points g) (edges g) R (length (points g)) Hvalid Hfin
                                  Hincl Hchoice (length (points g) - 1) [] R eq_refl HlenR)
        as Hreplay.
      unfold treeAfter in Hreplay. cbn [fold_left] in Hreplay. rewrite Hreplay.
      reflexivity.
Qed.

Lemma primMST_is_idempotent_witness :
  exists mst, primMST triangleGraph = Some mst /\ primMST mst = Some mst.
Proof.
  apply (primMST_is_idempotent triangleGraph).
  - exact triangleGraph_connected.
  - exact triangleGraph_finite.
Defined.


(** * Prim's loop on its own: when it raises *)

Lemma scanEdges_raised (pts : list Point) (inMST : list bool) (es : list Edge) :
  fold_left (scanStep pts inMST) es None = None.
Proof. induction es as [|e es IH]; [reflexivity | exact IH]. Qed.

Lemma scanEdges_raises (pts : list Point) (inMST : list bool) (es : list Edge) (e : Edge) :
  In e es -> crossing inMST e = true -> dist pts (ea e) (eb e) = None ->
  scanEdges pts inMST es = None.
Proof.
  intros Hin Hc Hd. apply in_split in Hin as (l1 & l2 & ->).
  unfold scanEdges. rewrite fold_left_app. cbn [fold_left].
  destruct (fold_left (scanStep pts inMST) l1 (Some noBest)) as [b|].
  - cbn [scanStep]. rewrite Hc, Hd. apply scanEdges_raised.
  - apply scanEdges_raised.
Qed.

Lemma dist_missing (pts : list Point) (a b : nat) :
  (length pts <= a)%nat \/ (length pts <= b)%nat -> dist pts a b = None.
Proof.
  intros H. unfold dist. destruct H as [H | H].
  - rewrite (lookup_ge_None_2 pts a H). reflexivity.
  - rewrite (lookup_ge_None_2 pts b H). destruct (pts !! a); reflexivity.
Qed.

(** X31.  [primMST] raises only through [dist].  On a graph whose candidate
    edges all end at points of the graph it returns, whatever the
    coordinates; with fewer than two points it returns before it looks at
    an edge; and on a graph of two points or more it raises a [TypeError]
    as soon as a candidate edge joins point 0, where the tree starts, to an
    index that is not a point. *)
Theorem primMST_raises_on_missing_point :
  (forall g,
      validEdges (length (points g)) (edges g) -> exists mst, primMST g = Some mst)
  /\ (forall g,
         (length (points g) <= 1)%nat -> primMST g = Some (mkGraph (points g) [] None))
  /\ (forall g e,
         (2 <= length (points g))%nat -> In e (edges g) ->
         (ea e = 0%nat /\ (length (points g) <= eb e)%nat)
         \/ (eb e = 0%nat /\ (length (points g) <= ea e)%nat) ->
         primMST g = None).
Proof.
  split; [exact primMST_returns |]. split; [exact primMST_few |].
  intros g e Hn Hin Hends. rewrite primMST_many by exact Hn.
  set (n := length (points g)) in *.
  destruct (n - 1)%nat as [|k] eqn:Hk; [lia |].
  cbn [primLoop]. unfold nextEdge.
  rewrite (scanEdges_raises (points g) _ (edges g) e Hin); [reflexivity | |].
  - unfold crossing.
    assert (H0 : inTree (<[0%nat := true]> (replicate n false)) 0 = true).
    { rewrite inTree_insert by (rewrite length_replicate; lia).
      rewrite Nat.eqb_refl. apply orb_true_r. }
    assert (Hout : forall v, (n <= v)%nat ->
                             inTree (<[0%nat := true]> (replicate n false)) v = false).
    { intros v Hv. unfold inTree. apply nth_overflow.
      rewrite length_insert, length_replicate. exact Hv. }
    destruct Hends as [[-> Hb] | [-> Ha]].
    + rewrite H0, (Hout _ Hb). reflexivity.
    + rewrite H0, (Hout _ Ha). reflexivity.
  - apply dist_missing. destruct Hends as [[_ Hb] | [_ Ha]]; [right | left]; assumption.
Qed.
